(** * Sssp-vs-Dijkstra: a shallow embedding of the shortest-path solvers

    The development follows the TypeScript sources under [src/algorithms]:
    [MinHeap.ts], [AdaptiveFrontier.ts], [Dijkstra.ts], [Graph.ts] and
    [NewSSSP.ts].

    Conventions of the embedding.
    - A JavaScript [number] that holds a distance is a [num]: a finite
      integer, [Infinity] or [NaN].  Edge weights are integers ([Z]); the
      graph generators of the repository only produce integer weights, and
      integer arithmetic on doubles is exact below 2^53.
    - A JavaScript array indexed by vertex ([dist], [pred], [complete]) is a
      [gmap nat _]: reading a missing index yields [undefined], which is what
      [!!] returning [None] stands for; writing past the end extends the
      array, which is what [<[i:=x]>] does on a map.
    - A JavaScript [Map] or [Set] whose iteration order is observed is an
      association list, respectively a duplicate-free list, in insertion
      order.
    - [while] loops whose termination is not structural take a [fuel]
      argument and return [None] when it runs out.
    - The narration ([addStep], [createVisState]) and the statistics
      counters are write-only for the algorithm and are left out. *)

From Stdlib Require Import ZArith NArith List Bool Lia Sorted.
From stdpp Require Import base option list gmap strings pretty.

Local Open Scope Z_scope.

(** ** Numbers *)

Inductive num : Type :=
| Fin (z : Z)
| PInf
| NaN.

#[global] Instance num_eq_dec : EqDecision num.
Proof. solve_decision. Defined.

(** [a < b] on doubles: false as soon as one side is [NaN]. *)
Definition num_lt (a b : num) : bool :=
  match a, b with
  | Fin x, Fin y => x <? y
  | Fin _, PInf => true
  | _, _ => false
  end.

(** [a <= b] on doubles. *)
Definition num_le (a b : num) : bool :=
  match a, b with
  | Fin x, Fin y => x <=? y
  | Fin _, PInf => true
  | PInf, PInf => true
  | _, _ => false
  end.

Definition num_gt (a b : num) : bool := num_lt b a.
Definition num_ge (a b : num) : bool := num_le b a.

(** [a + w] for an integer weight [w]. *)
Definition num_add (a : num) (w : Z) : num :=
  match a with
  | Fin x => Fin (x + w)
  | PInf => PInf
  | NaN => NaN
  end.

(** [Math.min(a, b)]. *)
Definition num_min (a b : num) : num :=
  match a, b with
  | NaN, _ | _, NaN => NaN
  | Fin x, Fin y => Fin (Z.min x y)
  | Fin x, PInf => Fin x
  | PInf, Fin y => Fin y
  | PInf, PInf => PInf
  end.

(** [a === Infinity]. *)
Definition is_inf (a : num) : bool :=
  match a with PInf => true | _ => false end.

(** Sign of [a - b] as [Array.prototype.sort] reads a comparator result:
    a [NaN] difference ([Infinity - Infinity], or a [NaN] operand) counts
    as [0]. *)
Definition sub_sign (a b : num) : comparison :=
  match a, b with
  | Fin x, Fin y => x ?= y
  | Fin _, PInf => Lt
  | PInf, Fin _ => Gt
  | _, _ => Eq
  end.

(** A distance proper: a real or [+∞], the values the specification allows
    in a distance table. *)
Definition is_dist (a : num) : Prop := a ≠ NaN.

(** [arr[v]] read as a number: [undefined] behaves as [NaN] in arithmetic
    and in comparisons. *)
Definition rd (arr : gmap nat num) (v : nat) : num := default NaN (arr !! v).

(** [arr[v]] read as a truth value: [undefined] is falsy. *)
Definition rdb (arr : gmap nat bool) (v : nat) : bool := default false (arr !! v).

(** ** Insertion-ordered [Set] and [Map] *)

Definition set_has (v : nat) (s : list nat) : bool := bool_decide (v ∈ s).

Definition set_add (v : nat) (s : list nat) : list nat :=
  if set_has v s then s else s ++ [v].

Definition set_delete (v : nat) (s : list nat) : list nat :=
  filter (λ x, x ≠ v) s.

(** [new Set(xs)] *)
Definition set_of_list (xs : list nat) : list nat :=
  fold_left (λ s v, set_add v s) xs [].

Section AssocMap.
Context {V : Type}.

Fixpoint amap_get (k : nat) (m : list (nat * V)) : option V :=
  match m with
  | [] => None
  | (k', v) :: m' => if Nat.eqb k k' then Some v else amap_get k m'
  end.

Definition amap_has (k : nat) (m : list (nat * V)) : bool :=
  match amap_get k m with Some _ => true | None => false end.

(** [Map.prototype.set]: an existing key keeps its place. *)
Fixpoint amap_set (k : nat) (v : V) (m : list (nat * V)) : list (nat * V) :=
  match m with
  | [] => [(k, v)]
  | (k', v') :: m' =>
      if Nat.eqb k k' then (k, v) :: m' else (k', v') :: amap_set k v m'
  end.

Definition amap_delete (k : nat) (m : list (nat * V)) : list (nat * V) :=
  filter (λ e, e.1 ≠ k) m.
End AssocMap.

(** ** MinHeap.ts *)

Module MinHeap.

(** [HeapNode]: [(vertex, distance)]. *)
Abbreviation HeapNode := (nat * num)%type (only parsing).

Record t : Type := mk {
  heap : list HeapNode;
  positions : gmap nat nat
}.

Definition empty : t := mk [] ∅.

Definition isEmpty (h : t) : bool := Nat.eqb (length (heap h)) 0.
Definition size (h : t) : nat := length (heap h).
Definition contains (v : nat) (h : t) : bool :=
  match positions h !! v with Some _ => true | None => false end.

(** [swap(i, j)]; both indices are in range at every call site. *)
Definition swap (i j : nat) (h : t) : t :=
  match heap h !! i, heap h !! j with
  | Some a, Some b =>
      mk (<[j:=a]> (<[i:=b]> (heap h)))
         (<[a.1:=j]> (<[b.1:=i]> (positions h)))
  | _, _ => h
  end.

(** [heap[i].distance <= heap[j].distance] *)
Definition dist_le_at (h : t) (i j : nat) : bool :=
  match heap h !! i, heap h !! j with
  | Some a, Some b => num_le a.2 b.2
  | _, _ => false
  end.

(** [heap[i].distance < heap[j].distance] *)
Definition dist_lt_at (h : t) (i j : nat) : bool :=
  match heap h !! i, heap h !! j with
  | Some a, Some b => num_lt a.2 b.2
  | _, _ => false
  end.

(** [bubbleUp]: the index strictly decreases, so [idx] rounds suffice. *)
Fixpoint bubbleUp_go (rounds idx : nat) (h : t) : t :=
  match rounds with
  | O => h
  | S r =>
      if Nat.ltb 0 idx then
        let parent := Nat.div (idx - 1) 2 in
        if dist_le_at h parent idx then h
        else bubbleUp_go r parent (swap idx parent h)
      else h
  end.

Definition bubbleUp (idx : nat) (h : t) : t := bubbleUp_go idx idx h.

(** One round of [bubbleDown]: the index of the smallest of [idx] and its
    two children. *)
Definition smallest_of (h : t) (idx : nat) : nat :=
  let left := (2 * idx + 1)%nat in
  let right := (2 * idx + 2)%nat in
  let smallest := idx in
  let smallest :=
    if Nat.ltb left (length (heap h)) && dist_lt_at h left smallest
    then left else smallest in
  let smallest :=
    if Nat.ltb right (length (heap h)) && dist_lt_at h right smallest
    then right else smallest in
  smallest.

(** [bubbleDown]: the index strictly increases and stays below the
    length, so [length] rounds suffice. *)
Fixpoint bubbleDown_go (rounds idx : nat) (h : t) : t :=
  match rounds with
  | O => h
  | S r =>
      let smallest := smallest_of h idx in
      if Nat.eqb smallest idx then h
      else bubbleDown_go r smallest (swap idx smallest h)
  end.

Definition bubbleDown (idx : nat) (h : t) : t :=
  bubbleDown_go (length (heap h)) idx h.

Definition insert (vertex : nat) (distance : num) (h : t) : t :=
  let heap1 := heap h ++ [(vertex, distance)] in
  let pos1 := <[vertex := (length heap1 - 1)%nat]> (positions h) in
  bubbleUp (length heap1 - 1) (mk heap1 pos1).

Definition extractMin (h : t) : option nat * t :=
  match heap h with
  | [] => (None, h)
  | top :: _ =>
      let min := top.1 in
      let last := List.last (heap h) top in
      let heap1 := removelast (heap h) in
      let pos1 := delete min (positions h) in
      if Nat.ltb 0 (length heap1) then
        let heap2 := <[0%nat:=last]> heap1 in
        let pos2 := <[last.1:=0%nat]> pos1 in
        (Some min, bubbleDown 0 (mk heap2 pos2))
      else (Some min, mk heap1 pos1)
  end.

Definition decreaseKey (vertex : nat) (newDistance : num) (h : t) : t :=
  match positions h !! vertex with
  | Some idx =>
      match heap h !! idx with
      | Some node =>
          bubbleUp idx (mk (<[idx:=(node.1, newDistance)]> (heap h)) (positions h))
      | None => h
      end
  | None => h
  end.

End MinHeap.

(** ** AdaptiveFrontier.ts *)

Module AdaptiveFrontier.

(** [elements : Map<number, number>], in insertion order.  The [dist]
    field is only read by the constructor. *)
Abbreviation t := (list (nat * num)) (only parsing).

(** [new AdaptiveFrontier(initialVertices, dist)] *)
Definition make (initialVertices : list nat) (dist : gmap nat num) : t :=
  fold_left (λ els v, amap_set v (rd dist v) els) initialVertices [].

Definition insert (vertex : nat) (distance : num) (els : t) : t :=
  match amap_get vertex els with
  | None => amap_set vertex distance els
  | Some cur =>
      if num_gt cur distance then amap_set vertex distance els else els
  end.

(** [Array.prototype.sort((a, b) => a[1] - b[1])].  The sort is stable;
    for stored distances without [NaN] the comparator is a consistent
    total preorder and the result is the one ECMAScript prescribes.  It
    is written as a stable insertion sort. *)
Fixpoint sort_insert (e : nat * num) (l : list (nat * num)) : list (nat * num) :=
  match l with
  | [] => [e]
  | y :: ys =>
      match sub_sign y.2 e.2 with
      | Lt => y :: sort_insert e ys
      | _ => e :: y :: ys
      end
  end.

Definition sorted_entries (els : t) : list (nat * num) :=
  fold_right sort_insert [] els.

(** [pull(count)]: the pulled vertices, the upper bound and the frontier
    left behind. *)
Definition pull (count : N) (els : t) : list nat * num * t :=
  if Nat.eqb (length els) 0 then ([], PInf, els)
  else
    let sorted := sorted_entries els in
    let toReturn := N.to_nat (N.min count (N.of_nat (length sorted))) in
    let vertices := (take toReturn sorted).*1 in
    let upperBound :=
      if Nat.ltb toReturn (length sorted)
      then match sorted !! toReturn with Some e => e.2 | None => NaN end
      else PInf in
    (vertices, upperBound, fold_left (λ m v, amap_delete v m) vertices els).

Definition hasElements (els : t) : bool := Nat.ltb 0 (length els).
Definition size (els : t) : nat := length els.
Definition getVertices (els : t) : list nat := els.*1.

End AdaptiveFrontier.

(** ** Graph (types.ts, Graph.ts) *)

(** Of a [Node] only the [id] is read by the solvers; of a [Graph] the
    solvers read [nodes] and [adjacencyList]. *)
Record Graph : Type := mkGraph {
  nodes : list nat;
  adjacencyList : gmap nat (list (nat * Z))
}.

(** [graph.adjacencyList.get(u) || []] *)
Definition neighbors (g : Graph) (u : nat) : list (nat * Z) :=
  default [] (adjacencyList g !! u).

(** [GraphClass.addNode]: the new id is the node counter, which equals the
    number of nodes as long as no node was removed. *)
Definition addNode (g : Graph) : Graph :=
  let id := length (nodes g) in
  mkGraph (nodes g ++ [id]) (<[id:=[]]> (adjacencyList g)).

(** [GraphClass.addEdge]: an existing edge has its weight overwritten, a new
    one is appended to the adjacency list of [from]. *)
Definition addEdge (from to : nat) (weight : Z) (g : Graph) : Graph :=
  let ns := neighbors g from in
  if amap_has to ns
  then mkGraph (nodes g) (<[from:=amap_set to weight ns]> (adjacencyList g))
  else mkGraph (nodes g) (<[from:=ns ++ [(to, weight)]]> (adjacencyList g)).

(** [createExampleGraph()] *)
Definition example_edges : list (nat * nat * Z) :=
  map (λ e : Z * Z * Z, (Z.to_nat e.1.1, Z.to_nat e.1.2, e.2))
    [ (0, 1, 4); (0, 2, 2); (1, 3, 5); (2, 1, 1); (2, 4, 10); (3, 5, 3);
      (4, 3, 2); (4, 5, 1); (5, 6, 2); (3, 7, 6); (6, 8, 3); (7, 9, 1);
      (8, 9, 2) ].

Definition createExampleGraph : Graph :=
  let g := Nat.iter 10 addNode (mkGraph [] ∅) in
  fold_left (λ g e, addEdge e.1.1 e.1.2 e.2 g) example_edges g.

(** [new Array(n).fill(x)] *)
Definition fill {A : Type} (n : nat) (x : A) : gmap nat A :=
  list_to_map ((λ i, (i, x)) <$> seq 0 n).

(** ** NewSSSP.ts *)

Module NewSSSP.

(** The three tables shared by every recursive call. *)
Record State : Type := mkState {
  dist : gmap nat num;
  pred : gmap nat Z;
  complete : gmap nat bool
}.

(** [this.dist[v] = d; this.pred[v] = u] *)
Definition improve (v : nat) (d : num) (u : nat) (st : State) : State :=
  mkState (<[v:=d]> (dist st)) (<[v:=Z.of_nat u]> (pred st)) (complete st).

(** [this.complete[u] = true] *)
Definition mark_complete (u : nat) (st : State) : State :=
  mkState (dist st) (pred st) (<[u:=true]> (complete st)).

(** What [solve] returns, without the narration and the statistics. *)
Record Result : Type := mkResult {
  distances : gmap nat num;
  predecessors : gmap nat Z
}.

Section Solver.
(** The fields set by the constructor.  [k] and [t] come out of
    floating-point roots of [n] clamped below by [2]; [levels] is the
    constant [Math.ceil(Math.log(n) / t)] of [solve].  They are taken
    as given. *)
Variable graph : Graph.
Variables k t levels : nat.

Definition n : nat := length (nodes graph).

(** State built by the constructor. *)
Definition init : State :=
  mkState (fill n PInf) (fill n (-1)) (fill n false).

(** *** findPivots *)

(** Body of the loop over the edges of [u]. *)
Definition findPivots_edge (B : num) (u : nat)
    (acc : State * list nat * list nat) (e : nat * Z)
    : State * list nat * list nat :=
  let '(st, nextLayer, W) := acc in
  let v := e.1 in
  let newDist := num_add (rd (dist st) u) e.2 in
  if num_le newDist (rd (dist st) v) && num_lt newDist B then
    let st1 :=
      if num_lt newDist (rd (dist st) v) then improve v newDist u st
      else st in
    (st1, set_add v nextLayer, set_add v W)
  else acc.

(** Body of the loop over the vertices of a layer. *)
Definition findPivots_vertex (B : num)
    (acc : State * list nat * list nat) (u : nat)
    : State * list nat * list nat :=
  if negb (rdb (complete acc.1.1) u) then acc
  else fold_left (findPivots_edge B u) (neighbors graph u) acc.

(** The [k] relaxation rounds; the flag tells whether the early exit
    was taken. *)
Fixpoint findPivots_rounds (rounds : nat) (B : num) (S : list nat)
    (layer W : list nat) (st : State) : State * list nat * bool :=
  match rounds with
  | O => (st, W, false)
  | Datatypes.S r =>
      let '(st1, nextLayer, W1) :=
        fold_left (findPivots_vertex B) layer (st, [], W) in
      if Nat.ltb (k * length S) (length W1) then (st1, W1, true)
      else findPivots_rounds r B S nextLayer W1 st1
  end.

(** [this.pred[root]] for a [root] that is a number or [undefined]. *)
Definition pred_at (st : State) (root : option Z) : option Z :=
  match root with
  | Some z => if 0 <=? z then pred st !! Z.to_nat z else None
  | None => None
  end.

(** [roots.has(root)] *)
Definition roots_has (roots : list nat) (root : option Z) : bool :=
  match root with
  | Some z => (0 <=? z) && set_has (Z.to_nat z) roots
  | None => false
  end.

(** The predecessor walk of [findLargeTreeRoots].  Every round adds a
    new element to [visited], so the walk ends within
    [size pred + 2] rounds. *)
Fixpoint find_root (rounds : nat) (roots : list nat) (st : State)
    (root : option Z) (visited : list (option Z)) : option Z :=
  match rounds with
  | O => root
  | Datatypes.S r =>
      if negb (bool_decide (pred_at st root = Some (-1)))
         && negb (bool_decide (root ∈ visited))
      then
        let visited1 := root :: visited in
        let root1 := pred_at st root in
        if roots_has roots root1 then root1
        else find_root r roots st root1 visited1
      else root
  end.

Definition findLargeTreeRoots (S W : list nat) (kk : nat) (st : State)
    : list nat :=
  let roots := set_of_list (List.filter (λ v, rdb (complete st) v) S) in
  let treeSize : gmap nat nat :=
    fold_left
      (λ ts v,
         let root :=
           find_root (size (pred st) + 3) roots st (Some (Z.of_nat v)) [] in
         if roots_has roots root then
           let r := Z.to_nat (default 0 root) in
           <[r:=(default 0%nat (ts !! r) + 1)%nat]> ts
         else ts)
      W ∅ in
  let pivots :=
    List.filter (λ r, Nat.leb kk (default 0%nat (treeSize !! r))) roots in
  if Nat.ltb 0 (length pivots) then pivots else take 1 roots.

(** [findPivots(B, S)]: the pivots, [W] and the state left behind. *)
Definition findPivots (B : num) (S : list nat) (st : State)
    : list nat * list nat * State :=
  let '(st1, W, exited) :=
    findPivots_rounds k B S (set_of_list S) (set_of_list S) st in
  if exited then (S, W, st1)
  else (findLargeTreeRoots S W k st1, W, st1).

(** *** baseCase *)

(** Body of the loop over the edges of the extracted vertex [u]. *)
Definition baseCase_edge (B : num) (u : nat)
    (acc : MinHeap.t * gset nat * State) (e : nat * Z)
    : MinHeap.t * gset nat * State :=
  let '(heap, inHeap, st) := acc in
  let v := e.1 in
  let newDist := num_add (rd (dist st) u) e.2 in
  if num_lt newDist (rd (dist st) v) && num_lt newDist B then
    let st1 := improve v newDist u st in
    if bool_decide (v ∈ inHeap)
    then (MinHeap.decreaseKey v newDist heap, inHeap, st1)
    else (MinHeap.insert v newDist heap, {[v]} ∪ inHeap, st1)
  else acc.

(** One pass of [while (!heap.isEmpty())] for an extracted [u]. *)
Definition baseCase_visit (B : num) (u : nat)
    (acc : MinHeap.t * gset nat * State) : MinHeap.t * gset nat * State :=
  let '(heap, inHeap, st) := acc in
  fold_left (baseCase_edge B u) (neighbors graph u)
    (heap, inHeap ∖ {[u]}, mark_complete u st).

Fixpoint baseCase_loop (fuel : nat) (B : num) (heap : MinHeap.t)
    (inHeap : gset nat) (U : list nat) (st : State)
    : option (list nat * State) :=
  if MinHeap.isEmpty heap then Some (U, st)
  else
    match fuel with
    | O => None
    | Datatypes.S f =>
        match MinHeap.extractMin heap with
        | (Some u, heap1) =>
            let '(heap2, inHeap2, st2) :=
              baseCase_visit B u (heap1, inHeap, st) in
            baseCase_loop f B heap2 inHeap2 (U ++ [u]) st2
        | (None, _) => Some (U, st)
        end
    end.

(** [baseCase(B, S)]: [(B_prime, U)] and the state left behind. *)
Definition baseCase (fuel : nat) (B : num) (S : list nat) (st : State)
    : option (num * list nat * State) :=
  match S with
  | [] => Some (B, [], st)
  | source :: _ =>
      let heap := MinHeap.insert source (rd (dist st) source) MinHeap.empty in
      match baseCase_loop fuel B heap {[source]} [] st with
      | Some (U, st1) => Some (B, U, st1)
      | None => None
      end
  end.

(** *** relaxEdges *)

(** The test that guards [frontier.insert(v, newDist)]. *)
Definition reinsert_test (Bi : num) (newDist : num) (v : nat) (st : State)
    : bool :=
  negb (rdb (complete st) v) && (is_inf Bi || num_ge newDist Bi).

(** Body of the loop over the edges of [u]. *)
Definition relaxEdges_edge (Bi B : num) (u : nat)
    (acc : AdaptiveFrontier.t * State) (e : nat * Z)
    : AdaptiveFrontier.t * State :=
  let '(frontier, st) := acc in
  let v := e.1 in
  let newDist := num_add (rd (dist st) u) e.2 in
  if num_le newDist (rd (dist st) v) && num_lt newDist B then
    let st1 :=
      if num_lt newDist (rd (dist st) v) then improve v newDist u st
      else st in
    if reinsert_test Bi newDist v st1
    then (AdaptiveFrontier.insert v newDist frontier, st1)
    else (frontier, st1)
  else acc.

(** Body of the loop over [vertices]. *)
Definition relaxEdges_vertex (Bi B : num)
    (acc : AdaptiveFrontier.t * State) (u : nat)
    : AdaptiveFrontier.t * State :=
  fold_left (relaxEdges_edge Bi B u) (neighbors graph u)
    (acc.1, mark_complete u acc.2).

Definition relaxEdges (vertices : list nat) (Bi B : num)
    (frontier : AdaptiveFrontier.t) (st : State)
    : AdaptiveFrontier.t * State :=
  fold_left (relaxEdges_vertex Bi B) vertices (frontier, st).

(** *** BMSSP *)

(** [this.k * Math.pow(2, l * this.t)] *)
Definition cap (l : nat) : N := (N.of_nat k * 2 ^ N.of_nat (l * t))%N.

(** [Math.floor(Math.pow(2, (l - 1) * this.t))], for [l ≥ 1]. *)
Definition pullCount (l : nat) : N := (2 ^ N.of_nat ((l - 1) * t))%N.

(** The pull loop of level [l]; [rec] is [BMSSP] one level down. *)
Fixpoint BMSSP_loop
    (rec : num → list nat → State → option (num * list nat * State))
    (fuel : nat) (l : nat) (B : num) (frontier : AdaptiveFrontier.t)
    (U : list nat) (B_prime : num) (st : State)
    : option (list nat * num * State) :=
  if (N.of_nat (length U) <? cap l)%N && AdaptiveFrontier.hasElements frontier
  then
    match fuel with
    | O => None
    | Datatypes.S f =>
        let '(Si, Bi, frontier1) :=
          AdaptiveFrontier.pull (pullCount l) frontier in
        if Nat.eqb (length Si) 0 then Some (U, B_prime, st)
        else
          match rec Bi Si st with
          | None => None
          | Some (subB, subU, st1) =>
              let U1 := U ++ subU in
              let B_prime1 := num_min B_prime subB in
              let '(frontier2, st2) :=
                relaxEdges subU Bi B frontier1 st1 in
              if (cap l <=? N.of_nat (length U1))%N
              then Some (U1, B_prime1, st2)
              else BMSSP_loop rec f l B frontier2 U1 B_prime1 st2
          end
    end
  else Some (U, B_prime, st).

(** The closing loop over [W]. *)
Definition merge_W (W : list nat) (B_prime : num) (U : list nat)
    (st : State) : list nat :=
  fold_left
    (λ U v,
       if num_lt (rd (dist st) v) B_prime && negb (bool_decide (v ∈ U))
       then U ++ [v] else U)
    W U.

Fixpoint BMSSP (fuel : nat) (l : nat) (B : num) (S : list nat)
    (st : State) : option (num * list nat * State) :=
  match l with
  | O => baseCase fuel B S st
  | Datatypes.S l' =>
      let '(pivots, W, st1) := findPivots B S st in
      let frontier := AdaptiveFrontier.make pivots (dist st1) in
      match BMSSP_loop (BMSSP fuel l') fuel l B frontier [] B st1 with
      | None => None
      | Some (U, B_prime, st2) =>
          Some (B_prime, merge_W W B_prime U st2, st2)
      end
  end.

(** *** solve *)

(** The state handed to the top-level [BMSSP]. *)
Definition seeded (source : nat) : State :=
  mkState (<[source:=Fin 0]> (dist init)) (pred init)
          (<[source:=true]> (complete init)).

(** The [distances] and [predecessors] maps: the entries [0 .. n-1]. *)
Definition result_of (st : State) : Result :=
  mkResult
    (list_to_map ((λ i, (i, rd (dist st) i)) <$> seq 0 n))
    (list_to_map ((λ i, (i, default (-1) (pred st !! i))) <$> seq 0 n)).

Definition solve (fuel : nat) (source : nat) : option Result :=
  match BMSSP fuel levels PInf [source] (seeded source) with
  | Some (_, _, st) => Some (result_of st)
  | None => None
  end.

End Solver.
End NewSSSP.

(** ** Dijkstra.ts *)

Module Dijkstra.

Record State : Type := mkState {
  dist : gmap nat num;
  visited : gmap nat bool;
  pred : gmap nat Z;
  heap : MinHeap.t
}.

Section Solver.
Variable graph : Graph.

(** The maps after the initialisation loop over [graph.nodes], with the
    source seeded. *)
Definition init (source : nat) : State :=
  let ids := nodes graph in
  mkState
    (<[source:=Fin 0]> (list_to_map ((λ i, (i, PInf)) <$> ids)))
    (list_to_map ((λ i, (i, false)) <$> ids))
    (list_to_map ((λ i, (i, -1)) <$> ids))
    (MinHeap.insert source (Fin 0) MinHeap.empty).

(** Body of the loop over the edges of [u]. *)
Definition relax_edge (u : nat) (st : State) (e : nat * Z) : State :=
  let v := e.1 in
  let newDist := num_add (rd (dist st) u) e.2 in
  if num_lt newDist (rd (dist st) v) then
    let dist1 := <[v:=newDist]> (dist st) in
    let pred1 := <[v:=Z.of_nat u]> (pred st) in
    if MinHeap.contains v (heap st)
    then mkState dist1 (visited st) pred1 (MinHeap.decreaseKey v newDist (heap st))
    else if negb (rdb (visited st) v)
    then mkState dist1 (visited st) pred1 (MinHeap.insert v newDist (heap st))
    else mkState dist1 (visited st) pred1 (heap st)
  else st.

(** [while (!heap.isEmpty())] *)
Fixpoint loop (fuel : nat) (destination : option nat) (st : State)
    : option State :=
  if MinHeap.isEmpty (heap st) then Some st
  else
    match fuel with
    | O => None
    | S f =>
        match MinHeap.extractMin (heap st) with
        | (Some u, heap1) =>
            let st1 := mkState (dist st) (visited st) (pred st) heap1 in
            if rdb (visited st1) u then loop f destination st1
            else
              let st2 :=
                mkState (dist st1) (<[u:=true]> (visited st1)) (pred st1)
                        (heap st1) in
              if bool_decide (destination = Some u) then Some st2
              else
                loop f destination
                  (fold_left (relax_edge u) (neighbors graph u) st2)
        | (None, _) => Some st
        end
    end.

(** [dijkstra(graph, source, destination?)]: the [distances] and
    [predecessors] maps of the result. *)
Definition dijkstra (fuel : nat) (source : nat) (destination : option nat)
    : option NewSSSP.Result :=
  match loop fuel destination (init source) with
  | Some st => Some (NewSSSP.mkResult (dist st) (pred st))
  | None => None
  end.

End Solver.
End Dijkstra.

(** ** The worked example *)

(** The distances the specification lists for the example graph. *)
Definition example_check (r : NewSSSP.Result) : bool :=
  bool_decide (NewSSSP.distances r !! 0%nat = Some (Fin 0)) &&
  bool_decide (NewSSSP.distances r !! 1%nat = Some (Fin 3)) &&
  bool_decide (NewSSSP.distances r !! 2%nat = Some (Fin 2)) &&
  bool_decide (NewSSSP.distances r !! 3%nat = Some (Fin 8)) &&
  bool_decide (NewSSSP.distances r !! 4%nat = Some (Fin 12)) &&
  bool_decide (NewSSSP.distances r !! 5%nat = Some (Fin 11)) &&
  bool_decide (NewSSSP.distances r !! 9%nat = Some (Fin 15)).

(** ** Vocabulary for the heap properties *)

(** Index of the parent of slot [i], as [bubbleUp] computes it. *)
Definition parent (i : nat) : nat := ((i - 1) / 2)%nat.

(** Every slot holds a distance no smaller than its parent's. *)
Definition heap_ordered (l : list (nat * num)) : Prop :=
  ∀ i a b, (0 < i)%nat →
    l !! parent i = Some a → l !! i = Some b → num_le a.2 b.2 = true.

(** No stored distance is [NaN]. *)
Definition proper (l : list (nat * num)) : Prop :=
  Forall (λ e, is_dist e.2) l.

(** Heap order with slot [j] possibly too small for its parent: what
    [bubbleUp] repairs. *)
Definition ordered_above (l : list (nat * num)) (j : nat) : Prop :=
  (∀ i a b, (0 < i)%nat → i ≠ j →
     l !! parent i = Some a → l !! i = Some b → num_le a.2 b.2 = true) ∧
  (∀ c a b, (0 < j)%nat → (0 < c)%nat → parent c = j →
     l !! parent j = Some a → l !! c = Some b → num_le a.2 b.2 = true).

(** Heap order with slot [j] possibly too large for its children: what
    [bubbleDown] repairs. *)
Definition ordered_below (l : list (nat * num)) (j : nat) : Prop :=
  (∀ i a b, (0 < i)%nat → parent i ≠ j →
     l !! parent i = Some a → l !! i = Some b → num_le a.2 b.2 = true) ∧
  (∀ c a b, (0 < j)%nat → (0 < c)%nat → parent c = j →
     l !! parent j = Some a → l !! c = Some b → num_le a.2 b.2 = true).

(** The position map points at the slot of each vertex. *)
Definition positions_sound (h : MinHeap.t) : Prop :=
  ∀ v i, MinHeap.positions h !! v = Some i →
         ∃ d, MinHeap.heap h !! i = Some (v, d).

(** Each vertex sits in one slot, the one the position map names. *)
Definition positions_ok (h : MinHeap.t) : Prop :=
  NoDup (MinHeap.heap h).*1 ∧
  ∀ v i, MinHeap.positions h !! v = Some i ↔
         ∃ d, MinHeap.heap h !! i = Some (v, d).

(** The node [extractMin] is about to hand out. *)
Definition peek (h : MinHeap.t) : option (nat * num) := head (MinHeap.heap h).

(** Repeated [extractMin] until the heap is empty; each extracted vertex
    is listed with the distance it was stored under. *)
Fixpoint drain (rounds : nat) (h : MinHeap.t) : list (nat * num) :=
  match rounds with
  | O => []
  | S r =>
      match peek h, MinHeap.extractMin h with
      | Some top, (Some v, h') => (v, top.2) :: drain r h'
      | _, _ => []
      end
  end.

(** The operations a client may issue before extracting. *)
Inductive heap_op : Type :=
| OpInsert (vertex : nat) (distance : num)
| OpDecreaseKey (vertex : nat) (newDistance : num).

Definition run_op (h : MinHeap.t) (op : heap_op) : MinHeap.t :=
  match op with
  | OpInsert v d => MinHeap.insert v d h
  | OpDecreaseKey v d => MinHeap.decreaseKey v d h
  end.

(** An operation that cannot put the heap out of order: an [insert] of a
    distance that is not [NaN], and a [decreaseKey] whose new distance is
    not above the distance of the node it overwrites.  A [decreaseKey]
    for a vertex that has no node overwrites nothing and is allowed. *)
Definition op_valid (h : MinHeap.t) (op : heap_op) : Prop :=
  match op with
  | OpInsert v d => is_dist d
  | OpDecreaseKey v d =>
      match MinHeap.positions h !! v with
      | Some idx =>
          match MinHeap.heap h !! idx with
          | Some node => num_le d node.2 = true
          | None => True
          end
      | None => True
      end
  end.

Fixpoint ops_valid (h : MinHeap.t) (ops : list heap_op) : Prop :=
  match ops with
  | [] => True
  | op :: ops' => op_valid h op ∧ ops_valid (run_op h op) ops'
  end.

(** ** Calls that may throw *)

(** What a JavaScript call does: it returns a value or it throws. *)
Inductive outcome (A : Type) : Type :=
| Returned (a : A)
| Raised.
Arguments Returned {A} a.
Arguments Raised {A}.

(** [decreaseKey] seen as a call.  The method has no [throw] and no
    assertion; the only statement that can raise is the write
    [this.heap[idx].distance = newDistance], a [TypeError] when the array
    has no slot [idx]. *)
Definition decreaseKey_call (vertex : nat) (newDistance : num) (h : MinHeap.t)
    : outcome MinHeap.t :=
  match MinHeap.positions h !! vertex with
  | Some idx =>
      match MinHeap.heap h !! idx with
      | Some _ => Returned (MinHeap.decreaseKey vertex newDistance h)
      | None => Raised
      end
  | None => Returned (MinHeap.decreaseKey vertex newDistance h)
  end.

(** Inputs the specification calls malformed: a negative weight or an
    out-of-range target on some edge, or a source that is not a vertex. *)
Definition invalid_input (g : Graph) (source : nat) : Prop :=
  (∃ u v w, (v, w) ∈ neighbors g u ∧ (w < 0 ∨ (length (nodes g) ≤ v)%nat)) ∨
  (length (nodes g) ≤ source)%nat.

(** Two vertices and the single edge [0 → to] of weight [w]. *)
Definition two_vertex_graph (to : nat) (w : Z) : Graph :=
  addEdge 0 to w (addNode (addNode (mkGraph [] ∅))).

(** ** Vocabulary for the solver properties *)


(** One write to a distance table, replacing an entry by a strictly
    smaller value; or no write at all. *)
Definition strict_write (d d' : gmap nat num) : Prop :=
  d' = d ∨ ∃ v x, num_lt x (rd d v) = true ∧ d' = <[v:=x]> d.

(** [d'] is pointwise below [d]: every entry is the same or strictly
    smaller. *)
Definition nonincreasing (d d' : gmap nat num) : Prop :=
  ∀ v, d' !! v = d !! v ∨ num_lt (rd d' v) (rd d v) = true.

(** ** Vocabulary for the agreement of the two solvers *)

(** The graphs of the specification: vertices [0 .. n-1], every edge into a
    vertex of the graph, no negative weight. *)
Definition wf_graph (g : Graph) : Prop :=
  nodes g = seq 0 (length (nodes g)) ∧
  ∀ u v w, (v, w) ∈ neighbors g u → (v < length (nodes g))%nat ∧ 0 ≤ w.

(** [path_len g s v l]: some path from [s] to [v] has total weight [l]. *)
Inductive path_len (g : Graph) (s : nat) : nat → Z → Prop :=
| path_here : path_len g s s 0
| path_edge u v w l :
    path_len g s u l → (v, w) ∈ neighbors g u → path_len g s v (l + w).

(** Every finite entry of the table is the weight of a path. *)
Definition realizable (g : Graph) (s : nat) (d : gmap nat num) : Prop :=
  ∀ v x, rd d v = Fin x → path_len g s v x.

(** The entry of [v] is finite and no path to [v] is lighter. *)
Definition final (g : Graph) (s : nat) (d : gmap nat num) (v : nat) : Prop :=
  ∃ x, rd d v = Fin x ∧ ∀ l, path_len g s v l → x ≤ l.

(** No edge out of [u] can lower an entry. *)
Definition settled (g : Graph) (d : gmap nat num) (u : nat) : Prop :=
  ∀ v w, (v, w) ∈ neighbors g u → num_le (rd d v) (num_add (rd d u) w) = true.

(** The entries of the vertices are proper distances. *)
Definition table_ok (n : nat) (d : gmap nat num) : Prop :=
  ∀ v, (v < n)%nat → is_dist (rd d v).

(** The table of shortest distances from [s]: an entry is finite exactly
    for the reachable vertices, where it is the least weight of a path. *)
Definition shortest_table (g : Graph) (s : nat) (d : gmap nat num) : Prop :=
  ∀ v, (v < length (nodes g))%nat →
    is_dist (rd d v) ∧
    (∀ x, rd d v = Fin x → path_len g s v x) ∧
    (∀ l, path_len g s v l → ∃ x, rd d v = Fin x ∧ x ≤ l).

(** The number of vertices that are not flagged in [done]. *)
Definition count_open (n : nat) (done : gmap nat bool) : nat :=
  length (filter (λ v, rdb done v = false) (seq 0 n)).

(** The heap is a well-formed binary heap over proper distances whose
    position map is exact. *)
Definition heap_inv (h : MinHeap.t) : Prop :=
  proper (MinHeap.heap h) ∧ heap_ordered (MinHeap.heap h) ∧ positions_ok h.

(** The facts about the heap that both solvers keep: every node of the
    heap is an open vertex listed under its current, finite distance. *)
Definition heap_tracks (n : nat) (d : gmap nat num) (done : gmap nat bool)
    (h : MinHeap.t) : Prop :=
  heap_inv h ∧
  ∀ v x, (v, x) ∈ MinHeap.heap h →
    x = rd d v ∧ rdb done v = false ∧ (v < n)%nat ∧ ∃ z, x = Fin z.

(** Loop invariant of [dijkstra]. *)
Definition dijkstra_inv (g : Graph) (s : nat) (st : Dijkstra.State) : Prop :=
  let n := length (nodes g) in
  table_ok n (Dijkstra.dist st) ∧
  realizable g s (Dijkstra.dist st) ∧
  heap_tracks n (Dijkstra.dist st) (Dijkstra.visited st) (Dijkstra.heap st) ∧
  (∀ v z, (v < n)%nat → rdb (Dijkstra.visited st) v = false →
     rd (Dijkstra.dist st) v = Fin z →
     (v, Fin z) ∈ MinHeap.heap (Dijkstra.heap st)) ∧
  (∀ v, rdb (Dijkstra.visited st) v = true →
     final g s (Dijkstra.dist st) v ∧ settled g (Dijkstra.dist st) v) ∧
  (rdb (Dijkstra.visited st) s = true ∨ rd (Dijkstra.dist st) s = Fin 0).

(** Invariant of the loop over the edges of the vertex [u] being visited,
    [done] being the edges already relaxed. *)
Definition dijkstra_edges_inv (g : Graph) (s : nat) (u : nat) (z : Z)
    (done : list (nat * Z)) (st : Dijkstra.State) : Prop :=
  let n := length (nodes g) in
  table_ok n (Dijkstra.dist st) ∧
  realizable g s (Dijkstra.dist st) ∧
  heap_tracks n (Dijkstra.dist st) (Dijkstra.visited st) (Dijkstra.heap st) ∧
  (∀ v x, (v < n)%nat → rdb (Dijkstra.visited st) v = false →
     rd (Dijkstra.dist st) v = Fin x →
     (v, Fin x) ∈ MinHeap.heap (Dijkstra.heap st)) ∧
  (∀ v, rdb (Dijkstra.visited st) v = true → final g s (Dijkstra.dist st) v) ∧
  (∀ v, rdb (Dijkstra.visited st) v = true → v ≠ u →
     settled g (Dijkstra.dist st) v) ∧
  rdb (Dijkstra.visited st) u = true ∧
  rd (Dijkstra.dist st) u = Fin z ∧
  (rdb (Dijkstra.visited st) s = true ∨ rd (Dijkstra.dist st) s = Fin 0) ∧
  (∀ v w, (v, w) ∈ done →
     num_le (rd (Dijkstra.dist st) v) (Fin (z + w)) = true).

(** An edge out of [u] cannot lower an entry, or it leads to weight [Bi] at
    least and [u] was finished by the base case that is running. *)
Definition settled_or_far (g : Graph) (Bi : num) (U : list nat)
    (d : gmap nat num) (u : nat) : Prop :=
  ∀ v w x, (v, w) ∈ neighbors g u → rd d u = Fin x →
    num_le (rd d v) (Fin (x + w)) = true ∨
    (u ∈ U ∧ num_le Bi (Fin (x + w)) = true).

(** What every state of the base-case loop satisfies.  [F1] is the frontier
    left behind by the pull, [c0] and [d0] are the completion flags and the
    distances on entry, [seed] is the pulled vertex. *)
Record bc_core (g : Graph) (s : nat) (Bi : num) (F1 : list (nat * num))
    (c0 : gmap nat bool) (d0 : gmap nat num) (seed : nat)
    (heap : MinHeap.t) (inHeap : gset nat) (U : list nat)
    (st : NewSSSP.State) : Prop := {
  bc_table : table_ok (length (nodes g)) (NewSSSP.dist st);
  bc_real : realizable g s (NewSSSP.dist st);
  bc_heap : heap_tracks (length (nodes g)) (NewSSSP.dist st)
              (NewSSSP.complete st) heap;
  bc_inHeap : ∀ v, v ∈ inHeap ↔ v ∈ (MinHeap.heap heap).*1;
  bc_below : ∀ v x, (v, x) ∈ MinHeap.heap heap → num_lt x Bi = true;
  bc_open : ∀ v x, (v < length (nodes g))%nat →
    rdb (NewSSSP.complete st) v = false → rd (NewSSSP.dist st) v = Fin x →
    (v, Fin x) ∈ MinHeap.heap heap ∨ (v, Fin x) ∈ F1;
  bc_final : ∀ v, rdb (NewSSSP.complete st) v = true →
    final g s (NewSSSP.dist st) v;
  bc_done : ∀ v, rdb (NewSSSP.complete st) v = true ↔
    rdb c0 v = true ∨ v ∈ U;
  bc_U : NoDup U ∧
    ∀ v, v ∈ U → (v < length (nodes g))%nat ∧ (v = seed ∨ rdb c0 v = false);
  bc_same : ∀ v, rdb (NewSSSP.complete st) v = false →
    v ∉ (MinHeap.heap heap).*1 → rd (NewSSSP.dist st) v = rd d0 v;
  bc_source : rdb (NewSSSP.complete st) s = true
}.

(** Invariant of the base-case loop. *)
Definition bc_inv (g : Graph) (s : nat) (Bi : num) (F1 : list (nat * num))
    (c0 : gmap nat bool) (d0 : gmap nat num) (seed : nat)
    (heap : MinHeap.t) (inHeap : gset nat) (U : list nat)
    (st : NewSSSP.State) : Prop :=
  bc_core g s Bi F1 c0 d0 seed heap inHeap U st ∧
  ∀ u, rdb (NewSSSP.complete st) u = true →
       settled_or_far g Bi U (NewSSSP.dist st) u.

(** Invariant of the loop over the edges of the extracted vertex [u],
    [done] being the edges already relaxed. *)
Definition bc_edges_inv (g : Graph) (s : nat) (Bi : num)
    (F1 : list (nat * num)) (c0 : gmap nat bool) (d0 : gmap nat num)
    (seed : nat) (U : list nat) (u : nat) (z : Z) (done : list (nat * Z))
    (acc : MinHeap.t * gset nat * NewSSSP.State) : Prop :=
  bc_core g s Bi F1 c0 d0 seed acc.1.1 acc.1.2 U acc.2 ∧
  (∀ u', rdb (NewSSSP.complete acc.2) u' = true → u' ≠ u →
         settled_or_far g Bi U (NewSSSP.dist acc.2) u') ∧
  u ∈ U ∧ rd (NewSSSP.dist acc.2) u = Fin z ∧
  (∀ v w, (v, w) ∈ done →
     num_le (rd (NewSSSP.dist acc.2) v) (Fin (z + w)) = true ∨
     num_le Bi (Fin (z + w)) = true).

(** What [baseCase] needs on entry: the seed has a finite, final distance
    [d1]; every other complete vertex is final and settled; every other
    open vertex with a finite distance is listed in [F1] under that
    distance. *)
Record bc_entry (g : Graph) (s : nat) (F1 : list (nat * num)) (seed : nat)
    (d1 : Z) (st : NewSSSP.State) : Prop := {
  be_table : table_ok (length (nodes g)) (NewSSSP.dist st);
  be_real : realizable g s (NewSSSP.dist st);
  be_source : rdb (NewSSSP.complete st) s = true;
  be_seed : rd (NewSSSP.dist st) seed = Fin d1;
  be_seed_vertex : (seed < length (nodes g))%nat;
  be_seed_final : final g s (NewSSSP.dist st) seed;
  be_final : ∀ v, rdb (NewSSSP.complete st) v = true →
    final g s (NewSSSP.dist st) v;
  be_settled : ∀ u, rdb (NewSSSP.complete st) u = true → u ≠ seed →
    settled g (NewSSSP.dist st) u;
  be_open : ∀ v x, (v < length (nodes g))%nat →
    rdb (NewSSSP.complete st) v = false → v ≠ seed →
    rd (NewSSSP.dist st) v = Fin x → (v, Fin x) ∈ F1
}.

(** The entries of the frontier: distinct vertices of the graph, each
    stored under a finite distance that is its current one unless the
    vertex is complete. *)
Record frontier_ok (n : nat) (done : gmap nat bool) (d : gmap nat num)
    (els : list (nat * num)) : Prop := {
  fo_keys : NoDup els.*1;
  fo_entries : ∀ v x, (v, x) ∈ els →
    (v < n)%nat ∧ (∃ z, x = Fin z) ∧ (rdb done v = true ∨ x = rd d v)
}.

(** An open vertex may be missing from the frontier while [relaxEdges]
    still has to walk an edge into it that carries its distance and the
    bound of the round is [+∞]. *)
Definition excused (g : Graph) (Bi : num) (subU : list nat)
    (d : gmap nat num) (v : nat) (x : Z) : Prop :=
  is_inf Bi = true ∧
  ∃ u w z, u ∈ subU ∧ (v, w) ∈ neighbors g u ∧ rd d u = Fin z ∧ x = z + w.

(** What [relaxEdges] has done for the edges [edges] out of [u]. *)
Definition relaxed (Bi : num) (done : gmap nat bool) (d : gmap nat num)
    (els : list (nat * num)) (u : nat) (edges : list (nat * Z)) : Prop :=
  ∀ v w z, (v, w) ∈ edges → rd d u = Fin z →
    num_le (rd d v) (Fin (z + w)) = true ∧
    (is_inf Bi = true → rdb done v = false → rd d v = Fin (z + w) →
     (v, Fin (z + w)) ∈ els).

(** Invariant of [relaxEdges] over the vertices [subU] that the sub-call
    returned, with bound [Bi]; [F1] is the frontier the call started
    from and [c1] the flags it started from. *)
Record relax_inv (g : Graph) (s : nat) (Bi : num) (subU : list nat)
    (F1 : list (nat * num)) (c1 : gmap nat bool)
    (els : list (nat * num)) (st : NewSSSP.State) : Prop := {
  ri_table : table_ok (length (nodes g)) (NewSSSP.dist st);
  ri_real : realizable g s (NewSSSP.dist st);
  ri_source : rdb (NewSSSP.complete st) s = true;
  ri_final : ∀ v, rdb (NewSSSP.complete st) v = true →
    final g s (NewSSSP.dist st) v;
  ri_sof : ∀ u, rdb (NewSSSP.complete st) u = true →
    settled_or_far g Bi subU (NewSSSP.dist st) u;
  ri_sub : ∀ u, u ∈ subU → rdb (NewSSSP.complete st) u = true;
  ri_frontier :
    frontier_ok (length (nodes g)) (NewSSSP.complete st) (NewSSSP.dist st) els;
  ri_open : ∀ v x, (v < length (nodes g))%nat →
    rdb (NewSSSP.complete st) v = false → rd (NewSSSP.dist st) v = Fin x →
    (v, Fin x) ∈ els ∨ excused g Bi subU (NewSSSP.dist st) v x;
  ri_complete : ∀ v, rdb (NewSSSP.complete st) v = rdb c1 v;
  ri_keys : ∀ v, rdb (NewSSSP.complete st) v = true → v ∈ els.*1 →
    v ∈ F1.*1
}.

(** Invariant of the pull loop of the top level, at the head of a
    round. *)
Record level_inv (g : Graph) (s : nat) (els : list (nat * num))
    (st : NewSSSP.State) : Prop := {
  lv_table : table_ok (length (nodes g)) (NewSSSP.dist st);
  lv_real : realizable g s (NewSSSP.dist st);
  lv_source : rdb (NewSSSP.complete st) s = true;
  lv_final : ∀ v, rdb (NewSSSP.complete st) v = true →
    final g s (NewSSSP.dist st) v;
  lv_settled : ∀ u, rdb (NewSSSP.complete st) u = true →
    settled g (NewSSSP.dist st) u;
  lv_frontier :
    frontier_ok (length (nodes g)) (NewSSSP.complete st) (NewSSSP.dist st) els;
  lv_open : ∀ v x, (v < length (nodes g))%nat →
    rdb (NewSSSP.complete st) v = false → rd (NewSSSP.dist st) v = Fin x →
    (v, Fin x) ∈ els
}.

(** The work a vertex can still cause in the pull loop: an open vertex
    is completed once and may leave a stale entry behind; a complete
    vertex with an entry is pulled once more. *)
Definition vertex_weight (done : gmap nat bool) (els : list (nat * num))
    (v : nat) : nat :=
  if rdb done v then (if bool_decide (v ∈ els.*1) then 1 else 0)%nat
  else 2%nat.

Definition potential (n : nat) (done : gmap nat bool)
    (els : list (nat * num)) : nat :=
  sum_list (vertex_weight done els <$> seq 0 n).

(** Invariant of [relaxEdges] between two vertices of [subU]: the
    vertices [doneV] have been walked. *)
Definition relax_vertices_inv (g : Graph) (s : nat) (Bi : num)
    (subU : list nat) (F1 : list (nat * num)) (c1 : gmap nat bool)
    (doneV : list nat) (acc : list (nat * num) * NewSSSP.State) : Prop :=
  relax_inv g s Bi subU F1 c1 acc.1 acc.2 ∧
  ∀ u, u ∈ doneV →
    u ∈ subU ∧
    relaxed Bi (NewSSSP.complete acc.2) (NewSSSP.dist acc.2) acc.1 u
      (neighbors g u).

(** Invariant of [relaxEdges] between two edges of the vertex [u], whose
    distance is [z]: the edges [doneE] have been walked. *)
Definition relax_edges_inv (g : Graph) (s : nat) (Bi : num)
    (subU : list nat) (F1 : list (nat * num)) (c1 : gmap nat bool)
    (doneV : list nat) (u : nat) (z : Z) (doneE : list (nat * Z))
    (acc : list (nat * num) * NewSSSP.State) : Prop :=
  relax_vertices_inv g s Bi subU F1 c1 doneV acc ∧
  u ∈ subU ∧ rd (NewSSSP.dist acc.2) u = Fin z ∧
  relaxed Bi (NewSSSP.complete acc.2) (NewSSSP.dist acc.2) acc.1 u doneE.

(** Invariant of the relaxation rounds of the top-level [findPivots]:
    only the source is complete, and a finite entry of another vertex
    is the weight of an edge from the source. *)
Record pivots_inv (g : Graph) (s : nat) (st : NewSSSP.State) : Prop := {
  pi_table : table_ok (length (nodes g)) (NewSSSP.dist st);
  pi_real : realizable g s (NewSSSP.dist st);
  pi_source : rdb (NewSSSP.complete st) s = true;
  pi_only : ∀ v, rdb (NewSSSP.complete st) v = true → v = s;
  pi_zero : rd (NewSSSP.dist st) s = Fin 0;
  pi_open : ∀ v x, v ≠ s → rd (NewSSSP.dist st) v = Fin x →
    (v, x) ∈ neighbors g s
}.

(** [wf_graph], as a test that can be run. *)
Definition wf_check (g : Graph) : bool :=
  bool_decide (nodes g = seq 0 (length (nodes g))) &&
  forallb
    (λ ues : nat * list (nat * Z),
       forallb (λ e : nat * Z,
                  Nat.ltb e.1 (length (nodes g)) && (0 <=? e.2)) ues.2)
    (map_to_list (adjacencyList g)).

(** ** Graph.ts: the [GraphClass] *)

Module GraphClass.

(** [Node]; [C] is the type of the coordinates, which the class stores and
    never reads. *)
Record Node (C : Type) : Type := mkNode {
  id : nat;
  x : C;
  y : C;
  label : string
}.

Record Edge : Type := mkEdge {
  from : nat;
  to : nat;
  weight : Z
}.

(** The fields of a [GraphClass].  The adjacency lists are read by key
    only, so the [Map] is a finite map. *)
Record t (C : Type) : Type := mk {
  nodeIdCounter : nat;
  nodes : list (Node C);
  edges : list Edge;
  adjacencyList : gmap nat (list (nat * Z))
}.

Arguments mkNode {C} _ _ _ _.
Arguments id {C} _.
Arguments x {C} _.
Arguments y {C} _.
Arguments label {C} _.
Arguments mk {C} _ _ _ _.
Arguments nodeIdCounter {C} _.
Arguments nodes {C} _.
Arguments edges {C} _.
Arguments adjacencyList {C} _.

#[global] Instance Edge_eq_dec : EqDecision Edge.
Proof. solve_decision. Defined.

Section Methods.
Context {C : Type}.

(** [new GraphClass()] *)
Definition empty : t C := mk 0 [] [] ∅.

(** [label || `${id}`]: a missing or empty label is replaced. *)
Definition label_or_id (label : option string) (id : nat) : string :=
  match label with
  | Some s => if String.eqb s EmptyString then pretty id else s
  | None => pretty id
  end.

(** [addNode(x, y, label?)]: the id handed out and the graph. *)
Definition addNode (x y : C) (label : option string) (g : t C) : nat * t C :=
  let id := nodeIdCounter g in
  (id,
   mk (S id) (nodes g ++ [mkNode id x y (label_or_id label id)]) (edges g)
      (<[id:=[]]> (adjacencyList g))).

Definition removeNode (id : nat) (g : t C) : t C :=
  mk (nodeIdCounter g)
     (filter (λ n : Node C, GraphClass.id n ≠ id) (nodes g))
     (filter (λ e, from e ≠ id ∧ to e ≠ id) (edges g))
     (filter (λ n : nat * Z, n.1 ≠ id) <$> delete id (adjacencyList g)).

(** [e => e.from === from && e.to === to] *)
Definition is_edge (from to : nat) (e : Edge) : bool :=
  Nat.eqb (GraphClass.from e) from && Nat.eqb (GraphClass.to e) to.

Definition getNode (id : nat) (g : t C) : option (Node C) :=
  List.find (λ n, Nat.eqb (GraphClass.id n) id) (nodes g).

Definition getEdge (from to : nat) (g : t C) : option Edge :=
  List.find (is_edge from to) (edges g).

(** [const a = l.find(p); if (a) a.field = ...]: the first match is
    updated in place. *)
Fixpoint update_first {A : Type} (p : A → bool) (f : A → A) (l : list A)
    : list A :=
  match l with
  | [] => []
  | a :: l' => if p a then f a :: l' else a :: update_first p f l'
  end.

(** The branch that [addEdge] and [updateEdgeWeight] share: the weight
    of the edge is overwritten in [edges] and, when [from] has an adjacency
    list with an entry for [to], there too. *)
Definition set_weight (from to : nat) (weight : Z) (g : t C) : t C :=
  mk (nodeIdCounter g) (nodes g)
     (update_first (is_edge from to)
        (λ e, mkEdge (GraphClass.from e) (GraphClass.to e) weight) (edges g))
     (alter (update_first (λ n : nat * Z, Nat.eqb n.1 to)
               (λ n, (n.1, weight)))
        from (adjacencyList g)).

Definition addEdge (from to : nat) (weight : Z) (g : t C) : t C :=
  match getEdge from to g with
  | Some _ => set_weight from to weight g
  | None =>
      mk (nodeIdCounter g) (nodes g)
         (edges g ++ [mkEdge from to weight])
         (<[from:=default [] (adjacencyList g !! from) ++ [(to, weight)]]>
            (adjacencyList g))
  end.

Definition removeEdge (from to : nat) (g : t C) : t C :=
  mk (nodeIdCounter g) (nodes g)
     (filter (λ e, ¬ (GraphClass.from e = from ∧ GraphClass.to e = to))
        (edges g))
     (<[from:=filter (λ n : nat * Z, n.1 ≠ to)
                (default [] (adjacencyList g !! from))]>
        (adjacencyList g)).

Definition updateEdgeWeight (from to : nat) (weight : Z) (g : t C) : t C :=
  match getEdge from to g with
  | Some _ => set_weight from to weight g
  | None => g
  end.

(** [toGraph()], as the solvers read it: the ids of the nodes and the
    adjacency lists at the time of the call. *)
Definition toGraph (g : t C) : Graph :=
  mkGraph (GraphClass.id <$> nodes g) (adjacencyList g).

End Methods.

(** The calls a client can make on a graph. *)
Inductive op (C : Type) : Type :=
| AddNode (x y : C) (label : option string)
| RemoveNode (id : nat)
| AddEdge (from to : nat) (weight : Z)
| RemoveEdge (from to : nat)
| UpdateEdgeWeight (from to : nat) (weight : Z).

Arguments AddNode {C} _ _ _.
Arguments RemoveNode {C} _.
Arguments AddEdge {C} _ _ _.
Arguments RemoveEdge {C} _ _.
Arguments UpdateEdgeWeight {C} _ _ _.

Definition run_op {C : Type} (g : t C) (o : op C) : t C :=
  match o with
  | AddNode x y label => (addNode x y label g).2
  | RemoveNode id => removeNode id g
  | AddEdge from to weight => addEdge from to weight g
  | RemoveEdge from to => removeEdge from to g
  | UpdateEdgeWeight from to weight => updateEdgeWeight from to weight g
  end.

Definition run {C : Type} (ops : list (op C)) (g : t C) : t C :=
  fold_left run_op ops g.

(** [createExampleGraph()], with the default canvas. *)
Definition example_positions : list (Z * Z) :=
  [ (100, 300); (250, 200); (250, 400); (400, 150); (400, 450);
    (550, 250); (650, 350); (550, 100); (750, 400); (750, 200) ].

Definition createExampleGraph : t Z :=
  let g :=
    fold_left
      (λ g i, (addNode (nth i example_positions (0, 0)).1
                 (nth i example_positions (0, 0)).2 (Some (pretty i)) g).2)
      (seq 0 10) empty in
  fold_left (λ g e, addEdge e.1.1 e.1.2 e.2 g) example_edges g.

End GraphClass.

(** ** Vocabulary for the graph properties *)

(** A call within the contract the class relies on: an edge starts at an
    id that [addNode] has handed out. *)
Definition graph_op_valid {C : Type} (g : GraphClass.t C)
    (o : GraphClass.op C) : Prop :=
  match o with
  | GraphClass.AddEdge from _ _ => (from < GraphClass.nodeIdCounter g)%nat
  | _ => True
  end.

Fixpoint graph_ops_valid {C : Type} (g : GraphClass.t C)
    (ops : list (GraphClass.op C)) : Prop :=
  match ops with
  | [] => True
  | o :: ops' => graph_op_valid g o ∧ graph_ops_valid (GraphClass.run_op g o) ops'
  end.

(** The adjacency list of [f], as [edges] tells it. *)
Definition edges_from (f : nat) (es : list GraphClass.Edge)
    : list (nat * Z) :=
  (λ e, (GraphClass.to e, GraphClass.weight e))
    <$> filter (λ e, GraphClass.from e = f) es.

(** What the class keeps true of its fields. *)
Record graph_consistent {C : Type} (g : GraphClass.t C) : Prop := {
  gc_ids : NoDup (GraphClass.id <$> GraphClass.nodes g);
  gc_counter : ∀ n, n ∈ GraphClass.nodes g →
    (GraphClass.id n < GraphClass.nodeIdCounter g)%nat;
  gc_adjacency : ∀ n, n ∈ GraphClass.nodes g →
    is_Some (GraphClass.adjacencyList g !! GraphClass.id n);
  gc_sync : ∀ f,
    default [] (GraphClass.adjacencyList g !! f)
    = edges_from f (GraphClass.edges g);
  gc_pairs :
    NoDup ((λ e, (GraphClass.from e, GraphClass.to e)) <$> GraphClass.edges g);
  gc_from : ∀ e, e ∈ GraphClass.edges g →
    (GraphClass.from e < GraphClass.nodeIdCounter g)%nat
}.

(** The calls by which the generators build a graph for the solvers:
    [addNode], and [addEdge] between ids that have been handed out, with a
    weight that is not negative. *)
Definition build_op_valid {C : Type} (g : GraphClass.t C)
    (o : GraphClass.op C) : Prop :=
  match o with
  | GraphClass.AddNode _ _ _ => True
  | GraphClass.AddEdge from to weight =>
      (from < GraphClass.nodeIdCounter g)%nat ∧
      (to < GraphClass.nodeIdCounter g)%nat ∧ 0 ≤ weight
  | _ => False
  end.

Fixpoint build_ops_valid {C : Type} (g : GraphClass.t C)
    (ops : list (GraphClass.op C)) : Prop :=
  match ops with
  | [] => True
  | o :: ops' => build_op_valid g o ∧ build_ops_valid (GraphClass.run_op g o) ops'
  end.

(** The same calls on the two-field graph of the solvers. *)
Definition run_op_simple {C : Type} (g : Graph) (o : GraphClass.op C) : Graph :=
  match o with
  | GraphClass.AddNode _ _ _ => addNode g
  | GraphClass.AddEdge from to weight => addEdge from to weight g
  | _ => g
  end.

(** The number of [addNode] calls among [ops]. *)
Definition is_add_node {C : Type} (o : GraphClass.op C) : bool :=
  match o with GraphClass.AddNode _ _ _ => true | _ => false end.

Definition added_nodes {C : Type} (ops : list (GraphClass.op C)) : nat :=
  length (List.filter is_add_node ops).

(** ** The reconstruction of the shortest path (Dijkstra.ts, NewSSSP.ts) *)

Module ShortestPath.

(** [pred.get(current)], respectively [this.pred[current]], for a
    [current] that is a number or [undefined]. *)
Definition pred_get (pred : gmap nat Z) (current : option Z) : option Z :=
  match current with
  | Some z => if 0 <=? z then pred !! Z.to_nat z else None
  | None => None
  end.

(** [while (current !== -1) { shortestPath.unshift(current);
    current = pred.get(current) }] *)
Fixpoint walk_back (fuel : nat) (pred : gmap nat Z) (current : option Z)
    (shortestPath : list (option Z)) : option (list (option Z)) :=
  if bool_decide (current = Some (-1)) then Some shortestPath
  else
    match fuel with
    | O => None
    | S f =>
        walk_back f pred (pred_get pred current) (current :: shortestPath)
    end.

(** The block that builds [shortestPath]: it runs when a destination is
    given and its distance is not [Infinity]. *)
Definition shortestPath (fuel : nat) (destination : option nat)
    (dist : gmap nat num) (pred : gmap nat Z) : option (list (option Z)) :=
  match destination with
  | Some d =>
      if bool_decide (dist !! d = Some PInf) then Some []
      else walk_back fuel pred (Some (Z.of_nat d)) []
  | None => Some []
  end.

(** [dijkstra(graph, source, destination?)] with the [shortestPath] field
    of its result. *)
Definition dijkstra (graph : Graph) (fuel : nat) (source : nat)
    (destination : option nat)
    : option (NewSSSP.Result * list (option Z)) :=
  match Dijkstra.loop graph fuel destination (Dijkstra.init graph source) with
  | Some st =>
      match shortestPath fuel destination (Dijkstra.dist st)
              (Dijkstra.pred st) with
      | Some p =>
          Some (NewSSSP.mkResult (Dijkstra.dist st) (Dijkstra.pred st), p)
      | None => None
      end
  | None => None
  end.

(** [solve(source, destination?)] with the [shortestPath] field of its
    result. *)
Definition solve (graph : Graph) (k t levels : nat) (fuel : nat)
    (source : nat) (destination : option nat)
    : option (NewSSSP.Result * list (option Z)) :=
  match NewSSSP.BMSSP graph k t fuel levels PInf [source]
          (NewSSSP.seeded graph source) with
  | Some (_, _, st) =>
      match shortestPath fuel destination (NewSSSP.dist st)
              (NewSSSP.pred st) with
      | Some p => Some (NewSSSP.result_of graph st, p)
      | None => None
      end
  | None => None
  end.

End ShortestPath.

(** ** Vocabulary for the reconstructed path *)

(** [walk g p l]: the vertices [p] follow edges of [g], of total weight
    [l]. *)
Inductive walk (g : Graph) : list nat → Z → Prop :=
| walk_one v : walk g [v] 0
| walk_snoc p u v w l :
    walk g (p ++ [u]) l → (v, w) ∈ neighbors g u →
    walk g (p ++ [u; v]) (l + w).

(** The vertices of a path as [shortestPath] holds them. *)
Definition path_values (p : list nat) : list (option Z) :=
  (λ v, Some (Z.of_nat v)) <$> p.

(** What [dijkstra] keeps true of [pred]: [order] lists the visited
    vertices in the order of their visits; the source has no predecessor
    and distance [0]; another vertex with a finite distance has as predecessor a vertex visited
    before it, one edge away, the distance being the predecessor's plus
    the weight of that edge. *)
Definition pred_tree (g : Graph) (s : nat) (order : list nat)
    (st : Dijkstra.State) : Prop :=
  NoDup order ∧
  (∀ v, v ∈ order ↔ rdb (Dijkstra.visited st) v = true) ∧
  Dijkstra.pred st !! s = Some (-1) ∧
  rd (Dijkstra.dist st) s = Fin 0 ∧
  ∀ v x, v ≠ s → rd (Dijkstra.dist st) v = Fin x →
    ∃ u w zu i,
      Dijkstra.pred st !! v = Some (Z.of_nat u) ∧
      (v, w) ∈ neighbors g u ∧
      rd (Dijkstra.dist st) u = Fin zu ∧ x = zu + w ∧
      order !! i = Some u ∧ ∀ j, order !! j = Some v → (i < j)%nat.

(** What every write of [BMSSP] keeps true of [pred]: the source has no
    predecessor and distance [0]; a finite distance is that of a vertex
    of the graph and is not negative; another vertex with a finite
    distance has a predecessor one edge away whose distance plus the
    weight of the edge is at most its own.  [hop] is book-keeping: the
    number of edges counted when the entry was written, which orders
    the two ends of an edge that the distances do not order. *)
Definition pred_forest (g : Graph) (s : nat) (hop : nat → nat)
    (st : NewSSSP.State) : Prop :=
  rd (NewSSSP.dist st) s = Fin 0 ∧
  NewSSSP.pred st !! s = Some (-1) ∧
  (∀ v x, rd (NewSSSP.dist st) v = Fin x →
     0 ≤ x ∧ (v < length (nodes g))%nat) ∧
  ∀ v x, v ≠ s → rd (NewSSSP.dist st) v = Fin x →
    ∃ u w zu,
      NewSSSP.pred st !! v = Some (Z.of_nat u) ∧
      (v, w) ∈ neighbors g u ∧
      rd (NewSSSP.dist st) u = Fin zu ∧
      (zu + w < x ∨ (zu + w = x ∧ (hop u < hop v)%nat)).

(** ** The graph generators (Graph.ts) *)

Module Generators.
Section Generators.
Context {C : Type}.

(** [random_below i m] is the value of [Math.floor(Math.random() * m)] at
    the [i]-th call of [Math.random]. *)
Variable random_below : nat → nat → nat.

(** *** generateRandomGraph *)

(** The coordinates computed for the [i]-th node, on a circle. *)
Variable circle_pos : nat → C * C.

(** [graph.addNode(x, y, `${i}`)] for [i] from [0] to [nodeCount - 1]. *)
Definition random_nodes (nodeCount : nat) : GraphClass.t C :=
  fold_left
    (λ g i, (GraphClass.addNode (circle_pos i).1 (circle_pos i).2
               (Some (pretty i)) g).2)
    (seq 0 nodeCount) GraphClass.empty.

(** One pass of the loop over the attempts: the graph, [edgesAdded] and
    the number of calls of [Math.random] so far. *)
Definition random_attempt (nodeCount maxWeight : nat)
    (st : GraphClass.t C * nat * nat) : GraphClass.t C * nat * nat :=
  let '(graph, edgesAdded, calls) := st in
  let from := random_below calls nodeCount in
  let to := random_below (S calls) nodeCount in
  if negb (Nat.eqb from to)
     && negb (bool_decide (is_Some (GraphClass.getEdge from to graph)))
  then
    let weight := Z.of_nat (random_below (S (S calls)) maxWeight) + 1 in
    (GraphClass.addEdge from to weight graph, S edgesAdded, S (S (S calls)))
  else (graph, edgesAdded, S (S calls)).

(** [for (attempt = 0; attempt < attempts && edgesAdded < targetEdges;
    attempt++)], by the attempts that are left. *)
Fixpoint random_loop (left : nat) (nodeCount maxWeight targetEdges : nat)
    (st : GraphClass.t C * nat * nat) : GraphClass.t C * nat * nat :=
  match left with
  | O => st
  | S left' =>
      if Nat.ltb st.1.2 targetEdges
      then random_loop left' nodeCount maxWeight targetEdges
             (random_attempt nodeCount maxWeight st)
      else st
  end.

(** [generateRandomGraph(nodeCount, density, maxWeight)].  [targetEdges]
    is [Math.floor(nodeCount * (nodeCount - 1) * density)], a
    floating-point product, and is taken as given. *)
Definition generateRandomGraph (nodeCount maxWeight targetEdges : nat)
    : GraphClass.t C :=
  (random_loop (targetEdges * 3) nodeCount maxWeight targetEdges
     (random_nodes nodeCount, 0%nat, 0%nat)).1.1.

(** *** generateGridGraph *)

(** The coordinates computed for the cell [(row, col)]. *)
Variable grid_pos : nat → nat → C * C.

(** [nodeIds[row][col] = graph.addNode(x, y, `${row * cols + col}`)]; the
    row has [col] entries at that point, so the assignment appends. *)
Definition grid_node (cols row : nat) (acc : GraphClass.t C * list nat)
    (col : nat) : GraphClass.t C * list nat :=
  let r :=
    GraphClass.addNode (grid_pos row col).1 (grid_pos row col).2
      (Some (pretty (row * cols + col)%nat)) acc.1 in
  (r.2, acc.2 ++ [r.1]).

Definition grid_row (cols : nat) (acc : GraphClass.t C * list (list nat))
    (row : nat) : GraphClass.t C * list (list nat) :=
  let r := fold_left (grid_node cols row) (seq 0 cols) (acc.1, []) in
  (r.1, acc.2 ++ [r.2]).

Definition grid_nodes (rows cols : nat) : GraphClass.t C * list (list nat) :=
  fold_left (grid_row cols) (seq 0 rows) (GraphClass.empty, []).

(** [nodeIds[row][col]].  The reads of the second loop nest are inside
    the array, and the value for a read outside is never used. *)
Definition cell (nodeIds : list (list nat)) (row col : nat) : nat :=
  default 0%nat (nodeIds !! row ≫= (.!! col)).

(** [const weight = Math.floor(Math.random() * 10) + 1;
    graph.addEdge(a, b, weight); graph.addEdge(b, a, weight)] *)
Definition grid_link (a b : nat) (st : GraphClass.t C * nat)
    : GraphClass.t C * nat :=
  let weight := Z.of_nat (random_below st.2 10) + 1 in
  (GraphClass.addEdge b a weight (GraphClass.addEdge a b weight st.1),
   S st.2).

(** Body of the second loop nest. *)
Definition grid_edges_of (rows cols : nat) (nodeIds : list (list nat))
    (row : nat) (st : GraphClass.t C * nat) (col : nat)
    : GraphClass.t C * nat :=
  let currentId := cell nodeIds row col in
  let st1 :=
    if Nat.ltb col (cols - 1)
    then grid_link currentId (cell nodeIds row (col + 1)) st
    else st in
  if Nat.ltb row (rows - 1)
  then grid_link currentId (cell nodeIds (row + 1) col) st1
  else st1.

Definition generateGridGraph (rows cols : nat) : GraphClass.t C :=
  let r := grid_nodes rows cols in
  (fold_left
     (λ st row, fold_left (grid_edges_of rows cols r.2 row) (seq 0 cols) st)
     (seq 0 rows) (r.1, 0%nat)).1.

End Generators.
End Generators.

(** The cells [u] and [v] of a grid of [rows] by [cols] cells numbered row
    by row, [v] being the right or the lower neighbour of [u]. *)
Definition grid_linked (rows cols : nat) (u v : nat) : Prop :=
  ∃ row col,
    (row < rows)%nat ∧ (col < cols)%nat ∧ u = (row * cols + col)%nat ∧
    (((col + 1 < cols)%nat ∧ v = (u + 1)%nat) ∨
     ((row + 1 < rows)%nat ∧ v = (u + cols)%nat)).

(** A graph as the generators build it: consistent, with the ids
    [0 .. nodeIdCounter - 1], every edge into one of them and of a weight
    that is not negative. *)
Definition graph_built {C : Type} (g : GraphClass.t C) : Prop :=
  graph_consistent g ∧
  GraphClass.id <$> GraphClass.nodes g = seq 0 (GraphClass.nodeIdCounter g) ∧
  ∀ e, e ∈ GraphClass.edges g →
    (GraphClass.to e < GraphClass.nodeIdCounter g)%nat ∧
    0 ≤ GraphClass.weight e.

(** What the loop over the attempts keeps: [edgesAdded] counts the edges,
    none of which is a loop or has a weight outside [1 .. maxWeight]. *)
Definition random_inv {C : Type} (nodeCount maxWeight targetEdges : nat)
    (st : GraphClass.t C * nat * nat) : Prop :=
  graph_built st.1.1 ∧ GraphClass.nodeIdCounter st.1.1 = nodeCount ∧
  length (GraphClass.edges st.1.1) = st.1.2 ∧
  (st.1.2 ≤ targetEdges)%nat ∧
  ∀ e, e ∈ GraphClass.edges st.1.1 →
    GraphClass.from e ≠ GraphClass.to e ∧
    1 ≤ GraphClass.weight e ≤ Z.max 1 (Z.of_nat maxWeight).

(** What the second loop nest of [generateGridGraph] keeps: every edge
    has its reverse, of the same weight, a weight between [1] and [10],
    and joins two cells of which one is the right or the lower neighbour
    of the other. *)
Definition grid_inv {C : Type} (rows cols : nat) (g : GraphClass.t C)
    : Prop :=
  graph_built g ∧ GraphClass.nodeIdCounter g = (rows * cols)%nat ∧
  ∀ a b w, GraphClass.mkEdge a b w ∈ GraphClass.edges g →
    GraphClass.mkEdge b a w ∈ GraphClass.edges g ∧ 1 ≤ w ≤ 10 ∧
    (grid_linked rows cols a b ∨ grid_linked rows cols b a).

(** The edges [a → b] and [b → a] are there, with one weight. *)
Definition has_link {C : Type} (g : GraphClass.t C) (a b : nat) : Prop :=
  ∃ w, GraphClass.mkEdge a b w ∈ GraphClass.edges g ∧
       GraphClass.mkEdge b a w ∈ GraphClass.edges g.

(** The links of the cell [(row, col)] to its right and lower neighbours
    are there. *)
Definition cell_linked {C : Type} (rows cols : nat) (row col : nat)
    (g : GraphClass.t C) : Prop :=
  ((col + 1 < cols)%nat →
   has_link g (row * cols + col) (row * cols + col + 1)) ∧
  ((row + 1 < rows)%nat →
   has_link g (row * cols + col) (row * cols + col + cols)).

(** ** Vocabulary for [findLargeTreeRoots] *)







(** * Properties *)

(** ** Fuel *)

Section Fuel.
Variable graph : Graph.
Variables k t : nat.

Lemma baseCase_loop_fuel_mono fuel fuel' B heap inHeap U st r :
  (fuel ≤ fuel')%nat →
  NewSSSP.baseCase_loop graph fuel B heap inHeap U st = Some r →
  NewSSSP.baseCase_loop graph fuel' B heap inHeap U st = Some r.
Proof.
  revert fuel' heap inHeap U st.
  induction fuel as [|f IH]; intros fuel' heap inHeap U st Hle.
  - destruct fuel'; cbn [NewSSSP.baseCase_loop];
      destruct (MinHeap.isEmpty heap); congruence.
  - destruct fuel' as [|f']; [lia|]. cbn [NewSSSP.baseCase_loop].
    destruct (MinHeap.isEmpty heap); [done|].
    destruct (MinHeap.extractMin heap) as [[u|] heap1]; [|done].
    destruct (NewSSSP.baseCase_visit graph B u (heap1, inHeap, st))
      as [[heap2 inHeap2] st2].
    apply IH. lia.
Qed.

Lemma baseCase_fuel_mono fuel fuel' B S st r :
  (fuel ≤ fuel')%nat →
  NewSSSP.baseCase graph fuel B S st = Some r →
  NewSSSP.baseCase graph fuel' B S st = Some r.
Proof.
  intros Hle. unfold NewSSSP.baseCase. destruct S as [|s S']; [done|].
  destruct (NewSSSP.baseCase_loop graph fuel B _ _ _ st) as [[U st1]|] eqn:E;
    [|done].
  by rewrite (baseCase_loop_fuel_mono _ _ _ _ _ _ _ _ Hle E).
Qed.

(** [rec'] returns whatever [rec] returns. *)
Definition extends
    (rec rec' : num → list nat → NewSSSP.State →
                option (num * list nat * NewSSSP.State)) : Prop :=
  ∀ B S st r, rec B S st = Some r → rec' B S st = Some r.

Lemma BMSSP_loop_fuel_mono rec rec' fuel fuel' l B fr U B' st r :
  extends rec rec' → (fuel ≤ fuel')%nat →
  NewSSSP.BMSSP_loop graph k t rec fuel l B fr U B' st = Some r →
  NewSSSP.BMSSP_loop graph k t rec' fuel' l B fr U B' st = Some r.
Proof.
  intros Hrec. revert fuel' fr U B' st.
  induction fuel as [|f IH]; intros fuel' fr U B' st Hle.
  - destruct fuel'; cbn [NewSSSP.BMSSP_loop];
      destruct (_ && _); congruence.
  - destruct fuel' as [|f']; [lia|]. cbn [NewSSSP.BMSSP_loop].
    destruct (_ && _); [|done].
    destruct (AdaptiveFrontier.pull _ fr) as [[Si Bi] fr1].
    destruct (Nat.eqb (length Si) 0); [done|].
    destruct (rec Bi Si st) as [[[subB subU] st1]|] eqn:E; [|done].
    rewrite (Hrec _ _ _ _ E).
    destruct (NewSSSP.relaxEdges graph subU Bi B fr1 st1) as [fr2 st2].
    destruct (_ <=? _)%N; [done|]. apply IH. lia.
Qed.

Lemma BMSSP_fuel_mono fuel fuel' l :
  (fuel ≤ fuel')%nat →
  extends (NewSSSP.BMSSP graph k t fuel l) (NewSSSP.BMSSP graph k t fuel' l).
Proof.
  intros Hle. induction l as [|l IH]; intros B S st r;
    cbn [NewSSSP.BMSSP].
  - by apply baseCase_fuel_mono.
  - destruct (NewSSSP.findPivots graph k B S st) as [[pivots W] st1].
    destruct (NewSSSP.BMSSP_loop _ _ _ _ fuel _ _ _ _ _ _)
      as [[[U B'] st2]|] eqn:E; [|done].
    by rewrite (BMSSP_loop_fuel_mono _ _ _ _ _ _ _ _ _ _ _ IH Hle E).
Qed.

Lemma solve_fuel_mono levels fuel fuel' source r :
  (fuel ≤ fuel')%nat →
  NewSSSP.solve graph k t levels fuel source = Some r →
  NewSSSP.solve graph k t levels fuel' source = Some r.
Proof.
  intros Hle. unfold NewSSSP.solve.
  destruct (NewSSSP.BMSSP graph k t fuel levels PInf [source] _)
    as [[[B' U] st]|] eqn:E; [|done].
  by rewrite (BMSSP_fuel_mono _ _ _ Hle _ _ _ _ E).
Qed.

Lemma dijkstra_loop_fuel_mono fuel fuel' dest st r :
  (fuel ≤ fuel')%nat →
  Dijkstra.loop graph fuel dest st = Some r →
  Dijkstra.loop graph fuel' dest st = Some r.
Proof.
  revert fuel' st. induction fuel as [|f IH]; intros fuel' st Hle.
  - destruct fuel'; cbn [Dijkstra.loop];
      destruct (MinHeap.isEmpty _); congruence.
  - destruct fuel' as [|f']; [lia|]. cbn [Dijkstra.loop].
    destruct (MinHeap.isEmpty _); [done|].
    destruct (MinHeap.extractMin _) as [[u|] heap1]; [|done].
    cbn [Dijkstra.visited]. destruct (rdb _ u); [apply IH; lia|].
    case_bool_decide; [done|]. apply IH. lia.
Qed.

Lemma dijkstra_fuel_mono fuel fuel' source dest r :
  (fuel ≤ fuel')%nat →
  Dijkstra.dijkstra graph fuel source dest = Some r →
  Dijkstra.dijkstra graph fuel' source dest = Some r.
Proof.
  intros Hle. unfold Dijkstra.dijkstra.
  destruct (Dijkstra.loop graph fuel dest _) as [st|] eqn:E; [|done].
  by rewrite (dijkstra_loop_fuel_mono _ _ _ _ _ Hle E).
Qed.
End Fuel.

(** ** The worked example (C2) *)

(** The parameters the constructor computes for the ten vertices of the
    example: [k = ⌊10^(1/3)⌋ = 2] and [t = ⌊10^(2/3)⌋ = 4], both well inside
    their integer brackets, and [levels = ⌈ln 10 / 4⌉ = 1]. *)
Lemma example_parameters :
  (2 ^ 3 ≤ 10 < 3 ^ 3)%nat ∧ (4 ^ 3 ≤ 10 ^ 2 < 5 ^ 3)%nat.
Proof. simpl. lia. Qed.

Lemma example_solve_20 :
  example_check <$> NewSSSP.solve createExampleGraph 2 4 1 20 0 = Some true.
Proof. vm_compute. reflexivity. Qed.

(** C2: on the example graph, [solve] from source [0] returns the distances
    d0=0, d1=3, d2=2, d3=8, d4=12, d5=11 and d9=15 (for any fuel that lets
    the loops finish; twenty rounds are enough). *)
Theorem example_graph_distances (fuel : nat) :
  ∃ r, NewSSSP.solve createExampleGraph 2 4 1 (20 + fuel) 0 = Some r ∧
       NewSSSP.distances r !! 0%nat = Some (Fin 0) ∧
       NewSSSP.distances r !! 1%nat = Some (Fin 3) ∧
       NewSSSP.distances r !! 2%nat = Some (Fin 2) ∧
       NewSSSP.distances r !! 3%nat = Some (Fin 8) ∧
       NewSSSP.distances r !! 4%nat = Some (Fin 12) ∧
       NewSSSP.distances r !! 5%nat = Some (Fin 11) ∧
       NewSSSP.distances r !! 9%nat = Some (Fin 15).
Proof.
  pose proof example_solve_20 as H.
  destruct (NewSSSP.solve createExampleGraph 2 4 1 20 0) as [r|] eqn:E;
    [|discriminate H].
  exists r. split.
  - eapply solve_fuel_mono; [|exact E]. lia.
  - injection H as H. unfold example_check in H.
    rewrite !andb_true_iff, !bool_decide_eq_true in H. tauto.
Qed.

(** ** Numbers *)

Lemma num_lt_Fin x y : num_lt (Fin x) (Fin y) = true ↔ x < y.
Proof. simpl. apply Z.ltb_lt. Qed.

Lemma num_le_Fin x y : num_le (Fin x) (Fin y) = true ↔ x ≤ y.
Proof. simpl. apply Z.leb_le. Qed.

Lemma num_le_refl a : is_dist a → num_le a a = true.
Proof. destruct a; simpl; intros H; [apply Z.leb_refl|done|by destruct H]. Qed.

Lemma num_le_trans a b c :
  num_le a b = true → num_le b c = true → num_le a c = true.
Proof.
  destruct a, b, c; simpl; try done.
  rewrite !Z.leb_le. lia.
Qed.

Lemma num_lt_trans a b c :
  num_lt a b = true → num_lt b c = true → num_lt a c = true.
Proof.
  destruct a, b, c; simpl; try done.
  rewrite !Z.ltb_lt. lia.
Qed.

Lemma num_lt_le_trans a b c :
  num_lt a b = true → num_le b c = true → num_lt a c = true.
Proof.
  destruct a, b, c; simpl; try done.
  rewrite !Z.ltb_lt, Z.leb_le. lia.
Qed.

Lemma num_le_lt_trans a b c :
  num_le a b = true → num_lt b c = true → num_lt a c = true.
Proof.
  destruct a, b, c; simpl; try done.
  rewrite !Z.ltb_lt, Z.leb_le. lia.
Qed.

Lemma num_lt_le a b : num_lt a b = true → num_le a b = true.
Proof. destruct a, b; simpl; try done. rewrite Z.ltb_lt, Z.leb_le. lia. Qed.

Lemma num_lt_irrefl a : num_lt a a = false.
Proof. destruct a; simpl; try done. apply Z.ltb_irrefl. Qed.

(** On proper distances the order is total. *)
Lemma num_le_total a b :
  is_dist a → is_dist b → num_le a b = false → num_lt b a = true.
Proof.
  unfold is_dist. destruct a, b; simpl; try done.
  rewrite Z.leb_gt, Z.ltb_lt. lia.
Qed.

Lemma num_lt_total a b :
  is_dist a → is_dist b → num_lt a b = false → num_le b a = true.
Proof.
  unfold is_dist. destruct a, b; simpl; try done.
  rewrite Z.ltb_ge, Z.leb_le. lia.
Qed.

Lemma num_lt_is_dist a b : num_lt a b = true → is_dist a ∧ is_dist b.
Proof. unfold is_dist. by destruct a, b. Qed.

Lemma num_le_is_dist a b : num_le a b = true → is_dist a ∧ is_dist b.
Proof. unfold is_dist. by destruct a, b. Qed.

Lemma num_lt_not_le a b : num_lt a b = true → num_le b a = false.
Proof. destruct a, b; simpl; try done. rewrite Z.ltb_lt, Z.leb_gt. lia. Qed.

Lemma num_le_PInf a : is_dist a → num_le a PInf = true.
Proof. unfold is_dist. by destruct a. Qed.

Lemma num_add_is_dist a w : is_dist a → is_dist (num_add a w).
Proof. unfold is_dist. by destruct a. Qed.

Lemma num_add_le a w : is_dist a → 0 ≤ w → num_le a (num_add a w) = true.
Proof.
  unfold is_dist. destruct a; simpl; try done. intros _ ?.
  apply Z.leb_le. lia.
Qed.

Lemma sub_sign_Lt a b : sub_sign a b = Lt ↔ num_lt a b = true.
Proof.
  destruct a, b; simpl; try done. by rewrite Z.compare_lt_iff, Z.ltb_lt.
Qed.

(** ** MinHeap: slots and swaps *)

Lemma parent_cases i :
  (0 < i)%nat → (i = 2 * parent i + 1 ∨ i = 2 * parent i + 2)%nat.
Proof.
  intros Hi. unfold parent.
  pose proof (Nat.div_mod_eq (i - 1) 2) as Hd.
  pose proof (Nat.mod_upper_bound (i - 1) 2). lia.
Qed.

Lemma parent_lt i : (0 < i)%nat → (parent i < i)%nat.
Proof. intros Hi. destruct (parent_cases i Hi); lia. Qed.

Lemma parent_left i : parent (2 * i + 1) = i.
Proof.
  unfold parent. replace (2 * i + 1 - 1)%nat with (i * 2)%nat by lia.
  by rewrite Nat.div_mul.
Qed.

Lemma parent_right i : parent (2 * i + 2) = i.
Proof.
  unfold parent. replace (2 * i + 2 - 1)%nat with (1 + i * 2)%nat by lia.
  by rewrite Nat.div_add.
Qed.

Lemma parent_child c i :
  (0 < c)%nat → parent c = i → (c = 2 * i + 1 ∨ c = 2 * i + 2)%nat.
Proof. intros Hc <-. by apply parent_cases. Qed.

Section Swap.
Implicit Types (h : MinHeap.t) (l : list (nat * num)).

Lemma swap_heap h i j a b :
  MinHeap.heap h !! i = Some a → MinHeap.heap h !! j = Some b →
  MinHeap.heap (MinHeap.swap i j h) = <[j:=a]> (<[i:=b]> (MinHeap.heap h)).
Proof. intros Hi Hj. unfold MinHeap.swap. by rewrite Hi, Hj. Qed.

Lemma swap_length h i j :
  length (MinHeap.heap (MinHeap.swap i j h)) = length (MinHeap.heap h).
Proof.
  unfold MinHeap.swap.
  destruct (MinHeap.heap h !! i), (MinHeap.heap h !! j); simpl;
    by rewrite ?length_insert.
Qed.

Lemma swap_perm h i j :
  MinHeap.heap (MinHeap.swap i j h) ≡ₚ MinHeap.heap h.
Proof.
  unfold MinHeap.swap.
  destruct (MinHeap.heap h !! i) eqn:Hi, (MinHeap.heap h !! j) eqn:Hj;
    simpl; try done.
  by apply Permutation_insert_swap.
Qed.

Lemma swap_lookup h i j a b k :
  MinHeap.heap h !! i = Some a → MinHeap.heap h !! j = Some b →
  MinHeap.heap (MinHeap.swap i j h) !! k =
    if decide (k = j) then Some a
    else if decide (k = i) then Some b
    else MinHeap.heap h !! k.
Proof.
  intros Hi Hj. rewrite (swap_heap _ _ _ _ _ Hi Hj).
  apply lookup_lt_Some in Hi as Hil. apply lookup_lt_Some in Hj as Hjl.
  destruct (decide (k = j)) as [->|Hkj].
  - apply list_lookup_insert_eq. by rewrite length_insert.
  - rewrite list_lookup_insert_ne by done.
    destruct (decide (k = i)) as [->|Hki].
    + by apply list_lookup_insert_eq.
    + by rewrite list_lookup_insert_ne.
Qed.

Lemma swap_proper h i j :
  proper (MinHeap.heap h) → proper (MinHeap.heap (MinHeap.swap i j h)).
Proof. unfold proper. intros H. by rewrite swap_perm. Qed.
End Swap.

Lemma proper_lookup l i e : proper l → l !! i = Some e → is_dist e.2.
Proof. intros H Hi. by apply (Forall_lookup_1 _ _ _ _ H Hi). Qed.

(** ** MinHeap: bubbleUp *)

Lemma bubbleUp_go_perm rounds idx h :
  MinHeap.heap (MinHeap.bubbleUp_go rounds idx h) ≡ₚ MinHeap.heap h.
Proof.
  revert idx h. induction rounds as [|r IH]; intros idx h; simpl; [done|].
  destruct (Nat.ltb 0 idx); [|done].
  destruct (MinHeap.dist_le_at h _ idx); [done|].
  by rewrite IH, swap_perm.
Qed.

Lemma bubbleUp_go_S r idx h :
  MinHeap.bubbleUp_go (S r) idx h =
    if Nat.ltb 0 idx then
      if MinHeap.dist_le_at h (parent idx) idx then h
      else MinHeap.bubbleUp_go r (parent idx) (MinHeap.swap idx (parent idx) h)
    else h.
Proof. reflexivity. Qed.

Lemma ordered_above_root l : ordered_above l 0 → heap_ordered l.
Proof.
  intros [H1 _] i a b Hi. apply H1; [done|lia].
Qed.

Lemma ordered_above_fixed l j a b :
  ordered_above l j → l !! parent j = Some a → l !! j = Some b →
  num_le a.2 b.2 = true → heap_ordered l.
Proof.
  intros [H1 _] Ha Hb Hab i x y Hi Hx Hy.
  destruct (decide (i = j)) as [->|Hne]; [|by eapply H1].
  by simplify_eq.
Qed.

Lemma ordered_above_swap h idx x y :
  (0 < idx)%nat →
  MinHeap.heap h !! idx = Some x → MinHeap.heap h !! parent idx = Some y →
  num_lt x.2 y.2 = true →
  ordered_above (MinHeap.heap h) idx →
  ordered_above (MinHeap.heap (MinHeap.swap idx (parent idx) h)) (parent idx).
Proof.
  intros Hidx Hx Hy Hxy [H1 H2].
  pose proof (parent_lt idx Hidx) as Hp.
  split.
  - intros i a b Hi Hne.
    rewrite !(swap_lookup _ _ _ _ _ _ Hx Hy).
    destruct (decide (i = parent idx)) as [|_]; [done|].
    destruct (decide (i = idx)) as [->|Hi'].
    + rewrite decide_True by done. intros [= <-] [= <-].
      by apply num_lt_le.
    + destruct (decide (parent i = parent idx)) as [Hpi|Hpi].
      * intros [= <-] Hb. apply num_lt_le in Hxy.
        eapply num_le_trans; [exact Hxy|].
        apply (H1 i y b Hi Hi'); [by rewrite Hpi|done].
      * destruct (decide (parent i = idx)) as [Hpi'|Hpi'].
        -- intros [= <-] Hb. by apply (H2 i y b).
        -- intros Ha Hb. by apply (H1 i a b).
  - intros c a b Hp0 Hc Hpc.
    pose proof (parent_lt _ Hp0) as Hpp. pose proof (parent_lt _ Hc) as Hcc.
    rewrite !(swap_lookup _ _ _ _ _ _ Hx Hy).
    rewrite decide_False by lia. rewrite (decide_False (P:=_ = idx)) by lia.
    rewrite (decide_False (P:=c = _)) by lia.
    assert (Hpy : ∀ a, MinHeap.heap h !! parent (parent idx) = Some a →
                       num_le a.2 y.2 = true).
    { intros a' Ha'. apply (H1 (parent idx) a' y); [done|lia|done|done]. }
    destruct (decide (c = idx)) as [->|Hci].
    + intros Ha [= <-]. by apply Hpy.
    + intros Ha Hb. eapply num_le_trans; [by apply Hpy|].
      apply (H1 c y b); [done|done|by rewrite Hpc|done].
Qed.

Lemma bubbleUp_go_ordered rounds idx h :
  proper (MinHeap.heap h) → ordered_above (MinHeap.heap h) idx →
  (idx ≤ rounds)%nat → (idx < length (MinHeap.heap h))%nat →
  heap_ordered (MinHeap.heap (MinHeap.bubbleUp_go rounds idx h)).
Proof.
  revert idx h. induction rounds as [|r IH]; intros idx h Hpr Hord Hle Hlen.
  { assert (idx = 0%nat) as -> by lia. by apply ordered_above_root. }
  rewrite bubbleUp_go_S. destruct (Nat.ltb_spec 0 idx) as [Hidx|Hidx].
  2:{ assert (idx = 0%nat) as -> by lia. by apply ordered_above_root. }
  pose proof (parent_lt idx Hidx) as Hp.
  destruct (lookup_lt_is_Some_2 (MinHeap.heap h) idx Hlen) as [x Hx].
  destruct (lookup_lt_is_Some_2 (MinHeap.heap h) (parent idx)) as [y Hy];
    [lia|].
  unfold MinHeap.dist_le_at. rewrite Hx, Hy.
  destruct (num_le y.2 x.2) eqn:Hyx.
  - by eapply ordered_above_fixed.
  - apply IH.
    + by apply swap_proper.
    + apply (ordered_above_swap h idx x y); try done.
      apply num_le_total; [by eapply proper_lookup..|done].
    + lia.
    + rewrite swap_length. lia.
Qed.

(** ** MinHeap: bubbleDown *)

Lemma bubbleDown_go_perm rounds idx h :
  MinHeap.heap (MinHeap.bubbleDown_go rounds idx h) ≡ₚ MinHeap.heap h.
Proof.
  revert idx h. induction rounds as [|r IH]; intros idx h; simpl; [done|].
  destruct (Nat.eqb _ idx); [done|].
  by rewrite IH, swap_perm.
Qed.

(** What [smallest_of] picks: the slot itself or one of its children in
    range, holding a distance no larger than the slot's and its
    children's. *)
Lemma smallest_of_spec h idx :
  proper (MinHeap.heap h) →
  let l := MinHeap.heap h in
  let s := MinHeap.smallest_of h idx in
  (s = idx ∨ ((s = 2 * idx + 1 ∨ s = 2 * idx + 2) ∧ s < length l ∧
              ∃ x y, l !! idx = Some x ∧ l !! s = Some y ∧
                     num_lt y.2 x.2 = true))%nat ∧
  (∀ c x y, (c = 2 * idx + 1 ∨ c = 2 * idx + 2)%nat →
     l !! c = Some x → l !! s = Some y → num_le y.2 x.2 = true).
Proof.
  intros Hpr l s. subst s. unfold MinHeap.smallest_of. fold l.
  set (lc := (2 * idx + 1)%nat). set (rc := (2 * idx + 2)%nat).
  assert (Hcmp : ∀ i j x y, l !! i = Some x → l !! j = Some y →
            MinHeap.dist_lt_at h i j = num_lt x.2 y.2).
  { intros i j x y Hi Hj. unfold MinHeap.dist_lt_at. fold l. by rewrite Hi, Hj. }
  assert (Hnone : ∀ i j, l !! j = None → MinHeap.dist_lt_at h i j = false).
  { intros i j Hj. unfold MinHeap.dist_lt_at. fold l. rewrite Hj.
    by destruct (l !! i). }
  assert (Hd : ∀ i e, l !! i = Some e → is_dist e.2)
    by (intros; by eapply proper_lookup).
  destruct (l !! idx) as [x|] eqn:Hx.
  2:{ rewrite (Hnone lc idx Hx), andb_false_r.
      rewrite (Hnone rc idx Hx), andb_false_r. split; [by left|].
      intros c x y _ _ Hy. congruence. }
  destruct (Nat.ltb_spec lc (length l)) as [Hl|Hl]; simpl.
  - destruct (lookup_lt_is_Some_2 l lc Hl) as [a Ha].
    rewrite (Hcmp _ _ _ _ Ha Hx).
    destruct (Nat.ltb_spec rc (length l)) as [Hr|Hr]; simpl.
    + destruct (lookup_lt_is_Some_2 l rc Hr) as [b Hb].
      destruct (num_lt a.2 x.2) eqn:Hax.
      * rewrite (Hcmp _ _ _ _ Hb Ha).
        destruct (num_lt b.2 a.2) eqn:Hba.
        -- split.
           ++ right. split; [by right|]. split; [done|].
              exists x, b. split_and!; try done. by eapply num_lt_trans.
           ++ intros c x' y [->| ->]; fold lc; fold rc; intros; simplify_eq.
              ** by apply num_lt_le.
              ** apply num_le_refl; eauto.
        -- split.
           ++ right. split; [by left|]. split; [done|]. by exists x, a.
           ++ intros c x' y [->| ->]; fold lc; fold rc; intros; simplify_eq.
              ** apply num_le_refl; eauto.
              ** apply num_lt_total; eauto.
      * rewrite (Hcmp _ _ _ _ Hb Hx).
        destruct (num_lt b.2 x.2) eqn:Hbx.
        -- split.
           ++ right. split; [by right|]. split; [done|]. by exists x, b.
           ++ intros c x' y [->| ->]; fold lc; fold rc; intros; simplify_eq.
              ** eapply num_le_trans; [by apply num_lt_le|].
                 apply num_lt_total; eauto.
              ** apply num_le_refl; eauto.
        -- split; [by left|].
           intros c x' y [->| ->]; fold lc; fold rc; intros; simplify_eq;
             apply num_lt_total; eauto.
    + destruct (num_lt a.2 x.2) eqn:Hax.
      * split.
        -- right. split; [by left|]. split; [done|]. by exists x, a.
        -- intros c x' y [->| ->]; fold lc; fold rc; intros; simplify_eq.
           ++ apply num_le_refl; eauto.
           ++ apply lookup_ge_None_2 in Hr. congruence.
      * split; [by left|].
        intros c x' y [->| ->]; fold lc; fold rc; intros; simplify_eq.
        -- apply num_lt_total; eauto.
        -- apply lookup_ge_None_2 in Hr. congruence.
  - assert (¬ (rc < length l)%nat) as Hr by (subst lc rc; lia).
    destruct (Nat.ltb_spec rc (length l)); [done|]. simpl.
    split; [by left|].
    intros c x' y [->| ->]; fold lc; fold rc; intros Hc;
      apply lookup_lt_Some in Hc; lia.
Qed.

Lemma ordered_below_leaf l j :
  ordered_below l j →
  (∀ c x y, (c = 2 * j + 1 ∨ c = 2 * j + 2)%nat →
     l !! c = Some x → l !! j = Some y → num_le y.2 x.2 = true) →
  heap_ordered l.
Proof.
  intros [H1 _] Hch i a b Hi Ha Hb.
  destruct (decide (parent i = j)) as [Hp|Hp]; [|by eapply H1].
  apply (Hch i b a); [by apply parent_child|done|by rewrite <-Hp].
Qed.

Lemma ordered_below_swap h idx s x y :
  (s = 2 * idx + 1 ∨ s = 2 * idx + 2)%nat →
  MinHeap.heap h !! idx = Some x → MinHeap.heap h !! s = Some y →
  num_lt y.2 x.2 = true →
  (∀ c a, (c = 2 * idx + 1 ∨ c = 2 * idx + 2)%nat →
     MinHeap.heap h !! c = Some a → num_le y.2 a.2 = true) →
  ordered_below (MinHeap.heap h) idx →
  ordered_below (MinHeap.heap (MinHeap.swap idx s h)) s.
Proof.
  intros Hs Hx Hy Hyx Hmin [H1 H2].
  assert (parent s = idx) as Hps
    by (destruct Hs as [-> | ->]; [apply parent_left|apply parent_right]).
  assert (idx < s)%nat as Hlt by lia.
  split.
  - intros i a b Hi Hne. rewrite !(swap_lookup _ _ _ _ _ _ Hx Hy).
    rewrite decide_False by done.
    destruct (decide (i = s)) as [->|His].
    + rewrite Hps, decide_True by done. intros [= <-] [= <-].
      by apply num_lt_le.
    + destruct (decide (i = idx)) as [->|Hii].
      * pose proof (parent_lt _ Hi). rewrite decide_False by lia.
        intros Ha [= <-]. apply (H2 s a y); [done|lia|done|done|done].
      * destruct (decide (parent i = idx)) as [Hpi|Hpi].
        -- intros [= <-] Hb. apply (Hmin i b); [|done].
           by apply parent_child.
        -- intros Ha Hb. by apply (H1 i a b).
  - intros c a b Hs0 Hc Hpc. pose proof (parent_lt _ Hc).
    rewrite !(swap_lookup _ _ _ _ _ _ Hx Hy).
    rewrite Hps, decide_False by lia. rewrite decide_True by done.
    rewrite (decide_False (P:=c = s)) by lia.
    rewrite (decide_False (P:=c = idx)) by lia.
    intros [= <-] Hb. apply (H1 c y b); [done|lia|by rewrite Hpc|done].
Qed.

Lemma bubbleDown_go_ordered rounds idx h :
  proper (MinHeap.heap h) → ordered_below (MinHeap.heap h) idx →
  (length (MinHeap.heap h) ≤ rounds + idx)%nat →
  heap_ordered (MinHeap.heap (MinHeap.bubbleDown_go rounds idx h)).
Proof.
  revert idx h. induction rounds as [|r IH]; intros idx h Hpr Hord Hlen.
  { simpl. apply (ordered_below_leaf _ idx Hord).
    intros c x y Hc Hx%lookup_lt_Some. lia. }
  simpl. destruct (smallest_of_spec h idx Hpr) as [Hs Hmin].
  destruct (Nat.eqb_spec (MinHeap.smallest_of h idx) idx) as [Heq|Hne].
  - apply (ordered_below_leaf _ idx Hord). intros c x y Hc Hx Hy.
    apply (Hmin c x y Hc Hx). by rewrite Heq.
  - destruct Hs as [?|(Hs & Hsl & x & y & Hx & Hy & Hyx)]; [done|].
    apply IH.
    + by apply swap_proper.
    + apply (ordered_below_swap h idx _ x y); try done.
      intros c a Hc Ha. by apply (Hmin c a y).
    + rewrite swap_length. lia.
Qed.

(** ** MinHeap: the three operations keep the heap ordered *)

Lemma heap_ordered_root l top :
  proper l → heap_ordered l → l !! 0%nat = Some top →
  ∀ e, e ∈ l → num_le top.2 e.2 = true.
Proof.
  intros Hpr Hord Htop e [i Hi]%list_elem_of_lookup.
  revert e Hi. induction (lt_wf i) as [i _ IH]. intros e Hi.
  destruct (decide (i = 0%nat)) as [->|Hne].
  - simplify_eq. apply num_le_refl. by eapply proper_lookup.
  - assert (0 < i)%nat as Hpos by lia. pose proof (parent_lt i Hpos) as Hp.
    destruct (lookup_lt_is_Some_2 l (parent i)) as [a Ha].
    { apply lookup_lt_Some in Hi. lia. }
    eapply num_le_trans; [by apply (IH (parent i) Hp a)|].
    by apply (Hord i a e).
Qed.

Lemma heap_ordered_nil : heap_ordered [].
Proof. intros i a b _ Ha. done. Qed.

Lemma insert_heap_perm v d h :
  MinHeap.heap (MinHeap.insert v d h) ≡ₚ (v, d) :: MinHeap.heap h.
Proof.
  unfold MinHeap.insert, MinHeap.bubbleUp. rewrite bubbleUp_go_perm. simpl.
  by rewrite Permutation_app_comm.
Qed.

Lemma insert_proper v d h :
  is_dist d → proper (MinHeap.heap h) →
  proper (MinHeap.heap (MinHeap.insert v d h)).
Proof.
  intros Hd Hpr. unfold proper. rewrite insert_heap_perm. by constructor.
Qed.

Lemma insert_ordered v d h :
  is_dist d → proper (MinHeap.heap h) → heap_ordered (MinHeap.heap h) →
  heap_ordered (MinHeap.heap (MinHeap.insert v d h)).
Proof.
  intros Hd Hpr Hord. unfold MinHeap.insert, MinHeap.bubbleUp.
  set (l := MinHeap.heap h). rewrite length_app. simpl.
  replace (length l + 1 - 1)%nat with (length l) by lia.
  apply bubbleUp_go_ordered; simpl.
  - apply Forall_app. split; [done|]. by repeat constructor.
  - split.
    + intros i a b Hi Hne Ha Hb.
      assert (i < length l)%nat as Hil.
      { apply lookup_lt_Some in Hb. rewrite length_app in Hb. simpl in Hb. lia. }
      pose proof (parent_lt i Hi).
      rewrite lookup_app_l in Ha by lia. rewrite lookup_app_l in Hb by lia.
      by apply (Hord i).
    + intros c a b Hj Hc Hpc Ha Hb. pose proof (parent_lt c Hc).
      apply lookup_lt_Some in Hb. rewrite length_app in Hb. simpl in Hb. lia.
  - done.
  - rewrite length_app. simpl. lia.
Qed.

Lemma delete_insert_same {A} (l : list A) i x :
  delete i (<[i:=x]> l) = delete i l.
Proof.
  revert i. induction l as [|y l IH]; intros [|i]; simpl; try done.
  by rewrite IH.
Qed.

Lemma decreaseKey_heap_perm v d h i cur :
  MinHeap.positions h !! v = Some i → MinHeap.heap h !! i = Some (v, cur) →
  ∃ rest, MinHeap.heap h ≡ₚ (v, cur) :: rest ∧
          MinHeap.heap (MinHeap.decreaseKey v d h) ≡ₚ (v, d) :: rest.
Proof.
  intros Hpos Hi. unfold MinHeap.decreaseKey, MinHeap.bubbleUp.
  rewrite Hpos, Hi.
  exists (delete i (MinHeap.heap h)). split.
  - by apply delete_Permutation.
  - rewrite bubbleUp_go_perm. simpl.
    rewrite (delete_Permutation (<[i:=(v, d)]> (MinHeap.heap h)) i (v, d)).
    + by rewrite delete_insert_same.
    + apply list_lookup_insert_eq. by eapply lookup_lt_Some.
Qed.

Lemma decreaseKey_proper v d h :
  is_dist d → proper (MinHeap.heap h) →
  proper (MinHeap.heap (MinHeap.decreaseKey v d h)).
Proof.
  intros Hd Hpr. unfold MinHeap.decreaseKey, MinHeap.bubbleUp.
  destruct (MinHeap.positions h !! v) as [i|]; [|done].
  destruct (MinHeap.heap h !! i) as [node|] eqn:Hi; [|done].
  unfold proper. rewrite bubbleUp_go_perm. simpl.
  apply Forall_insert; done.
Qed.

Lemma decreaseKey_ordered v d h i cur :
  proper (MinHeap.heap h) → heap_ordered (MinHeap.heap h) →
  MinHeap.positions h !! v = Some i → MinHeap.heap h !! i = Some (v, cur) →
  num_le d cur = true →
  heap_ordered (MinHeap.heap (MinHeap.decreaseKey v d h)).
Proof.
  intros Hpr Hord Hpos Hi Hle. unfold MinHeap.decreaseKey, MinHeap.bubbleUp.
  rewrite Hpos, Hi. simpl. set (l := MinHeap.heap h) in *.
  pose proof (lookup_lt_Some _ _ _ Hi) as Hil.
  apply bubbleUp_go_ordered; simpl.
  - apply Forall_insert; [done|]. by apply num_le_is_dist in Hle as [? _].
  - split.
    + intros j a b Hj Hne. rewrite (list_lookup_insert_ne _ i j) by done.
      destruct (decide (parent j = i)) as [Hp|Hp].
      * rewrite Hp, list_lookup_insert_eq by done. intros [= <-] Hb. simpl.
        eapply num_le_trans; [exact Hle|].
        apply (Hord j (v, cur) b); [done|by rewrite Hp|done].
      * rewrite list_lookup_insert_ne by done. by apply Hord.
    + intros c a b Hi0 Hc Hpc. pose proof (parent_lt _ Hi0).
      pose proof (parent_lt _ Hc).
      rewrite !list_lookup_insert_ne by lia. intros Ha Hb.
      eapply num_le_trans; [by apply (Hord i a (v, cur))|].
      apply (Hord c (v, cur) b); [done|by rewrite Hpc|done].
  - done.
  - by rewrite length_insert.
Qed.

(** The shape [extractMin] leaves the array in before [bubbleDown]. *)
Lemma extractMin_unfold h top mid lst :
  MinHeap.heap h = top :: mid ++ [lst] →
  MinHeap.extractMin h =
    (Some top.1,
     MinHeap.bubbleDown 0
       (MinHeap.mk (lst :: mid)
          (<[lst.1:=0%nat]> (delete top.1 (MinHeap.positions h))))).
Proof.
  intros Hh. unfold MinHeap.extractMin. rewrite Hh.
  change (top :: mid ++ [lst]) with ((top :: mid) ++ [lst]).
  rewrite removelast_last, last_last. done.
Qed.

Lemma extractMin_single h top :
  MinHeap.heap h = [top] →
  MinHeap.extractMin h =
    (Some top.1, MinHeap.mk [] (delete top.1 (MinHeap.positions h))).
Proof. intros Hh. unfold MinHeap.extractMin. by rewrite Hh. Qed.

Lemma list_split_last {A} (x : A) (l : list A) :
  l = [] ∨ ∃ mid lst, l = mid ++ [lst].
Proof.
  destruct l as [|y l]; [by left|right].
  destruct (exists_last (l:=y :: l)) as (mid & lst & ->); [done|]. eauto.
Qed.

Lemma extractMin_empty h :
  MinHeap.heap h = [] → MinHeap.extractMin h = (None, h).
Proof. intros Hh. unfold MinHeap.extractMin. by rewrite Hh. Qed.

Lemma extractMin_spec h top rest :
  MinHeap.heap h = top :: rest →
  proper (MinHeap.heap h) → heap_ordered (MinHeap.heap h) →
  ∃ h', MinHeap.extractMin h = (Some top.1, h') ∧
        MinHeap.heap h' ≡ₚ rest ∧
        proper (MinHeap.heap h') ∧ heap_ordered (MinHeap.heap h') ∧
        ∀ e, e ∈ MinHeap.heap h → num_le top.2 e.2 = true.
Proof.
  intros Hh Hpr Hord.
  assert (Hmin : ∀ e, e ∈ MinHeap.heap h → num_le top.2 e.2 = true).
  { apply heap_ordered_root; [done..|by rewrite Hh]. }
  destruct (list_split_last top rest) as [->|(mid & lst & ->)].
  - eexists. split; [by apply extractMin_single|]. simpl.
    split_and!; [done|by constructor|apply heap_ordered_nil|done].
  - eexists. split; [by apply extractMin_unfold|].
    unfold MinHeap.bubbleDown.
    set (h1 := MinHeap.mk (lst :: mid) _).
    assert (MinHeap.heap h1 = lst :: mid) as Hh1 by done.
    assert (proper (MinHeap.heap h1)) as Hpr'.
    { rewrite Hh1. rewrite Hh in Hpr. unfold proper in *.
      apply Forall_cons in Hpr as [_ Hpr].
      by rewrite Permutation_app_comm in Hpr. }
    split_and!; try done.
    + rewrite bubbleDown_go_perm, Hh1. by rewrite Permutation_app_comm.
    + unfold proper. by rewrite bubbleDown_go_perm.
    + apply bubbleDown_go_ordered; [done| |lia].
      split; [|intros; lia].
      intros i a b Hi Hp. rewrite Hh1. intros Ha Hb.
      assert (0 < parent i)%nat as Hp0 by lia.
      apply (Hord i a b Hi); rewrite Hh.
      * destruct (parent i) as [|p]; [lia|]. simpl in *.
        by apply lookup_app_l_Some.
      * destruct i as [|i]; [lia|]. simpl in *. by apply lookup_app_l_Some.
Qed.

(** ** MinHeap: the contract of extractMin (C6) *)

Lemma decreaseKey_ordered_slot v d h i node :
  proper (MinHeap.heap h) → heap_ordered (MinHeap.heap h) →
  MinHeap.positions h !! v = Some i → MinHeap.heap h !! i = Some node →
  num_le d node.2 = true →
  heap_ordered (MinHeap.heap (MinHeap.decreaseKey v d h)).
Proof.
  intros Hpr Hord Hpos Hi Hle. unfold MinHeap.decreaseKey, MinHeap.bubbleUp.
  rewrite Hpos, Hi. simpl. set (l := MinHeap.heap h) in *.
  pose proof (lookup_lt_Some _ _ _ Hi) as Hil.
  apply bubbleUp_go_ordered; simpl.
  - apply Forall_insert; [done|]. by apply num_le_is_dist in Hle as [? _].
  - split.
    + intros j a b Hj Hne. rewrite (list_lookup_insert_ne _ i j) by done.
      destruct (decide (parent j = i)) as [Hp|Hp].
      * rewrite Hp, list_lookup_insert_eq by done. intros [= <-] Hb. simpl.
        eapply num_le_trans; [exact Hle|].
        apply (Hord j node b); [done|by rewrite Hp|done].
      * rewrite list_lookup_insert_ne by done. by apply Hord.
    + intros c a b Hi0 Hc Hpc. pose proof (parent_lt _ Hi0).
      pose proof (parent_lt _ Hc).
      rewrite !list_lookup_insert_ne by lia. intros Ha Hb.
      eapply num_le_trans; [by apply (Hord i a node)|].
      apply (Hord c node b); [done|by rewrite Hpc|done].
  - done.
  - by rewrite length_insert.
Qed.

Lemma run_op_invariant h op :
  op_valid h op →
  proper (MinHeap.heap h) ∧ heap_ordered (MinHeap.heap h) →
  proper (MinHeap.heap (run_op h op)) ∧
  heap_ordered (MinHeap.heap (run_op h op)).
Proof.
  intros Hv [Hpr Hord]. destruct op as [v d|v d]; simpl in *.
  - split; [by apply insert_proper|by apply insert_ordered].
  - destruct (MinHeap.positions h !! v) as [i|] eqn:Hpos.
    2:{ unfold MinHeap.decreaseKey. by rewrite Hpos. }
    destruct (MinHeap.heap h !! i) as [node|] eqn:Hi.
    2:{ unfold MinHeap.decreaseKey. by rewrite Hpos, Hi. }
    split.
    + apply decreaseKey_proper; [|done]. by apply num_le_is_dist in Hv as [? _].
    + by eapply decreaseKey_ordered_slot.
Qed.

Lemma run_ops_invariant ops h :
  ops_valid h ops →
  proper (MinHeap.heap h) ∧ heap_ordered (MinHeap.heap h) →
  proper (MinHeap.heap (fold_left run_op ops h)) ∧
  heap_ordered (MinHeap.heap (fold_left run_op ops h)).
Proof.
  revert h. induction ops as [|op ops IH]; intros h Hv Hinv; [done|].
  destruct Hv as [Hop Hrest]. simpl. apply IH; [done|].
  by apply run_op_invariant.
Qed.

Lemma drain_sorted rounds h :
  proper (MinHeap.heap h) → heap_ordered (MinHeap.heap h) →
  (length (MinHeap.heap h) ≤ rounds)%nat →
  StronglySorted (λ a b, num_le a.2 b.2 = true) (drain rounds h) ∧
  drain rounds h ≡ₚ MinHeap.heap h.
Proof.
  revert h. induction rounds as [|r IH]; intros h Hpr Hord Hlen.
  { destruct (MinHeap.heap h); [|simpl in Hlen; lia]. split; [constructor|done]. }
  simpl. unfold peek.
  destruct (MinHeap.heap h) as [|top rest] eqn:Hh; simpl.
  { split; [constructor|done]. }
  rewrite <-Hh in Hpr, Hord.
  destruct (extractMin_spec h top rest Hh Hpr Hord)
    as (h' & -> & Hperm & Hpr' & Hord' & Hmin).
  destruct (IH h' Hpr' Hord') as [Hs Hp].
  { rewrite Hperm. simpl in Hlen. lia. }
  destruct top as [v d]. simpl in *. split.
  - constructor; [done|]. apply Forall_forall. intros e He.
    apply Hmin. rewrite Hh. right. by rewrite <-Hperm, <-Hp.
  - by rewrite Hp, Hperm.
Qed.

(** C6, as stated, fails: [decreaseKey] accepts a distance above the
    stored one, and after it [extractMin] can hand out a vertex that is
    not the minimum.  Here vertex [1] comes out first, stored under [20],
    while vertex [2] is stored under [7]; and the nodes come out in the
    order [20], [7], [9]. *)
Lemma extractMin_any_sequence_counterexample :
  let ops := [OpInsert 1 (Fin 5); OpInsert 2 (Fin 7); OpInsert 3 (Fin 9);
              OpDecreaseKey 1 (Fin 20)] in
  let h := fold_left run_op ops MinHeap.empty in
  MinHeap.heap h = [(1%nat, Fin 20); (2%nat, Fin 7); (3%nat, Fin 9)] ∧
  (MinHeap.extractMin h).1 = Some 1%nat ∧
  drain 3 h = [(1%nat, Fin 20); (2%nat, Fin 7); (3%nat, Fin 9)] ∧
  ¬ StronglySorted (λ a b, num_le a.2 b.2 = true) (drain 3 h) ∧
  ¬ (∃ v d h', MinHeap.extractMin h = (Some v, h') ∧
               MinHeap.heap h ≡ₚ (v, d) :: MinHeap.heap h' ∧
               ∀ e, e ∈ MinHeap.heap h → num_le d e.2 = true).
Proof.
  intros ops h.
  assert (MinHeap.heap h = [(1%nat, Fin 20); (2%nat, Fin 7); (3%nat, Fin 9)])
    as Hh by (by vm_compute).
  assert (drain 3 h = [(1%nat, Fin 20); (2%nat, Fin 7); (3%nat, Fin 9)])
    as Hd by (by vm_compute).
  split_and!; [done|by vm_compute|done| |].
  - rewrite Hd. intros Hs. apply StronglySorted_inv in Hs as [_ Hall].
    apply Forall_cons in Hall as [Hle _]. by vm_compute in Hle.
  - intros (v & d & h' & He & Hperm & Hmin).
    assert (MinHeap.extractMin h
            = (Some 1%nat, (MinHeap.extractMin h).2)) as He'.
    { by vm_compute. }
    rewrite He' in He. injection He as <- <-.
    assert ((1%nat, d) ∈ MinHeap.heap h) as Hin.
    { rewrite Hperm. by left. }
    rewrite Hh in Hin.
    assert (d = Fin 20) as ->.
    { apply elem_of_cons in Hin as [Heq|Hin]; [by injection Heq|].
      apply elem_of_cons in Hin as [Heq|Hin]; [done|].
      apply elem_of_cons in Hin as [Heq|Hin]; [done|].
      by apply elem_of_nil in Hin. }
    specialize (Hmin (2%nat, Fin 7)). rewrite Hh in Hmin.
    assert (num_le (Fin 20) (Fin 7) = true) as Hle.
    { apply Hmin. right. by left. }
    by vm_compute in Hle.
Qed.

(** C6, amended: after any sequence of [insert] and [decreaseKey]
    operations in which no inserted distance is [NaN] and no
    [decreaseKey] raises the distance of the node it overwrites (a
    [decreaseKey] for a vertex without a node, which does nothing, and
    repeated inserts of one vertex are allowed), [extractMin] on a
    non-empty heap returns a vertex whose stored distance is at most every
    stored distance; and extracting until the heap is empty hands out
    every node, in non-decreasing order of distance.  A sequence of
    inserts alone meets the condition as soon as no distance is [NaN]. *)
Theorem extractMin_returns_minimum (ops : list heap_op) :
  ops_valid MinHeap.empty ops →
  let h := fold_left run_op ops MinHeap.empty in
  (MinHeap.heap h ≠ [] →
   ∃ v d h', MinHeap.extractMin h = (Some v, h') ∧
             MinHeap.heap h ≡ₚ (v, d) :: MinHeap.heap h' ∧
             ∀ e, e ∈ MinHeap.heap h → num_le d e.2 = true) ∧
  StronglySorted (λ a b, num_le a.2 b.2 = true) (drain (MinHeap.size h) h) ∧
  drain (MinHeap.size h) h ≡ₚ MinHeap.heap h.
Proof.
  intros Hv h.
  destruct (run_ops_invariant ops MinHeap.empty Hv) as [Hpr Hord].
  { split; [constructor|apply heap_ordered_nil]. }
  fold h in Hpr, Hord. split.
  - intros Hne. destruct (MinHeap.heap h) as [|[v d] rest] eqn:Hh; [done|].
    rewrite <-Hh in Hpr, Hord.
    destruct (extractMin_spec h (v, d) rest Hh Hpr Hord)
      as (h' & He & Hperm & _ & _ & Hmin).
    exists v, d, h'. split_and!; [done|by rewrite Hperm|].
    intros e He'. apply Hmin. by rewrite Hh.
  - by apply drain_sorted.
Qed.

Lemma extractMin_returns_minimum_witness :
  let ops := [OpInsert 1 (Fin 5); OpInsert 2 (Fin 3); OpInsert 2 (Fin 8);
              OpDecreaseKey 7 (Fin 0); OpInsert 3 PInf;
              OpDecreaseKey 1 (Fin 1)] in
  ops_valid MinHeap.empty ops ∧
  drain 4 (fold_left run_op ops MinHeap.empty) =
    [(1%nat, Fin 1); (2%nat, Fin 3); (2%nat, Fin 8); (3%nat, PInf)] ∧
  StronglySorted (λ a b, num_le a.2 b.2 = true)
    (drain 4 (fold_left run_op ops MinHeap.empty)).
Proof.
  intros ops.
  assert (ops_valid MinHeap.empty ops) as Hv.
  { cbn [ops_valid ops op_valid]. split_and!; try done; by vm_compute. }
  split; [exact Hv|]. split; [by vm_compute|].
  exact (proj1 (proj2 (extractMin_returns_minimum ops Hv))).
Defined.

(** ** MinHeap: the position map *)

Lemma swap_positions_sound h i j :
  positions_sound h → positions_sound (MinHeap.swap i j h).
Proof.
  intros Hs. unfold MinHeap.swap.
  destruct (MinHeap.heap h !! i) as [a|] eqn:Hi; [|done].
  destruct (MinHeap.heap h !! j) as [b|] eqn:Hj; [|done].
  pose proof (lookup_lt_Some _ _ _ Hi) as Hil.
  pose proof (lookup_lt_Some _ _ _ Hj) as Hjl.
  intros v k. simpl. rewrite lookup_insert.
  destruct (decide (a.1 = v)) as [<-|Hva].
  - intros [= <-]. exists a.2. rewrite list_lookup_insert_eq
      by (by rewrite length_insert). by destruct a.
  - rewrite lookup_insert. destruct (decide (b.1 = v)) as [<-|Hvb].
    + intros [= <-]. exists b.2.
      destruct (decide (i = j)) as [->|Hij]; [naive_solver|].
      rewrite list_lookup_insert_ne by done.
      rewrite list_lookup_insert_eq by done. by destruct b.
    + intros Hk. destruct (Hs v k Hk) as [d Hd]. exists d.
      rewrite !list_lookup_insert_ne; [done|naive_solver..].
Qed.

Lemma swap_positions_ok h i j :
  positions_ok h → positions_ok (MinHeap.swap i j h).
Proof.
  intros [Hnd Hiff]. split.
  { by rewrite swap_perm. }
  intros v k. split.
  { apply swap_positions_sound. intros v' k'. apply Hiff. }
  unfold MinHeap.swap.
  destruct (MinHeap.heap h !! i) as [a|] eqn:Hi; [|apply Hiff].
  destruct (MinHeap.heap h !! j) as [b|] eqn:Hj; [|apply Hiff].
  pose proof (lookup_lt_Some _ _ _ Hi) as Hil.
  pose proof (lookup_lt_Some _ _ _ Hj) as Hjl.
  assert (Hinj : ∀ p q x y, MinHeap.heap h !! p = Some x →
            MinHeap.heap h !! q = Some y → x.1 = y.1 → p = q).
  { intros p q x y Hp Hq Hxy.
    eapply (NoDup_lookup _ p q x.1 Hnd); rewrite list_lookup_fmap.
    - by rewrite Hp.
    - by rewrite Hq, Hxy. }
  simpl. intros [d Hd].
  destruct (decide (k = j)) as [->|Hkj].
  - rewrite list_lookup_insert_eq in Hd by (by rewrite length_insert).
    simplify_eq. by rewrite lookup_insert_eq.
  - rewrite list_lookup_insert_ne in Hd by done.
    destruct (decide (k = i)) as [->|Hki].
    + rewrite list_lookup_insert_eq in Hd by done. simplify_eq.
      rewrite lookup_insert_ne.
      * by rewrite lookup_insert_eq.
      * intros Heq. apply Hkj. by eapply Hinj.
    + rewrite list_lookup_insert_ne in Hd by done.
      rewrite !lookup_insert_ne.
      * apply Hiff. eauto.
      * intros Heq.
        first [ apply Hki; symmetry; by eapply (Hinj i k a (v, d))
              | apply Hkj; symmetry; by eapply (Hinj j k b (v, d)) ].
      * intros Heq.
        first [ apply Hki; symmetry; by eapply (Hinj i k a (v, d))
              | apply Hkj; symmetry; by eapply (Hinj j k b (v, d)) ].
Qed.

Lemma bubbleUp_go_positions_sound rounds idx h :
  positions_sound h → positions_sound (MinHeap.bubbleUp_go rounds idx h).
Proof.
  revert idx h. induction rounds as [|r IH]; intros idx h Hs; simpl; [done|].
  destruct (Nat.ltb 0 idx); [|done].
  destruct (MinHeap.dist_le_at h _ idx); [done|].
  by apply IH, swap_positions_sound.
Qed.

Lemma bubbleUp_go_positions_ok rounds idx h :
  positions_ok h → positions_ok (MinHeap.bubbleUp_go rounds idx h).
Proof.
  revert idx h. induction rounds as [|r IH]; intros idx h Hs; simpl; [done|].
  destruct (Nat.ltb 0 idx); [|done].
  destruct (MinHeap.dist_le_at h _ idx); [done|].
  by apply IH, swap_positions_ok.
Qed.

Lemma bubbleDown_go_positions_sound rounds idx h :
  positions_sound h → positions_sound (MinHeap.bubbleDown_go rounds idx h).
Proof.
  revert idx h. induction rounds as [|r IH]; intros idx h Hs; simpl; [done|].
  destruct (Nat.eqb _ idx); [done|].
  by apply IH, swap_positions_sound.
Qed.

Lemma bubbleDown_go_positions_ok rounds idx h :
  positions_ok h → positions_ok (MinHeap.bubbleDown_go rounds idx h).
Proof.
  revert idx h. induction rounds as [|r IH]; intros idx h Hs; simpl; [done|].
  destruct (Nat.eqb _ idx); [done|].
  by apply IH, swap_positions_ok.
Qed.

Lemma positions_ok_sound h : positions_ok h → positions_sound h.
Proof. intros [_ H] v i. apply H. Qed.

Lemma positions_sound_empty : positions_sound MinHeap.empty.
Proof. intros v i. simpl. by rewrite lookup_empty. Qed.

Lemma positions_ok_empty : positions_ok MinHeap.empty.
Proof.
  split; [constructor|]. intros v i. simpl. rewrite lookup_empty.
  split; [done|]. by intros [d ?].
Qed.

Lemma insert_positions_sound v d h :
  positions_sound h → positions_sound (MinHeap.insert v d h).
Proof.
  intros Hs. unfold MinHeap.insert, MinHeap.bubbleUp.
  apply bubbleUp_go_positions_sound. intros v' k. simpl.
  rewrite length_app. simpl.
  replace (length (MinHeap.heap h) + 1 - 1)%nat
    with (length (MinHeap.heap h)) by lia.
  rewrite lookup_insert. destruct (decide (v = v')) as [<-|Hne].
  - intros [= <-]. exists d. by rewrite lookup_app_r, Nat.sub_diag.
  - intros Hk. destruct (Hs v' k Hk) as [d' Hd']. exists d'.
    by apply lookup_app_l_Some.
Qed.

Lemma insert_positions_ok v d h :
  v ∉ (MinHeap.heap h).*1 →
  positions_ok h → positions_ok (MinHeap.insert v d h).
Proof.
  intros Hfresh [Hnd Hiff]. unfold MinHeap.insert, MinHeap.bubbleUp.
  apply bubbleUp_go_positions_ok. split; simpl.
  { rewrite fmap_app. simpl. apply NoDup_app. split_and!; [done| |].
    - intros x Hx ->%list_elem_of_singleton. done.
    - apply NoDup_singleton. }
  intros v' k. split.
  { rewrite length_app. simpl.
    replace (length (MinHeap.heap h) + 1 - 1)%nat
      with (length (MinHeap.heap h)) by lia.
    rewrite lookup_insert. destruct (decide (v = v')) as [<-|Hne].
    - intros [= <-]. exists d. by rewrite lookup_app_r, Nat.sub_diag.
    - intros Hk. apply Hiff in Hk as [d' Hd']. exists d'.
      by apply lookup_app_l_Some. }
  intros [d' Hd']. rewrite length_app. simpl.
  replace (length (MinHeap.heap h) + 1 - 1)%nat
    with (length (MinHeap.heap h)) by lia.
  apply lookup_app_Some in Hd' as [Hd'|[Hk Hd']].
  - rewrite lookup_insert_ne; [apply Hiff; eauto|].
    intros ->. apply Hfresh. apply list_elem_of_fmap.
    exists (v', d'). split; [done|]. by eapply list_elem_of_lookup_2.
  - destruct (k - length (MinHeap.heap h))%nat as [|?] eqn:Hk'; [|done].
    simpl in Hd'. simplify_eq. rewrite lookup_insert_eq. f_equal. lia.
Qed.

Lemma decreaseKey_positions_sound v d h :
  positions_sound h → positions_sound (MinHeap.decreaseKey v d h).
Proof.
  intros Hs. unfold MinHeap.decreaseKey, MinHeap.bubbleUp.
  destruct (MinHeap.positions h !! v) as [i|] eqn:Hpos; [|done].
  destruct (MinHeap.heap h !! i) as [node|] eqn:Hi; [|done].
  apply bubbleUp_go_positions_sound. intros v' k Hk. simpl in *.
  destruct (Hs v' k Hk) as [d' Hd'].
  destruct (decide (k = i)) as [->|Hne].
  - exists d. rewrite list_lookup_insert_eq by (by eapply lookup_lt_Some).
    by simplify_eq.
  - exists d'. by rewrite list_lookup_insert_ne.
Qed.

Lemma decreaseKey_positions_ok v d h :
  positions_ok h → positions_ok (MinHeap.decreaseKey v d h).
Proof.
  intros [Hnd Hiff]. unfold MinHeap.decreaseKey, MinHeap.bubbleUp.
  destruct (MinHeap.positions h !! v) as [i|] eqn:Hpos; [|done].
  destruct (MinHeap.heap h !! i) as [node|] eqn:Hi; [|done].
  apply bubbleUp_go_positions_ok.
  assert ((<[i:=(node.1, d)]> (MinHeap.heap h)).*1 = (MinHeap.heap h).*1) as Hk.
  { rewrite list_fmap_insert. simpl. apply list_insert_id.
    by rewrite list_lookup_fmap, Hi. }
  split; simpl; [by rewrite Hk|].
  intros v' k. rewrite Hiff. split; intros [d' Hd'].
  - destruct (decide (k = i)) as [->|Hne].
    + exists d. rewrite list_lookup_insert_eq by (by eapply lookup_lt_Some).
      by simplify_eq.
    + exists d'. by rewrite list_lookup_insert_ne.
  - destruct (decide (k = i)) as [->|Hne].
    + rewrite list_lookup_insert_eq in Hd' by (by eapply lookup_lt_Some).
      simplify_eq. exists node.2. by destruct node.
    + rewrite list_lookup_insert_ne in Hd' by done. eauto.
Qed.
Lemma extractMin_positions_sound h :
  positions_sound h → positions_sound (MinHeap.extractMin h).2.
Proof.
  intros Hs. destruct (MinHeap.heap h) as [|top rest] eqn:Hh.
  { by rewrite extractMin_empty. }
  destruct (list_split_last top rest) as [->|(mid & lst & ->)].
  - rewrite (extractMin_single _ _ Hh). simpl. intros v k. simpl.
    intros [Hne Hk]%lookup_delete_Some.
    destruct (Hs v k Hk) as [d Hd]. rewrite Hh in Hd.
    destruct k; by simplify_eq/=.
  - rewrite (extractMin_unfold _ _ _ _ Hh). simpl.
    apply bubbleDown_go_positions_sound. intros v k. simpl.
    rewrite lookup_insert. destruct (decide (lst.1 = v)) as [<-|Hne].
    { intros [= <-]. exists lst.2. by destruct lst. }
    intros [Hne' Hk]%lookup_delete_Some.
    destruct (Hs v k Hk) as [d Hd]. rewrite Hh in Hd. exists d.
    destruct k as [|k]; simplify_eq/=; try done.
    apply lookup_app_Some in Hd as [Hd|[_ Hd]]; [done|].
    destruct (k - length mid)%nat; by simplify_eq/=.
Qed.

Lemma extractMin_positions_ok h :
  positions_ok h → positions_ok (MinHeap.extractMin h).2.
Proof.
  intros Hok. destruct (MinHeap.heap h) as [|top rest] eqn:Hh.
  { by rewrite extractMin_empty. }
  destruct Hok as [Hnd Hiff].
  destruct (list_split_last top rest) as [->|(mid & lst & ->)].
  - rewrite (extractMin_single _ _ Hh). split; simpl; [constructor|].
    intros v k. split; [|by intros [d ?]].
    intros [Hne Hk]%lookup_delete_Some.
    apply Hiff in Hk as [d Hd]. rewrite Hh in Hd.
    destruct k; by simplify_eq/=.
  - rewrite (extractMin_unfold _ _ _ _ Hh). simpl.
    apply bubbleDown_go_positions_ok.
    rewrite Hh in Hnd. simpl in Hnd. rewrite fmap_app in Hnd. simpl in Hnd.
    apply NoDup_cons in Hnd as [Htop Hnd].
    apply NoDup_app in Hnd as (Hmid & Hdisj & _).
    assert (lst.1 ∉ mid.*1) as Hlst.
    { intros Hin. apply (Hdisj _ Hin). by left. }
    assert (top.1 ≠ lst.1) as Htl.
    { intros Heq. apply Htop. rewrite Heq. apply elem_of_app. right. by left. }
    split; simpl.
    { by apply NoDup_cons. }
    intros v k. rewrite lookup_insert.
    destruct (decide (lst.1 = v)) as [<-|Hne].
    + split.
      * intros [= <-]. exists lst.2. by destruct lst.
      * intros [d Hd]. destruct k as [|k]; [done|]. simpl in Hd.
        exfalso. apply Hlst. apply list_elem_of_fmap. exists (lst.1, d).
        split; [done|]. by eapply list_elem_of_lookup_2.
    + rewrite lookup_delete_Some, Hiff, Hh. split.
      * intros [Hne' [d Hd]]. exists d.
        destruct k as [|k]; simplify_eq/=; try done.
        apply lookup_app_Some in Hd as [Hd|[_ Hd]]; [done|].
        destruct (k - length mid)%nat; by simplify_eq/=.
      * intros [d Hd]. destruct k as [|k]; simplify_eq/=; try done.
        split.
        -- intros <-. apply Htop. apply elem_of_app. left.
           apply list_elem_of_fmap. exists (top.1, d). split; [done|].
           by eapply list_elem_of_lookup_2.
        -- exists d. by apply lookup_app_l_Some.
Qed.

Lemma contains_spec h v :
  positions_ok h → MinHeap.contains v h = true ↔ v ∈ (MinHeap.heap h).*1.
Proof.
  intros [_ Hiff]. unfold MinHeap.contains. split.
  - destruct (MinHeap.positions h !! v) as [i|] eqn:Hpos; [|done]. intros _.
    apply Hiff in Hpos as [d Hd]. apply list_elem_of_fmap. exists (v, d).
    split; [done|]. by eapply list_elem_of_lookup_2.
  - intros [[v' d] [-> [i Hi]%list_elem_of_lookup]]%list_elem_of_fmap.
    simpl. assert (MinHeap.positions h !! v' = Some i) as -> by (apply Hiff; eauto).
    done.
Qed.

(** ** decreaseKey outside its contract (C7) *)

(** C7, as stated, fails: [decreaseKey] on a vertex that is not in the heap
    returns normally and leaves the heap as it was, and [decreaseKey] with
    a larger distance returns normally after overwriting the stored
    distance, so that the next [extractMin] hands out a vertex that is not
    the minimum. *)
Lemma decreaseKey_fails_loudly_counterexample :
  let h := MinHeap.insert 2 (Fin 2) (MinHeap.insert 1 (Fin 1) MinHeap.empty) in
  MinHeap.contains 7 h = false ∧
  decreaseKey_call 7 (Fin 0) h = Returned h ∧
  MinHeap.heap h = [(1%nat, Fin 1); (2%nat, Fin 2)] ∧
  num_gt (Fin 10) (Fin 1) = true ∧
  (∃ h', decreaseKey_call 1 (Fin 10) h = Returned h' ∧
         MinHeap.heap h' = [(1%nat, Fin 10); (2%nat, Fin 2)] ∧
         (MinHeap.extractMin h').1 = Some 1%nat).
Proof.
  intros h. split_and!; try by vm_compute.
  eexists. split; [by vm_compute|]. split; by vm_compute.
Qed.

(** C7, amended: on a heap whose position map is sound (every heap built by
    the container's own operations), [decreaseKey] never raises.  For a
    vertex that is not in the heap it is a silent no-op; for a vertex of the
    heap it overwrites the stored distance with [newDistance], whether
    smaller or larger, and only bubbles the slot up. *)
Theorem decreaseKey_never_raises (v : nat) (d : num) (h : MinHeap.t) :
  positions_sound h →
  decreaseKey_call v d h = Returned (MinHeap.decreaseKey v d h) ∧
  (MinHeap.contains v h = false → MinHeap.decreaseKey v d h = h) ∧
  (∀ i cur, MinHeap.positions h !! v = Some i →
            MinHeap.heap h !! i = Some (v, cur) →
            ∃ rest, MinHeap.heap h ≡ₚ (v, cur) :: rest ∧
                    MinHeap.heap (MinHeap.decreaseKey v d h) ≡ₚ (v, d) :: rest).
Proof.
  intros Hs. split_and!.
  - unfold decreaseKey_call.
    destruct (MinHeap.positions h !! v) as [i|] eqn:Hpos; [|done].
    destruct (Hs v i Hpos) as [cur ->]. done.
  - unfold MinHeap.contains, MinHeap.decreaseKey.
    by destruct (MinHeap.positions h !! v).
  - intros i cur Hpos Hi. by apply (decreaseKey_heap_perm v d h i cur).
Qed.

Lemma decreaseKey_never_raises_witness :
  let h := MinHeap.insert 2 (Fin 2) (MinHeap.insert 1 (Fin 1) MinHeap.empty) in
  positions_sound h ∧
  decreaseKey_call 7 (Fin 0) h = Returned (MinHeap.decreaseKey 7 (Fin 0) h) ∧
  MinHeap.decreaseKey 7 (Fin 0) h = h.
Proof.
  intros h.
  assert (positions_sound h) as Hs.
  { do 2 apply insert_positions_sound. apply positions_sound_empty. }
  destruct (decreaseKey_never_raises 7 (Fin 0) h Hs) as (H1 & H2 & _).
  split; [exact Hs|]. split; [exact H1|]. apply H2. reflexivity.
Defined.

(** ** Malformed input (C8) *)

Lemma in_two_vertex_graph to w :
  (to, w) ∈ neighbors (two_vertex_graph to w) 0.
Proof.
  unfold two_vertex_graph, addEdge, neighbors. simpl.
  rewrite lookup_insert_ne by done. rewrite lookup_insert_eq. simpl.
  rewrite lookup_insert_eq. simpl. by left.
Qed.

(** C8, as stated, fails: with a negative weight, with an edge to a vertex
    that does not exist, and with a source that is not a vertex, [solve]
    runs and returns distances; nothing is rejected.  The negative weight
    ends up in the distance table as it is. *)
Lemma invalid_input_rejected_counterexample :
  (invalid_input (two_vertex_graph 1 (-5)) 0 ∧
   ∃ r, NewSSSP.solve (two_vertex_graph 1 (-5)) 2 2 1 10 0 = Some r ∧
        NewSSSP.distances r !! 1%nat = Some (Fin (-5))) ∧
  (invalid_input (two_vertex_graph 7 3) 0 ∧
   ∃ r, NewSSSP.solve (two_vertex_graph 7 3) 2 2 1 10 0 = Some r ∧
        NewSSSP.distances r !! 0%nat = Some (Fin 0) ∧
        NewSSSP.distances r !! 1%nat = Some PInf ∧
        NewSSSP.distances r !! 7%nat = None) ∧
  (invalid_input (two_vertex_graph 1 3) 5 ∧
   ∃ r, NewSSSP.solve (two_vertex_graph 1 3) 2 2 1 10 5 = Some r ∧
        NewSSSP.distances r !! 0%nat = Some PInf ∧
        NewSSSP.distances r !! 1%nat = Some PInf).
Proof.
  split_and!.
  - left. exists 0%nat, 1%nat, (-5). split; [apply in_two_vertex_graph|lia].
  - eexists. split; [by vm_compute|]. by vm_compute.
  - left. exists 0%nat, 7%nat, 3. split; [apply in_two_vertex_graph|].
    right. vm_compute. lia.
  - eexists. split; [by vm_compute|]. split_and!; by vm_compute.
  - right. vm_compute. lia.
  - eexists. split; [by vm_compute|]. split_and!; by vm_compute.
Qed.

Section Unvalidated.

Lemma rd_None (d : gmap nat num) v : d !! v = None → rd d v = NaN.
Proof. unfold rd. by intros ->. Qed.

Lemma num_le_NaN_r a : num_le a NaN = false.
Proof. by destruct a. Qed.

Lemma num_lt_NaN_r a : num_lt a NaN = false.
Proof. by destruct a. Qed.

(** C8, amended: the solver does not validate its input and has no
    "invalid input" outcome.  An edge whose target has no entry in the
    distance table is skipped by each of the three relaxation steps, and a
    weight is added to the distance of the tail as it is, negative or
    not. *)
Theorem unvalidated_edges (B Bi : num) (u v : nat) (w : Z)
    (st : NewSSSP.State) (heap : MinHeap.t) (inHeap : gset nat)
    (nl W : list nat) (frontier : list (nat * num)) :
  (NewSSSP.dist st !! v = None →
   NewSSSP.findPivots_edge B u (st, nl, W) (v, w) = (st, nl, W) ∧
   NewSSSP.baseCase_edge B u (heap, inHeap, st) (v, w) = (heap, inHeap, st) ∧
   NewSSSP.relaxEdges_edge Bi B u (frontier, st) (v, w) = (frontier, st)) ∧
  (∀ a, rd (NewSSSP.dist st) u = Fin a → rd (NewSSSP.dist st) v = PInf →
     rd (NewSSSP.dist
           (NewSSSP.baseCase_edge PInf u (heap, inHeap, st) (v, w)).2) v
     = Fin (a + w)).
Proof.
  split.
  - intros Hv%rd_None.
    unfold NewSSSP.findPivots_edge, NewSSSP.baseCase_edge,
      NewSSSP.relaxEdges_edge. simpl.
    by rewrite Hv, num_le_NaN_r, num_lt_NaN_r.
  - intros a Hu Hv. unfold NewSSSP.baseCase_edge. simpl.
    rewrite Hu, Hv. simpl.
    destruct (bool_decide _); simpl; unfold rd; by rewrite lookup_insert_eq.
Qed.
End Unvalidated.

Lemma unvalidated_edges_witness :
  (NewSSSP.dist (NewSSSP.init (two_vertex_graph 7 3)) !! 7%nat = None ∧
   NewSSSP.relaxEdges_edge PInf PInf 0
     ([], NewSSSP.seeded (two_vertex_graph 7 3) 0) (7%nat, 3)
   = ([], NewSSSP.seeded (two_vertex_graph 7 3) 0)) ∧
  (rd (NewSSSP.dist (NewSSSP.seeded (two_vertex_graph 1 (-5)) 0)) 0 = Fin 0 ∧
   rd (NewSSSP.dist (NewSSSP.seeded (two_vertex_graph 1 (-5)) 0)) 1 = PInf ∧
   rd (NewSSSP.dist
         (NewSSSP.baseCase_edge PInf 0
            (MinHeap.empty, ∅, NewSSSP.seeded (two_vertex_graph 1 (-5)) 0)
            (1%nat, -5)).2) 1 = Fin (0 + -5)).
Proof.
  split.
  - split; [reflexivity|].
    refine (proj2 (proj2 (proj1
      (unvalidated_edges PInf PInf 0 7 3
         (NewSSSP.seeded (two_vertex_graph 7 3) 0) MinHeap.empty ∅ [] [] [])
      _))).
    reflexivity.
  - split; [reflexivity|]. split; [reflexivity|].
    refine (proj2
      (unvalidated_edges PInf PInf 0 1 (-5)
         (NewSSSP.seeded (two_vertex_graph 1 (-5)) 0) MinHeap.empty ∅ [] [] [])
      0 _ _); reflexivity.
Defined.

(** ** Loops *)

Lemma fold_left_invariant {A B} (P : A → Prop) (f : A → B → A) l a :
  P a → (∀ acc x, x ∈ l → P acc → P (f acc x)) → P (fold_left f l a).
Proof.
  revert a. induction l as [|x l IH]; intros a Ha Hstep; simpl; [done|].
  apply IH.
  - apply Hstep; [by left|done].
  - intros acc y Hy. apply Hstep. by right.
Qed.

Lemma isEmpty_true h : MinHeap.isEmpty h = true ↔ MinHeap.heap h = [].
Proof.
  unfold MinHeap.isEmpty. rewrite Nat.eqb_eq. by destruct (MinHeap.heap h).
Qed.

Lemma extractMin_perm h top rest :
  MinHeap.heap h = top :: rest →
  ∃ h', MinHeap.extractMin h = (Some top.1, h') ∧ MinHeap.heap h' ≡ₚ rest.
Proof.
  intros Hh. destruct (list_split_last top rest) as [->|(mid & lst & ->)].
  - eexists. split; [by apply extractMin_single|done].
  - eexists. split; [by apply extractMin_unfold|].
    unfold MinHeap.bubbleDown. rewrite bubbleDown_go_perm. simpl.
    by rewrite Permutation_app_comm.
Qed.

Lemma extractMin_Some h u h1 :
  MinHeap.extractMin h = (Some u, h1) →
  ∃ d, MinHeap.heap h ≡ₚ (u, d) :: MinHeap.heap h1.
Proof.
  destruct (MinHeap.heap h) as [|[v d] rest] eqn:Hh.
  { by rewrite extractMin_empty. }
  destruct (extractMin_perm h (v, d) rest Hh) as (h' & -> & Hp).
  intros [= <- <-]. exists d. by rewrite Hp.
Qed.

Lemma decreaseKey_vertices v d h :
  (MinHeap.heap (MinHeap.decreaseKey v d h)).*1 ≡ₚ (MinHeap.heap h).*1.
Proof.
  unfold MinHeap.decreaseKey, MinHeap.bubbleUp.
  destruct (MinHeap.positions h !! v) as [i|]; [|done].
  destruct (MinHeap.heap h !! i) as [node|] eqn:Hi; [|done].
  rewrite bubbleUp_go_perm. simpl. rewrite list_fmap_insert. simpl.
  rewrite list_insert_id; [done|]. by rewrite list_lookup_fmap, Hi.
Qed.

Section BaseCaseLoop.
Variable graph : Graph.
Variable B : num.
Variable P : MinHeap.t → gset nat → list nat → NewSSSP.State → Prop.

Hypothesis P_visit : ∀ heap inHeap U st u heap1,
  MinHeap.extractMin heap = (Some u, heap1) →
  P heap inHeap U st →
  ∀ heap2 inHeap2 st2,
    NewSSSP.baseCase_visit graph B u (heap1, inHeap, st)
      = (heap2, inHeap2, st2) →
    P heap2 inHeap2 (U ++ [u]) st2.

(** A property kept by every round of the base-case loop holds when the
    loop ends, with the heap empty. *)
Lemma baseCase_loop_invariant fuel heap inHeap U st U' st' :
  P heap inHeap U st →
  NewSSSP.baseCase_loop graph fuel B heap inHeap U st = Some (U', st') →
  ∃ heap' inHeap', MinHeap.heap heap' = [] ∧ P heap' inHeap' U' st'.
Proof.
  revert heap inHeap U st.
  induction fuel as [|f IH]; intros heap inHeap U st HP;
    cbn [NewSSSP.baseCase_loop];
    destruct (MinHeap.isEmpty heap) eqn:He.
  - intros [= <- <-]. apply isEmpty_true in He. eauto.
  - done.
  - intros [= <- <-]. apply isEmpty_true in He. eauto.
  - destruct (MinHeap.extractMin heap) as [[u|] heap1] eqn:Hx.
    + destruct (NewSSSP.baseCase_visit graph B u (heap1, inHeap, st))
        as [[heap2 inHeap2] st2] eqn:Hv.
      apply IH. by eapply P_visit.
    + destruct (MinHeap.heap heap) as [|top rest] eqn:Hh.
      { apply isEmpty_true in Hh. congruence. }
      destruct (extractMin_perm heap top rest Hh) as (h' & Hx' & _).
      congruence.
Qed.
End BaseCaseLoop.

(** ** relaxEdges in the pull loop (C5) *)


Section RelaxEdges.
Variable graph : Graph.
Variables k t : nat.




End RelaxEdges.


Section PullLoop.
Variable graph : Graph.
Variables k t : nat.
Variable rec : num → list nat → NewSSSP.State →
               option (num * list nat * NewSSSP.State).
Variable l : nat.
Variable B : num.
Variable P : list (nat * num) → list nat → num → NewSSSP.State → Prop.

Hypothesis P_round : ∀ frontier U B_prime st Si Bi frontier1 subB subU st1,
  P frontier U B_prime st →
  (N.of_nat (length U) < NewSSSP.cap k t l)%N →
  AdaptiveFrontier.pull (NewSSSP.pullCount t l) frontier
    = (Si, Bi, frontier1) →
  Si ≠ [] →
  rec Bi Si st = Some (subB, subU, st1) →
  ∀ frontier2 st2,
    NewSSSP.relaxEdges graph subU Bi B frontier1 st1 = (frontier2, st2) →
    P frontier2 (U ++ subU) (num_min B_prime subB) st2.

(** A property kept by every round of the pull loop holds when the loop
    ends; the loop ends on an empty frontier, on a full [U], or on an
    empty pull. *)
Lemma BMSSP_loop_invariant fuel frontier U B_prime st U' B_prime' st' :
  P frontier U B_prime st →
  NewSSSP.BMSSP_loop graph k t rec fuel l B frontier U B_prime st
    = Some (U', B_prime', st') →
  ∃ frontier',
    P frontier' U' B_prime' st' ∧
    (frontier' = [] ∨ (NewSSSP.cap k t l ≤ N.of_nat (length U'))%N ∨
     (AdaptiveFrontier.pull (NewSSSP.pullCount t l) frontier').1.1 = []).
Proof.
  revert frontier U B_prime st.
  induction fuel as [|f IH]; intros frontier U B_prime st HP;
    cbn [NewSSSP.BMSSP_loop];
    destruct (N.ltb_spec (N.of_nat (length U)) (NewSSSP.cap k t l))
      as [Hcap|Hcap]; simpl;
    try (intros [= <- <- <-]; exists frontier; split; [done|]; right; by left).
  - destruct frontier; [|done]. intros [= <- <- <-]. eauto.
  - destruct (AdaptiveFrontier.hasElements frontier) eqn:Hne.
    2:{ intros [= <- <- <-]. exists frontier. split; [done|]. left.
        by destruct frontier. }
    destruct (AdaptiveFrontier.pull _ frontier) as [[Si Bi] frontier1] eqn:Hp.
    destruct (Nat.eqb_spec (length Si) 0) as [HSi|HSi].
    { intros [= <- <- <-]. exists frontier. split; [done|]. right. right.
      rewrite Hp. simpl. by destruct Si. }
    destruct (rec Bi Si st) as [[[subB subU] st1]|] eqn:Hrec; [|done].
    destruct (NewSSSP.relaxEdges graph subU Bi B frontier1 st1)
      as [frontier2 st2] eqn:Hrel.
    assert (P frontier2 (U ++ subU) (num_min B_prime subB) st2) as HP'.
    { eapply P_round; try done. by intros ->. }
    destruct (N.leb_spec (NewSSSP.cap k t l) (N.of_nat (length (U ++ subU))))
      as [Hfull|Hfull].
    + intros [= <- <- <-]. exists frontier2. split; [done|]. right. by left.
    + by apply IH.
Qed.
End PullLoop.

(** ** Distances never increase (C4) *)

Lemma nonincreasing_refl d : nonincreasing d d.
Proof. intros v. by left. Qed.

Lemma nonincreasing_trans d1 d2 d3 :
  nonincreasing d1 d2 → nonincreasing d2 d3 → nonincreasing d1 d3.
Proof.
  intros H12 H23 v. unfold rd in *.
  destruct (H12 v) as [E12|L12], (H23 v) as [E23|L23].
  - left. congruence.
  - right. by rewrite <-E12.
  - right. by rewrite E23.
  - right. by eapply num_lt_trans.
Qed.

Lemma strict_write_nonincreasing d d' : strict_write d d' → nonincreasing d d'.
Proof.
  intros [->|(v & x & Hlt & ->)] u; [by left|].
  destruct (decide (v = u)) as [->|Hne].
  - right. unfold rd at 1. by rewrite lookup_insert_eq.
  - left. by rewrite lookup_insert_ne.
Qed.

Lemma strict_write_insert (d : gmap nat num) v x :
  num_lt x (rd d v) = true → strict_write d (<[v:=x]> d).
Proof. intros Hlt. right. by exists v, x. Qed.

Lemma findPivots_edge_write B u acc e :
  strict_write (NewSSSP.dist acc.1.1)
               (NewSSSP.dist (NewSSSP.findPivots_edge B u acc e).1.1).
Proof.
  destruct acc as [[st nl] W]. unfold NewSSSP.findPivots_edge. simpl.
  destruct (_ && _); [|by left]. simpl.
  destruct (num_lt _ _) eqn:Hlt; [|by left]. simpl.
  by apply strict_write_insert.
Qed.

Lemma baseCase_edge_write B u acc e :
  strict_write (NewSSSP.dist acc.2)
               (NewSSSP.dist (NewSSSP.baseCase_edge B u acc e).2).
Proof.
  destruct acc as [[heap inHeap] st]. unfold NewSSSP.baseCase_edge. simpl.
  destruct (num_lt _ (rd _ _)) eqn:Hlt; simpl; [|by left].
  destruct (num_lt _ B); simpl; [|by left].
  destruct (bool_decide _); simpl; by apply strict_write_insert.
Qed.

Lemma relaxEdges_edge_write Bi B u acc e :
  strict_write (NewSSSP.dist acc.2)
               (NewSSSP.dist (NewSSSP.relaxEdges_edge Bi B u acc e).2).
Proof.
  destruct acc as [fr st]. unfold NewSSSP.relaxEdges_edge. simpl.
  destruct (_ && _); [|by left].
  destruct (num_lt _ _) eqn:Hlt;
    destruct (NewSSSP.reinsert_test _ _ _ _); simpl;
    first [by apply strict_write_insert | by left].
Qed.

Section Monotone.
Variable graph : Graph.
Variables k t : nat.

Lemma findPivots_vertex_mono B acc u :
  nonincreasing (NewSSSP.dist acc.1.1)
    (NewSSSP.dist (NewSSSP.findPivots_vertex graph B acc u).1.1).
Proof.
  unfold NewSSSP.findPivots_vertex.
  destruct (negb _); [apply nonincreasing_refl|].
  apply (fold_left_invariant
    (λ a, nonincreasing (NewSSSP.dist acc.1.1) (NewSSSP.dist a.1.1)));
    [apply nonincreasing_refl|].
  intros a e _ Ha. eapply nonincreasing_trans; [exact Ha|].
  apply strict_write_nonincreasing, findPivots_edge_write.
Qed.

Lemma findPivots_rounds_mono rounds B S layer W st :
  nonincreasing (NewSSSP.dist st)
    (NewSSSP.dist (NewSSSP.findPivots_rounds graph k rounds B S layer W st).1.1).
Proof.
  revert layer W st. induction rounds as [|r IH]; intros layer W st;
    cbn [NewSSSP.findPivots_rounds]; [apply nonincreasing_refl|].
  destruct (fold_left _ layer _) as [[st1 nl] W1] eqn:Hf.
  assert (nonincreasing (NewSSSP.dist st) (NewSSSP.dist st1)) as H1.
  { change st1 with (st1, nl, W1).1.1. rewrite <-Hf.
    apply (fold_left_invariant
      (λ a, nonincreasing (NewSSSP.dist st) (NewSSSP.dist a.1.1)));
      [apply nonincreasing_refl|].
    intros a u _ Ha. eapply nonincreasing_trans; [exact Ha|].
    apply findPivots_vertex_mono. }
  destruct (Nat.ltb _ _); [done|].
  eapply nonincreasing_trans; [exact H1|apply IH].
Qed.

Lemma findPivots_mono B S st :
  nonincreasing (NewSSSP.dist st)
    (NewSSSP.dist (NewSSSP.findPivots graph k B S st).2).
Proof.
  unfold NewSSSP.findPivots.
  pose proof (findPivots_rounds_mono k B S (set_of_list S) (set_of_list S) st)
    as H.
  destruct (NewSSSP.findPivots_rounds _ _ _ _ _ _ _ _) as [[st1 W] exited].
  by destruct exited.
Qed.

Lemma baseCase_visit_mono B u heap inHeap st :
  nonincreasing (NewSSSP.dist st)
    (NewSSSP.dist (NewSSSP.baseCase_visit graph B u (heap, inHeap, st)).2).
Proof.
  unfold NewSSSP.baseCase_visit.
  apply (fold_left_invariant
    (λ a, nonincreasing (NewSSSP.dist st) (NewSSSP.dist a.2)));
    [apply nonincreasing_refl|].
  intros a e _ Ha. eapply nonincreasing_trans; [exact Ha|].
  apply strict_write_nonincreasing, baseCase_edge_write.
Qed.

Lemma baseCase_mono fuel B S st r :
  NewSSSP.baseCase graph fuel B S st = Some r →
  nonincreasing (NewSSSP.dist st) (NewSSSP.dist r.2).
Proof.
  unfold NewSSSP.baseCase. destruct S as [|s S'].
  { intros [= <-]. apply nonincreasing_refl. }
  destruct (NewSSSP.baseCase_loop _ _ _ _ _ _ _) as [[U st1]|] eqn:E; [|done].
  intros [= <-]. simpl.
  eapply (baseCase_loop_invariant graph B
    (λ _ _ _ st', nonincreasing (NewSSSP.dist st) (NewSSSP.dist st')))
    in E as (? & ? & _ & H); [exact H| |].
  - intros heap inHeap U0 st0 u heap1 _ H0 heap2 inHeap2 st2 Hv.
    eapply nonincreasing_trans; [exact H0|].
    change st2 with (heap2, inHeap2, st2).2. rewrite <-Hv.
    apply baseCase_visit_mono.
  - apply nonincreasing_refl.
Qed.

Lemma relaxEdges_mono vertices Bi B frontier st :
  nonincreasing (NewSSSP.dist st)
    (NewSSSP.dist (NewSSSP.relaxEdges graph vertices Bi B frontier st).2).
Proof.
  unfold NewSSSP.relaxEdges.
  apply (fold_left_invariant
    (λ a, nonincreasing (NewSSSP.dist st) (NewSSSP.dist a.2)));
    [apply nonincreasing_refl|].
  intros a u _ Ha. eapply nonincreasing_trans; [exact Ha|].
  unfold NewSSSP.relaxEdges_vertex.
  apply (fold_left_invariant
    (λ b, nonincreasing (NewSSSP.dist a.2) (NewSSSP.dist b.2)));
    [apply nonincreasing_refl|].
  intros b e _ Hb. eapply nonincreasing_trans; [exact Hb|].
  apply strict_write_nonincreasing, relaxEdges_edge_write.
Qed.

Lemma BMSSP_mono fuel l B S st r :
  NewSSSP.BMSSP graph k t fuel l B S st = Some r →
  nonincreasing (NewSSSP.dist st) (NewSSSP.dist r.2).
Proof.
  revert B S st r. induction l as [|l IH]; intros B S st r;
    cbn [NewSSSP.BMSSP]; [apply baseCase_mono|].
  pose proof (findPivots_mono B S st) as Hfp.
  destruct (NewSSSP.findPivots graph k B S st) as [[pivots W] st1].
  destruct (NewSSSP.BMSSP_loop _ _ _ _ _ _ _ _ _ _ _)
    as [[[U B'] st2]|] eqn:E; [|done].
  intros [= <-]. simpl in *.
  eapply (BMSSP_loop_invariant graph k t (NewSSSP.BMSSP graph k t fuel l)
    (Datatypes.S l) B
    (λ _ _ _ st', nonincreasing (NewSSSP.dist st1) (NewSSSP.dist st')))
    in E as (? & H & _); [by eapply nonincreasing_trans| |].
  - intros fr U0 B0 st0 Si Bi fr1 subB subU st' H0 _ _ _ Hrec fr2 st2' Hrel.
    eapply nonincreasing_trans; [exact H0|].
    eapply nonincreasing_trans; [apply (IH _ _ _ _ Hrec)|].
    change st2' with (fr2, st2').2. rewrite <-Hrel. apply relaxEdges_mono.
  - apply nonincreasing_refl.
Qed.

(** C4: every write to [dist] made by [findPivots], [baseCase] and
    [relaxEdges] replaces the stored value by a strictly smaller one, so
    that across each of them, and across a whole [BMSSP] call at any
    level, every entry of [dist] is unchanged or strictly smaller. *)
Theorem dist_never_increases :
  (∀ B u acc e,
     strict_write (NewSSSP.dist acc.1.1)
       (NewSSSP.dist (NewSSSP.findPivots_edge B u acc e).1.1)) ∧
  (∀ B u acc e,
     strict_write (NewSSSP.dist acc.2)
       (NewSSSP.dist (NewSSSP.baseCase_edge B u acc e).2)) ∧
  (∀ Bi B u acc e,
     strict_write (NewSSSP.dist acc.2)
       (NewSSSP.dist (NewSSSP.relaxEdges_edge Bi B u acc e).2)) ∧
  (∀ B S st,
     nonincreasing (NewSSSP.dist st)
       (NewSSSP.dist (NewSSSP.findPivots graph k B S st).2)) ∧
  (∀ vertices Bi B frontier st,
     nonincreasing (NewSSSP.dist st)
       (NewSSSP.dist (NewSSSP.relaxEdges graph vertices Bi B frontier st).2)) ∧
  (∀ fuel B S st r,
     NewSSSP.baseCase graph fuel B S st = Some r →
     nonincreasing (NewSSSP.dist st) (NewSSSP.dist r.2)) ∧
  (∀ fuel l B S st r,
     NewSSSP.BMSSP graph k t fuel l B S st = Some r →
     nonincreasing (NewSSSP.dist st) (NewSSSP.dist r.2)).
Proof.
  split_and!.
  - apply findPivots_edge_write.
  - apply baseCase_edge_write.
  - apply relaxEdges_edge_write.
  - apply findPivots_mono.
  - apply relaxEdges_mono.
  - apply baseCase_mono.
  - apply BMSSP_mono.
Qed.
End Monotone.

Lemma dist_never_increases_witness :
  ∃ r, NewSSSP.BMSSP createExampleGraph 2 4 20 1 PInf [0%nat]
         (NewSSSP.seeded createExampleGraph 0) = Some r ∧
       nonincreasing (NewSSSP.dist (NewSSSP.seeded createExampleGraph 0))
         (NewSSSP.dist r.2).
Proof.
  destruct (NewSSSP.BMSSP createExampleGraph 2 4 20 1 PInf [0%nat]
              (NewSSSP.seeded createExampleGraph 0)) as [r|] eqn:E;
    [|by vm_compute in E].
  exists r. split; [reflexivity|].
  exact (proj2 (proj2 (proj2 (proj2 (proj2 (proj2
    (dist_never_increases createExampleGraph 2 4)))))) _ _ _ _ _ _ E).
Defined.

(** ** The base case and its seed set (C10) *)

Lemma nonincreasing_rd d d' v :
  nonincreasing d d' → rd d' v = rd d v ∨ num_lt (rd d' v) (rd d v) = true.
Proof. intros H. destruct (H v) as [E|L]; [left|by right]. unfold rd. by rewrite E. Qed.

Lemma rd_improve_eq v d u st :
  rd (NewSSSP.dist (NewSSSP.improve v d u st)) v = d.
Proof. unfold rd. simpl. by rewrite lookup_insert_eq. Qed.

Lemma rd_improve_ne v d u st x :
  v ≠ x → rd (NewSSSP.dist (NewSSSP.improve v d u st)) x = rd (NewSSSP.dist st) x.
Proof. intros Hne. unfold rd. simpl. by rewrite lookup_insert_ne. Qed.

Section FirstSeed.
Variable graph : Graph.
Variable B : num.
Variable s : nat.
Variable st0 : NewSSSP.State.

(** [v] had its distance lowered below [B] since [st0]. *)
Let relaxed (v : nat) (st : NewSSSP.State) : Prop :=
  num_lt (rd (NewSSSP.dist st) v) B = true ∧
  num_lt (rd (NewSSSP.dist st) v) (rd (NewSSSP.dist st0) v) = true.

Let reached (vs : list nat) (st : NewSSSP.State) : Prop :=
  nonincreasing (NewSSSP.dist st0) (NewSSSP.dist st) ∧
  ∀ v, v ∈ vs → v = s ∨ relaxed v st.

Lemma relaxed_step v st st' :
  nonincreasing (NewSSSP.dist st) (NewSSSP.dist st') →
  relaxed v st → relaxed v st'.
Proof.
  intros Hm [H1 H2]. destruct (nonincreasing_rd _ _ v Hm) as [E|L].
  - split; by rewrite E.
  - split; by eapply num_lt_trans.
Qed.

Lemma baseCase_edge_reached u U heap inHeap st e :
  reached ((MinHeap.heap heap).*1 ++ U) st →
  reached ((MinHeap.heap
              (NewSSSP.baseCase_edge B u (heap, inHeap, st) e).1.1).*1 ++ U)
          (NewSSSP.baseCase_edge B u (heap, inHeap, st) e).2.
Proof.
  intros [Hm Hr].
  pose proof (baseCase_edge_write B u (heap, inHeap, st) e) as Hw.
  apply strict_write_nonincreasing in Hw.
  unfold NewSSSP.baseCase_edge in *. simpl in *.
  destruct (num_lt _ (rd _ _)) eqn:Hlt; simpl in *; [|done].
  destruct (num_lt _ B) eqn:HB; simpl in *; [|done].
  set (nd := num_add (rd (NewSSSP.dist st) u) e.2) in *.
  assert (relaxed e.1 (NewSSSP.improve e.1 nd u st)) as Hnew.
  { unfold relaxed. rewrite rd_improve_eq. split; [done|].
    destruct (nonincreasing_rd _ _ e.1 Hm) as [E|L].
    - by rewrite <-E.
    - exact (num_lt_trans _ _ _ Hlt L). }
  assert (∀ v, v ∈ (MinHeap.heap heap).*1 ++ U →
            v = s ∨ relaxed v (NewSSSP.improve e.1 nd u st)) as Hold.
  { intros v Hv. destruct (Hr v Hv) as [?|Hrel]; [by left|right].
    eapply relaxed_step; [|exact Hrel].
    by destruct (bool_decide _). }
  destruct (bool_decide _); simpl in *.
  - split; [by eapply nonincreasing_trans|]. intros v Hv. apply Hold.
    by rewrite decreaseKey_vertices in Hv.
  - split; [by eapply nonincreasing_trans|]. intros v.
    rewrite insert_heap_perm. simpl. intros [->|Hv]%elem_of_cons;
      [by right|by apply Hold].
Qed.

Lemma baseCase_loop_reached fuel U' st' :
  NewSSSP.baseCase_loop graph fuel B
    (MinHeap.insert s (rd (NewSSSP.dist st0) s) MinHeap.empty) {[s]} [] st0
    = Some (U', st') →
  reached U' st' ∧
  ∀ v, rdb (NewSSSP.complete st') v = true →
       rdb (NewSSSP.complete st0) v = true ∨ v ∈ U'.
Proof.
  intros E.
  eapply (baseCase_loop_invariant graph B
    (λ heap _ U st,
       reached ((MinHeap.heap heap).*1 ++ U) st ∧
       ∀ v, rdb (NewSSSP.complete st) v = true →
            rdb (NewSSSP.complete st0) v = true ∨ v ∈ U))
    in E as (heap' & ? & Hh & Hr & Hc).
  - rewrite Hh in Hr. done.
  - intros heap inHeap U st u heap1 Hx [[Hm Hr] Hc] heap2 inHeap2 st2.
    apply extractMin_Some in Hx as [d Hx].
    unfold NewSSSP.baseCase_visit.
    intros Hf.
    assert (reached ((MinHeap.heap heap2).*1 ++ (U ++ [u])) st2 ∧
            NewSSSP.complete st2 = <[u:=true]> (NewSSSP.complete st))
      as [Hr2 Hc2].
    { apply (f_equal
        (λ a, reached ((MinHeap.heap a.1.1).*1 ++ (U ++ [u])) a.2 ∧
              NewSSSP.complete a.2 = <[u:=true]> (NewSSSP.complete st)))
        in Hf. simpl in Hf. rewrite <-Hf.
      apply (fold_left_invariant
        (λ a, reached ((MinHeap.heap a.1.1).*1 ++ (U ++ [u])) a.2 ∧
              NewSSSP.complete a.2 = <[u:=true]> (NewSSSP.complete st))).
      - split; [|done]. split; [done|]. simpl. intros v Hv. apply Hr.
        rewrite Hx. simpl.
        rewrite !elem_of_app, list_elem_of_singleton in Hv.
        rewrite elem_of_cons, elem_of_app. tauto.
      - intros [[ha ia] sa] e _ [Hra Hca]. split.
        + by apply baseCase_edge_reached.
        + simpl in *. rewrite <-Hca. unfold NewSSSP.baseCase_edge.
          destruct (_ && _); [|done]. by destruct (bool_decide _). }
    split; [done|].
    intros v. rewrite Hc2. unfold rdb. rewrite lookup_insert.
    destruct (decide (u = v)) as [->|Hne]; simpl.
    + intros _. right. apply elem_of_app. right. by left.
    + intros Hv. destruct (Hc v Hv); [by left|right].
      apply elem_of_app. by left.
  - split; [|by left]. split; [apply nonincreasing_refl|].
    intros v. rewrite insert_heap_perm. simpl.
    rewrite ?app_nil_r, list_elem_of_singleton. by left.
Qed.
End FirstSeed.

(** C10: [baseCase] reads its seed set only through [S[0]]: called with
    [s :: rest] it does exactly what it does called with [[s]].  Hence a
    vertex other than [s], whether in [rest] or not, is in the returned [U]
    only if its distance was lowered below [B] by a relaxation of this
    call, and is complete afterwards only if it was complete before or is
    in [U]. *)
Theorem baseCase_uses_first_seed (graph : Graph) (fuel : nat) (B : num)
    (s : nat) (rest : list nat) (st : NewSSSP.State) :
  NewSSSP.baseCase graph fuel B (s :: rest) st
    = NewSSSP.baseCase graph fuel B [s] st ∧
  ∀ B' U st',
    NewSSSP.baseCase graph fuel B (s :: rest) st = Some (B', U, st') →
    B' = B ∧
    ∀ v, v ≠ s →
      (v ∈ U →
       num_lt (rd (NewSSSP.dist st') v) B = true ∧
       num_lt (rd (NewSSSP.dist st') v) (rd (NewSSSP.dist st) v) = true) ∧
      (rdb (NewSSSP.complete st') v = true →
       rdb (NewSSSP.complete st) v = true ∨ v ∈ U).
Proof.
  split; [reflexivity|]. intros B' U st'. unfold NewSSSP.baseCase.
  destruct (NewSSSP.baseCase_loop _ _ _ _ _ _ _) as [[U1 st1]|] eqn:E; [|done].
  intros [= <- <- <-]. split; [done|].
  apply baseCase_loop_reached in E as [[_ Hr] Hc].
  intros v Hne. split; [|apply Hc].
  intros Hv. destruct (Hr v Hv) as [?|?]; done.
Qed.

Lemma baseCase_uses_first_seed_witness :
  let g := two_vertex_graph 1 3 in
  ∃ U st',
    NewSSSP.baseCase g 5 PInf [0; 1]%nat (NewSSSP.seeded g 0)
      = Some (PInf, U, st') ∧
    (1%nat ∈ U →
     num_lt (rd (NewSSSP.dist st') 1) (rd (NewSSSP.dist (NewSSSP.seeded g 0)) 1)
     = true).
Proof.
  intros g.
  destruct (NewSSSP.baseCase g 5 PInf [0; 1]%nat (NewSSSP.seeded g 0))
    as [[[B' U] st']|] eqn:E; [|by vm_compute in E].
  destruct (proj2 (baseCase_uses_first_seed g 5 PInf 0 [1%nat]
                     (NewSSSP.seeded g 0)) B' U st' E) as [-> H].
  exists U, st'. split; [reflexivity|].
  intros Hin. exact (proj2 (proj1 (H 1%nat ltac:(discriminate)) Hin)).
Defined.

(** ** findPivots (C9) *)

Lemma set_has_spec v s : set_has v s = true ↔ v ∈ s.
Proof. unfold set_has. apply bool_decide_eq_true. Qed.

Lemma set_add_elem v s x : x ∈ set_add v s ↔ x = v ∨ x ∈ s.
Proof.
  unfold set_add. destruct (set_has v s) eqn:H.
  - apply set_has_spec in H. split; [by right|]. by intros [->|?].
  - rewrite elem_of_app, list_elem_of_singleton. tauto.
Qed.

Lemma set_add_NoDup v s : NoDup s → NoDup (set_add v s).
Proof.
  intros Hnd. unfold set_add. destruct (set_has v s) eqn:H; [done|].
  apply NoDup_app. split_and!; [done| |apply NoDup_singleton].
  intros x Hx ->%list_elem_of_singleton.
  apply set_has_spec in Hx. congruence.
Qed.

Lemma set_add_length v s : (length (set_add v s) ≤ S (length s))%nat.
Proof.
  unfold set_add. destruct (set_has v s); [lia|].
  rewrite length_app. simpl. lia.
Qed.

Lemma set_of_list_spec xs :
  (∀ x, x ∈ set_of_list xs ↔ x ∈ xs) ∧ NoDup (set_of_list xs) ∧
  (length (set_of_list xs) ≤ length xs)%nat.
Proof.
  unfold set_of_list.
  assert (∀ acc, NoDup acc →
    (∀ x, x ∈ fold_left (λ s v, set_add v s) xs acc ↔ x ∈ xs ∨ x ∈ acc) ∧
    NoDup (fold_left (λ s v, set_add v s) xs acc) ∧
    (length (fold_left (λ s v, set_add v s) xs acc)
       ≤ length xs + length acc)%nat) as H.
  { induction xs as [|y ys IH]; intros acc Hacc; simpl.
    - split_and!; [|done|lia]. intros x. rewrite elem_of_nil. tauto.
    - destruct (IH (set_add y acc) (set_add_NoDup _ _ Hacc)) as (H1 & H2 & H3).
      split_and!; [|done|].
      + intros x. rewrite H1, set_add_elem, elem_of_cons. tauto.
      + pose proof (set_add_length y acc). lia. }
  destruct (H [] (NoDup_nil_2)) as (H1 & H2 & H3). split_and!; [|done|].
  - intros x. rewrite H1, elem_of_nil. tauto.
  - simpl in H3. lia.
Qed.

Section FindPivots.
Variable graph : Graph.
Variable k : nat.





Lemma findLargeTreeRoots_spec S W kk st :
  let roots := set_of_list (List.filter (λ v, rdb (NewSSSP.complete st) v) S) in
  let pivots := NewSSSP.findLargeTreeRoots S W kk st in
  (∀ r, r ∈ pivots → r ∈ roots) ∧
  (length pivots ≤ length roots)%nat ∧
  (roots ≠ [] → 1 ≤ length pivots)%nat ∧
  (pivots = take 1 roots ∨
   ∃ treeSize : gmap nat nat,
     pivots = List.filter (λ r, Nat.leb kk (default 0%nat (treeSize !! r))) roots
     ∧ pivots ≠ []).
Proof.
  intros roots pivots. subst pivots. unfold NewSSSP.findLargeTreeRoots.
  fold roots. set (treeSize := fold_left _ W ∅).
  set (large := List.filter _ roots).
  assert (∀ r, r ∈ large → r ∈ roots) as Hsub.
  { intros r. rewrite !list_elem_of_In. unfold large.
    rewrite filter_In. tauto. }
  destruct (Nat.ltb_spec 0 (length large)) as [Hl|Hl].
  - split_and!; [done| |lia|].
    + unfold large. apply filter_length_le.
    + right. exists treeSize. split; [done|].
      intros Hnil. rewrite Hnil in Hl. simpl in Hl. lia.
  - split_and!.
    + intros r Hr. by eapply subseteq_take.
    + rewrite length_take. lia.
    + intros Hne. rewrite length_take. destruct roots; simpl; [done|lia].
    + by left.
Qed.

End FindPivots.

(** *** The walk of [findLargeTreeRoots] *)











(** *** The count of [findLargeTreeRoots] *)







(** ** AdaptiveFrontier.pull (C3) *)

Lemma sort_insert_perm e l : AdaptiveFrontier.sort_insert e l ≡ₚ e :: l.
Proof.
  induction l as [|y ys IH]; simpl; [done|].
  destruct (sub_sign y.2 e.2); try done.
  by rewrite IH, Permutation_swap.
Qed.

Lemma sorted_entries_perm els : AdaptiveFrontier.sorted_entries els ≡ₚ els.
Proof.
  induction els as [|e els IH]; simpl; [done|].
  by rewrite sort_insert_perm, IH.
Qed.

Lemma sort_insert_sorted e l :
  is_dist e.2 → proper l →
  StronglySorted (λ a b, num_le a.2 b.2 = true) l →
  StronglySorted (λ a b, num_le a.2 b.2 = true) (AdaptiveFrontier.sort_insert e l).
Proof.
  intros He Hpr Hs. induction Hs as [|y ys Hs IH Hy]; simpl.
  { repeat constructor. }
  apply Forall_cons in Hpr as [Hyd Hpr].
  destruct (sub_sign y.2 e.2) eqn:Hc.
  - constructor; [by constructor|]. constructor.
    + destruct (y.2), (e.2); simpl in *; try done.
      apply Z.compare_eq in Hc. apply Z.leb_le. lia.
    + eapply Forall_impl; [exact Hy|]. intros b Hb. simpl in *.
      eapply num_le_trans; [|exact Hb].
      destruct (y.2), (e.2); simpl in *; try done.
      apply Z.compare_eq in Hc. apply Z.leb_le. lia.
  - apply sub_sign_Lt in Hc. constructor; [by apply IH|].
    rewrite sort_insert_perm. constructor; [by apply num_lt_le|done].
  - assert (num_le e.2 y.2 = true) as Hey.
    { destruct (y.2), (e.2); simpl in *; try done.
      apply Z.compare_gt_iff in Hc. apply Z.leb_le. lia. }
    constructor; [by constructor|]. constructor; [done|].
    eapply Forall_impl; [exact Hy|]. intros b Hb. simpl in *.
    by eapply num_le_trans.
Qed.

Lemma sorted_entries_sorted els :
  proper els →
  StronglySorted (λ a b, num_le a.2 b.2 = true)
    (AdaptiveFrontier.sorted_entries els).
Proof.
  induction els as [|e els IH]; intros Hpr; simpl; [constructor|].
  apply Forall_cons in Hpr as [He Hpr].
  apply sort_insert_sorted; [done| |by apply IH].
  unfold proper. by rewrite sorted_entries_perm.
Qed.

Lemma filter_all {A} (P : A → Prop) `{!∀ x, Decision (P x)} (l : list A) :
  (∀ x, x ∈ l → P x) → filter P l = l.
Proof.
  induction l as [|x l IH]; intros Hall; [done|].
  rewrite filter_cons_True by (apply Hall; by left).
  f_equal. apply IH. intros y Hy. apply Hall. by right.
Qed.

Lemma filter_none {A} (P : A → Prop) `{!∀ x, Decision (P x)} (l : list A) :
  (∀ x, x ∈ l → ¬ P x) → filter P l = [].
Proof.
  induction l as [|x l IH]; intros Hall; [done|].
  rewrite filter_cons_False by (apply Hall; by left).
  apply IH. intros y Hy. apply Hall. by right.
Qed.

Lemma fold_amap_delete (vs : list nat) (els : list (nat * num)) :
  fold_left (λ m v, amap_delete v m) vs els = filter (λ e, e.1 ∉ vs) els.
Proof.
  revert els. induction vs as [|v vs IH]; intros els; simpl.
  - symmetry. apply filter_all. intros e _. apply not_elem_of_nil.
  - rewrite IH. unfold amap_delete. rewrite list_filter_filter.
    apply list_filter_iff. intros e. rewrite not_elem_of_cons. tauto.
Qed.

Lemma StronglySorted_app_le {A} (R : A → A → Prop) l1 l2 :
  StronglySorted R (l1 ++ l2) → ∀ a b, a ∈ l1 → b ∈ l2 → R a b.
Proof.
  induction l1 as [|x l1 IH]; simpl; intros Hs a b Ha Hb.
  { by apply elem_of_nil in Ha. }
  apply StronglySorted_inv in Hs as [Hs Hx].
  apply elem_of_cons in Ha as [->|Ha]; [|by apply IH].
  rewrite Forall_forall in Hx. apply Hx, elem_of_app. by right.
Qed.

(** With distinct keys, deleting the keys of a prefix of a permutation
    leaves the rest of that permutation. *)
Lemma filter_keys_app (l1 l2 : list (nat * num)) :
  NoDup (l1 ++ l2).*1 → filter (λ e, e.1 ∉ l1.*1) (l1 ++ l2) = l2.
Proof.
  rewrite fmap_app. intros (_ & Hdisj & _)%NoDup_app.
  rewrite filter_app, filter_none, filter_all; [done| |].
  - intros e He Hin. apply (Hdisj _ Hin). by apply list_elem_of_fmap_2.
  - intros e He Hne. apply Hne. by apply list_elem_of_fmap_2.
Qed.

Lemma filter_keys_of_prefix (els sorted : list (nat * num)) n :
  NoDup els.*1 → sorted ≡ₚ els →
  filter (λ e, e.1 ∉ (take n sorted).*1) els ≡ₚ drop n sorted.
Proof.
  intros Hnd Hp. rewrite <-Hp in Hnd.
  transitivity (filter (λ e, e.1 ∉ (take n sorted).*1)
                  (take n sorted ++ drop n sorted)).
  - by rewrite take_drop, Hp.
  - rewrite filter_keys_app; [done|]. by rewrite take_drop.
Qed.

(** C3: on a frontier whose stored distances are proper, [pull(count)]
    removes and returns [min(count, size)] vertices whose stored distances
    are at most every distance left behind; the returned bound is at most
    every distance left behind, is the distance of one of the vertices left
    behind when there is one, and is [+∞] when nothing is left; and on the
    empty frontier it returns [([], +∞)] whatever [count] is. *)
Theorem pull_contract (count : N) (els : list (nat * num)) :
  NoDup els.*1 → proper els →
  (∃ pulled,
     (AdaptiveFrontier.pull count els).1.1 = pulled.*1 ∧
     els ≡ₚ pulled ++ (AdaptiveFrontier.pull count els).2 ∧
     length pulled = Nat.min (N.to_nat count) (length els) ∧
     (∀ a b, a ∈ pulled → b ∈ (AdaptiveFrontier.pull count els).2 →
             num_le a.2 b.2 = true)) ∧
  (∀ b, b ∈ (AdaptiveFrontier.pull count els).2 →
        num_le (AdaptiveFrontier.pull count els).1.2 b.2 = true) ∧
  ((AdaptiveFrontier.pull count els).2 ≠ [] →
   ∃ b, b ∈ (AdaptiveFrontier.pull count els).2 ∧
        b.2 = (AdaptiveFrontier.pull count els).1.2) ∧
  ((AdaptiveFrontier.pull count els).2 = [] →
   (AdaptiveFrontier.pull count els).1.2 = PInf) ∧
  AdaptiveFrontier.pull count [] = ([], PInf, []).
Proof.
  intros Hnd Hpr. unfold AdaptiveFrontier.pull.
  destruct (Nat.eqb_spec (length els) 0) as [Hz|Hz].
  { destruct els; [|done]. simpl.
    split_and!; try done; try (by intros b Hb; apply elem_of_nil in Hb).
    exists []. split_and!; try done; [by rewrite Nat.min_0_r|].
    intros a b Ha. by apply elem_of_nil in Ha. }
  simpl. set (sorted := AdaptiveFrontier.sorted_entries els).
  assert (sorted ≡ₚ els) as Hperm by apply sorted_entries_perm.
  assert (length sorted = length els) as Hlen by (by rewrite Hperm).
  set (n := N.to_nat (N.min count (N.of_nat (length sorted)))).
  assert (n = Nat.min (N.to_nat count) (length els)) as Hn.
  { unfold n. rewrite Hlen. lia. }
  rewrite fold_amap_delete.
  set (rest := filter (λ e, e.1 ∉ (take n sorted).*1) els).
  assert (rest ≡ₚ drop n sorted) as Hrest by (by apply filter_keys_of_prefix).
  assert (StronglySorted (λ a b, num_le a.2 b.2 = true) sorted) as Hs
    by (by apply sorted_entries_sorted).
  assert (proper sorted) as Hprs by (unfold proper; by rewrite Hperm).
  split_and!; try done.
  - exists (take n sorted). split_and!; [done| |rewrite length_take; lia|].
    + by rewrite Hrest, take_drop.
    + intros a b Ha Hb. rewrite Hrest in Hb.
      rewrite <-(take_drop n sorted) in Hs.
      by apply (StronglySorted_app_le _ _ _ Hs).
  - intros b Hb. rewrite Hrest in Hb.
    destruct (Nat.ltb_spec n (length sorted)) as [Hlt|Hge].
    + destruct (lookup_lt_is_Some_2 sorted n Hlt) as [e He]. rewrite He.
      apply list_elem_of_lookup in Hb as [i Hi]. rewrite lookup_drop in Hi.
      destruct i as [|i].
      * rewrite Nat.add_0_r in Hi. simplify_eq. apply num_le_refl.
        by eapply proper_lookup.
      * rewrite <-(take_drop (S (n + i)) sorted) in Hs.
        apply (StronglySorted_app_le _ _ _ Hs).
        -- apply elem_of_take. exists n. split; [done|lia].
        -- apply list_elem_of_lookup. exists 0%nat. rewrite lookup_drop.
           by rewrite Nat.add_0_r, <-Nat.add_succ_r.
    + rewrite drop_ge in Hb by done. by apply elem_of_nil in Hb.
  - intros Hne. destruct (Nat.ltb_spec n (length sorted)) as [Hlt|Hge].
    + destruct (lookup_lt_is_Some_2 sorted n Hlt) as [e He]. rewrite He.
      exists e. split; [|done]. rewrite Hrest.
      apply list_elem_of_lookup. exists 0%nat.
      by rewrite lookup_drop, Nat.add_0_r.
    + exfalso. apply Hne. apply Permutation_nil_r. rewrite Hrest.
      by rewrite drop_ge.
  - intros Hnil. destruct (Nat.ltb_spec n (length sorted)) as [Hlt|Hge]; [|done].
    exfalso. rewrite Hnil in Hrest. apply Permutation_nil_l in Hrest.
    apply (f_equal length) in Hrest. rewrite length_drop in Hrest.
    simpl in Hrest. lia.
Qed.

Lemma pull_contract_witness :
  let els := [(4%nat, Fin 7); (2%nat, Fin 3); (9%nat, PInf); (5%nat, Fin 3)] in
  NoDup els.*1 ∧ proper els ∧
  AdaptiveFrontier.pull 2 els
    = ([2%nat; 5%nat], Fin 7, [(4%nat, Fin 7); (9%nat, PInf)]) ∧
  (∀ b, b ∈ (AdaptiveFrontier.pull 2 els).2 →
        num_le (AdaptiveFrontier.pull 2 els).1.2 b.2 = true).
Proof.
  intros els.
  assert (NoDup els.*1) as Hnd.
  { apply (bool_decide_unpack _). by vm_compute. }
  assert (proper els) as Hpr.
  { repeat constructor; done. }
  split; [exact Hnd|]. split; [exact Hpr|]. split; [by vm_compute|].
  exact (proj1 (proj2 (pull_contract 2 els Hnd Hpr))).
Defined.

(** ** Paths and shortest distances *)

Section Paths.
Variable g : Graph.
Variable s : nat.
Hypothesis Hwf : wf_graph g.

Lemma path_len_nonneg v l : path_len g s v l → 0 ≤ l.
Proof.
  induction 1 as [|u v w l _ IH Hin]; [done|].
  destruct Hwf as [_ Hedge]. destruct (Hedge _ _ _ Hin). lia.
Qed.

Lemma path_len_vertex v l :
  (s < length (nodes g))%nat → path_len g s v l → (v < length (nodes g))%nat.
Proof.
  intros Hs. induction 1 as [|u v w l _ IH Hin]; [done|].
  destruct Hwf as [_ Hedge]. by destruct (Hedge _ _ _ Hin).
Qed.

(** The argument of Dijkstra: if every finished vertex is final, every edge
    out of a finished vertex is settled or leads to weight [m] at least, and
    every open vertex with a finite entry has an entry [m] at least, then
    every path to an open vertex weighs [m] at least. *)
Lemma path_lower_bound (d : gmap nat num) (done : nat → bool) (m : Z) :
  (done s = true ∨ m ≤ 0) →
  (∀ u, done u = true → final g s d u) →
  (∀ u v w x, done u = true → (v, w) ∈ neighbors g u → rd d u = Fin x →
     num_le (rd d v) (Fin (x + w)) = true ∨ m ≤ x + w) →
  (∀ v x, done v = false → rd d v = Fin x → m ≤ x) →
  ∀ y l, path_len g s y l → done y = true ∨ m ≤ l.
Proof.
  intros Hs Hfin Hset Hopen y l Hp.
  induction Hp as [|u v w l Hp IH Hin].
  { destruct Hs; [by left|by right]. }
  destruct Hwf as [_ Hedge]. destruct (Hedge _ _ _ Hin) as [_ Hw].
  destruct IH as [Hu|Hm]; [|right; lia].
  destruct (Hfin u Hu) as (x & Hx & Hmin).
  specialize (Hmin l Hp).
  destruct (Hset u v w x Hu Hin Hx) as [Hle|Hfar]; [|right; lia].
  destruct (done v) eqn:Hv; [by left|right].
  destruct (rd d v) as [z| |] eqn:Hz; simpl in Hle; try done.
  apply Z.leb_le in Hle. specialize (Hopen v z Hv Hz). lia.
Qed.

Lemma shortest_table_unique d1 d2 v :
  shortest_table g s d1 → shortest_table g s d2 →
  (v < length (nodes g))%nat → rd d1 v = rd d2 v.
Proof.
  intros H1 H2 Hv.
  destruct (H1 v Hv) as (Hd1 & Hr1 & Hm1), (H2 v Hv) as (Hd2 & Hr2 & Hm2).
  destruct (rd d1 v) as [x1| |] eqn:E1, (rd d2 v) as [x2| |] eqn:E2;
    try done; try (by destruct Hd1); try (by destruct Hd2).
  - destruct (Hm1 x2 (Hr2 x2 eq_refl)) as (x & [= <-] & Hle1).
    destruct (Hm2 x1 (Hr1 x1 eq_refl)) as (x & [= <-] & Hle2).
    f_equal. lia.
  - by destruct (Hm2 x1 (Hr1 x1 eq_refl)) as (x & [=] & _).
  - by destruct (Hm1 x2 (Hr2 x2 eq_refl)) as (x & [=] & _).
Qed.
End Paths.

Lemma rd_Some (d : gmap nat num) v x : d !! v = Some x → rd d v = x.
Proof. unfold rd. by intros ->. Qed.

Lemma rd_is_dist (d : gmap nat num) v : is_dist (rd d v) → d !! v = Some (rd d v).
Proof. unfold rd, is_dist. by destruct (d !! v). Qed.

Lemma rd_insert_eq (d : gmap nat num) v x : rd (<[v:=x]> d) v = x.
Proof. unfold rd. by rewrite lookup_insert_eq. Qed.

Lemma rd_insert_ne (d : gmap nat num) v u x :
  v ≠ u → rd (<[v:=x]> d) u = rd d u.
Proof. intros. unfold rd. by rewrite lookup_insert_ne. Qed.

Lemma rdb_insert_eq (c : gmap nat bool) v b : rdb (<[v:=b]> c) v = b.
Proof. unfold rdb. by rewrite lookup_insert_eq. Qed.

Lemma rdb_insert_ne (c : gmap nat bool) v u b :
  v ≠ u → rdb (<[v:=b]> c) u = rdb c u.
Proof. intros. unfold rdb. by rewrite lookup_insert_ne. Qed.

Lemma rdb_insert_true (c : gmap nat bool) v u :
  rdb (<[v:=true]> c) u = true ↔ u = v ∨ rdb c u = true.
Proof.
  destruct (decide (v = u)) as [->|Hne].
  - rewrite rdb_insert_eq. tauto.
  - rewrite rdb_insert_ne by done. split; [tauto|]. intros [?|?]; congruence.
Qed.

Lemma lookup_fill {A} n (x : A) v :
  fill n x !! v = if decide (v < n)%nat then Some x else None.
Proof.
  unfold fill. destruct (decide (v < n)%nat) as [Hlt|Hge].
  - apply elem_of_list_to_map_1.
    + rewrite <-list_fmap_compose. simpl. rewrite list_fmap_id. apply NoDup_seq.
    + apply list_elem_of_fmap. exists v. split; [done|].
      apply elem_of_seq. lia.
  - apply not_elem_of_list_to_map_1. rewrite <-list_fmap_compose. simpl.
    rewrite list_fmap_id, elem_of_seq. lia.
Qed.

(** ** MinHeap as a priority queue *)

Lemma heap_inv_empty : heap_inv MinHeap.empty.
Proof.
  split_and!; [constructor|apply heap_ordered_nil|apply positions_ok_empty].
Qed.

Lemma insert_inv v d h :
  heap_inv h → is_dist d → v ∉ (MinHeap.heap h).*1 →
  heap_inv (MinHeap.insert v d h).
Proof.
  intros (Hpr & Hord & Hpos) Hd Hfresh. split_and!.
  - by apply insert_proper.
  - by apply insert_ordered.
  - by apply insert_positions_ok.
Qed.

Lemma heap_inv_lookup h v x :
  heap_inv h → (v, x) ∈ MinHeap.heap h →
  ∃ i, MinHeap.positions h !! v = Some i ∧ MinHeap.heap h !! i = Some (v, x).
Proof.
  intros (_ & _ & _ & Hiff) [i Hi]%list_elem_of_lookup.
  exists i. split; [|done]. apply Hiff. eauto.
Qed.

Lemma heap_inv_key_unique h v x y :
  heap_inv h → (v, x) ∈ MinHeap.heap h → (v, y) ∈ MinHeap.heap h → x = y.
Proof.
  intros Hinv Hx Hy.
  destruct (heap_inv_lookup h v x Hinv Hx) as (i & Hpi & Hi).
  destruct (heap_inv_lookup h v y Hinv Hy) as (j & Hpj & Hj).
  congruence.
Qed.

Lemma decreaseKey_inv v d h cur :
  heap_inv h → (v, cur) ∈ MinHeap.heap h → num_le d cur = true →
  heap_inv (MinHeap.decreaseKey v d h) ∧
  ∃ rest, MinHeap.heap h ≡ₚ (v, cur) :: rest ∧
          MinHeap.heap (MinHeap.decreaseKey v d h) ≡ₚ (v, d) :: rest.
Proof.
  intros Hinv Hin Hle.
  destruct (heap_inv_lookup h v cur Hinv Hin) as (i & Hpos & Hi).
  destruct Hinv as (Hpr & Hord & Hok). split.
  - split_and!.
    + apply decreaseKey_proper; [|done]. by apply num_le_is_dist in Hle as [? _].
    + by eapply decreaseKey_ordered.
    + by apply decreaseKey_positions_ok.
  - by apply (decreaseKey_heap_perm v d h i cur).
Qed.

Lemma extractMin_inv h :
  heap_inv h → MinHeap.heap h ≠ [] →
  ∃ u x h', MinHeap.extractMin h = (Some u, h') ∧
            MinHeap.heap h ≡ₚ (u, x) :: MinHeap.heap h' ∧
            heap_inv h' ∧
            ∀ e, e ∈ MinHeap.heap h → num_le x e.2 = true.
Proof.
  intros (Hpr & Hord & Hok) Hne.
  destruct (MinHeap.heap h) as [|[u x] rest] eqn:Hh; [done|].
  rewrite <-Hh in Hpr, Hord.
  destruct (extractMin_spec h (u, x) rest Hh Hpr Hord)
    as (h' & Hx & Hperm & Hpr' & Hord' & Hmin).
  exists u, x, h'. split_and!; [done|by rewrite Hperm| |].
  - split_and!; [done..|].
    pose proof (extractMin_positions_ok h Hok) as Hok'. by rewrite Hx in Hok'.
  - intros e He. apply Hmin. by rewrite Hh.
Qed.

Lemma heap_inv_NoDup h : heap_inv h → NoDup (MinHeap.heap h).*1.
Proof. by intros (_ & _ & ? & _). Qed.

(** A fold whose invariant may mention the elements already visited. *)
Lemma fold_left_prefix {A B} (P : list B → A → Prop) (f : A → B → A) l a :
  P [] a →
  (∀ done x acc, (∃ rest, l = done ++ x :: rest) →
     P done acc → P (done ++ [x]) (f acc x)) →
  P l (fold_left f l a).
Proof.
  intros Ha Hstep.
  assert (∀ done rest acc, l = done ++ rest → P done acc →
            P l (fold_left f rest acc)) as H.
  { intros done rest. revert done. induction rest as [|x rest IH];
      intros done acc Hl Hacc; simpl.
    - by rewrite Hl, app_nil_r.
    - apply (IH (done ++ [x])).
      + by rewrite <-app_assoc.
      + apply Hstep; [eauto|done]. }
  by apply (H [] l a).
Qed.

(** ** Dijkstra computes the shortest distances *)

Lemma final_realizable_le g s d v x l :
  final g s d v → rd d v = Fin x → path_len g s v l → x ≤ l.
Proof. intros (y & Hy & Hmin) Hx Hp. rewrite Hx in Hy. simplify_eq. auto. Qed.

(** Lowering the entry of [v] to a realizable value keeps the table in
    shape. *)
Lemma table_ok_insert n (d : gmap nat num) v x :
  is_dist x → table_ok n d → table_ok n (<[v:=x]> d).
Proof.
  intros Hx Hd u Hu. destruct (decide (v = u)) as [->|Hne].
  - by rewrite rd_insert_eq.
  - rewrite rd_insert_ne by done. by apply Hd.
Qed.

Lemma realizable_insert g s (d : gmap nat num) u v w z :
  realizable g s d → rd d u = Fin z → (v, w) ∈ neighbors g u →
  realizable g s (<[v:=Fin (z + w)]> d).
Proof.
  intros Hr Hu Hin y x. destruct (decide (v = y)) as [->|Hne].
  - rewrite rd_insert_eq. intros [= <-].
    eapply path_edge; [|done]. by apply Hr.
  - rewrite rd_insert_ne by done. apply Hr.
Qed.

Lemma final_insert_ne g s (d : gmap nat num) v x y :
  v ≠ y → final g s d y → final g s (<[v:=x]> d) y.
Proof. intros Hne (z & Hz & Hmin). exists z. by rewrite rd_insert_ne. Qed.

(** Lowering an entry keeps settled vertices settled, provided their own
    entry is not the one lowered. *)
Lemma settled_insert g (d : gmap nat num) v x u :
  v ≠ u → num_le x (rd d v) = true → settled g d u →
  settled g (<[v:=x]> d) u.
Proof.
  intros Hne Hle Hs y w Hin. rewrite (rd_insert_ne _ v u) by done.
  destruct (decide (v = y)) as [->|Hny].
  - rewrite rd_insert_eq. eapply num_le_trans; [exact Hle|]. by apply Hs.
  - rewrite rd_insert_ne by done. by apply Hs.
Qed.

(** A vertex that is final cannot be improved through an edge. *)
Lemma final_not_improved g s (d : gmap nat num) u v w z :
  realizable g s d → final g s d v → rd d u = Fin z →
  (v, w) ∈ neighbors g u → num_lt (Fin (z + w)) (rd d v) = false.
Proof.
  intros Hr (x & Hx & Hmin) Hu Hin. rewrite Hx. simpl.
  apply Z.ltb_ge. apply Hmin. eapply path_edge; [|done]. by apply Hr.
Qed.

Lemma heap_tracks_key n d done h v x :
  heap_tracks n d done h → (v, x) ∈ MinHeap.heap h → x = rd d v.
Proof. intros [_ H] Hin. by destruct (H v x Hin). Qed.

Lemma elem_of_keys (l : list (nat * num)) v :
  v ∈ l.*1 ↔ ∃ x, (v, x) ∈ l.
Proof.
  rewrite list_elem_of_fmap. split.
  - intros ([v' x] & -> & Hin). eauto.
  - intros [x Hin]. by exists (v, x).
Qed.

(** Lowering the distance of an open vertex: the heap follows, by
    [decreaseKey] when the vertex is in the heap and by [insert]
    otherwise. *)
Lemma heap_tracks_decrease n (d : gmap nat num) done h v y :
  heap_tracks n d done h → v ∈ (MinHeap.heap h).*1 →
  num_lt (Fin y) (rd d v) = true →
  heap_tracks n (<[v:=Fin y]> d) done (MinHeap.decreaseKey v (Fin y) h) ∧
  ∀ e, e ∈ MinHeap.heap (MinHeap.decreaseKey v (Fin y) h) ↔
       e = (v, Fin y) ∨ (e ∈ MinHeap.heap h ∧ e.1 ≠ v).
Proof.
  intros [Hinv Htr] [cur Hcur]%elem_of_keys Hlt.
  destruct (Htr v cur Hcur) as (-> & Hopen & Hv & _).
  destruct (decreaseKey_inv v (Fin y) h _ Hinv Hcur (num_lt_le _ _ Hlt))
    as (Hinv' & rest & Hp & Hp').
  pose proof (heap_inv_NoDup h Hinv) as Hnd. rewrite Hp in Hnd. simpl in Hnd.
  apply NoDup_cons in Hnd as [Hv_rest _].
  assert (∀ e, e ∈ MinHeap.heap (MinHeap.decreaseKey v (Fin y) h) ↔
               e = (v, Fin y) ∨ (e ∈ MinHeap.heap h ∧ e.1 ≠ v)) as Hmem.
  { intros e. rewrite Hp', Hp, !elem_of_cons. split.
    - intros [->|He]; [by left|right]. split; [by right|].
      intros <-. apply Hv_rest. by apply list_elem_of_fmap_2.
    - intros [->|[[->|He] Hne]]; [by left|done|by right]. }
  split; [|done]. split; [done|].
  intros v' x' [[= -> ->]|[Hin Hne]]%Hmem.
  - rewrite rd_insert_eq. eauto.
  - simpl in Hne. rewrite rd_insert_ne by done. by apply Htr.
Qed.

Lemma heap_tracks_insert n (d : gmap nat num) done h v y :
  heap_tracks n d done h → v ∉ (MinHeap.heap h).*1 →
  rdb done v = false → (v < n)%nat →
  heap_tracks n (<[v:=Fin y]> d) done (MinHeap.insert v (Fin y) h) ∧
  ∀ e, e ∈ MinHeap.heap (MinHeap.insert v (Fin y) h) ↔
       e = (v, Fin y) ∨ (e ∈ MinHeap.heap h ∧ e.1 ≠ v).
Proof.
  intros [Hinv Htr] Hfresh Hopen Hv.
  assert (∀ e, e ∈ MinHeap.heap (MinHeap.insert v (Fin y) h) ↔
               e = (v, Fin y) ∨ (e ∈ MinHeap.heap h ∧ e.1 ≠ v)) as Hmem.
  { intros e. rewrite insert_heap_perm, elem_of_cons. split.
    - intros [->|He]; [by left|right]. split; [done|].
      intros <-. apply Hfresh. by apply list_elem_of_fmap_2.
    - intros [->|[He _]]; [by left|by right]. }
  split; [|done]. split; [by apply insert_inv|].
  intros v' x' [[= -> ->]|[Hin Hne]]%Hmem.
  - rewrite rd_insert_eq. eauto.
  - simpl in Hne. rewrite rd_insert_ne by done. by apply Htr.
Qed.

(** Marking a vertex that is not in the heap leaves the heap tracked. *)
Lemma heap_tracks_mark n (d : gmap nat num) done h u :
  heap_tracks n d done h → u ∉ (MinHeap.heap h).*1 →
  heap_tracks n d (<[u:=true]> done) h.
Proof.
  intros [Hinv Htr] Hu. split; [done|]. intros v x Hin.
  destruct (Htr v x Hin) as (? & ? & ? & ?). split_and!; try done.
  rewrite rdb_insert_ne; [done|]. intros ->. apply Hu.
  by apply (list_elem_of_fmap_2 fst) in Hin.
Qed.

(** Taking the minimum out of a tracked heap. *)
Lemma heap_tracks_extract n (d : gmap nat num) done h :
  heap_tracks n d done h → MinHeap.heap h ≠ [] →
  ∃ u z h', MinHeap.extractMin h = (Some u, h') ∧
    rd d u = Fin z ∧ rdb done u = false ∧ (u < n)%nat ∧
    (u ∉ (MinHeap.heap h').*1) ∧
    heap_tracks n d done h' ∧
    (∀ e, e ∈ MinHeap.heap h ↔ e = (u, Fin z) ∨ e ∈ MinHeap.heap h') ∧
    (∀ v x, (v, Fin x) ∈ MinHeap.heap h → z ≤ x).
Proof.
  intros [Hinv Htr] Hne.
  destruct (extractMin_inv h Hinv Hne) as (u & x & h' & Hx & Hp & Hinv' & Hmin).
  assert ((u, x) ∈ MinHeap.heap h) as Hux by (rewrite Hp; by left).
  destruct (Htr u x Hux) as (Hxd & Hopen & Hu & z & ->).
  pose proof (heap_inv_NoDup h Hinv) as Hnd. rewrite Hp in Hnd. simpl in Hnd.
  apply NoDup_cons in Hnd as [Hu' _].
  exists u, z, h'. split_and!; try done.
  - split; [done|]. intros v y Hin. apply Htr. rewrite Hp. by right.
  - intros e. by rewrite Hp, elem_of_cons.
  - intros v y Hin. specialize (Hmin _ Hin). simpl in Hmin.
    by apply Z.leb_le in Hmin.
Qed.

Section DijkstraCorrect.
Variable g : Graph.
Variable s : nat.
Hypothesis Hwf : wf_graph g.
Hypothesis Hs : (s < length (nodes g))%nat.

Lemma dijkstra_relax_edge u z done st v w :
  (v, w) ∈ neighbors g u →
  dijkstra_edges_inv g s u z done st →
  dijkstra_edges_inv g s u z (done ++ [(v, w)])
    (Dijkstra.relax_edge u st (v, w)).
Proof.
  intros Hin (Htab & Hreal & Htr & Hq & Hfin & Hset & Hvu & Hdu & Hsrc & Hdone).
  destruct Hwf as [_ Hedge]. destruct (Hedge _ _ _ Hin) as [Hv Hw].
  unfold Dijkstra.relax_edge. cbn [fst snd]. rewrite Hdu.
  change (num_add (Fin z) w) with (Fin (z + w)).
  destruct (num_lt (Fin (z + w)) (rd (Dijkstra.dist st) v)) eqn:Hlt.
  2:{ split_and!; try done. intros v' w' Hin'.
      apply elem_of_app in Hin' as [Hd|Hd]; [by apply Hdone|].
      apply list_elem_of_singleton in Hd. injection Hd as -> ->.
      apply num_lt_total; [done|by apply Htab|done]. }
  assert (rdb (Dijkstra.visited st) v = false) as Hopen.
  { destruct (rdb (Dijkstra.visited st) v) eqn:Hvis; [|done].
    rewrite (final_not_improved g s _ u v w z) in Hlt; auto. }
  assert (v ≠ u) as Hvne by (intros ->; congruence).
  assert (0 ≤ z) as Hz by (eapply path_len_nonneg; [done|by apply Hreal]).
  assert (∀ h',
    heap_tracks (length (nodes g)) (<[v:=Fin (z + w)]> (Dijkstra.dist st))
      (Dijkstra.visited st) h' →
    (∀ e, e ∈ MinHeap.heap h' ↔
          e = (v, Fin (z + w)) ∨ (e ∈ MinHeap.heap (Dijkstra.heap st) ∧ e.1 ≠ v)) →
    dijkstra_edges_inv g s u z (done ++ [(v, w)])
      (Dijkstra.mkState (<[v:=Fin (z + w)]> (Dijkstra.dist st))
         (Dijkstra.visited st) (<[v:=Z.of_nat u]> (Dijkstra.pred st)) h'))
    as Hfinish.
  { intros h' Htr' Hmem.
    split_and!; cbn [Dijkstra.dist Dijkstra.visited Dijkstra.heap]; try done.
    - by apply table_ok_insert.
    - by eapply realizable_insert.
    - intros y x Hy Hyo. destruct (decide (v = y)) as [->|Hne].
      + rewrite rd_insert_eq. intros [= <-]. apply Hmem. by left.
      + rewrite rd_insert_ne by done. intros Hyx. apply Hmem. right.
        split; [by apply Hq|]. simpl. congruence.
    - intros y Hy. apply final_insert_ne; [congruence|by apply Hfin].
    - intros y Hy Hyu. apply settled_insert; [congruence| |by apply Hset].
      by apply num_lt_le.
    - by rewrite rd_insert_ne.
    - destruct Hsrc as [?|Hs0]; [by left|right].
      rewrite rd_insert_ne; [done|]. intros ->. rewrite Hs0 in Hlt.
      apply num_lt_Fin in Hlt. lia.
    - intros v' w' Hin'. apply elem_of_app in Hin' as [Hd|Hd].
      + destruct (decide (v = v')) as [->|Hne].
        * rewrite rd_insert_eq. eapply num_le_trans; [by apply num_lt_le|].
          by apply Hdone.
        * rewrite rd_insert_ne by done. by apply Hdone.
      + apply list_elem_of_singleton in Hd. injection Hd as -> ->.
        rewrite rd_insert_eq. apply Z.leb_refl. }
  destruct (MinHeap.contains v (Dijkstra.heap st)) eqn:Hc.
  - apply contains_spec in Hc; [|by destruct Htr as [(_ & _ & ?) _]].
    destruct (heap_tracks_decrease _ _ _ _ v (z + w) Htr Hc Hlt) as [Htr' Hmem].
    by apply Hfinish.
  - assert (v ∉ (MinHeap.heap (Dijkstra.heap st)).*1) as Hfresh.
    { intros Hk. apply contains_spec in Hk; [congruence|].
      by destruct Htr as [(_ & _ & ?) _]. }
    rewrite Hopen. cbn [negb].
    destruct (heap_tracks_insert _ _ _ _ v (z + w) Htr Hfresh Hopen Hv)
      as [Htr' Hmem].
    by apply Hfinish.
Qed.

Lemma dijkstra_visit st u z h' :
  dijkstra_inv g s st →
  rd (Dijkstra.dist st) u = Fin z →
  rdb (Dijkstra.visited st) u = false → (u < length (nodes g))%nat →
  u ∉ (MinHeap.heap h').*1 →
  heap_tracks (length (nodes g)) (Dijkstra.dist st) (Dijkstra.visited st) h' →
  (∀ e, e ∈ MinHeap.heap (Dijkstra.heap st) ↔
        e = (u, Fin z) ∨ e ∈ MinHeap.heap h') →
  (∀ v x, (v, Fin x) ∈ MinHeap.heap (Dijkstra.heap st) → z ≤ x) →
  dijkstra_inv g s
    (fold_left (Dijkstra.relax_edge u) (neighbors g u)
       (Dijkstra.mkState (Dijkstra.dist st)
          (<[u:=true]> (Dijkstra.visited st)) (Dijkstra.pred st) h')).
Proof.
  intros (Htab & Hreal & Htr & Hq & Hvis & Hsrc) Hdu Hopen Hu Hfresh Htr'
    Hmem Hmin.
  assert (∀ y l, path_len g s y l →
            rdb (Dijkstra.visited st) y = true ∨ z ≤ l) as Hlb.
  { apply (path_lower_bound g s Hwf (Dijkstra.dist st)).
    - destruct (rdb (Dijkstra.visited st) s) eqn:Hvs; [by left|right].
      destruct Hsrc as [?|Hs0]; [done|]. apply (Hmin s 0). by apply Hq.
    - intros y Hy. by apply Hvis.
    - intros y v w x Hy Hin Hyx. left.
      destruct (Hvis y Hy) as [_ Hset]. specialize (Hset v w Hin).
      by rewrite Hyx in Hset.
    - intros v x Hv Hvx. apply (Hmin v x). apply Hq; [|done..].
      apply Hreal in Hvx. by apply (path_len_vertex g s Hwf) in Hvx. }
  assert (final g s (Dijkstra.dist st) u) as Hfu.
  { exists z. split; [done|]. intros l Hl.
    destruct (Hlb u l Hl); [congruence|done]. }
  set (st1 := Dijkstra.mkState _ _ _ h').
  assert (dijkstra_edges_inv g s u z (neighbors g u)
            (fold_left (Dijkstra.relax_edge u) (neighbors g u) st1)) as Hend.
  { apply (fold_left_prefix (dijkstra_edges_inv g s u z)).
    - unfold st1.
      split_and!; cbn [Dijkstra.dist Dijkstra.visited Dijkstra.heap]; try done.
      + by apply heap_tracks_mark.
      + intros v x Hv Hvo Hvx. assert (v ≠ u) as Hne.
        { intros ->. by rewrite rdb_insert_eq in Hvo. }
        rewrite rdb_insert_ne in Hvo by done.
        destruct (proj1 (Hmem (v, Fin x)) (Hq v x Hv Hvo Hvx)) as [[=]|?]; done.
      + intros v [->|Hv]%rdb_insert_true; [done|by apply Hvis].
      + intros v [->|Hv]%rdb_insert_true Hne; [done|by apply Hvis].
      + apply rdb_insert_eq.
      + destruct Hsrc as [?|?]; [left|by right].
        apply rdb_insert_true. by right.
      + intros v w Hin. by apply elem_of_nil in Hin.
    - intros done [v w] acc [rest Hl] Hacc.
      apply dijkstra_relax_edge; [|done]. rewrite Hl.
      apply elem_of_app. right. by left. }
  destruct Hend as (Htab2 & Hreal2 & Htr2 & Hq2 & Hfin2 & Hset2 & Hvu2 & Hdu2
                    & Hsrc2 & Hdone2).
  split_and!; try done.
  intros v Hv. split; [by apply Hfin2|].
  destruct (decide (v = u)) as [->|Hne]; [|by apply Hset2].
  intros y w Hin. rewrite Hdu2. by apply Hdone2.
Qed.

Lemma count_open_mark n (done : gmap nat bool) u :
  (u < n)%nat → rdb done u = false →
  (count_open n (<[u:=true]> done) < count_open n done)%nat.
Proof.
  intros Hu Hopen. unfold count_open.
  rewrite <-(list_filter_filter_l (λ v, rdb (<[u:=true]> done) v = false)
               (λ v, rdb done v = false)).
  - apply (length_filter_lt _ _ u).
    + apply list_elem_of_filter. split; [done|]. apply elem_of_seq. lia.
    + by rewrite rdb_insert_eq.
  - intros v Hv. destruct (decide (u = v)) as [->|Hne].
    + by rewrite rdb_insert_eq in Hv.
    + by rewrite rdb_insert_ne in Hv.
Qed.

Lemma count_open_pos n (done : gmap nat bool) u :
  (u < n)%nat → rdb done u = false → (0 < count_open n done)%nat.
Proof.
  intros Hu Hopen. pose proof (count_open_mark n done u Hu Hopen). lia.
Qed.

(** With fuel for every open vertex the loop of [dijkstra] runs to its
    end, keeping its invariant. *)
Lemma dijkstra_loop_total fuel st :
  dijkstra_inv g s st →
  (count_open (length (nodes g)) (Dijkstra.visited st) ≤ fuel)%nat →
  ∃ st', Dijkstra.loop g fuel None st = Some st' ∧
         dijkstra_inv g s st' ∧ MinHeap.heap (Dijkstra.heap st') = [].
Proof.
  revert st. induction fuel as [|f IH]; intros st Hinv Hfuel;
    cbn [Dijkstra.loop]; destruct (MinHeap.isEmpty (Dijkstra.heap st)) eqn:He;
    try (apply isEmpty_true in He; by eauto).
  all: assert (MinHeap.heap (Dijkstra.heap st) ≠ []) as Hne
    by (intros Hnil%isEmpty_true; congruence).
  all: pose proof Hinv as (_ & _ & Htr & _).
  all: destruct (heap_tracks_extract _ _ _ _ Htr Hne)
    as (u & z & h' & Hx & Hdu & Hopen & Hu & Hfresh & Htr' & Hmem & Hmin).
  - pose proof (count_open_pos _ _ u Hu Hopen). lia.
  - rewrite Hx. cbn [Dijkstra.visited Dijkstra.dist Dijkstra.pred Dijkstra.heap].
    rewrite Hopen. rewrite bool_decide_eq_false_2 by done.
    apply IH.
    + by apply (dijkstra_visit st u z h').
    + assert (Dijkstra.visited
        (fold_left (Dijkstra.relax_edge u) (neighbors g u)
           (Dijkstra.mkState (Dijkstra.dist st)
              (<[u:=true]> (Dijkstra.visited st)) (Dijkstra.pred st) h'))
        = <[u:=true]> (Dijkstra.visited st)) as ->.
      { apply (fold_left_invariant
          (λ a, Dijkstra.visited a = <[u:=true]> (Dijkstra.visited st)));
          [done|].
        intros a e _ Ha. unfold Dijkstra.relax_edge.
        destruct (num_lt _ _); [|done].
        destruct (MinHeap.contains _ _); [done|]. by destruct (negb _). }
      pose proof (count_open_mark _ _ u Hu Hopen). lia.
Qed.
End DijkstraCorrect.

Section DijkstraResult.
Variable g : Graph.
Variable s : nat.
Hypothesis Hwf : wf_graph g.
Hypothesis Hs : (s < length (nodes g))%nat.

Lemma rd_fill n (x : num) v :
  rd (fill n x) v = if decide (v < n)%nat then x else NaN.
Proof. unfold rd. rewrite lookup_fill. by destruct (decide _). Qed.

Lemma rdb_fill_false n v : rdb (fill n false) v = false.
Proof. unfold rdb. rewrite lookup_fill. by destruct (decide _). Qed.

Lemma dijkstra_init_inv : dijkstra_inv g s (Dijkstra.init g s).
Proof.
  unfold Dijkstra.init. destruct Hwf as [Hnodes _]. rewrite Hnodes.
  fold (fill (length (nodes g)) PInf).
  fold (fill (length (nodes g)) false). fold (fill (length (nodes g)) (-1)).
  set (n := length (nodes g)).
  assert (∀ v, rd (<[s:=Fin 0]> (fill n PInf)) v = Fin 0 ∧ v = s ∨
               rd (<[s:=Fin 0]> (fill n PInf)) v = PInf ∧ v ≠ s ∧ (v < n)%nat ∨
               rd (<[s:=Fin 0]> (fill n PInf)) v = NaN ∧ (n ≤ v)%nat) as Hrd.
  { intros v. destruct (decide (s = v)) as [->|Hne].
    - left. by rewrite rd_insert_eq.
    - rewrite rd_insert_ne, rd_fill by done.
      destruct (decide (v < n)%nat); [right; left|right; right];
        split_and!; try done; lia. }
  assert (∀ e, e ∈ MinHeap.heap (MinHeap.insert s (Fin 0) MinHeap.empty)
               ↔ e = (s, Fin 0)) as Hmem.
  { intros e. rewrite insert_heap_perm. simpl. apply list_elem_of_singleton. }
  split_and!; cbn [Dijkstra.dist Dijkstra.visited Dijkstra.heap].
  - intros v Hv. destruct (Hrd v) as [[-> _]|[[-> _]|[_ ?]]]; [done|done|lia].
  - intros v x Hx. destruct (Hrd v) as [[E ->]|[[E _]|[E _]]];
      rewrite E in Hx; try done. injection Hx as <-. constructor.
  - split.
    + apply insert_inv; [apply heap_inv_empty|done|]. simpl. apply not_elem_of_nil.
    + intros v x Hin. apply Hmem in Hin. injection Hin as -> ->.
      rewrite rd_insert_eq.
      split_and!; [done|apply rdb_fill_false|done|by exists 0].
  - intros v z Hv _ Hz. apply Hmem.
    destruct (Hrd v) as [[E ->]|[[E _]|[E _]]]; rewrite E in Hz; try done.
    by injection Hz as <-.
  - intros v Hv. by rewrite rdb_fill_false in Hv.
  - right. by rewrite rd_insert_eq.
Qed.

Lemma dijkstra_inv_final st :
  dijkstra_inv g s st → MinHeap.heap (Dijkstra.heap st) = [] →
  shortest_table g s (Dijkstra.dist st).
Proof.
  intros (Htab & Hreal & Htr & Hq & Hvis & Hsrc) Hempty v Hv.
  assert (∀ y z, (y < length (nodes g))%nat →
            rdb (Dijkstra.visited st) y = false →
            rd (Dijkstra.dist st) y = Fin z → False) as Hnone.
  { intros y z Hy Hyo Hyz. pose proof (Hq y z Hy Hyo Hyz) as Hin.
    rewrite Hempty in Hin. by apply elem_of_nil in Hin. }
  split_and!; [by apply Htab|by apply Hreal|].
  intros l Hl.
  assert (rdb (Dijkstra.visited st) v = true ∨ l + 1 ≤ l) as Hvv.
  { apply (path_lower_bound g s Hwf (Dijkstra.dist st)
             (λ y, rdb (Dijkstra.visited st) y) (l + 1)); [|by apply Hvis| |
             |done].
    - left. destruct Hsrc as [?|Hs0]; [done|].
      destruct (rdb (Dijkstra.visited st) s) eqn:E; [done|].
      by destruct (Hnone s 0 Hs E Hs0).
    - intros u y w x Hu Hin Hux. left.
      destruct (Hvis u Hu) as [_ Hset]. specialize (Hset y w Hin).
      by rewrite Hux in Hset.
    - intros y x Hyo Hyx. exfalso. apply (Hnone y x); [|done..].
      apply Hreal in Hyx. by apply (path_len_vertex g s Hwf) in Hyx. }
  destruct Hvv as [Hvv|?]; [|lia].
  destruct (Hvis v Hvv) as [(x & Hx & Hmin) _]. exists x. auto.
Qed.

(** With fuel for every vertex, [dijkstra] returns, and its distances are
    the shortest distances. *)
Lemma dijkstra_correct fuel :
  (length (nodes g) ≤ fuel)%nat →
  ∃ r, Dijkstra.dijkstra g fuel s None = Some r ∧
       shortest_table g s (NewSSSP.distances r).
Proof.
  intros Hfuel. unfold Dijkstra.dijkstra.
  destruct (dijkstra_loop_total g s Hwf Hs fuel (Dijkstra.init g s))
    as (st' & -> & Hinv & Hempty).
  - apply dijkstra_init_inv.
  - unfold count_open. etransitivity; [apply length_filter|].
    by rewrite length_seq.
  - eexists. split; [done|]. simpl. by apply dijkstra_inv_final.
Qed.
End DijkstraResult.

(** ** The base case as a bounded Dijkstra *)

Lemma settled_or_far_insert g Bi U (d : gmap nat num) v x u :
  v ≠ u → num_le x (rd d v) = true →
  settled_or_far g Bi U d u → settled_or_far g Bi U (<[v:=x]> d) u.
Proof.
  intros Hne Hle Hs y w z Hin. rewrite (rd_insert_ne _ v u) by done.
  intros Hu. destruct (Hs y w z Hin Hu) as [Hset|Hfar]; [left|by right].
  destruct (decide (v = y)) as [->|Hny].
  - rewrite rd_insert_eq. by eapply num_le_trans.
  - by rewrite rd_insert_ne.
Qed.

Section BaseCase.
Variable g : Graph.
Variable s : nat.
Variable Bi : num.
Variable F1 : list (nat * num).
Variable c0 : gmap nat bool.
Variable d0 : gmap nat num.
Variable seed : nat.
Hypothesis Hwf : wf_graph g.
Hypothesis Hs : (s < length (nodes g))%nat.
Hypothesis HBi : is_dist Bi.
Hypothesis HF1 : ∀ v x, (v, x) ∈ F1 → num_le Bi x = true.

Lemma bc_edge_step U u z done acc v w :
  (v, w) ∈ neighbors g u →
  bc_edges_inv g s Bi F1 c0 d0 seed U u z done acc →
  bc_edges_inv g s Bi F1 c0 d0 seed U u z (done ++ [(v, w)])
    (NewSSSP.baseCase_edge Bi u acc (v, w)).
Proof.
  destruct acc as [[heap inHeap] st].
  intros Hin (Hcore & Hsof & HuU & Hdu & Hdone). cbn [fst snd] in *.
  destruct Hwf as [_ Hedge]. destruct (Hedge _ _ _ Hin) as [Hv Hw].
  unfold NewSSSP.baseCase_edge. cbn [fst snd]. rewrite Hdu.
  change (num_add (Fin z) w) with (Fin (z + w)).
  assert (rdb (NewSSSP.complete st) u = true) as Hcu.
  { apply (bc_done _ _ _ _ _ _ _ _ _ _ _ Hcore). by right. }
  destruct (num_lt (Fin (z + w)) (rd (NewSSSP.dist st) v)) eqn:Hlt1;
    cbn [andb].
  2:{ split_and!; try done. intros v' w' Hin'.
      apply elem_of_app in Hin' as [Hd|Hd]; [by apply Hdone|].
      apply list_elem_of_singleton in Hd. injection Hd as -> ->. left.
      apply num_lt_total; [done| |done].
      by apply (bc_table _ _ _ _ _ _ _ _ _ _ _ Hcore). }
  destruct (num_lt (Fin (z + w)) Bi) eqn:Hlt2.
  2:{ split_and!; try done. intros v' w' Hin'.
      apply elem_of_app in Hin' as [Hd|Hd]; [by apply Hdone|].
      apply list_elem_of_singleton in Hd. injection Hd as -> ->. right.
      by apply num_lt_total. }
  destruct Hcore as [Htab Hreal Htr HinH Hbelow Hopen Hfin Hdn HU Hsame Hsrc].
  assert (rdb (NewSSSP.complete st) v = false) as Hvo.
  { destruct (rdb (NewSSSP.complete st) v) eqn:Hvc; [|done].
    rewrite (final_not_improved g s _ u v w z) in Hlt1; auto. }
  assert (v ≠ u) as Hvne by (intros ->; congruence).
  set (st' := NewSSSP.improve v (Fin (z + w)) u st).
  assert (∀ h' inHeap',
    heap_tracks (length (nodes g)) (NewSSSP.dist st') (NewSSSP.complete st') h' →
    (∀ e, e ∈ MinHeap.heap h' ↔
          e = (v, Fin (z + w)) ∨ (e ∈ MinHeap.heap heap ∧ e.1 ≠ v)) →
    (∀ y, y ∈ inHeap' ↔ y = v ∨ y ∈ inHeap) →
    bc_edges_inv g s Bi F1 c0 d0 seed U u z (done ++ [(v, w)])
      (h', inHeap', st')) as Hfinish.
  { intros h' inHeap' Htr' Hmem HinH'.
    assert (∀ y, y ∈ (MinHeap.heap h').*1 ↔
                 y = v ∨ y ∈ (MinHeap.heap heap).*1) as Hkeys.
    { intros y. rewrite !elem_of_keys. split.
      - intros [x [[= -> ->]|[Hx _]]%Hmem]; [by left|right; eauto].
      - intros [->|[x Hx]].
        + exists (Fin (z + w)). apply Hmem. by left.
        + destruct (decide (y = v)) as [->|Hne].
          * exists (Fin (z + w)). apply Hmem. by left.
          * exists x. apply Hmem. right. by split. }
    split_and!; cbn [fst snd]; try done.
    - split; unfold st'; cbn [NewSSSP.dist NewSSSP.complete NewSSSP.improve];
        try done.
      + by apply table_ok_insert.
      + by eapply realizable_insert.
      + intros y. rewrite HinH', Hkeys, HinH. tauto.
      + intros y x [[= -> ->]|[Hx _]]%Hmem; [done|by eapply Hbelow].
      + intros y x Hy Hyo. destruct (decide (v = y)) as [->|Hne].
        * rewrite rd_insert_eq. intros [= <-]. left. apply Hmem. by left.
        * rewrite rd_insert_ne by done. intros Hyx.
          destruct (Hopen y x Hy Hyo Hyx) as [Hh|?]; [left|by right].
          apply Hmem. right. split; [done|]. simpl. congruence.
      + intros y Hy. apply final_insert_ne; [|by apply Hfin].
        intros ->. unfold st' in Hy. cbn in Hy. by rewrite Hy in Hvo.
      + intros y Hyo Hyk. rewrite rd_insert_ne.
        * apply Hsame; [done|]. intros Hk. apply Hyk, Hkeys. by right.
        * intros ->. apply Hyk, Hkeys. by left.
    - intros u' Hu' Hne. unfold st'. cbn [NewSSSP.dist NewSSSP.improve].
      apply settled_or_far_insert; [|by apply num_lt_le|by apply Hsof].
      intros ->. unfold st' in Hu'. cbn in Hu'. by rewrite Hu' in Hvo.
    - unfold st'. cbn [NewSSSP.dist NewSSSP.improve].
      rewrite rd_insert_ne by done. exact Hdu.
    - unfold st'. cbn [NewSSSP.dist NewSSSP.improve].
      intros v' w' Hin'. apply elem_of_app in Hin' as [Hd|Hd].
      + destruct (Hdone v' w' Hd) as [Hl|?]; [left|by right].
        destruct (decide (v = v')) as [->|Hne].
        * rewrite rd_insert_eq.
          exact (num_le_trans _ _ _ (num_lt_le _ _ Hlt1) Hl).
        * by rewrite rd_insert_ne.
      + apply list_elem_of_singleton in Hd. injection Hd as -> ->. left.
        rewrite rd_insert_eq. apply Z.leb_refl. }
  destruct (bool_decide (v ∈ inHeap)) eqn:Hb.
  - apply bool_decide_eq_true in Hb. apply HinH in Hb.
    destruct (heap_tracks_decrease _ _ _ _ v (z + w) Htr Hb Hlt1) as [Htr' Hmem].
    apply Hfinish; [done|done|]. intros y. split; [by right|].
    intros [->|?]; [by apply HinH|done].
  - apply bool_decide_eq_false in Hb.
    assert (v ∉ (MinHeap.heap heap).*1) as Hfresh by (by rewrite <-HinH).
    destruct (heap_tracks_insert _ _ _ _ v (z + w) Htr Hfresh Hvo Hv)
      as [Htr' Hmem].
    apply Hfinish; [done|done|]. intros y.
    rewrite elem_of_union, elem_of_singleton. tauto.
Qed.
End BaseCase.

Section BaseCaseRun.
Variable g : Graph.
Variable s : nat.
Variable Bi : num.
Variable F1 : list (nat * num).
Variable c0 : gmap nat bool.
Variable d0 : gmap nat num.
Variable seed : nat.
Hypothesis Hwf : wf_graph g.
Hypothesis Hs : (s < length (nodes g))%nat.
Hypothesis HBi : is_dist Bi.
Hypothesis HF1 : ∀ v x, (v, x) ∈ F1 → num_le Bi x = true.

Lemma baseCase_edge_complete B u acc e :
  NewSSSP.complete (NewSSSP.baseCase_edge B u acc e).2 = NewSSSP.complete acc.2.
Proof.
  destruct acc as [[heap inHeap] st]. unfold NewSSSP.baseCase_edge.
  cbn [fst snd]. destruct (_ && _); [|done]. by destruct (bool_decide _).
Qed.

Lemma baseCase_visit_complete B u heap inHeap st :
  NewSSSP.complete (NewSSSP.baseCase_visit g B u (heap, inHeap, st)).2
  = <[u:=true]> (NewSSSP.complete st).
Proof.
  unfold NewSSSP.baseCase_visit.
  apply (fold_left_invariant
    (λ a, NewSSSP.complete a.2 = <[u:=true]> (NewSSSP.complete st))); [done|].
  intros a e _ Ha. by rewrite baseCase_edge_complete.
Qed.

(** Relaxing all the edges of the extracted vertex restores the loop
    invariant. *)
Lemma bc_visit U u z acc :
  bc_edges_inv g s Bi F1 c0 d0 seed U u z [] acc →
  bc_inv g s Bi F1 c0 d0 seed
    (fold_left (NewSSSP.baseCase_edge Bi u) (neighbors g u) acc).1.1
    (fold_left (NewSSSP.baseCase_edge Bi u) (neighbors g u) acc).1.2 U
    (fold_left (NewSSSP.baseCase_edge Bi u) (neighbors g u) acc).2.
Proof.
  intros Hstart.
  assert (bc_edges_inv g s Bi F1 c0 d0 seed U u z (neighbors g u)
            (fold_left (NewSSSP.baseCase_edge Bi u) (neighbors g u) acc))
    as (Hcore & Hsof & HuU & Hdu & Hdone).
  { apply (fold_left_prefix (bc_edges_inv g s Bi F1 c0 d0 seed U u z));
      [done|].
    intros done [v w] a [rest Hl] Ha.
    apply (bc_edge_step g s Bi F1 c0 d0 seed Hwf HBi); [|done].
    rewrite Hl. apply elem_of_app. right. by left. }
  split; [done|]. intros u' Hu'.
  destruct (decide (u' = u)) as [->|Hne]; [|by apply Hsof].
  intros v w x Hin Hx. rewrite Hdu in Hx. injection Hx as <-.
  destruct (Hdone v w Hin); [by left|by right].
Qed.

(** Extracting the minimum [u] and flagging it complete leads to the
    invariant of the loop over the edges of [u]. *)
Lemma bc_extract heap inHeap U st u heap1 :
  bc_inv g s Bi F1 c0 d0 seed heap inHeap U st →
  MinHeap.heap heap ≠ [] →
  MinHeap.extractMin heap = (Some u, heap1) →
  rdb (NewSSSP.complete st) u = false ∧ (u < length (nodes g))%nat ∧
  ∃ z, bc_edges_inv g s Bi F1 c0 d0 seed (U ++ [u]) u z []
         (heap1, inHeap ∖ {[u]}, NewSSSP.mark_complete u st).
Proof.
  intros [Hcore Hsof] Hne Hx.
  destruct Hcore as [Htab Hreal Htr HinH Hbelow Hopen Hfin Hdn [HUnd HU] Hsame
                     Hsrc].
  destruct (heap_tracks_extract _ _ _ _ Htr Hne)
    as (u' & z & h' & Hx' & Hdu & Huo & Hu & Hfresh & Htr' & Hmem & Hmin).
  rewrite Hx in Hx'. injection Hx' as <- <-.
  split; [done|]. split; [done|]. exists z.
  assert (num_lt (Fin z) Bi = true) as HzB.
  { apply (Hbelow u). apply Hmem. by left. }
  assert (final g s (NewSSSP.dist st) u) as Hfu.
  { exists z. split; [done|]. intros l Hl.
    destruct (path_lower_bound g s Hwf (NewSSSP.dist st)
                (λ y, rdb (NewSSSP.complete st) y) z) with (y:=u) (l:=l)
      as [?|?]; try done; [by left| | |congruence].
    - intros u1 v w x Hu1 Hin Hux.
      destruct (Hsof u1 Hu1 v w x Hin Hux) as [?|[_ Hfar]]; [by left|right].
      pose proof (num_lt_le_trans _ _ _ HzB Hfar) as Hlt.
      apply num_lt_Fin in Hlt. lia.
    - intros v x Hvo Hvx.
      assert (v < length (nodes g))%nat as Hv.
      { apply Hreal in Hvx. by apply (path_len_vertex g s Hwf) in Hvx. }
      destruct (Hopen v x Hv Hvo Hvx) as [Hh|Hf]; [by apply (Hmin v x)|].
      pose proof (num_lt_le_trans _ _ _ HzB (HF1 _ _ Hf)) as Hlt.
      apply num_lt_Fin in Hlt. lia. }
  assert (u ∉ U) as HuU.
  { intros Hin. assert (rdb (NewSSSP.complete st) u = true); [|congruence].
    apply Hdn. by right. }
  assert (∀ v, v ∈ (MinHeap.heap heap).*1 ↔ v = u ∨ v ∈ (MinHeap.heap heap1).*1)
    as Hkeys.
  { intros v. rewrite !elem_of_keys. split.
    - intros [x Hx']. apply Hmem in Hx' as [Heq|Hx'].
      + injection Heq as -> _. by left.
      + right. eauto.
    - intros [->|[x Hx']]; [exists (Fin z)|exists x]; apply Hmem; auto. }
  split_and!; cbn [fst snd NewSSSP.dist NewSSSP.complete NewSSSP.mark_complete];
    try done.
  - split; cbn [NewSSSP.dist NewSSSP.complete NewSSSP.mark_complete]; try done.
    + by apply heap_tracks_mark.
    + intros v. rewrite elem_of_difference, elem_of_singleton, HinH, Hkeys.
      split; [intros [[?|?] ?]; done|]. intros Hv. split; [by right|].
      by intros ->.
    + intros v x Hin. apply (Hbelow v). apply Hmem. by right.
    + intros v x Hv Hvo Hvx. assert (v ≠ u) as Hvu.
      { intros ->. by rewrite rdb_insert_eq in Hvo. }
      rewrite rdb_insert_ne in Hvo by done.
      destruct (Hopen v x Hv Hvo Hvx) as [Hh|?]; [left|by right].
      apply Hmem in Hh as [Heq|?]; [|done]. injection Heq as ? _. done.
    + intros v [->|Hv]%rdb_insert_true; [done|by apply Hfin].
    + intros v. rewrite rdb_insert_true, Hdn, elem_of_app,
        list_elem_of_singleton. tauto.
    + split.
      * apply NoDup_app. split_and!; [done| |apply NoDup_singleton].
        intros v Hv ->%list_elem_of_singleton. done.
      * intros v [Hv|Hv]%elem_of_app; [by apply HU|].
        apply list_elem_of_singleton in Hv as ->.
        split; [done|right].
        destruct (rdb c0 u) eqn:Hc; [|done].
        assert (rdb (NewSSSP.complete st) u = true); [|congruence].
        apply Hdn. by left.
    + intros v Hvo Hvk. assert (v ≠ u) as Hvu.
      { intros ->. by rewrite rdb_insert_eq in Hvo. }
      rewrite rdb_insert_ne in Hvo by done. apply Hsame; [done|].
      intros [?|?]%Hkeys; done.
    + apply rdb_insert_true. by right.
  - intros u1 [->|Hu1]%rdb_insert_true Hne1; [done|].
    intros v w x Hin Hux.
    destruct (Hsof u1 Hu1 v w x Hin Hux) as [?|[? ?]]; [by left|right].
    split; [|done]. apply elem_of_app. by left.
  - apply elem_of_app. right. by left.
  - intros v w Hin. by apply elem_of_nil in Hin.
Qed.
End BaseCaseRun.

Lemma count_open_le n (done done' : gmap nat bool) :
  (∀ v, rdb done v = true → rdb done' v = true) →
  (count_open n done' ≤ count_open n done)%nat.
Proof.
  intros Hsub. unfold count_open.
  rewrite <-(list_filter_filter_l (λ v, rdb done' v = false)
               (λ v, rdb done v = false)).
  - apply length_filter.
  - intros v Hv. destruct (rdb done v) eqn:Hd; [|done].
    apply Hsub in Hd. congruence.
Qed.

Lemma insert_empty v d :
  MinHeap.insert v d MinHeap.empty = MinHeap.mk [(v, d)] (<[v:=0%nat]> ∅).
Proof. reflexivity. Qed.

Section BaseCaseTotal.
Variable g : Graph.
Variable s : nat.
Variable Bi : num.
Variable F1 : list (nat * num).
Hypothesis Hwf : wf_graph g.
Hypothesis Hs : (s < length (nodes g))%nat.
Hypothesis HBi : is_dist Bi.
Hypothesis HF1 : ∀ v x, (v, x) ∈ F1 → num_le Bi x = true.

(** With fuel for every open vertex the heap loop of [baseCase] runs to
    an empty heap and keeps its invariant. *)
Lemma baseCase_loop_total c0 d0 seed fuel :
  ∀ heap inHeap U st,
  bc_inv g s Bi F1 c0 d0 seed heap inHeap U st →
  (count_open (length (nodes g)) (NewSSSP.complete st) ≤ fuel)%nat →
  ∃ U' st' heap' inHeap',
    NewSSSP.baseCase_loop g fuel Bi heap inHeap U st = Some (U', st') ∧
    MinHeap.heap heap' = [] ∧
    bc_inv g s Bi F1 c0 d0 seed heap' inHeap' U' st' ∧
    ∀ v, v ∈ U → v ∈ U'.
Proof.
  induction fuel as [|f IH]; intros heap inHeap U st Hinv Hfuel.
  - destruct (MinHeap.isEmpty heap) eqn:He.
    + exists U, st, heap, inHeap. cbn [NewSSSP.baseCase_loop]. rewrite He.
      split_and!; try done. by apply isEmpty_true.
    + assert (MinHeap.heap heap ≠ []) as Hne.
      { intros Hnil%isEmpty_true. congruence. }
      destruct (heap_tracks_extract _ _ _ _ (bc_heap _ _ _ _ _ _ _ _ _ _ _
                  (proj1 Hinv)) Hne)
        as (u & z & h' & _ & _ & Huo & Hu & _).
      pose proof (count_open_pos g s Hs _ _ _ Hu Huo). lia.
  - destruct (MinHeap.isEmpty heap) eqn:He.
    + exists U, st, heap, inHeap. cbn [NewSSSP.baseCase_loop]. rewrite He.
      split_and!; try done. by apply isEmpty_true.
    + assert (MinHeap.heap heap ≠ []) as Hne.
      { intros Hnil%isEmpty_true. congruence. }
      destruct (heap_tracks_extract _ _ _ _ (bc_heap _ _ _ _ _ _ _ _ _ _ _
                  (proj1 Hinv)) Hne)
        as (u & z & h' & Hx & _).
      destruct (bc_extract g s Bi F1 c0 d0 seed Hwf Hs HF1 _ _ _ _ _ _
                  Hinv Hne Hx) as (Huo & Hu & z' & Hedges).
      apply (bc_visit g s Bi F1 c0 d0 seed Hwf HBi) in Hedges.
      cbn [NewSSSP.baseCase_loop]. rewrite He, Hx.
      pose proof (baseCase_visit_complete g Bi u h' inHeap st) as Hc.
      unfold NewSSSP.baseCase_visit in *.
      destruct (fold_left _ _ _) as [[heap2 inHeap2] st2] eqn:Hfold.
      cbn [fst snd] in Hedges, Hc.
      destruct (IH heap2 inHeap2 (U ++ [u]) st2 Hedges)
        as (U' & st' & heap' & inHeap' & Hrun & Hnil & Hinv' & Hsub).
      { rewrite Hc. pose proof (count_open_mark g s Hs _ _ _ Hu Huo). lia. }
      exists U', st', heap', inHeap'. split_and!; try done.
      intros v Hv. apply Hsub. apply elem_of_app. by left.
Qed.

(** [baseCase] from a seed as [bc_entry] describes it. *)
Lemma baseCase_spec seed rest d1 st fuel :
  bc_entry g s F1 seed d1 st →
  (count_open (length (nodes g)) (NewSSSP.complete st) + 1 ≤ fuel)%nat →
  ∃ U st' heap' inHeap',
    NewSSSP.baseCase g fuel Bi (seed :: rest) st = Some (Bi, U, st') ∧
    MinHeap.heap heap' = [] ∧
    bc_inv g s Bi F1 (NewSSSP.complete st) (NewSSSP.dist st) seed
      heap' inHeap' U st' ∧
    seed ∈ U.
Proof.
  intros [Htab Hreal Hsrc Hseed Hsn Hsf Hfin Hset Hopen] Hfuel.
  destruct fuel as [|f]; [lia|].
  unfold NewSSSP.baseCase. rewrite Hseed, insert_empty.
  cbn [NewSSSP.baseCase_loop]. unfold MinHeap.isEmpty at 1.
  cbn [MinHeap.heap length Nat.eqb].
  rewrite (extractMin_single _ (seed, Fin d1)) by done.
  cbn [fst MinHeap.positions].
  set (h1 := MinHeap.mk [] (delete seed (<[seed:=0%nat]> ∅))).
  assert (heap_inv h1) as Hh1.
  { assert (heap_inv (MinHeap.insert seed (Fin d1) MinHeap.empty)) as H0.
    { apply insert_inv; [apply heap_inv_empty|done|].
      cbn. apply not_elem_of_nil. }
    destruct (extractMin_inv _ H0) as (u & x & h' & Hx & _ & Hh' & _); [done|].
    rewrite insert_empty, (extractMin_single _ (seed, Fin d1)) in Hx by done.
    injection Hx as _ <-. done. }
  assert (bc_edges_inv g s Bi F1 (NewSSSP.complete st) (NewSSSP.dist st) seed
            [seed] seed d1 []
            (h1, ({[seed]} : gset nat) ∖ {[seed]},
             NewSSSP.mark_complete seed st)) as Hedges.
  { split_and!;
      cbn [fst snd NewSSSP.dist NewSSSP.complete NewSSSP.mark_complete];
      try done.
    - split; cbn [NewSSSP.dist NewSSSP.complete NewSSSP.mark_complete];
        try done.
      + split; [done|]. intros v x Hin. by apply elem_of_nil in Hin.
      + intros v. cbn. rewrite elem_of_difference, elem_of_nil. tauto.
      + intros v x Hin. by apply elem_of_nil in Hin.
      + intros v x Hv Hvo Hvx. right. assert (v ≠ seed) as Hne.
        { intros ->. by rewrite rdb_insert_eq in Hvo. }
        rewrite rdb_insert_ne in Hvo by done. by apply Hopen.
      + intros v [->|Hv]%rdb_insert_true; [done|by apply Hfin].
      + intros v. rewrite rdb_insert_true, list_elem_of_singleton. tauto.
      + split; [apply NoDup_singleton|].
        intros v Hv. apply list_elem_of_singleton in Hv as ->.
        split; [done|by left].
      + apply rdb_insert_true. by right.
    - intros u [->|Hu]%rdb_insert_true Hne; [done|].
      intros v w x Hin Hx. left. pose proof (Hset u Hu Hne v w Hin) as Hle.
      by rewrite Hx in Hle.
    - by left.
    - intros v w Hin. by apply elem_of_nil in Hin. }
  apply (bc_visit g s Bi F1 _ _ seed Hwf HBi) in Hedges.
  pose proof (baseCase_visit_complete g Bi seed h1 {[seed]} st) as Hc.
  unfold NewSSSP.baseCase_visit in *.
  destruct (fold_left _ _ _) as [[heap2 inHeap2] st2] eqn:Hfold.
  cbn [fst snd] in Hedges, Hc.
  destruct (baseCase_loop_total _ _ seed f heap2 inHeap2 ([] ++ [seed]) st2
              Hedges)
    as (U' & st' & heap' & inHeap' & Hrun & Hnil & Hinv' & Hsub).
  { rewrite Hc.
    pose proof (count_open_le (length (nodes g)) (NewSSSP.complete st)
                  (<[seed:=true]> (NewSSSP.complete st))) as Hle.
    assert (∀ v, rdb (NewSSSP.complete st) v = true →
                 rdb (<[seed:=true]> (NewSSSP.complete st)) v = true) as Hm.
    { intros v Hv. apply rdb_insert_true. by right. }
    specialize (Hle Hm). lia. }
  rewrite Hrun. exists U', st', heap', inHeap'. split_and!; try done.
  apply Hsub. by left.
Qed.
End BaseCaseTotal.

(** ** The frontier as a map *)

Lemma amap_get_Some {V} k (m : list (nat * V)) x :
  amap_get k m = Some x → (k, x) ∈ m.
Proof.
  induction m as [|[k' v'] m IH]; simpl; [done|].
  destruct (Nat.eqb_spec k k') as [->|Hne].
  - intros [= ->]. by left.
  - intros Hg. right. by apply IH.
Qed.

Lemma amap_get_None {V} k (m : list (nat * V)) :
  amap_get k m = None → k ∉ m.*1.
Proof.
  induction m as [|[k' v'] m IH]; simpl; [intros _; apply not_elem_of_nil|].
  destruct (Nat.eqb_spec k k') as [->|Hne]; [done|].
  intros Hg. apply not_elem_of_cons. split; [done|by apply IH].
Qed.

Lemma amap_set_spec {V} k v (m : list (nat * V)) :
  NoDup m.*1 →
  NoDup (amap_set k v m).*1 ∧
  ∀ k' x, (k', x) ∈ amap_set k v m ↔
          (k' = k ∧ x = v) ∨ (k' ≠ k ∧ (k', x) ∈ m).
Proof.
  induction m as [|[k0 v0] m IH]; simpl; intros Hnd.
  - split; [apply NoDup_singleton|]. intros k' x.
    rewrite list_elem_of_singleton, elem_of_nil. split.
    + intros [= -> ->]. by left.
    + intros [[-> ->]|[_ []]]. done.
  - apply NoDup_cons in Hnd as [Hk0 Hnd]. destruct (IH Hnd) as [IH1 IH2].
    destruct (Nat.eqb_spec k k0) as [Heq0|Hne]; simpl.
    + subst k0. split; [by apply NoDup_cons|]. intros k' x.
      rewrite !elem_of_cons. split.
      * intros [Heq|Hin]; [injection Heq as -> ->; by left|].
        right. split; [|by right]. intros ->. apply Hk0.
        apply list_elem_of_fmap. by exists (k, x).
      * intros [[-> ->]|[Hne' [Heq|Hin]]]; [by left| |by right].
        injection Heq as -> ->. done.
    + split.
      * apply NoDup_cons. split; [|done]. intros Hin.
        apply list_elem_of_fmap in Hin as ([k1 x1] & -> & Hin). simpl in *.
        apply IH2 in Hin as [[-> _]|[_ Hin]]; [done|].
        apply Hk0. apply list_elem_of_fmap. by exists (k1, x1).
      * intros k' x. rewrite !elem_of_cons, IH2. split.
        -- intros [Heq|[?|[? ?]]]; [|by left|right; split; [done|by right]].
           injection Heq as -> ->. right. split; [done|by left].
        -- intros [?|[Hne' [Heq|Hin]]]; [right; by left|by left|].
           right. right. done.
Qed.

(** [frontier.insert(v, d)] when every distance stored for [v] is at
    least [d]: afterwards [v] is stored with [d] and the other entries
    are as before. *)
Lemma frontier_insert_spec v d (els : list (nat * num)) :
  NoDup els.*1 → (∃ z, d = Fin z) →
  (∀ cur, (v, cur) ∈ els → is_dist cur ∧ num_le d cur = true) →
  NoDup (AdaptiveFrontier.insert v d els).*1 ∧
  ∀ v' x, (v', x) ∈ AdaptiveFrontier.insert v d els ↔
          (v' = v ∧ x = d) ∨ (v' ≠ v ∧ (v', x) ∈ els).
Proof.
  intros Hnd [z ->] Hcur. unfold AdaptiveFrontier.insert.
  destruct (amap_get v els) as [cur|] eqn:Hg; [|by apply amap_set_spec].
  apply amap_get_Some in Hg. destruct (Hcur _ Hg) as [Hd Hle].
  destruct (num_gt cur (Fin z)) eqn:Hgt; [by apply amap_set_spec|].
  assert (cur = Fin z) as ->.
  { destruct cur as [c| |]; simpl in *; try done.
    apply Z.leb_le in Hle. apply Z.ltb_ge in Hgt. f_equal. lia. }
  split; [done|]. intros v' x. split.
  - intros Hin. destruct (decide (v' = v)) as [->|Hne]; [left|by right].
    split; [done|].
    assert (NoDup_fst : ∀ a b, (v, a) ∈ els → (v, b) ∈ els → a = b).
    { clear -Hnd. induction els as [|[k0 x0] els IH]; intros a b Ha Hb.
      { by apply elem_of_nil in Ha. }
      simpl in Hnd. apply NoDup_cons in Hnd as [Hk0 Hnd].
      apply elem_of_cons in Ha as [Ha|Ha], Hb as [Hb|Hb].
      - congruence.
      - injection Ha as -> ->. exfalso. apply Hk0.
        apply list_elem_of_fmap. by exists (k0, b).
      - injection Hb as -> ->. exfalso. apply Hk0.
        apply list_elem_of_fmap. by exists (k0, a).
      - by apply IH. }
    by apply NoDup_fst.
  - intros [[-> ->]|[_ ?]]; done.
Qed.

Lemma frontier_insert_keys v d (els : list (nat * num)) v' :
  v' ∈ (AdaptiveFrontier.insert v d els).*1 → v' = v ∨ v' ∈ els.*1.
Proof.
  unfold AdaptiveFrontier.insert.
  assert (v' ∈ (amap_set v d els).*1 → v' = v ∨ v' ∈ els.*1) as Hset.
  { clear. induction els as [|[k0 x0] els IH]; simpl.
    - intros [->|[]%elem_of_nil]%elem_of_cons. by left.
    - destruct (Nat.eqb_spec v k0) as [Heq0|Hne]; simpl;
        rewrite !elem_of_cons; [tauto|].
      intros [->|Hin]; [right; by left|].
      destruct (IH Hin); [by left|right; by right]. }
  destruct (amap_get v els) as [cur|]; [|done].
  destruct (num_gt cur d); [done|]. by right.
Qed.

(** [pull(1)] on a nonempty frontier: one vertex with a least stored
    distance, and a bound that is at most every distance left. *)
Lemma pull_one (els : list (nat * num)) :
  NoDup els.*1 → proper els → els ≠ [] →
  ∃ v1 x1 Bi F1,
    AdaptiveFrontier.pull 1 els = ([v1], Bi, F1) ∧
    els ≡ₚ (v1, x1) :: F1 ∧
    is_dist Bi ∧
    (∀ b, b ∈ F1 → num_le x1 b.2 = true) ∧
    (∀ b, b ∈ F1 → num_le Bi b.2 = true) ∧
    (F1 = [] → Bi = PInf).
Proof.
  intros Hnd Hpr Hne. unfold AdaptiveFrontier.pull.
  destruct (Nat.eqb_spec (length els) 0) as [Hz|Hz].
  { by destruct els. }
  set (sorted := AdaptiveFrontier.sorted_entries els).
  assert (sorted ≡ₚ els) as Hperm by apply sorted_entries_perm.
  assert (length sorted = length els) as Hlen by (by rewrite Hperm).
  assert (N.to_nat (N.min 1 (N.of_nat (length sorted))) = 1%nat) as ->
    by lia.
  rewrite fold_amap_delete.
  set (rest := filter (λ e, e.1 ∉ (take 1 sorted).*1) els).
  assert (rest ≡ₚ drop 1 sorted) as Hrest by (by apply filter_keys_of_prefix).
  assert (StronglySorted (λ a b, num_le a.2 b.2 = true) sorted) as Hs
    by (by apply sorted_entries_sorted).
  assert (proper sorted) as Hprs by (unfold proper; by rewrite Hperm).
  destruct sorted as [|[v1 x1] tl] eqn:Hsorted; [simpl in Hlen; lia|].
  simpl in Hrest. rewrite drop_0 in Hrest.
  apply StronglySorted_inv in Hs as [Hs Hx1].
  rewrite Forall_forall in Hx1.
  apply Forall_cons in Hprs as [_ Hprtl].
  exists v1, x1. eexists. exists rest. split; [done|]. split_and!.
  - by rewrite Hrest, <-Hperm.
  - simpl. destruct tl as [|e tl']; simpl; [done|].
    by apply Forall_cons in Hprtl as [? _].
  - intros b Hb. rewrite Hrest in Hb. by apply Hx1.
  - intros b Hb. rewrite Hrest in Hb. simpl.
    destruct tl as [|e tl']; [by apply elem_of_nil in Hb|]. simpl.
    apply elem_of_cons in Hb as [->|Hb].
    + apply num_le_refl. by apply Forall_cons in Hprtl as [? _].
    + apply StronglySorted_inv in Hs as [_ He].
      rewrite Forall_forall in He. by apply He.
  - intros Hnil. rewrite Hnil in Hrest. apply Permutation_nil_l in Hrest.
    by rewrite <-Hrest.
Qed.

(** ** relaxEdges after a sub-call of the top level *)

Lemma rdb_insert_id (c : gmap nat bool) u v :
  rdb c u = true → rdb (<[u:=true]> c) v = rdb c v.
Proof.
  intros Hu. destruct (decide (v = u)) as [->|Hne].
  - by rewrite rdb_insert_eq.
  - by rewrite rdb_insert_ne.
Qed.

Lemma num_le_not_lt_eq z (b : num) :
  is_dist b → num_le (Fin z) b = true → num_lt (Fin z) b = false →
  b = Fin z.
Proof.
  destruct b as [c| |]; simpl; try done.
  intros _ Hle%Z.leb_le Hlt%Z.ltb_ge. f_equal. lia.
Qed.

(** The walked edges stay walked when the entry of an open vertex [v]
    is lowered to [y] and the frontier stores [v] under [y]. *)
Lemma relaxed_lower Bi (c : gmap nat bool) (d d' : gmap nat num)
    (els els' : list (nat * num)) u v y edges :
  rdb c u = true → rdb c v = false →
  rd d' v = y → (∀ v', v' ≠ v → rd d' v' = rd d v') →
  num_le y (rd d v) = true →
  (∀ v' x, (v', x) ∈ els' ↔ (v' = v ∧ x = y) ∨ (v' ≠ v ∧ (v', x) ∈ els)) →
  relaxed Bi c d els u edges → relaxed Bi c d' els' u edges.
Proof.
  intros Hu Hv Hy Hsame Hle Hels Hrel v0 w z Hin Hz.
  assert (u ≠ v) as Huv by (intros ->; congruence).
  rewrite Hsame in Hz by done.
  destruct (Hrel v0 w z Hin Hz) as [H1 H2].
  destruct (decide (v0 = v)) as [->|Hne].
  - split.
    + rewrite Hy. exact (num_le_trans _ _ _ Hle H1).
    + intros _ _ Hd. apply Hels. left. split; [done|]. by rewrite <-Hd.
  - rewrite Hsame by done. split; [done|].
    intros Hinf Ho Hd. apply Hels. right. split; [done|]. by apply H2.
Qed.

Section RelaxEdges.
Variable g : Graph.
Variable s : nat.
Variable Bi : num.
Variable subU : list nat.
Variable F1 : list (nat * num).
Variable c1 : gmap nat bool.
Hypothesis Hwf : wf_graph g.
Hypothesis Hs : (s < length (nodes g))%nat.

(** Storing an open [v] under its lowered distance [y = z + w] keeps
    the invariant. *)
Lemma relax_inv_step els st st' u v w z :
  relax_inv g s Bi subU F1 c1 els st →
  u ∈ subU → rd (NewSSSP.dist st) u = Fin z → (v, w) ∈ neighbors g u →
  rdb (NewSSSP.complete st) v = false →
  num_le (Fin (z + w)) (rd (NewSSSP.dist st) v) = true →
  (st' = st ∧ rd (NewSSSP.dist st) v = Fin (z + w)) ∨
    st' = NewSSSP.improve v (Fin (z + w)) u st →
  relax_inv g s Bi subU F1 c1
    (AdaptiveFrontier.insert v (Fin (z + w)) els) st' ∧
  (∀ v' x, (v', x) ∈ AdaptiveFrontier.insert v (Fin (z + w)) els ↔
     (v' = v ∧ x = Fin (z + w)) ∨ (v' ≠ v ∧ (v', x) ∈ els)) ∧
  NewSSSP.complete st' = NewSSSP.complete st ∧
  rd (NewSSSP.dist st') v = Fin (z + w) ∧
  (∀ v', v' ≠ v → rd (NewSSSP.dist st') v' = rd (NewSSSP.dist st) v').
Proof.
  intros [Htab Hreal Hsrc Hfin Hsof Hsub [Hnd Hent] Hopen Hc Hkeys]
    Hu Hz Hin Hvo Hle Hst'.
  destruct (proj2 Hwf _ _ _ Hin) as [Hv Hw].
  assert (NewSSSP.complete st' = NewSSSP.complete st) as Hc'.
  { by destruct Hst' as [[-> _]| ->]. }
  assert (rd (NewSSSP.dist st') v = Fin (z + w)) as Hdv.
  { destruct Hst' as [[-> ?]| ->]; [done|apply rd_improve_eq]. }
  assert (∀ v', v' ≠ v →
            rd (NewSSSP.dist st') v' = rd (NewSSSP.dist st) v') as Hdo.
  { intros v' Hne. destruct Hst' as [[-> ?]| ->]; [done|].
    by apply rd_improve_ne. }
  assert (table_ok (length (nodes g)) (NewSSSP.dist st')) as Htab'.
  { destruct Hst' as [[-> ?]| ->]; [done|]. by apply table_ok_insert. }
  assert (realizable g s (NewSSSP.dist st')) as Hreal'.
  { destruct Hst' as [[-> ?]| ->]; [done|]. by eapply realizable_insert. }
  assert (∀ u0, rdb (NewSSSP.complete st) u0 = true → u0 ≠ v) as Hcv.
  { intros u0 Hu0 ->. congruence. }
  destruct (frontier_insert_spec v (Fin (z + w)) els Hnd) as [Hnd' Hels'].
  { by exists (z + w). }
  { intros cur Hcur. destruct (Hent _ _ Hcur) as (_ & _ & [?| ->]);
      [congruence|]. split; [by apply Htab|done]. }
  split_and!; try done. split; try done.
  - by rewrite Hc'.
  - rewrite Hc'. intros v0 Hv0. destruct (Hfin v0 Hv0) as (x & Hx & Hmin).
    exists x. split; [|done]. rewrite Hdo; [done|by apply Hcv].
  - rewrite Hc'. intros u0 Hu0 v0 w0 x Hin0 Hx.
    rewrite Hdo in Hx by (by apply Hcv).
    destruct (Hsof u0 Hu0 v0 w0 x Hin0 Hx) as [Hl|?]; [left|by right].
    destruct (decide (v0 = v)) as [->|Hne]; [|by rewrite Hdo].
    rewrite Hdv. exact (num_le_trans _ _ _ Hle Hl).
  - rewrite Hc'. done.
  - split; [done|]. intros v0 x [[-> ->]|[Hne Hx]]%Hels'.
    + split; [done|]. split; [by exists (z + w)|]. by right.
    + destruct (Hent _ _ Hx) as (? & ? & Hor). split_and!; try done.
      rewrite Hc', Hdo; done.
  - rewrite Hc'. intros v0 x Hv0 Ho Hx.
    destruct (decide (v0 = v)) as [->|Hne].
    + left. apply Hels'. left. split; [done|]. congruence.
    + rewrite Hdo in Hx by done.
      destruct (Hopen v0 x Hv0 Ho Hx) as [?|(Hinf & u0 & w0 & z0 & ? & ? & Hz0 & ?)].
      * left. apply Hels'. by right.
      * right. split; [done|]. exists u0, w0, z0. split_and!; try done.
        rewrite Hdo; [done|]. apply Hcv. by apply Hsub.
  - rewrite Hc'. done.
  - rewrite Hc'. intros v0 Hv0 Hk.
    apply frontier_insert_keys in Hk as [->|?]; [congruence|by apply Hkeys].
Qed.

Lemma relax_edge_step doneV u z doneE acc v w :
  (v, w) ∈ neighbors g u →
  relax_edges_inv g s Bi subU F1 c1 doneV u z doneE acc →
  relax_edges_inv g s Bi subU F1 c1 doneV u z (doneE ++ [(v, w)])
    (NewSSSP.relaxEdges_edge Bi PInf u acc (v, w)).
Proof.
  intros Hin ((Hinv & HdoneV) & Hu & Hz & HdoneE).
  destruct acc as [els st]. cbn [fst snd] in *.
  destruct (proj2 Hwf _ _ _ Hin) as [Hv Hw].
  pose proof (ri_table _ _ _ _ _ _ _ _ Hinv v Hv) as Hdv.
  pose proof (ri_sub _ _ _ _ _ _ _ _ Hinv u Hu) as Huc.
  unfold NewSSSP.relaxEdges_edge. cbn [fst snd]. rewrite Hz.
  cbn [num_add]. 
  assert (∀ els' st',
    relaxed Bi (NewSSSP.complete st') (NewSSSP.dist st') els' u doneE →
    rd (NewSSSP.dist st') u = Fin z →
    num_le (rd (NewSSSP.dist st') v) (Fin (z + w)) = true →
    (is_inf Bi = true → rdb (NewSSSP.complete st') v = false →
     rd (NewSSSP.dist st') v = Fin (z + w) → (v, Fin (z + w)) ∈ els') →
    relaxed Bi (NewSSSP.complete st') (NewSSSP.dist st') els' u
      (doneE ++ [(v, w)])) as Hext.
  { intros els' st' Hold Hz' H1 H2 v0 w0 z0 [Hin0|Hin0]%elem_of_app Hz0.
    - by apply Hold.
    - apply list_elem_of_singleton in Hin0. injection Hin0 as -> ->.
      rewrite Hz' in Hz0. injection Hz0 as <-. done. }
  destruct (num_le (Fin (z + w)) (rd (NewSSSP.dist st) v)) eqn:Hle;
    cbn [andb].
  2:{ unfold relax_edges_inv, relax_vertices_inv. cbn [fst snd].
      split_and!; try done. apply Hext; try done.
      - apply num_lt_le. by apply num_le_total.
      - intros _ _ Heq. rewrite Heq in Hle. simpl in Hle.
        apply Z.leb_gt in Hle. lia. }
  change (num_lt (Fin (z + w)) PInf) with true. cbn iota.
  set (y := Fin (z + w)) in *.
  set (st1 := if num_lt y (rd (NewSSSP.dist st) v)
              then NewSSSP.improve v y u st else st).
  assert (NewSSSP.complete st1 = NewSSSP.complete st) as Hc1.
  { unfold st1. by destruct (num_lt _ _). }
  assert (num_lt y (rd (NewSSSP.dist st) v) = true →
          rdb (NewSSSP.complete st) v = false ∧ num_le Bi y = true) as Hstrict.
  { intros Hlt. split.
    - destruct (rdb (NewSSSP.complete st) v) eqn:Hcv; [|done].
      pose proof (final_not_improved g s _ u v w z
        (ri_real _ _ _ _ _ _ _ _ Hinv) (ri_final _ _ _ _ _ _ _ _ Hinv v Hcv)
        Hz Hin). unfold y in Hlt. congruence.
    - destruct (ri_sof _ _ _ _ _ _ _ _ Hinv u Huc v w z Hin Hz) as [Hl|[_ ?]];
        [|done].
      apply num_lt_not_le in Hlt. unfold y in Hlt. congruence. }
  unfold NewSSSP.reinsert_test. rewrite Hc1.
  destruct (negb (rdb (NewSSSP.complete st) v) && (is_inf Bi || num_ge y Bi))
    eqn:Htest.
  - apply andb_true_iff in Htest as [Hvo%negb_true_iff _].
    destruct (relax_inv_step els st st1 u v w z Hinv Hu Hz Hin Hvo Hle)
      as (Hinv' & Hels' & Hc' & Hdv' & Hdo).
    { unfold st1. destruct (num_lt y (rd (NewSSSP.dist st) v)) eqn:Hlt;
        [by right|left]. split; [done|]. by apply num_le_not_lt_eq. }
    assert (u ≠ v) as Huv by (intros ->; congruence).
    fold y in Hinv', Hels', Hdv'.
    unfold relax_edges_inv, relax_vertices_inv. cbn [fst snd].
    split_and!; try done.
    + intros u' Hu'. destruct (HdoneV u' Hu') as [Hsub Hrel].
      split; [done|]. rewrite Hc'.
      eapply relaxed_lower; try done.
      by apply (ri_sub _ _ _ _ _ _ _ _ Hinv).
    + by rewrite Hdo.
    + apply Hext.
      * rewrite Hc'. eapply relaxed_lower; done.
      * by rewrite Hdo.
      * rewrite Hdv'. unfold y. simpl. apply Z.leb_refl.
      * intros _ _ _. apply Hels'. by left.
  - assert (st1 = st) as ->.
    { unfold st1. destruct (num_lt y (rd (NewSSSP.dist st) v)) eqn:Hlt;
        [|done].
      destruct (Hstrict eq_refl) as [Hvo HB].
      unfold num_ge in Htest. by rewrite Hvo, HB, orb_true_r in Htest. }
    assert (num_lt y (rd (NewSSSP.dist st) v) = false) as Hlt.
    { destruct (num_lt y (rd (NewSSSP.dist st) v)) eqn:Hlt; [|done].
      destruct (Hstrict eq_refl) as [Hvo HB].
      unfold num_ge in Htest. by rewrite Hvo, HB, orb_true_r in Htest. }
    pose proof (num_le_not_lt_eq _ _ Hdv Hle Hlt) as Heq.
    unfold relax_edges_inv, relax_vertices_inv. cbn [fst snd].
    split_and!; try done. apply Hext; try done.
    + rewrite Heq. simpl. apply Z.leb_refl.
    + intros Hinf Hvo _. by rewrite Hvo, Hinf in Htest.
Qed.
End RelaxEdges.

Section RelaxEdgesRun.
Variable g : Graph.
Variable s : nat.
Variable Bi : num.
Variable subU : list nat.
Variable F1 : list (nat * num).
Variable c1 : gmap nat bool.
Hypothesis Hwf : wf_graph g.
Hypothesis Hs : (s < length (nodes g))%nat.

Lemma relax_inv_mark els st u :
  rdb (NewSSSP.complete st) u = true →
  relax_inv g s Bi subU F1 c1 els st →
  relax_inv g s Bi subU F1 c1 els (NewSSSP.mark_complete u st).
Proof.
  intros Hu [Htab Hreal Hsrc Hfin Hsof Hsub [Hnd Hent] Hopen Hc Hkeys].
  split; cbn [NewSSSP.dist NewSSSP.complete NewSSSP.mark_complete];
    try done; try (intros v; rewrite (rdb_insert_id _ _ _ Hu); by auto).
  - by rewrite (rdb_insert_id _ _ _ Hu).
  - split; [done|]. intros v x Hin. rewrite (rdb_insert_id _ _ _ Hu).
    by apply Hent.
Qed.

Lemma relax_vertex_step doneV u acc :
  u ∈ subU →
  relax_vertices_inv g s Bi subU F1 c1 doneV acc →
  relax_vertices_inv g s Bi subU F1 c1 (doneV ++ [u])
    (NewSSSP.relaxEdges_vertex g Bi PInf acc u).
Proof.
  intros Hu [Hinv HdoneV]. destruct acc as [els st]. cbn [fst snd] in *.
  pose proof (ri_sub _ _ _ _ _ _ _ _ Hinv u Hu) as Huc.
  destruct (ri_final _ _ _ _ _ _ _ _ Hinv u Huc) as (z & Hz & _).
  unfold NewSSSP.relaxEdges_vertex. cbn [fst snd].
  assert (relax_edges_inv g s Bi subU F1 c1 doneV u z (neighbors g u)
            (fold_left (NewSSSP.relaxEdges_edge Bi PInf u) (neighbors g u)
               (els, NewSSSP.mark_complete u st)))
    as ((Hinv' & HdoneV') & _ & _ & Hrel).
  { apply (fold_left_prefix (relax_edges_inv g s Bi subU F1 c1 doneV u z)).
    - unfold relax_edges_inv, relax_vertices_inv. cbn [fst snd].
      split_and!; try done.
      + by apply relax_inv_mark.
      + intros u' Hu'. destruct (HdoneV u' Hu') as [? Hrel]. split; [done|].
        cbn [NewSSSP.dist NewSSSP.complete NewSSSP.mark_complete].
        intros v w z' Hin Hz'. destruct (Hrel v w z' Hin Hz') as [? H2].
        split; [done|]. by rewrite (rdb_insert_id _ _ _ Huc).
      + intros v w z' Hin. by apply elem_of_nil in Hin.
    - intros done [v w] a [rest Hl] Ha.
      apply (relax_edge_step g s Bi subU F1 c1 Hwf Hs); [|done].
      rewrite Hl. apply elem_of_app. right. by left. }
  split; [done|]. intros u' [Hu'|Hu']%elem_of_app; [by apply HdoneV'|].
  apply list_elem_of_singleton in Hu' as ->. done.
Qed.

(** After [relaxEdges] every complete vertex is settled and every open
    vertex with a finite distance is in the frontier. *)
Lemma relaxEdges_spec st :
  relax_inv g s Bi subU F1 c1 F1 st →
  level_inv g s (NewSSSP.relaxEdges g subU Bi PInf F1 st).1
    (NewSSSP.relaxEdges g subU Bi PInf F1 st).2 ∧
  (∀ v, rdb (NewSSSP.complete
               (NewSSSP.relaxEdges g subU Bi PInf F1 st).2) v = rdb c1 v) ∧
  (∀ v, rdb c1 v = true →
        v ∈ (NewSSSP.relaxEdges g subU Bi PInf F1 st).1.*1 → v ∈ F1.*1).
Proof.
  intros Hinv. unfold NewSSSP.relaxEdges.
  assert (relax_vertices_inv g s Bi subU F1 c1 subU
            (fold_left (NewSSSP.relaxEdges_vertex g Bi PInf) subU (F1, st)))
    as [Hinv' Hdone].
  { apply (fold_left_prefix (relax_vertices_inv g s Bi subU F1 c1)).
    - split; [done|]. intros u Hu. by apply elem_of_nil in Hu.
    - intros done u a [rest Hl] Ha. apply relax_vertex_step; [|done].
      rewrite Hl. apply elem_of_app. right. by left. }
  destruct (fold_left _ _ _) as [els2 st2]. cbn [fst snd] in *.
  destruct Hinv' as [Htab Hreal Hsrc Hfin Hsof Hsub Hfr Hopen Hc Hkeys].
  split_and!; [split; try done| done |].
  - intros u Hu v w Hin. destruct (Hfin u Hu) as (x & Hx & _).
    rewrite Hx. simpl.
    destruct (Hsof u Hu v w x Hin Hx) as [?|[HuU _]]; [done|].
    by apply (proj2 (Hdone u HuU) v w x).
  - intros v x Hv Ho Hx.
    destruct (Hopen v x Hv Ho Hx)
      as [?|(Hinf & u & w & z & HuU & Hin & Hz & ->)]; [done|].
    by apply (proj2 (Hdone u HuU) v w z).
  - intros v Hv. apply Hkeys. by rewrite Hc.
Qed.
End RelaxEdgesRun.

(** ** The work left in the pull loop *)

Lemma sum_list_drop (f f' : nat → nat) (U l : list nat) :
  (∀ v, v ∈ l → (f' v ≤ f v)%nat) →
  (∀ u, u ∈ U → u ∈ l → (f' u + 1 ≤ f u)%nat) →
  (sum_list (f' <$> l) + length (filter (λ v, v ∈ U) l)
   ≤ sum_list (f <$> l))%nat.
Proof.
  induction l as [|a l IH]; intros Hle Hlt; simpl; [lia|].
  assert (sum_list (f' <$> l) + length (filter (λ v, v ∈ U) l)
          ≤ sum_list (f <$> l))%nat as IH'.
  { apply IH.
    - intros v Hv. apply Hle. by right.
    - intros u Hu Hin. apply Hlt; [done|by right]. }
  unfold fmap in IH' |- *.
  destruct (decide (a ∈ U)) as [Ha|Ha].
  - rewrite filter_cons_True by done. simpl.
    pose proof (Hlt a Ha (list_elem_of_here _ _)). lia.
  - rewrite filter_cons_False by done.
    pose proof (Hle a (list_elem_of_here _ _)). lia.
Qed.

Lemma sum_list_elem (f : nat → nat) (l : list nat) x :
  x ∈ l → (f x ≤ sum_list (f <$> l))%nat.
Proof.
  induction l as [|a l IH]; [by intros ?%elem_of_nil|].
  intros [->|Hin]%elem_of_cons; simpl; [lia|].
  specialize (IH Hin). unfold fmap in IH |- *. lia.
Qed.

Lemma length_filter_members (U : list nat) n :
  NoDup U → (∀ u, u ∈ U → (u < n)%nat) →
  (length U ≤ length (filter (λ v, v ∈ U) (seq 0 n)))%nat.
Proof.
  intros Hnd Hlt. apply submseteq_length, NoDup_submseteq; [done|].
  intros u Hu. apply list_elem_of_filter. split; [done|].
  apply elem_of_seq. specialize (Hlt u Hu). lia.
Qed.

Lemma vertex_weight_le done els v : (vertex_weight done els v ≤ 2)%nat.
Proof.
  unfold vertex_weight. destruct (rdb done v); [|lia].
  case_bool_decide; lia.
Qed.

(** A round that completes or re-pulls the vertices [U] lowers the
    potential by at least their number. *)
Lemma potential_drop n (c c' : gmap nat bool) (els els' : list (nat * num))
    (U : list nat) :
  NoDup U →
  (∀ u, u ∈ U → (u < n)%nat ∧
     (vertex_weight c' els' u + 1 ≤ vertex_weight c els u)%nat) →
  (∀ v, (v < n)%nat → (vertex_weight c' els' v ≤ vertex_weight c els v)%nat) →
  (potential n c' els' + length U ≤ potential n c els)%nat.
Proof.
  intros Hnd HU Hle. unfold potential.
  pose proof (sum_list_drop (vertex_weight c els) (vertex_weight c' els')
                U (seq 0 n)) as Hsum.
  pose proof (length_filter_members U n Hnd (λ u Hu, proj1 (HU u Hu))).
  assert (∀ v, v ∈ seq 0 n → (v < n)%nat) as Hseq.
  { intros v Hv%elem_of_seq. lia. }
  specialize (Hsum (λ v Hv, Hle v (Hseq v Hv)) (λ u Hu _, proj2 (HU u Hu))).
  lia.
Qed.

Lemma potential_open n (c : gmap nat bool) (els : list (nat * num)) v :
  (v < n)%nat → rdb c v = false → (2 ≤ potential n c els)%nat.
Proof.
  intros Hv Ho. unfold potential.
  pose proof (sum_list_elem (vertex_weight c els) (seq 0 n) v) as Hsum.
  unfold vertex_weight at 1 in Hsum. rewrite Ho in Hsum. apply Hsum.
  apply elem_of_seq. lia.
Qed.

Lemma potential_keyed n (c : gmap nat bool) (els : list (nat * num)) v :
  (v < n)%nat → v ∈ els.*1 → (1 ≤ potential n c els)%nat.
Proof.
  intros Hv Hk. unfold potential.
  pose proof (sum_list_elem (vertex_weight c els) (seq 0 n) v) as Hsum.
  unfold vertex_weight at 1 in Hsum.
  rewrite bool_decide_eq_true_2 in Hsum by done.
  assert (v ∈ seq 0 n) as Hin by (apply elem_of_seq; lia).
  specialize (Hsum Hin). destruct (rdb c v); lia.
Qed.

Lemma sum_list_const (c : nat) (l : list nat) :
  sum_list ((λ _, c) <$> l) = (c * length l)%nat.
Proof.
  induction l as [|a l IH]; simpl; [lia|]. unfold fmap in IH. rewrite IH. lia.
Qed.

(** At the start one vertex is complete. *)
Lemma potential_start n (c : gmap nat bool) (els : list (nat * num)) s :
  (s < n)%nat → rdb c s = true → (potential n c els ≤ 2 * n - 1)%nat.
Proof.
  intros Hs Hc. unfold potential.
  pose proof (sum_list_drop (λ _, 2%nat) (vertex_weight c els) [s] (seq 0 n))
    as Hsum.
  pose proof (length_filter_members [s] n (NoDup_singleton s)) as Hlen.
  rewrite sum_list_const, length_seq in Hsum. simpl in Hlen.
  assert (1 ≤ length (filter (λ v, v ∈ [s]) (seq 0 n)))%nat as Hone.
  { apply Hlen. intros u Hu. apply list_elem_of_singleton in Hu as ->. done. }
  assert (sum_list (vertex_weight c els <$> seq 0 n)
          + length (filter (λ v, v ∈ [s]) (seq 0 n)) ≤ 2 * n)%nat as Hb.
  { apply Hsum.
    - intros v _. apply vertex_weight_le.
    - intros u Hu _. apply list_elem_of_singleton in Hu as ->.
      unfold vertex_weight. rewrite Hc. case_bool_decide; lia. }
  lia.
Qed.

Lemma count_open_lt n (c : gmap nat bool) s :
  (s < n)%nat → rdb c s = true → (count_open n c + 1 ≤ n)%nat.
Proof.
  intros Hs Hc. unfold count_open.
  pose proof (length_filter_lt (λ v, rdb c v = false) (seq 0 n) s) as Hlt.
  rewrite length_seq in Hlt.
  assert (s ∈ seq 0 n) as Hin by (apply elem_of_seq; lia).
  specialize (Hlt Hin). assert (¬ rdb c s = false) as Hn by congruence.
  specialize (Hlt Hn). lia.
Qed.

(** ** The end of the pull loop *)

(** When every vertex with a finite distance is complete, final and
    settled, the table is the table of shortest distances. *)
Lemma closed_shortest g s (c : gmap nat bool) (d : gmap nat num) :
  wf_graph g → (s < length (nodes g))%nat →
  table_ok (length (nodes g)) d → realizable g s d →
  rdb c s = true →
  (∀ v, rdb c v = true → final g s d v) →
  (∀ u, rdb c u = true → settled g d u) →
  (∀ v x, (v < length (nodes g))%nat → rdb c v = false → rd d v ≠ Fin x) →
  shortest_table g s d.
Proof.
  intros Hwf Hs Htab Hreal Hsrc Hfin Hset Hclosed v Hv.
  split; [by apply Htab|]. split; [by apply Hreal|].
  intros l Hl.
  destruct (path_lower_bound g s Hwf d (λ y, rdb c y) (l + 1)) with
    (y:=v) (l:=l) as [Hc|?]; try done; [by left| | | |lia].
  - intros u v0 w x Hu Hin Hx. left. pose proof (Hset u Hu v0 w Hin) as Hle.
    by rewrite Hx in Hle.
  - intros v0 x Ho Hx. exfalso.
    assert (v0 < length (nodes g))%nat as Hv0.
    { apply Hreal in Hx. by apply (path_len_vertex g s Hwf) in Hx. }
    by apply (Hclosed v0 x).
  - destruct (Hfin v Hc) as (x & Hx & Hmin). exists x. split; [done|].
    by apply Hmin.
Qed.

Lemma level_exit g s els st :
  wf_graph g → (s < length (nodes g))%nat →
  level_inv g s els st →
  els = [] ∨
    (potential (length (nodes g)) (NewSSSP.complete st) els ≤ 1)%nat →
  shortest_table g s (NewSSSP.dist st).
Proof.
  intros Hwf Hs [Htab Hreal Hsrc Hfin Hset Hfr Hopen] Hexit.
  apply (closed_shortest g s (NewSSSP.complete st)); try done.
  intros v x Hv Ho Hx. destruct Hexit as [->|Hpot].
  - specialize (Hopen v x Hv Ho Hx). by apply elem_of_nil in Hopen.
  - pose proof (potential_open _ _ els v Hv Ho). lia.
Qed.

(** ** A round of the pull loop of the top level *)

Section Round.
Variable g : Graph.
Variable s : nat.
Hypothesis Hwf : wf_graph g.
Hypothesis Hs : (s < length (nodes g))%nat.

Lemma frontier_ok_proper n c d els : frontier_ok n c d els → proper els.
Proof.
  intros [_ Hent]. apply Forall_forall. intros [v x] Hin.
  destruct (Hent v x Hin) as (_ & [z ->] & _). done.
Qed.

(** The second half of a round: [relaxEdges] restores the invariant of
    the loop, and the potential has dropped by the length of [subU]. *)
Lemma round_finish Bi subU els F1 v1 (c0 : gmap nat bool) st1 :
  relax_inv g s Bi subU F1 (NewSSSP.complete st1) F1 st1 →
  NoDup subU →
  (∀ u, u ∈ subU → (u < length (nodes g))%nat ∧ (u = v1 ∨ rdb c0 u = false)) →
  (∀ v, rdb c0 v = true → rdb (NewSSSP.complete st1) v = true) →
  v1 ∈ els.*1 → v1 ∉ F1.*1 → (∀ v, v ∈ F1.*1 → v ∈ els.*1) →
  level_inv g s (NewSSSP.relaxEdges g subU Bi PInf F1 st1).1
    (NewSSSP.relaxEdges g subU Bi PInf F1 st1).2 ∧
  (potential (length (nodes g))
     (NewSSSP.complete (NewSSSP.relaxEdges g subU Bi PInf F1 st1).2)
     (NewSSSP.relaxEdges g subU Bi PInf F1 st1).1 + length subU
   ≤ potential (length (nodes g)) c0 els)%nat.
Proof.
  intros Hinv Hnd HU Hmono Hv1 Hv1' Hsub.
  destruct (relaxEdges_spec g s Bi subU F1 _ Hwf Hs st1 Hinv)
    as (Hlev & Hc & Hk).
  split; [done|]. apply potential_drop; [done| |].
  - intros u Hu. destruct (HU u Hu) as [Hun Hor]. split; [done|].
    unfold vertex_weight. rewrite Hc.
    rewrite (ri_sub _ _ _ _ _ _ _ _ Hinv u Hu).
    destruct (rdb c0 u) eqn:Hc0.
    + destruct Hor as [->|?]; [|done].
      rewrite (bool_decide_eq_true_2 (v1 ∈ els.*1)) by done.
      rewrite bool_decide_eq_false_2; [lia|].
      intros Hin. apply Hv1', Hk; [|done].
      by apply (ri_sub _ _ _ _ _ _ _ _ Hinv).
    + case_bool_decide; lia.
  - intros v Hv. unfold vertex_weight. rewrite Hc.
    destruct (rdb c0 v) eqn:Hc0.
    + rewrite (Hmono v Hc0). repeat case_bool_decide; try lia.
      exfalso. apply H0, Hsub, Hk; [|done]. by apply Hmono.
    + destruct (rdb (NewSSSP.complete st1) v); [case_bool_decide|]; lia.
Qed.

(** The first half of a round: the pulled vertex is complete or has a
    least distance among the open vertices, so [baseCase] runs from a
    final seed. *)
Lemma round_baseCase els st v1 x1 Bi F1 rest fuel :
  level_inv g s els st →
  els ≡ₚ (v1, x1) :: F1 → is_dist Bi →
  (∀ b, b ∈ F1 → num_le x1 b.2 = true) →
  (∀ b, b ∈ F1 → num_le Bi b.2 = true) →
  (length (nodes g) ≤ fuel)%nat →
  ∃ subU st1,
    NewSSSP.baseCase g fuel Bi (v1 :: rest) st = Some (Bi, subU, st1) ∧
    relax_inv g s Bi subU F1 (NewSSSP.complete st1) F1 st1 ∧
    NoDup subU ∧
    (∀ u, u ∈ subU → (u < length (nodes g))%nat ∧
       (u = v1 ∨ rdb (NewSSSP.complete st) u = false)) ∧
    (∀ v, rdb (NewSSSP.complete st) v = true →
       rdb (NewSSSP.complete st1) v = true) ∧
    v1 ∈ subU.
Proof.
  intros [Htab Hreal Hsrc Hfin Hset [Hnd Hent] Hopen] Hperm HBi Hx1 HB Hfuel.
  assert ((v1, x1) ∈ els) as Hin1 by (rewrite Hperm; by left).
  destruct (Hent _ _ Hin1) as (Hv1 & [z1 ->] & Hor).
  assert (NoDup ((v1, Fin z1) :: F1).*1) as Hnd' by (by rewrite <-Hperm).
  cbn in Hnd'. apply NoDup_cons in Hnd' as [Hv1F HndF].
  assert (∀ v x, v ≠ v1 → (v, x) ∈ els → (v, x) ∈ F1) as Hrest.
  { intros v x Hne Hin. rewrite Hperm in Hin.
    apply elem_of_cons in Hin as [[=]|?]; done. }
  assert (∃ d1, rd (NewSSSP.dist st) v1 = Fin d1 ∧
                final g s (NewSSSP.dist st) v1) as (d1 & Hd1 & Hf1).
  { destruct (rdb (NewSSSP.complete st) v1) eqn:Hc1.
    - destruct (Hfin v1 Hc1) as (d1 & Hd1 & Hmin). exists d1. split; [done|].
      by exists d1.
    - destruct Hor as [?|Hx]; [done|]. exists z1. split; [done|].
      exists z1. split; [done|]. intros l Hl.
      destruct (path_lower_bound g s Hwf (NewSSSP.dist st)
                  (λ y, rdb (NewSSSP.complete st) y) z1) with (y:=v1) (l:=l)
        as [?|?]; try done; [by left| | |congruence].
      + intros u v w x Hu Hin Hux. left.
        pose proof (Hset u Hu v w Hin) as Hle. by rewrite Hux in Hle.
      + intros v x Hvo Hvx.
        assert (v < length (nodes g))%nat as Hv.
        { apply Hreal in Hvx. by apply (path_len_vertex g s Hwf) in Hvx. }
        pose proof (Hopen v x Hv Hvo Hvx) as Hin. rewrite Hperm in Hin.
        apply elem_of_cons in Hin as [Heq|Hin]; [injection Heq as _ ->; lia|].
        apply Hx1 in Hin. simpl in Hin. apply Z.leb_le in Hin. lia. }
  destruct (baseCase_spec g s Bi F1 Hwf Hs HBi) with
    (seed:=v1) (rest:=rest) (d1:=d1) (st:=st) (fuel:=fuel)
    as (U & st1 & heap' & inHeap' & Hrun & Hnil & [Hcore Hsof] & HvU).
  { intros v x Hin. by apply (HB (v, x)). }
  { split; try done.
    - intros u Hu _. by apply Hset.
    - intros v x Hv Ho Hne Hx. apply Hrest; [done|]. by apply Hopen. }
  { pose proof (count_open_lt _ _ _ Hs Hsrc). lia. }
  destruct Hcore as [Htab' Hreal' Htr HinH Hbelow Hopen' Hfin' Hdn [HUnd HU]
                     Hsame Hsrc'].
  exists U, st1. split_and!; try done.
  - split; try done.
    + intros u Hu. apply Hdn. by right.
    + split; [done|]. intros v x Hin.
      assert ((v, x) ∈ els) as Hin' by (rewrite Hperm; by right).
      destruct (Hent _ _ Hin') as (? & ? & Hor'). split_and!; try done.
      destruct (rdb (NewSSSP.complete st1) v) eqn:Hc1; [by left|right].
      destruct Hor' as [Hc0|Heq].
      * assert (rdb (NewSSSP.complete st1) v = true); [|congruence].
        apply Hdn. by left.
      * rewrite Heq. symmetry. apply Hsame; [done|]. rewrite Hnil.
        apply not_elem_of_nil.
    + intros v x Hv Ho Hx. left.
      destruct (Hopen' v x Hv Ho Hx) as [Hh|?]; [|done].
      rewrite Hnil in Hh. by apply elem_of_nil in Hh.
  - intros v Hv. apply Hdn. by left.
Qed.
End Round.

(** ** The pull loop of the top level runs to the shortest distances *)

Section LevelLoop.
Variable g : Graph.
Variable k t : nat.
Variable s : nat.
Variable fuel0 : nat.
Hypothesis Hwf : wf_graph g.
Hypothesis Hs : (s < length (nodes g))%nat.
Hypothesis Hfuel0 : (length (nodes g) ≤ fuel0)%nat.
Hypothesis Hcap : (N.of_nat (2 * length (nodes g) - 2) ≤ NewSSSP.cap k t 1)%N.

Lemma pullCount_1 : NewSSSP.pullCount t 1 = 1%N.
Proof. reflexivity. Qed.

Lemma level_loop_total f :
  ∀ els U Bp st,
  level_inv g s els st →
  (potential (length (nodes g)) (NewSSSP.complete st) els ≤ f)%nat →
  (length U + potential (length (nodes g)) (NewSSSP.complete st) els
   ≤ 2 * length (nodes g) - 1)%nat →
  ∃ U' Bp' st',
    NewSSSP.BMSSP_loop g k t (NewSSSP.BMSSP g k t fuel0 0) f 1 PInf
      els U Bp st = Some (U', Bp', st') ∧
    shortest_table g s (NewSSSP.dist st').
Proof.
  induction f as [|f IH]; intros els U Bp st Hinv Hf Hpot;
    cbn [NewSSSP.BMSSP_loop];
    destruct (N.ltb_spec (N.of_nat (length U)) (NewSSSP.cap k t 1))
      as [Hlt|Hge]; cbn [andb];
    try (exists U, Bp, st; split; [done|];
         apply (level_exit g s els st Hwf Hs Hinv); right; lia).
  - destruct els as [|[v x] els']; cbn [AdaptiveFrontier.hasElements length
      Nat.ltb Nat.leb].
    + exists U, Bp, st. split; [done|].
      apply (level_exit g s [] st Hwf Hs Hinv). by left.
    + exfalso.
      destruct (fo_entries _ _ _ _ (lv_frontier _ _ _ _ Hinv) v x)
        as (Hv & _); [by left|].
      pose proof (potential_keyed _ (NewSSSP.complete st) ((v, x) :: els') v Hv)
        as Hone.
      assert (v ∈ ((v, x) :: els').*1) as Hk by (cbn; by left).
      specialize (Hone Hk). lia.
  - destruct els as [|e els']; cbn [AdaptiveFrontier.hasElements
      length Nat.ltb Nat.leb].
    { exists U, Bp, st. split; [done|].
      apply (level_exit g s [] st Hwf Hs Hinv). by left. }
    assert (e :: els' ≠ []) as Hne by done.
    set (els := e :: els') in *.
    rewrite pullCount_1.
    pose proof (lv_frontier _ _ _ _ Hinv) as Hfr.
    destruct (pull_one els (fo_keys _ _ _ _ Hfr)
                (frontier_ok_proper _ _ _ _ Hfr) Hne)
      as (v1 & x1 & Bi & F1 & Hpull & Hperm & HBi & Hx1 & HB & _).
    rewrite Hpull. cbn [length Nat.eqb NewSSSP.BMSSP].
    destruct (round_baseCase g s Hwf Hs els st v1 x1 Bi F1 [] fuel0 Hinv Hperm
                HBi Hx1 HB Hfuel0)
      as (subU & st1 & Hrun & Hrel & Hnd & HU & Hmono & Hv1).
    rewrite Hrun.
    assert (NoDup ((v1, x1) :: F1).*1) as Hnd'.
    { rewrite <-Hperm. apply (fo_keys _ _ _ _ Hfr). }
    cbn in Hnd'. apply NoDup_cons in Hnd' as [Hv1F _].
    assert (v1 ∈ els.*1) as Hk1 by (rewrite Hperm; cbn; by left).
    assert (∀ v, v ∈ F1.*1 → v ∈ els.*1) as Hsub.
    { intros v Hv. rewrite Hperm. cbn. by right. }
    destruct (round_finish g s Hwf Hs Bi subU els F1 v1
                (NewSSSP.complete st) st1 Hrel Hnd HU Hmono Hk1 Hv1F Hsub)
      as [Hinv' Hdrop].
    destruct (NewSSSP.relaxEdges g subU Bi PInf F1 st1) as [els2 st2].
    cbn [fst snd] in Hinv', Hdrop.
    assert (1 ≤ length subU)%nat as Hlen.
    { destruct subU; [by apply elem_of_nil in Hv1|simpl; lia]. }
    rewrite length_app.
    destruct (N.leb_spec (NewSSSP.cap k t 1)
                (N.of_nat (length U + length subU))) as [Hfull|Hfull].
    + eexists _, _, _. split; [done|].
      apply (level_exit g s els2 st2 Hwf Hs Hinv'). right. lia.
    + apply IH; [done|lia|rewrite length_app; lia].
Qed.
End LevelLoop.

(** ** findPivots at the top level *)

Section TopPivots.
Variable g : Graph.
Variable k : nat.
Variable s : nat.
Hypothesis Hwf : wf_graph g.
Hypothesis Hs : (s < length (nodes g))%nat.

Lemma seeded_pivots_inv : pivots_inv g s (NewSSSP.seeded g s).
Proof.
  split; cbn [NewSSSP.seeded NewSSSP.init NewSSSP.dist NewSSSP.complete].
  - apply table_ok_insert; [done|]. intros v Hv. rewrite rd_fill.
    by rewrite decide_True.
  - intros v x. destruct (decide (v = s)) as [->|Hne].
    + rewrite rd_insert_eq. intros [= <-]. constructor.
    + rewrite rd_insert_ne, rd_fill by done. by case_decide.
  - by rewrite rdb_insert_eq.
  - intros v [->|Hv]%rdb_insert_true; [done|].
    by rewrite rdb_fill_false in Hv.
  - by rewrite rd_insert_eq.
  - intros v x Hne. rewrite rd_insert_ne, rd_fill by done. by case_decide.
Qed.

(** Walking an edge of the source keeps the invariant and leaves the
    head of the edge at most the weight of the edge away. *)
Lemma pivots_edge_step acc v w :
  pivots_inv g s acc.1.1 → (v, w) ∈ neighbors g s →
  pivots_inv g s (NewSSSP.findPivots_edge PInf s acc (v, w)).1.1 ∧
  num_le (rd (NewSSSP.dist (NewSSSP.findPivots_edge PInf s acc (v, w)).1.1) v)
         (Fin w) = true.
Proof.
  destruct acc as [[st layer] W]. cbn [fst snd].
  intros [Htab Hreal Hsrc Honly Hzero Hopen] Hin.
  destruct (proj2 Hwf _ _ _ Hin) as [Hv Hw].
  unfold NewSSSP.findPivots_edge. cbn [fst snd]. rewrite Hzero.
  cbn [num_add]. rewrite Z.add_0_l.
  destruct (num_le (Fin w) (rd (NewSSSP.dist st) v)) eqn:Hle; cbn [andb].
  2:{ cbn [fst snd]. split; [done|]. apply num_lt_le.
      apply num_le_total; [done|by apply Htab|done]. }
  change (num_lt (Fin w) PInf) with true. cbn iota.
  destruct (num_lt (Fin w) (rd (NewSSSP.dist st) v)) eqn:Hlt; cbn [fst snd].
  - assert (v ≠ s) as Hne.
    { intros ->. rewrite Hzero in Hlt. simpl in Hlt. apply Z.ltb_lt in Hlt.
      lia. }
    split; [|rewrite rd_improve_eq; simpl; apply Z.leb_refl].
    split; cbn [NewSSSP.improve NewSSSP.dist NewSSSP.complete]; try done.
    + by apply table_ok_insert.
    + pose proof (realizable_insert g s _ s v w 0 Hreal Hzero Hin) as Hr.
      by rewrite Z.add_0_l in Hr.
    + by rewrite rd_insert_ne.
    + intros v' x Hne'. destruct (decide (v' = v)) as [->|Hvv].
      * rewrite rd_insert_eq. by intros [= <-].
      * rewrite rd_insert_ne by done. by apply Hopen.
  - split; [done|].
    rewrite (num_le_not_lt_eq w _ (Htab v Hv) Hle Hlt). simpl.
    apply Z.leb_refl.
Qed.

Lemma pivots_vertex_step acc u :
  pivots_inv g s acc.1.1 →
  pivots_inv g s (NewSSSP.findPivots_vertex g PInf acc u).1.1.
Proof.
  intros Hinv. unfold NewSSSP.findPivots_vertex.
  destruct (rdb (NewSSSP.complete acc.1.1) u) eqn:Hu; cbn [negb]; [|done].
  apply (pi_only _ _ _ Hinv) in Hu as ->.
  apply (fold_left_invariant (λ a, pivots_inv g s a.1.1)); [done|].
  intros a [v w] Hin Ha. by apply pivots_edge_step.
Qed.

Lemma pivots_layer_step layer acc :
  pivots_inv g s acc.1.1 →
  pivots_inv g s (fold_left (NewSSSP.findPivots_vertex g PInf) layer acc).1.1.
Proof.
  intros Hinv.
  apply (fold_left_invariant (λ a, pivots_inv g s a.1.1)); [done|].
  intros a u _ Ha. by apply pivots_vertex_step.
Qed.

Lemma pivots_rounds_step rounds S layer W st :
  pivots_inv g s st →
  pivots_inv g s (NewSSSP.findPivots_rounds g k rounds PInf S layer W st).1.1.
Proof.
  revert layer W st. induction rounds as [|r IH]; intros layer W st Hinv;
    cbn [NewSSSP.findPivots_rounds]; [done|].
  pose proof (pivots_layer_step layer (st, [], W) Hinv) as Hl.
  destruct (fold_left _ layer _) as [[st1 next] W1]. cbn [fst snd] in Hl.
  destruct (Nat.ltb _ _); [done|]. by apply IH.
Qed.

(** After the edges of the source have been walked once, the source is
    settled. *)
Lemma pivots_first_vertex acc :
  pivots_inv g s acc.1.1 →
  settled g
    (NewSSSP.dist (NewSSSP.findPivots_vertex g PInf acc s).1.1) s.
Proof.
  intros Hinv. unfold NewSSSP.findPivots_vertex.
  rewrite (pi_source _ _ _ Hinv). cbn [negb].
  assert (pivots_inv g s
            (fold_left (NewSSSP.findPivots_edge PInf s) (neighbors g s) acc).1.1
          ∧ ∀ v w, (v, w) ∈ neighbors g s →
              num_le (rd (NewSSSP.dist (fold_left
                (NewSSSP.findPivots_edge PInf s) (neighbors g s) acc).1.1) v)
                (Fin w) = true) as [Hinv' Hdone].
  { apply (fold_left_prefix
      (λ done a, pivots_inv g s a.1.1 ∧
         ∀ v w, (v, w) ∈ done →
           num_le (rd (NewSSSP.dist a.1.1) v) (Fin w) = true)).
    - split; [done|]. intros v w Hin. by apply elem_of_nil in Hin.
    - intros done [v w] a [rest Hl] [Ha Hd].
      assert ((v, w) ∈ neighbors g s) as Hin.
      { rewrite Hl. apply elem_of_app. right. by left. }
      destruct (pivots_edge_step a v w Ha Hin) as [Ha' Hvw].
      split; [done|]. intros v' w' [Hin'|Hin']%elem_of_app.
      + pose proof (strict_write_nonincreasing _ _
          (findPivots_edge_write PInf s a (v, w))) as Hmono.
        destruct (nonincreasing_rd _ _ v' Hmono) as [->|Hlt];
          [by apply Hd|].
        exact (num_le_trans _ _ _ (num_lt_le _ _ Hlt) (Hd v' w' Hin')).
      + apply list_elem_of_singleton in Hin'. by injection Hin' as -> ->. }
  intros v w Hin. rewrite (pi_zero _ _ _ Hinv'). cbn [num_add].
  rewrite Z.add_0_l. by apply Hdone.
Qed.

Lemma settled_nonincreasing (d d' : gmap nat num) :
  nonincreasing d d' → rd d s = Fin 0 → rd d' s = Fin 0 →
  settled g d s → settled g d' s.
Proof.
  intros Hmono Hz Hz' Hset v w Hin. rewrite Hz'.
  pose proof (Hset v w Hin) as Hle. rewrite Hz in Hle.
  destruct (nonincreasing_rd _ _ v Hmono) as [->|Hlt]; [done|].
  exact (num_le_trans _ _ _ (num_lt_le _ _ Hlt) Hle).
Qed.

(** The top-level [findPivots]: the source is the only pivot, and it is
    settled. *)
Lemma findPivots_top :
  (1 ≤ k)%nat →
  ∃ W st1,
    NewSSSP.findPivots g k PInf [s] (NewSSSP.seeded g s) = ([s], W, st1) ∧
    pivots_inv g s st1 ∧ settled g (NewSSSP.dist st1) s.
Proof.
  intros Hk. unfold NewSSSP.findPivots.
  change (set_of_list [s]) with [s].
  pose proof seeded_pivots_inv as Hinv0.
  assert (∀ rounds, (1 ≤ rounds)%nat →
    pivots_inv g s
      (NewSSSP.findPivots_rounds g k rounds PInf [s] [s] [s]
         (NewSSSP.seeded g s)).1.1
    ∧ settled g (NewSSSP.dist
      (NewSSSP.findPivots_rounds g k rounds PInf [s] [s] [s]
         (NewSSSP.seeded g s)).1.1) s) as Hrounds.
  { intros rounds Hr. split; [by apply pivots_rounds_step|].
    destruct rounds as [|r]; [lia|]. cbn [NewSSSP.findPivots_rounds fold_left].
    pose proof (pivots_first_vertex (NewSSSP.seeded g s, [], [s]) Hinv0)
      as Hset1.
    pose proof (pivots_vertex_step (NewSSSP.seeded g s, [], [s]) s Hinv0)
      as Hinv1.
    destruct (NewSSSP.findPivots_vertex g PInf _ s) as [[st1 next] W1].
    cbn [fst snd] in Hset1, Hinv1.
    destruct (Nat.ltb _ _); [done|].
    eapply settled_nonincreasing; [apply findPivots_rounds_mono| | |done].
    - apply (pi_zero _ _ _ Hinv1).
    - apply (pi_zero g s). by apply pivots_rounds_step. }
  destruct (Hrounds k Hk) as [Hinv Hset]. clear Hrounds.
  destruct (NewSSSP.findPivots_rounds g k k PInf [s] [s] [s] _)
    as [[st1 W] exited]. cbn [fst snd] in Hinv, Hset.
  destruct exited; [by exists W, st1|].
  exists W, st1. split; [|done]. f_equal. f_equal.
  destruct (findLargeTreeRoots_spec [s] W k st1) as (_ & _ & _ & Hor).
  cbn [List.filter] in Hor. rewrite (pi_source _ _ _ Hinv) in Hor.
  change (set_of_list [s]) with [s] in Hor.
  destruct Hor as [->|(ts & -> & Hne)]; [done|].
  cbn [List.filter] in *. by destruct (Nat.leb _ _).
Qed.
End TopPivots.

(** ** The top-level call *)

(** [baseCase] from a complete, settled seed visits the seed and nothing
    else. *)
Lemma baseCase_stale g fuel B seed rest st d :
  rd (NewSSSP.dist st) seed = Fin d → settled g (NewSSSP.dist st) seed →
  (1 ≤ fuel)%nat →
  NewSSSP.baseCase g fuel B (seed :: rest) st
  = Some (B, [seed], NewSSSP.mark_complete seed st).
Proof.
  intros Hd Hset Hfuel. destruct fuel as [|f]; [lia|].
  unfold NewSSSP.baseCase. rewrite Hd, insert_empty.
  cbn [NewSSSP.baseCase_loop]. unfold MinHeap.isEmpty at 1.
  cbn [MinHeap.heap length Nat.eqb].
  rewrite (extractMin_single _ (seed, Fin d)) by done.
  cbn [fst MinHeap.positions]. unfold NewSSSP.baseCase_visit.
  set (start := (MinHeap.mk [] (delete seed (<[seed:=0%nat]> ∅)),
                 ({[seed]} : gset nat) ∖ {[seed]},
                 NewSSSP.mark_complete seed st)).
  assert (fold_left (NewSSSP.baseCase_edge B seed) (neighbors g seed) start
          = start) as ->.
  { apply (fold_left_invariant (λ a, a = start)); [done|].
    intros a [v w] Hin ->. unfold NewSSSP.baseCase_edge, start.
    cbn [fst snd NewSSSP.mark_complete NewSSSP.dist]. rewrite Hd.
    cbn [num_add]. pose proof (Hset v w Hin) as Hle. rewrite Hd in Hle.
    cbn [num_add] in Hle.
    destruct (num_lt (Fin (d + w)) (rd (NewSSSP.dist st) v)) eqn:Hlt; [|done].
    apply num_lt_not_le in Hlt. congruence. }
  unfold start. by destruct f.
Qed.

Section TopLevel.
Variable g : Graph.
Variable k t : nat.
Variable s : nat.
Hypothesis Hwf : wf_graph g.
Hypothesis Hs : (s < length (nodes g))%nat.

(** Level 0: [solve] is a single [baseCase] from the source, with no
    bound. *)
Lemma BMSSP_0_correct fuel :
  (length (nodes g) ≤ fuel)%nat →
  ∃ B' U st,
    NewSSSP.BMSSP g k t fuel 0 PInf [s] (NewSSSP.seeded g s)
      = Some (B', U, st) ∧
    shortest_table g s (NewSSSP.dist st).
Proof.
  intros Hfuel. cbn [NewSSSP.BMSSP].
  destruct (seeded_pivots_inv g s) as [Htab Hreal Hsrc Honly Hzero Hopen].
  assert (final g s (NewSSSP.dist (NewSSSP.seeded g s)) s) as Hfs.
  { exists 0. split; [done|]. intros l Hl.
    by apply (path_len_nonneg g s Hwf) in Hl. }
  destruct (baseCase_spec g s PInf [] Hwf Hs) with
    (seed:=s) (rest:=@nil nat) (d1:=0) (st:=NewSSSP.seeded g s) (fuel:=fuel)
    as (U & st1 & heap' & inHeap' & Hrun & Hnil & [Hcore Hsof] & _);
    [done| | | |].
  { intros v x Hin. by apply elem_of_nil in Hin. }
  { split; try done.
    - intros v Hv. by rewrite (Honly v Hv).
    - intros u Hu Hne. by apply Honly in Hu.
    - intros v x Hv Ho Hne Hx. exfalso.
      revert Hx. cbn [NewSSSP.seeded NewSSSP.init NewSSSP.dist].
      rewrite rd_insert_ne, rd_fill by done. by case_decide. }
  { pose proof (count_open_lt _ _ _ Hs Hsrc). lia. }
  exists PInf, U, st1. split; [done|].
  destruct Hcore as [Htab' Hreal' Htr HinH Hbelow Hopen' Hfin' Hdn HU Hsame
                     Hsrc'].
  apply (closed_shortest g s (NewSSSP.complete st1)); try done.
  - intros u Hu v w Hin. destruct (Hfin' u Hu) as (x & Hx & _).
    rewrite Hx. cbn [num_add].
    by destruct (Hsof u Hu v w x Hin Hx) as [?|[_ ?]].
  - intros v x Hv Ho Hx. destruct (Hopen' v x Hv Ho Hx) as [Hin|Hin].
    + rewrite Hnil in Hin. by apply elem_of_nil in Hin.
    + by apply elem_of_nil in Hin.
Qed.

(** The first round of the pull loop: the source comes back, stale,
    and [relaxEdges] stores its neighbours; then the loop runs on. *)
Lemma first_round_total fuel0 f st0 :
  pivots_inv g s st0 → settled g (NewSSSP.dist st0) s →
  (1 ≤ k)%nat →
  (N.of_nat (2 * length (nodes g) - 2) ≤ NewSSSP.cap k t 1)%N →
  (length (nodes g) ≤ fuel0)%nat →
  (2 * length (nodes g) - 1 ≤ f)%nat →
  ∃ U B' st,
    NewSSSP.BMSSP_loop g k t (NewSSSP.BMSSP g k t fuel0 0) f 1 PInf
      [(s, Fin 0)] [] PInf st0 = Some (U, B', st) ∧
    shortest_table g s (NewSSSP.dist st).
Proof.
  intros [Htab Hreal Hsrc Honly Hzero Hopen] Hset Hk Hcap Hfuel0 Hf.
  assert (NewSSSP.cap k t 1 ≠ 0%N) as Hcap0.
  { unfold NewSSSP.cap. apply N.neq_mul_0.
    split; [lia|by apply N.pow_nonzero]. }
  destruct f as [|f]; [lia|]. cbn [NewSSSP.BMSSP_loop length].
  destruct (N.ltb_spec (N.of_nat 0) (NewSSSP.cap k t 1)) as [_|?]; [|lia].
  cbn [andb AdaptiveFrontier.hasElements length Nat.ltb Nat.leb].
  rewrite pullCount_1.
  destruct (pull_one [(s, Fin 0)]) as (v1 & x1 & Bi & F1 & Hpull & Hperm & _
    & _ & _ & HBi); [apply NoDup_singleton|by repeat constructor|done|].
  assert (length ((v1, x1) :: F1) = 1%nat) as Hlen by (by rewrite <-Hperm).
  destruct F1; [|done]. apply Permutation_singleton_r in Hperm.
  injection Hperm as <- <-. rewrite (HBi eq_refl) in Hpull. rewrite Hpull.
  cbn [length Nat.eqb NewSSSP.BMSSP].
  rewrite (baseCase_stale g fuel0 PInf s [] st0 0 Hzero Hset) by lia.
  set (st1 := NewSSSP.mark_complete s st0).
  assert (∀ v, rdb (NewSSSP.complete st1) v = rdb (NewSSSP.complete st0) v)
    as Hc1.
  { intros v. by apply rdb_insert_id. }
  assert (relax_inv g s PInf [s] [] (NewSSSP.complete st1) [] st1) as Hrel.
  { split; try done.
    - by rewrite Hc1.
    - intros v Hv. rewrite Hc1 in Hv. apply Honly in Hv as ->.
      exists 0. split; [done|]. intros l Hl.
      by apply (path_len_nonneg g s Hwf) in Hl.
    - intros u Hu. rewrite Hc1 in Hu. apply Honly in Hu as ->.
      intros v w x Hin Hx. left. pose proof (Hset v w Hin) as Hle.
      unfold st1 in Hx. cbn in Hx. by rewrite Hx in Hle.
    - intros u Hu. apply list_elem_of_singleton in Hu as ->.
      by rewrite Hc1.
    - split; [apply NoDup_nil_2|]. intros v x Hin.
      by apply elem_of_nil in Hin.
    - intros v x Hv Ho Hx. right. split; [done|].
      assert (v ≠ s) as Hne by (intros ->; rewrite Hc1 in Ho; congruence).
      exists s, x, 0. split_and!; [by left| |done|lia].
      by apply Hopen. }
  destruct (round_finish g s Hwf Hs PInf [s] [(s, Fin 0)] [] s
              (NewSSSP.complete st0) st1 Hrel) as [Hinv' Hdrop].
  { apply NoDup_singleton. }
  { intros u Hu. apply list_elem_of_singleton in Hu as ->.
    split; [done|by left]. }
  { intros v Hv. by rewrite Hc1. }
  { cbn. by left. }
  { apply not_elem_of_nil. }
  { intros v Hv. by apply elem_of_nil in Hv. }
  pose proof (potential_start (length (nodes g)) (NewSSSP.complete st0)
                [(s, Fin 0)] s Hs Hsrc) as Hstart.
  destruct (NewSSSP.relaxEdges g [s] PInf PInf [] st1) as [els2 st2].
  cbn [fst snd length app] in *.
  destruct (N.leb_spec (NewSSSP.cap k t 1) (N.of_nat 1)) as [Hfull|Hfull].
  - eexists _, _, _. split; [done|].
    apply (level_exit g s els2 st2 Hwf Hs Hinv'). right. lia.
  - apply (level_loop_total g k t s fuel0 Hwf Hs Hfuel0 Hcap); [done|lia|].
    cbn [length]. lia.
Qed.

Lemma BMSSP_1_unfold fuel B S st :
  NewSSSP.BMSSP g k t fuel 1 B S st =
  let '(pivots, W, st1) := NewSSSP.findPivots g k B S st in
  let frontier := AdaptiveFrontier.make pivots (NewSSSP.dist st1) in
  match NewSSSP.BMSSP_loop g k t (NewSSSP.BMSSP g k t fuel 0) fuel 1 B
          frontier [] B st1 with
  | None => None
  | Some (U, B_prime, st2) =>
      Some (B_prime, NewSSSP.merge_W W B_prime U st2, st2)
  end.
Proof. reflexivity. Qed.

(** Level 1: [findPivots] settles the source, the first round re-pulls
    it and fills the frontier, and the pull loop does the rest. *)
Lemma BMSSP_1_correct fuel :
  (1 ≤ k)%nat →
  (N.of_nat (2 * length (nodes g) - 2) ≤ NewSSSP.cap k t 1)%N →
  (2 * length (nodes g) ≤ fuel)%nat →
  ∃ B' U st,
    NewSSSP.BMSSP g k t fuel 1 PInf [s] (NewSSSP.seeded g s)
      = Some (B', U, st) ∧
    shortest_table g s (NewSSSP.dist st).
Proof.
  intros Hk Hcap Hfuel. rewrite BMSSP_1_unfold.
  destruct (findPivots_top g k s Hwf Hs Hk) as (W & st0 & -> & Hinv & Hset).
  change (AdaptiveFrontier.make [s] (NewSSSP.dist st0))
    with [(s, rd (NewSSSP.dist st0) s)]. cbn zeta.
  rewrite (pi_zero _ _ _ Hinv).
  destruct (first_round_total fuel fuel st0 Hinv Hset Hk Hcap)
    as (U & B' & st & Hrun & Hst); [lia|lia|].
  rewrite Hrun. by eexists _, _, _.
Qed.

(** [solve] returns, and its distances are the shortest distances. *)
Lemma solve_correct levels fuel :
  levels = 0%nat ∨
    (levels = 1%nat ∧ (1 ≤ k)%nat ∧
     (N.of_nat (2 * length (nodes g) - 2) ≤ NewSSSP.cap k t 1)%N) →
  (2 * length (nodes g) ≤ fuel)%nat →
  ∃ r, NewSSSP.solve g k t levels fuel s = Some r ∧
       shortest_table g s (NewSSSP.distances r) ∧
       ∀ v, (v < length (nodes g))%nat → is_Some (NewSSSP.distances r !! v).
Proof.
  intros Hlev Hfuel. unfold NewSSSP.solve.
  assert (∃ B' U st,
    NewSSSP.BMSSP g k t fuel levels PInf [s] (NewSSSP.seeded g s)
      = Some (B', U, st) ∧
    shortest_table g s (NewSSSP.dist st)) as (B' & U & st & -> & Hst).
  { destruct Hlev as [->|(-> & Hk & Hcap)].
    - apply BMSSP_0_correct. lia.
    - by apply BMSSP_1_correct. }
  eexists. split; [done|].
  assert (∀ v, (v < length (nodes g))%nat →
    NewSSSP.distances (NewSSSP.result_of g st) !! v
    = Some (rd (NewSSSP.dist st) v)) as Hlook.
  { intros v Hv. cbn [NewSSSP.result_of NewSSSP.distances].
    apply elem_of_list_to_map_1.
    - rewrite <-list_fmap_compose. cbn. rewrite list_fmap_id.
      apply NoDup_seq.
    - apply list_elem_of_fmap. exists v. split; [done|].
      apply elem_of_seq. unfold NewSSSP.n. lia. }
  split.
  - intros v Hv. unfold rd at 1 2 3. rewrite (Hlook v Hv). cbn [default].
    apply (Hst v Hv).
  - intros v Hv. rewrite (Hlook v Hv). by eexists.
Qed.
End TopLevel.

(** ** NewSSSP.solve against dijkstra (C1) *)

Lemma wf_check_sound g : wf_check g = true → wf_graph g.
Proof.
  unfold wf_check. intros [Hn Hall]%andb_true_iff.
  apply bool_decide_eq_true in Hn. split; [done|].
  intros u v w Hin. unfold neighbors in Hin.
  destruct (adjacencyList g !! u) as [es|] eqn:Hu;
    [|by apply elem_of_nil in Hin].
  cbn [default] in Hin. rewrite forallb_forall in Hall.
  apply elem_of_map_to_list in Hu. apply list_elem_of_In in Hu.
  specialize (Hall _ Hu). cbn [snd] in Hall. rewrite forallb_forall in Hall.
  apply list_elem_of_In in Hin. specialize (Hall _ Hin). cbn [fst snd] in Hall.
  apply andb_true_iff in Hall as [Hv%Nat.ltb_lt Hw%Z.leb_le]. done.
Qed.

(** C1: on a graph whose vertices are [0 .. n-1], whose edges lead to
    vertices of the graph and carry non-negative weights, and for a
    source of the graph, [NewSSSP.solve] and [dijkstra] both return, and
    their [distances] maps agree at every vertex; at a vertex that a path
    from the source reaches the common entry is finite and no path is
    lighter.  The parameters are those [solve] can meet: [levels] is [0],
    or it is [1] with [k ≥ 1] and a level-1 workload cap [k * 2^t] of at
    least [2n - 2] (the constructor takes [k ≥ 2] and [t ≥ max 2 ⌊n^(2/3)⌋],
    for which the cap is that large and [⌈ln n / t⌉] is [0] or [1]).  The
    run is given [2n] rounds for each of its loops. *)
Theorem solve_agrees_with_dijkstra (g : Graph) (k t levels : nat)
    (source : nat) (fuel : nat) :
  wf_graph g → (source < length (nodes g))%nat →
  levels = 0%nat ∨
    (levels = 1%nat ∧ (1 ≤ k)%nat ∧
     (N.of_nat (2 * length (nodes g) - 2) ≤ NewSSSP.cap k t 1)%N) →
  (2 * length (nodes g) ≤ fuel)%nat →
  ∃ r1 r2,
    NewSSSP.solve g k t levels fuel source = Some r1 ∧
    Dijkstra.dijkstra g fuel source None = Some r2 ∧
    ∀ v, (v < length (nodes g))%nat →
      NewSSSP.distances r1 !! v = NewSSSP.distances r2 !! v ∧
      ∀ l, path_len g source v l →
        ∃ x, NewSSSP.distances r1 !! v = Some (Fin x) ∧ x ≤ l.
Proof.
  intros Hwf Hs Hlev Hfuel.
  destruct (solve_correct g k t source Hwf Hs levels fuel Hlev Hfuel)
    as (r1 & Hr1 & Ht1 & _).
  destruct (dijkstra_correct g source Hwf Hs fuel) as (r2 & Hr2 & Ht2);
    [lia|].
  exists r1, r2. split; [done|]. split; [done|]. intros v Hv.
  pose proof (shortest_table_unique g source _ _ v Ht1 Ht2 Hv) as Heq.
  destruct (Ht1 v Hv) as (Hd1 & _ & Hmin1), (Ht2 v Hv) as (Hd2 & _ & _).
  split.
  - by rewrite (rd_is_dist _ _ Hd1), (rd_is_dist _ _ Hd2), Heq.
  - intros l Hl. destruct (Hmin1 l Hl) as (x & Hx & Hle). exists x.
    split; [|done]. by rewrite (rd_is_dist _ _ Hd1), Hx.
Qed.

Lemma solve_agrees_with_dijkstra_witness :
  ∃ r1 r2,
    NewSSSP.solve createExampleGraph 2 4 1 20 0 = Some r1 ∧
    Dijkstra.dijkstra createExampleGraph 20 0 None = Some r2 ∧
    ∀ v, (v < length (nodes createExampleGraph))%nat →
      NewSSSP.distances r1 !! v = NewSSSP.distances r2 !! v ∧
      ∀ l, path_len createExampleGraph 0 v l →
        ∃ x, NewSSSP.distances r1 !! v = Some (Fin x) ∧ x ≤ l.
Proof.
  apply (solve_agrees_with_dijkstra createExampleGraph 2 4 1 0 20).
  - apply wf_check_sound. vm_compute. reflexivity.
  - vm_compute. lia.
  - right. split; [reflexivity|]. split; [lia|]. vm_compute. discriminate.
  - vm_compute. lia.
Defined.

(** * Further properties of the sources *)

(** ** MinHeap.ts: the class invariant *)

Lemma extractMin_keeps_inv h : heap_inv h → heap_inv (MinHeap.extractMin h).2.
Proof.
  intros Hinv. destruct (MinHeap.heap h) as [|e l] eqn:Hh.
  - by rewrite (extractMin_empty h Hh).
  - destruct (extractMin_inv h Hinv) as (u & x & h' & -> & _ & Hinv' & _);
      [by rewrite Hh|done].
Qed.

(** X1: the three parts of the state of a [MinHeap] (no [NaN] among the
    stored distances, every node at least its parent, the position map
    naming exactly the slot of each vertex, each vertex in one slot) hold
    for the empty heap and are kept by [insert] of a vertex that is not in
    the heap, by [decreaseKey] to a distance not above the stored one, and
    by [extractMin]. *)
Theorem heap_invariant_kept (h : MinHeap.t) :
  heap_inv MinHeap.empty ∧
  (heap_inv h →
   (∀ v d, is_dist d → v ∉ (MinHeap.heap h).*1 →
      heap_inv (MinHeap.insert v d h)) ∧
   (∀ v d cur, (v, cur) ∈ MinHeap.heap h → num_le d cur = true →
      heap_inv (MinHeap.decreaseKey v d h)) ∧
   heap_inv (MinHeap.extractMin h).2).
Proof.
  split; [apply heap_inv_empty|]. intros Hinv. split_and!.
  - intros v d Hd Hv. by apply insert_inv.
  - intros v d cur Hin Hle. by apply (decreaseKey_inv v d h cur).
  - by apply extractMin_keeps_inv.
Qed.

Lemma heap_invariant_kept_witness :
  let h := MinHeap.insert 4 (Fin 7) (MinHeap.insert 2 (Fin 9) MinHeap.empty) in
  heap_inv h ∧
  heap_inv (MinHeap.insert 5 (Fin 1) h) ∧
  heap_inv (MinHeap.decreaseKey 2 (Fin 3) h) ∧
  heap_inv (MinHeap.extractMin h).2.
Proof.
  intros h.
  assert (heap_inv (MinHeap.insert 2 (Fin 9) MinHeap.empty)) as H1.
  { apply (proj1 (proj2 (heap_invariant_kept MinHeap.empty)
                   (proj1 (heap_invariant_kept MinHeap.empty))));
      [done|apply not_elem_of_nil]. }
  assert (heap_inv h) as H2.
  { apply (proj1 (proj2 (heap_invariant_kept _) H1)); [done|].
    apply (bool_decide_unpack _). by vm_compute. }
  destruct (proj2 (heap_invariant_kept h) H2) as (Hi & Hd & Hx).
  split_and!; [done| | |done].
  - apply Hi; [done|]. apply (bool_decide_unpack _). by vm_compute.
  - apply (Hd 2%nat (Fin 3) (Fin 9)); [|done].
    apply (bool_decide_unpack _). by vm_compute.
Defined.

(** ** MinHeap.ts: [contains], [size] and the contents *)

Lemma contains_insert_ne v d h v' :
  heap_inv h → is_dist d → v ∉ (MinHeap.heap h).*1 → v' ≠ v →
  MinHeap.contains v' (MinHeap.insert v d h) = MinHeap.contains v' h.
Proof.
  intros Hinv Hd Hv Hne.
  pose proof (insert_inv v d h Hinv Hd Hv) as Hinv'.
  apply eq_true_iff_eq.
  rewrite (contains_spec _ _ (proj2 (proj2 Hinv'))),
    (contains_spec _ _ (proj2 (proj2 Hinv))), insert_heap_perm.
  cbn. rewrite elem_of_cons. tauto.
Qed.

(** X2: on a heap in a consistent state, [contains(v)] is true exactly
    for the vertices that have a node in the heap: it becomes true for the
    vertex [insert] adds, becomes false for the vertex [extractMin] hands
    out, and in both cases stays as it was for every other vertex; and
    [extractMin] returns [null] exactly on the empty heap, which it leaves
    as it is. *)
Theorem contains_tracks_membership (h : MinHeap.t) :
  heap_inv h →
  (∀ v, MinHeap.contains v h = true ↔ ∃ d, (v, d) ∈ MinHeap.heap h) ∧
  (∀ v d, is_dist d → MinHeap.contains v h = false →
     MinHeap.contains v (MinHeap.insert v d h) = true ∧
     ∀ v', v' ≠ v →
       MinHeap.contains v' (MinHeap.insert v d h) = MinHeap.contains v' h) ∧
  (∀ u h', MinHeap.extractMin h = (Some u, h') →
     MinHeap.contains u h = true ∧ MinHeap.contains u h' = false ∧
     ∀ v', v' ≠ u → MinHeap.contains v' h' = MinHeap.contains v' h) ∧
  (MinHeap.isEmpty h = true ↔ MinHeap.extractMin h = (None, h)).
Proof.
  intros Hinv. pose proof (proj2 (proj2 Hinv)) as Hpos.
  assert (∀ v, MinHeap.contains v h = true ↔ ∃ d, (v, d) ∈ MinHeap.heap h)
    as Hc.
  { intros v. by rewrite (contains_spec _ _ Hpos), elem_of_keys. }
  split_and!; [done| | |].
  - intros v d Hd Hv.
    assert (v ∉ (MinHeap.heap h).*1) as Hfresh.
    { rewrite <-(contains_spec _ _ Hpos). congruence. }
    split; [|intros v' Hne; by apply contains_insert_ne].
    pose proof (insert_inv v d h Hinv Hd Hfresh) as Hinv'.
    apply (contains_spec _ _ (proj2 (proj2 Hinv'))).
    rewrite insert_heap_perm. cbn. by left.
  - intros u h' Hx.
    destruct (MinHeap.heap h) as [|e l] eqn:Hh.
    { rewrite (extractMin_empty h Hh) in Hx. done. }
    destruct (extractMin_inv h Hinv) as (u' & x & h'' & Hx' & Hp & Hinv' & _);
      [by rewrite Hh|].
    rewrite Hx in Hx'. injection Hx' as <- <-.
    pose proof (heap_inv_NoDup h Hinv) as Hnd. rewrite Hp in Hnd.
    cbn in Hnd. apply NoDup_cons in Hnd as [Hu _].
    split_and!.
    + apply (contains_spec _ _ Hpos). rewrite Hp. cbn. by left.
    + destruct (MinHeap.contains u h') eqn:E; [|done].
      apply (contains_spec _ _ (proj2 (proj2 Hinv'))) in E. done.
    + intros v' Hne. apply eq_true_iff_eq.
      rewrite (contains_spec _ _ (proj2 (proj2 Hinv'))),
        (contains_spec _ _ Hpos), Hp.
      cbn. rewrite elem_of_cons. tauto.
  - rewrite isEmpty_true. split; [apply extractMin_empty|].
    intros Hx. destruct (MinHeap.heap h) as [|e l] eqn:Hh; [done|].
    destruct (extractMin_inv h Hinv) as (u' & x & h'' & Hx' & _);
      [by rewrite Hh|]. congruence.
Qed.

Lemma contains_tracks_membership_witness :
  let h := MinHeap.insert 4 (Fin 7) (MinHeap.insert 2 (Fin 9) MinHeap.empty) in
  heap_inv h ∧
  (MinHeap.contains 2 h = true ↔ ∃ d, (2%nat, d) ∈ MinHeap.heap h) ∧
  MinHeap.contains 4 (MinHeap.extractMin h).2 = false.
Proof.
  intros h.
  assert (heap_inv h) as Hinv.
  { apply insert_inv; [apply insert_inv| |]; try done.
    - apply heap_inv_empty.
    - apply not_elem_of_nil.
    - apply (bool_decide_unpack _). by vm_compute. }
  destruct (contains_tracks_membership h Hinv) as (Hc & _ & Hx & _).
  split; [done|]. split; [apply Hc|].
  exact (proj1 (proj2 (Hx 4%nat (MinHeap.extractMin h).2 eq_refl))).
Defined.

(** X3: the three updates change the contents of the heap by one node
    and nothing else.  [insert] adds its node whether or not the vertex
    already has one (there is no merging), so the size always grows by
    one; [decreaseKey] on a vertex of the heap replaces the distance of
    its node; [extractMin] on a non-empty heap removes the node of the
    vertex it returns, a node of least distance. *)
Theorem heap_contents (h : MinHeap.t) :
  (∀ v d, MinHeap.heap (MinHeap.insert v d h) ≡ₚ (v, d) :: MinHeap.heap h ∧
          MinHeap.size (MinHeap.insert v d h) = S (MinHeap.size h)) ∧
  (heap_inv h →
   (∀ v d cur, (v, cur) ∈ MinHeap.heap h → num_le d cur = true →
      ∃ rest, MinHeap.heap h ≡ₚ (v, cur) :: rest ∧
              MinHeap.heap (MinHeap.decreaseKey v d h) ≡ₚ (v, d) :: rest) ∧
   (MinHeap.heap h ≠ [] →
      ∃ u x h', MinHeap.extractMin h = (Some u, h') ∧
                MinHeap.heap h ≡ₚ (u, x) :: MinHeap.heap h' ∧
                S (MinHeap.size h') = MinHeap.size h ∧
                ∀ e, e ∈ MinHeap.heap h → num_le x e.2 = true)).
Proof.
  split.
  - intros v d. split; [apply insert_heap_perm|]. unfold MinHeap.size.
    by rewrite insert_heap_perm.
  - intros Hinv. split.
    + intros v d cur Hin Hle. by apply (decreaseKey_inv v d h cur).
    + intros Hne.
      destruct (extractMin_inv h Hinv Hne) as (u & x & h' & Hx & Hp & _ & Hmin).
      exists u, x, h'. split_and!; try done. unfold MinHeap.size.
      by rewrite Hp.
Qed.

Lemma heap_contents_witness :
  let h := MinHeap.insert 4 (Fin 7) (MinHeap.insert 2 (Fin 9) MinHeap.empty) in
  heap_inv h ∧
  ∃ u x h', MinHeap.extractMin h = (Some u, h') ∧
            MinHeap.heap h ≡ₚ (u, x) :: MinHeap.heap h' ∧
            S (MinHeap.size h') = MinHeap.size h ∧
            ∀ e, e ∈ MinHeap.heap h → num_le x e.2 = true.
Proof.
  intros h.
  assert (heap_inv h) as Hinv.
  { apply insert_inv; [apply insert_inv| |]; try done.
    - apply heap_inv_empty.
    - apply not_elem_of_nil.
    - apply (bool_decide_unpack _). by vm_compute. }
  split; [done|].
  apply (proj2 (proj2 (heap_contents h) Hinv)). by vm_compute.
Defined.

(** ** AdaptiveFrontier.ts: the constructor and [insert] *)

Lemma amap_get_set_eq {V} k (v : V) m : amap_get k (amap_set k v m) = Some v.
Proof.
  induction m as [|[k' v'] m IH]; simpl.
  - by rewrite Nat.eqb_refl.
  - destruct (Nat.eqb_spec k k') as [->|Hne]; simpl.
    + by rewrite Nat.eqb_refl.
    + by rewrite (proj2 (Nat.eqb_neq k k') Hne).
Qed.

Lemma amap_get_set_ne {V} k k' (v : V) m :
  k' ≠ k → amap_get k' (amap_set k v m) = amap_get k' m.
Proof.
  intros Hne. induction m as [|[k0 v0] m IH]; simpl.
  - by rewrite (proj2 (Nat.eqb_neq k' k) Hne).
  - destruct (Nat.eqb_spec k k0) as [Heq|Hne0]; simpl.
    + subst k0. by rewrite (proj2 (Nat.eqb_neq k' k) Hne).
    + by rewrite IH.
Qed.

Lemma amap_set_keys {V} k (v : V) m : (amap_set k v m).*1 = set_add k m.*1.
Proof.
  unfold set_add, set_has. induction m as [|[k0 v0] m IH]; [done|].
  cbn [amap_set]. destruct (Nat.eqb_spec k k0) as [Heq|Hne];
    rewrite !fmap_cons; cbn [fst].
  - subst k0. rewrite bool_decide_eq_true_2; [done|by left].
  - rewrite IH. case_bool_decide as H1; case_bool_decide as H2; try done.
    + exfalso. apply H2. by right.
    + exfalso. apply elem_of_cons in H2 as [?|?]; done.
Qed.

Lemma amap_get_keys {V} k (m : list (nat * V)) :
  is_Some (amap_get k m) ↔ k ∈ m.*1.
Proof.
  induction m as [|[k0 v0] m IH]; simpl.
  - split; [by intros [? ?]|by intros ?%elem_of_nil].
  - destruct (Nat.eqb_spec k k0) as [->|Hne].
    + split; [intros _; by left|by eexists].
    + rewrite IH, elem_of_cons. tauto.
Qed.

(** X4: [new AdaptiveFrontier(S, dist)] holds the vertices of [S] once
    each, in the order of their first occurrence, every one stored under
    its entry of [dist]. *)
Theorem frontier_constructor (S : list nat) (dist : gmap nat num) :
  AdaptiveFrontier.getVertices (AdaptiveFrontier.make S dist) = set_of_list S ∧
  NoDup (AdaptiveFrontier.getVertices (AdaptiveFrontier.make S dist)) ∧
  (∀ v, v ∈ AdaptiveFrontier.getVertices (AdaptiveFrontier.make S dist)
        ↔ v ∈ S) ∧
  (AdaptiveFrontier.size (AdaptiveFrontier.make S dist) ≤ length S)%nat ∧
  (∀ v, v ∈ S →
     amap_get v (AdaptiveFrontier.make S dist) = Some (rd dist v)).
Proof.
  unfold AdaptiveFrontier.getVertices, AdaptiveFrontier.size,
    AdaptiveFrontier.make, set_of_list.
  assert (∀ (acc : list (nat * num)),
    (fold_left (λ els v, amap_set v (rd dist v) els) S acc).*1
    = fold_left (λ s v, set_add v s) S acc.*1) as Hkeys.
  { induction S as [|x S IH]; intros acc; simpl; [done|].
    by rewrite IH, amap_set_keys. }
  assert (∀ (acc : list (nat * num)) v,
    (v ∈ S ∨ amap_get v acc = Some (rd dist v)) →
    amap_get v (fold_left (λ els v, amap_set v (rd dist v) els) S acc)
    = Some (rd dist v)) as Hget.
  { clear Hkeys. induction S as [|x S IH]; intros acc v; simpl.
    - intros [[]%elem_of_nil|?]. done.
    - intros Hv. apply IH. destruct (decide (v = x)) as [->|Hne].
      + right. apply amap_get_set_eq.
      + rewrite amap_get_set_ne by done.
        destruct Hv as [[?|?]%elem_of_cons|?]; [done|by left|by right]. }
  destruct (set_of_list_spec S) as (Hin & Hnd & Hlen).
  unfold set_of_list in *. rewrite <-(length_fmap fst), Hkeys. cbn.
  split_and!; try done. intros v Hv. apply Hget. by left.
Qed.

(** X5: [insert(v, d)] keeps, for [v], the smaller of the stored distance
    and [d] (the stored one on a tie), stores [d] when [v] is new, and
    leaves every other entry as it is; the vertices keep their order, a
    new vertex going last.  A [NaN] never replaces a stored distance. *)
Theorem frontier_insert_keeps_least (v : nat) (d : num)
    (els : list (nat * num)) :
  amap_get v (AdaptiveFrontier.insert v d els)
  = Some (match amap_get v els with
          | Some cur => if num_lt d cur then d else cur
          | None => d
          end) ∧
  (∀ v', v' ≠ v →
     amap_get v' (AdaptiveFrontier.insert v d els) = amap_get v' els) ∧
  AdaptiveFrontier.getVertices (AdaptiveFrontier.insert v d els)
  = set_add v (AdaptiveFrontier.getVertices els) ∧
  AdaptiveFrontier.size (AdaptiveFrontier.insert v d els)
  = (if amap_has v els then AdaptiveFrontier.size els
     else S (AdaptiveFrontier.size els)).
Proof.
  assert (∀ cur, amap_get v els = Some cur →
            amap_set v cur els = els) as Hid.
  { intros cur. induction els as [|[k0 v0] els IH]; simpl; [done|].
    destruct (Nat.eqb_spec v k0) as [->|Hne]; [by intros [= ->]|].
    intros Hg. by rewrite IH. }
  assert (set_add v els.*1 = els.*1 ↔ v ∈ els.*1) as Hadd.
  { unfold set_add, set_has. case_bool_decide; [done|].
    split; [|done]. intros Heq. apply (f_equal length) in Heq.
    rewrite length_app in Heq. simpl in Heq. lia. }
  unfold AdaptiveFrontier.insert, AdaptiveFrontier.getVertices,
    AdaptiveFrontier.size, num_gt, amap_has.
  destruct (amap_get v els) as [cur|] eqn:Hg.
  - destruct (num_lt d cur) eqn:Hlt.
    + split_and!.
      * apply amap_get_set_eq.
      * intros v' Hne. by apply amap_get_set_ne.
      * apply amap_set_keys.
      * rewrite <-!(length_fmap fst), amap_set_keys.
        f_equal. apply Hadd, amap_get_keys. by rewrite Hg.
    + split_and!; try done. symmetry. apply Hadd, amap_get_keys.
      by rewrite Hg.
  - split_and!.
    + apply amap_get_set_eq.
    + intros v' Hne. by apply amap_get_set_ne.
    + apply amap_set_keys.
    + rewrite <-!(length_fmap fst), amap_set_keys. unfold set_add, set_has.
      rewrite bool_decide_eq_false_2; [rewrite length_app; simpl; lia|].
      rewrite <-amap_get_keys, Hg. by intros [? ?].
Qed.

(** ** AdaptiveFrontier.ts: the order of [pull] *)

Lemma sub_sign_same a : sub_sign a a = Eq.
Proof. destruct a; simpl; try done. apply Z.compare_refl. Qed.

(** The sort is stable: entries of equal distance keep their order. *)
Lemma sort_insert_stable d e l :
  filter (λ x : nat * num, x.2 = d) (AdaptiveFrontier.sort_insert e l)
  = filter (λ x : nat * num, x.2 = d) (e :: l).
Proof.
  induction l as [|y ys IH]; [done|]. cbn [AdaptiveFrontier.sort_insert].
  destruct (sub_sign y.2 e.2) eqn:Hc; try done.
  destruct (decide (y.2 = d)) as [Hy|Hy].
  - assert (e.2 ≠ d) as He.
    { intros He. rewrite Hy, He, sub_sign_same in Hc. done. }
    rewrite (filter_cons_True _ y) by done. rewrite IH.
    rewrite !(filter_cons_False _ e) by done.
    by rewrite (filter_cons_True _ y) by done.
  - rewrite (filter_cons_False _ y) by done. rewrite IH.
    destruct (decide (e.2 = d)) as [He|He].
    + rewrite !(filter_cons_True _ e) by done.
      by rewrite (filter_cons_False _ y) by done.
    + rewrite !(filter_cons_False _ e) by done.
      by rewrite (filter_cons_False _ y) by done.
Qed.

Lemma sorted_entries_stable d els :
  filter (λ x : nat * num, x.2 = d) (AdaptiveFrontier.sorted_entries els)
  = filter (λ x : nat * num, x.2 = d) els.
Proof.
  induction els as [|e els IH]; [done|]. cbn [AdaptiveFrontier.sorted_entries
    fold_right]. fold (AdaptiveFrontier.sorted_entries els).
  rewrite sort_insert_stable.
  destruct (decide (e.2 = d)) as [He|He].
  - rewrite !(filter_cons_True _ e) by done. by rewrite IH.
  - rewrite !(filter_cons_False _ e) by done. by rewrite IH.
Qed.

(** X6: [pull(count)] hands the vertices out in non-decreasing order of
    their stored distances; vertices stored under the same distance come
    out in the order in which they entered the frontier, an earlier one
    never being left behind for a later one; and the frontier left behind
    is the old one without the pulled vertices, in its old order. *)
Theorem pull_order (count : N) (els : list (nat * num)) :
  proper els →
  ∃ pulled,
    (AdaptiveFrontier.pull count els).1.1 = pulled.*1 ∧
    StronglySorted (λ a b, num_le a.2 b.2 = true) pulled ∧
    (∀ d, filter (λ x : nat * num, x.2 = d) pulled
          `prefix_of` filter (λ x : nat * num, x.2 = d) els) ∧
    (AdaptiveFrontier.pull count els).2
    = filter (λ e, e.1 ∉ (AdaptiveFrontier.pull count els).1.1) els.
Proof.
  intros Hpr. unfold AdaptiveFrontier.pull.
  destruct (Nat.eqb_spec (length els) 0) as [Hz|Hz].
  { destruct els; [|done]. exists []. cbn. split_and!; try done.
    constructor. }
  cbn [fst snd]. set (sorted := AdaptiveFrontier.sorted_entries els).
  set (n := N.to_nat (N.min count (N.of_nat (length sorted)))).
  exists (take n sorted). split_and!; [done| | |apply fold_amap_delete].
  - pose proof (sorted_entries_sorted els Hpr) as Hs. fold sorted in Hs.
    rewrite <-(take_drop n sorted) in Hs.
    clear -Hs. induction (take n sorted) as [|a l IH]; [constructor|].
    simpl in Hs. apply StronglySorted_inv in Hs as [Hs Ha].
    constructor; [by apply IH|]. by apply Forall_app in Ha as [? _].
  - intros d. rewrite <-(sorted_entries_stable d els). fold sorted.
    exists (filter (λ x : nat * num, x.2 = d) (drop n sorted)).
    by rewrite <-filter_app, take_drop.
Qed.

Lemma pull_order_witness :
  let els := [(4%nat, Fin 7); (2%nat, Fin 3); (9%nat, PInf); (5%nat, Fin 3)] in
  ∃ pulled,
    (AdaptiveFrontier.pull 3 els).1.1 = pulled.*1 ∧
    StronglySorted (λ a b, num_le a.2 b.2 = true) pulled ∧
    (∀ d, filter (λ x : nat * num, x.2 = d) pulled
          `prefix_of` filter (λ x : nat * num, x.2 = d) els) ∧
    (AdaptiveFrontier.pull 3 els).2
    = filter (λ e, e.1 ∉ (AdaptiveFrontier.pull 3 els).1.1) els.
Proof.
  intros els. apply (pull_order 3 els). repeat constructor; done.
Defined.

(** X7: [pull(0)] on a non-empty frontier takes nothing: it returns no
    vertex, leaves the frontier as it is and reports as bound the least
    stored distance. *)
Theorem pull_nothing (els : list (nat * num)) :
  proper els → els ≠ [] →
  (AdaptiveFrontier.pull 0 els).1.1 = [] ∧
  (AdaptiveFrontier.pull 0 els).2 = els ∧
  ∃ e, e ∈ els ∧ (AdaptiveFrontier.pull 0 els).1.2 = e.2 ∧
       ∀ b, b ∈ els → num_le e.2 b.2 = true.
Proof.
  intros Hpr Hne. unfold AdaptiveFrontier.pull.
  destruct (Nat.eqb_spec (length els) 0) as [Hz|Hz]; [by destruct els|].
  cbn [fst snd]. set (sorted := AdaptiveFrontier.sorted_entries els).
  assert (sorted ≡ₚ els) as Hperm by apply sorted_entries_perm.
  assert (N.to_nat (N.min 0 (N.of_nat (length sorted))) = 0%nat) as -> by lia.
  pose proof (sorted_entries_sorted els Hpr) as Hs. fold sorted in Hs.
  assert (proper sorted) as Hprs by (unfold proper; by rewrite Hperm).
  destruct sorted as [|e tl] eqn:Hsorted.
  { apply Permutation_nil_l in Hperm. by subst. }
  cbn. split_and!; try done. exists e. split_and!; [|done|].
  - rewrite <-Hperm. by left.
  - intros b Hb. rewrite <-Hperm in Hb. apply elem_of_cons in Hb as [->|Hb].
    + apply num_le_refl. by apply Forall_cons in Hprs as [? _].
    + apply StronglySorted_inv in Hs as [_ Hall].
      rewrite Forall_forall in Hall. by apply Hall.
Qed.

Lemma pull_nothing_witness :
  let els := [(4%nat, Fin 7); (2%nat, Fin 3); (9%nat, PInf)] in
  (AdaptiveFrontier.pull 0 els).1.1 = [] ∧
  (AdaptiveFrontier.pull 0 els).2 = els ∧
  ∃ e, e ∈ els ∧ (AdaptiveFrontier.pull 0 els).1.2 = e.2 ∧
       ∀ b, b ∈ els → num_le e.2 b.2 = true.
Proof.
  intros els. apply (pull_nothing els); [repeat constructor; done|done].
Defined.

(** ** Graph.ts: lists updated at their first match *)

Lemma update_first_fmap {A B} (g : A → B) (p : A → bool) (f : A → A)
    (p' : B → bool) (f' : B → B) (l : list A) :
  (∀ a, a ∈ l → p a = p' (g a) ∧ g (f a) = f' (g a)) →
  g <$> GraphClass.update_first p f l = GraphClass.update_first p' f' (g <$> l).
Proof.
  induction l as [|a l IH]; intros H; [done|]. cbn.
  destruct (H a (list_elem_of_here _ _)) as [Hp Hf]. rewrite <-Hp.
  destruct (p a); cbn; [by rewrite Hf|]. f_equal. apply IH.
  intros b Hb. apply H. by right.
Qed.

Lemma update_first_filter_in {A} (P : A → Prop) `{!∀ a, Decision (P a)}
    (p : A → bool) (f : A → A) (l : list A) :
  (∀ a, p a = true → P a) → (∀ a, P (f a) ↔ P a) →
  filter P (GraphClass.update_first p f l)
  = GraphClass.update_first p f (filter P l).
Proof.
  intros Hp Hf. induction l as [|a l IH]; [done|].
  cbn [GraphClass.update_first]. destruct (p a) eqn:Hpa.
  - rewrite (filter_cons_True P a) by (by apply Hp).
    rewrite (filter_cons_True P (f a)) by (by apply Hf, Hp).
    cbn [GraphClass.update_first]. by rewrite Hpa.
  - destruct (decide (P a)) as [Ha|Ha].
    + rewrite !(filter_cons_True P a) by done.
      cbn [GraphClass.update_first]. by rewrite Hpa, IH.
    + by rewrite !(filter_cons_False P a) by done.
Qed.

Lemma update_first_filter_out {A} (P : A → Prop) `{!∀ a, Decision (P a)}
    (p : A → bool) (f : A → A) (l : list A) :
  (∀ a, p a = true → ¬ P a) → (∀ a, P (f a) ↔ P a) →
  filter P (GraphClass.update_first p f l) = filter P l.
Proof.
  intros Hp Hf. induction l as [|a l IH]; [done|].
  cbn [GraphClass.update_first]. destruct (p a) eqn:Hpa.
  - rewrite (filter_cons_False P a) by (by apply Hp).
    rewrite (filter_cons_False P (f a)); [done|].
    rewrite Hf. by apply Hp.
  - destruct (decide (P a)) as [Ha|Ha].
    + by rewrite !(filter_cons_True P a), IH by done.
    + by rewrite !(filter_cons_False P a) by done.
Qed.

Lemma update_first_elem {A} (p : A → bool) (f : A → A) (l : list A) b :
  b ∈ GraphClass.update_first p f l → b ∈ l ∨ ∃ a, a ∈ l ∧ b = f a.
Proof.
  induction l as [|a l IH]; cbn; [by intros ?%elem_of_nil|].
  destruct (p a).
  - intros [->|Hb]%elem_of_cons.
    + right. exists a. split; [by left|done].
    + left. by right.
  - intros [->|Hb]%elem_of_cons; [left; by left|].
    destruct (IH Hb) as [?|(a' & ? & ->)]; [left; by right|].
    right. exists a'. split; [by right|done].
Qed.

Lemma find_update_first_same {A} (p : A → bool) (f : A → A) (l : list A) :
  (∀ a, p a = true → p (f a) = true) →
  List.find p (GraphClass.update_first p f l) = f <$> List.find p l.
Proof.
  intros Hf. induction l as [|a l IH]; [done|]. cbn.
  destruct (p a) eqn:Hpa; cbn; [by rewrite (Hf a Hpa)|]. by rewrite Hpa.
Qed.

Lemma find_update_first_other {A} (p q : A → bool) (f : A → A) (l : list A) :
  (∀ a, p a = true → q a = false ∧ q (f a) = false) →
  List.find q (GraphClass.update_first p f l) = List.find q l.
Proof.
  intros Hq. induction l as [|a l IH]; [done|]. cbn.
  destruct (p a) eqn:Hpa; cbn.
  - destruct (Hq a Hpa) as [-> ->]. done.
  - by rewrite IH.
Qed.

Lemma find_app {A} (p : A → bool) (l1 l2 : list A) :
  List.find p (l1 ++ l2)
  = match List.find p l1 with Some a => Some a | None => List.find p l2 end.
Proof.
  induction l1 as [|a l1 IH]; [done|]. cbn. by destruct (p a).
Qed.

Lemma find_filter_other {A} (P : A → Prop) `{!∀ a, Decision (P a)}
    (q : A → bool) (l : list A) :
  (∀ a, q a = true → P a) →
  List.find q (filter P l) = List.find q l.
Proof.
  intros Hq. induction l as [|a l IH]; [done|].
  destruct (decide (P a)) as [Ha|Ha].
  - rewrite filter_cons_True by done. cbn. by rewrite IH.
  - rewrite filter_cons_False by done. cbn.
    destruct (q a) eqn:Hqa; [|done]. by apply Hq in Hqa.
Qed.

Lemma find_filter_none {A} (P : A → Prop) `{!∀ a, Decision (P a)}
    (q : A → bool) (l : list A) :
  (∀ a, q a = true → ¬ P a) → List.find q (filter P l) = None.
Proof.
  intros Hq. induction l as [|a l IH]; [done|].
  destruct (decide (P a)) as [Ha|Ha].
  - rewrite filter_cons_True by done. cbn.
    destruct (q a) eqn:Hqa; [|done]. by apply Hq in Hqa.
  - by rewrite filter_cons_False by done.
Qed.

Lemma is_edge_spec from to e :
  GraphClass.is_edge from to e = true
  ↔ GraphClass.from e = from ∧ GraphClass.to e = to.
Proof.
  unfold GraphClass.is_edge. by rewrite andb_true_iff, !Nat.eqb_eq.
Qed.

Lemma is_edge_other from to f' t' e :
  (f', t') ≠ (from, to) → GraphClass.is_edge from to e = true →
  GraphClass.is_edge f' t' e = false.
Proof.
  intros Hne [Hf Ht]%is_edge_spec.
  destruct (GraphClass.is_edge f' t' e) eqn:E; [|done].
  apply is_edge_spec in E as [Hf' Ht']. congruence.
Qed.

(** ** Graph.ts: [getEdge] after an update *)

(** X8: [getEdge(from, to)] returns the edge with the new weight after
    [addEdge(from, to, w)], whether the edge was there or not, and nothing
    after [removeEdge(from, to)]; neither call changes what [getEdge]
    returns for another pair.  [updateEdgeWeight] does what [addEdge] does
    when the edge exists and nothing when it does not. *)
Theorem getEdge_after_update {C : Type} (g : GraphClass.t C)
    (from to : nat) (w : Z) :
  GraphClass.getEdge from to (GraphClass.addEdge from to w g)
  = Some (GraphClass.mkEdge from to w) ∧
  GraphClass.getEdge from to (GraphClass.removeEdge from to g) = None ∧
  (∀ f' t', (f', t') ≠ (from, to) →
     GraphClass.getEdge f' t' (GraphClass.addEdge from to w g)
     = GraphClass.getEdge f' t' g ∧
     GraphClass.getEdge f' t' (GraphClass.removeEdge from to g)
     = GraphClass.getEdge f' t' g) ∧
  GraphClass.updateEdgeWeight from to w g
  = match GraphClass.getEdge from to g with
    | Some _ => GraphClass.addEdge from to w g
    | None => g
    end.
Proof.
  unfold GraphClass.getEdge, GraphClass.addEdge, GraphClass.removeEdge,
    GraphClass.updateEdgeWeight, GraphClass.getEdge.
  split_and!.
  - destruct (List.find _ (GraphClass.edges g)) as [e|] eqn:Hf; cbn.
    + rewrite find_update_first_same, Hf; cbn.
      * apply find_some in Hf as [_ [<- <-]%is_edge_spec]. done.
      * intros a Ha. apply is_edge_spec in Ha. by apply is_edge_spec.
    + rewrite find_app, Hf. cbn. unfold GraphClass.is_edge. cbn.
      by rewrite !Nat.eqb_refl.
  - cbn. apply find_filter_none. intros a Ha%is_edge_spec. tauto.
  - intros f' t' Hne. split.
    + destruct (List.find _ (GraphClass.edges g)) as [e|] eqn:Hf; cbn.
      * apply find_update_first_other. intros a Ha.
        split; [by apply (is_edge_other from to)|].
        apply (is_edge_other from to); [done|].
        apply is_edge_spec in Ha. by apply is_edge_spec.
      * rewrite find_app.
        destruct (List.find (GraphClass.is_edge f' t') _); [done|]. cbn.
        rewrite (is_edge_other from to f' t'); [done|done|].
        by apply is_edge_spec.
    + cbn. apply find_filter_other. intros a Ha%is_edge_spec [Hf Ht].
      apply Hne. destruct Ha. congruence.
  - by destruct (List.find _ (GraphClass.edges g)).
Qed.

(** ** Graph.ts: node ids *)

Lemma find_none_iff {A} (p : A → bool) (l : list A) :
  List.find p l = None ↔ ∀ a, a ∈ l → p a = false.
Proof.
  induction l as [|a l IH]; cbn.
  - split; [by intros _ ? ?%elem_of_nil|done].
  - destruct (p a) eqn:Hpa.
    + split; [done|]. intros H. specialize (H a (list_elem_of_here _ _)).
      congruence.
    + rewrite IH. split.
      * intros H b [->|Hb]%elem_of_cons; [done|by apply H].
      * intros H b Hb. apply H. by right.
Qed.

Lemma graph_ids_step {C : Type} (g : GraphClass.t C) (o : GraphClass.op C) :
  NoDup (GraphClass.id <$> GraphClass.nodes g) →
  (∀ n, n ∈ GraphClass.nodes g →
     (GraphClass.id n < GraphClass.nodeIdCounter g)%nat) →
  NoDup (GraphClass.id <$> GraphClass.nodes (GraphClass.run_op g o)) ∧
  (∀ n, n ∈ GraphClass.nodes (GraphClass.run_op g o) →
     (GraphClass.id n < GraphClass.nodeIdCounter (GraphClass.run_op g o))%nat) ∧
  GraphClass.nodeIdCounter (GraphClass.run_op g o)
  = (GraphClass.nodeIdCounter g + (if is_add_node o then 1 else 0))%nat.
Proof.
  intros Hnd Hlt. destruct o as [x y label|id|f t w|f t|f t w]; cbn.
  - split_and!; [| |lia].
    + rewrite fmap_app. cbn. apply NoDup_app. split_and!; [done| |].
      * intros i Hi Hi'. apply list_elem_of_singleton in Hi'. subst i.
        apply list_elem_of_fmap in Hi as (n & Hn & Hin).
        specialize (Hlt n Hin). lia.
      * apply NoDup_singleton.
    + intros n [Hn|Hn]%elem_of_app; cbn.
      * specialize (Hlt n Hn). lia.
      * apply list_elem_of_singleton in Hn. subst n. cbn. lia.
  - split_and!; [| |lia].
    + apply (sublist_NoDup _ (GraphClass.id <$> GraphClass.nodes g));
        [done|apply fmap_sublist, sublist_filter].
    + intros n [_ Hn]%list_elem_of_filter. by apply Hlt.
  - unfold GraphClass.addEdge.
    destruct (GraphClass.getEdge f t g); cbn; split_and!; try done; lia.
  - split_and!; try done; lia.
  - unfold GraphClass.updateEdgeWeight.
    destruct (GraphClass.getEdge f t g); cbn; split_and!; try done; lia.
Qed.

Lemma graph_ids_run {C : Type} (ops : list (GraphClass.op C))
    (g : GraphClass.t C) :
  NoDup (GraphClass.id <$> GraphClass.nodes g) →
  (∀ n, n ∈ GraphClass.nodes g →
     (GraphClass.id n < GraphClass.nodeIdCounter g)%nat) →
  NoDup (GraphClass.id <$> GraphClass.nodes (GraphClass.run ops g)) ∧
  (∀ n, n ∈ GraphClass.nodes (GraphClass.run ops g) →
     (GraphClass.id n < GraphClass.nodeIdCounter (GraphClass.run ops g))%nat) ∧
  GraphClass.nodeIdCounter (GraphClass.run ops g)
  = (GraphClass.nodeIdCounter g + added_nodes ops)%nat.
Proof.
  revert g. induction ops as [|o ops IH]; intros g Hnd Hlt.
  - cbn. split_and!; try done; unfold added_nodes; cbn; lia.
  - destruct (graph_ids_step g o Hnd Hlt) as (Hnd' & Hlt' & Hc).
    destruct (IH _ Hnd' Hlt') as (Hnd'' & Hlt'' & Hc'').
    cbn [GraphClass.run fold_left]. fold (GraphClass.run ops (GraphClass.run_op g o)).
    split_and!; try done. rewrite Hc'', Hc. unfold added_nodes. cbn.
    destruct (is_add_node o); cbn; lia.
Qed.

(** X9: whatever calls were made on a new graph, removals included, its
    nodes have distinct ids, all below the id counter, and the counter is
    the number of [addNode] calls so far; so [addNode] hands out the ids
    0, 1, 2, ... in turn and never an id that a node has or had, and
    [getNode] finds the node it has just added. *)
Theorem node_ids_never_reused {C : Type} (ops : list (GraphClass.op C))
    (x y : C) (label : option string) :
  let g := GraphClass.run ops GraphClass.empty in
  let r := GraphClass.addNode x y label g in
  NoDup (GraphClass.id <$> GraphClass.nodes g) ∧
  (∀ n, n ∈ GraphClass.nodes g → (GraphClass.id n < added_nodes ops)%nat) ∧
  r.1 = added_nodes ops ∧
  GraphClass.getNode r.1 g = None ∧
  GraphClass.getNode r.1 r.2
  = Some (GraphClass.mkNode r.1 x y (GraphClass.label_or_id label r.1)).
Proof.
  intros g r.
  destruct (graph_ids_run ops (@GraphClass.empty C)) as (Hnd & Hlt & Hc).
  { cbn. apply NoDup_nil_2. }
  { intros n Hn. by apply elem_of_nil in Hn. }
  fold g in Hnd, Hlt, Hc. cbn in Hc.
  assert (GraphClass.getNode (GraphClass.nodeIdCounter g) g = None) as Hnone.
  { apply find_none_iff. intros n Hn. apply Nat.eqb_neq.
    specialize (Hlt n Hn). lia. }
  split_and!; try done.
  - intros n Hn. rewrite <-Hc. by apply Hlt.
  - unfold r, GraphClass.addNode, GraphClass.getNode. cbn [fst snd GraphClass.nodes].
    rewrite find_app. unfold GraphClass.getNode in Hnone. rewrite Hnone.
    cbn. by rewrite Nat.eqb_refl.
Qed.

(** X10: [removeNode(id)] leaves no node with that id, no edge from or to
    it, no adjacency list for it and no entry for it in another adjacency
    list; the other nodes, edges and adjacency entries stay, in their
    order, and the id counter is not touched. *)
Theorem removeNode_removes {C : Type} (g : GraphClass.t C) (id : nat) :
  let g' := GraphClass.removeNode id g in
  GraphClass.getNode id g' = None ∧
  (∀ id', id' ≠ id → GraphClass.getNode id' g' = GraphClass.getNode id' g) ∧
  GraphClass.edges g'
  = filter (λ e, GraphClass.from e ≠ id ∧ GraphClass.to e ≠ id)
      (GraphClass.edges g) ∧
  GraphClass.adjacencyList g' !! id = None ∧
  (∀ f, f ≠ id →
     GraphClass.adjacencyList g' !! f
     = filter (λ n : nat * Z, n.1 ≠ id) <$> GraphClass.adjacencyList g !! f) ∧
  GraphClass.nodeIdCounter g' = GraphClass.nodeIdCounter g.
Proof.
  intros g'. unfold g', GraphClass.removeNode, GraphClass.getNode.
  cbn [GraphClass.nodes GraphClass.edges GraphClass.adjacencyList
       GraphClass.nodeIdCounter].
  split_and!; try done.
  - apply find_filter_none. intros n Hn%Nat.eqb_eq. tauto.
  - intros id' Hne. apply find_filter_other. intros n Hn%Nat.eqb_eq.
    congruence.
  - by rewrite lookup_fmap, lookup_delete_eq.
  - intros f Hne. by rewrite lookup_fmap, lookup_delete_ne.
Qed.

(** ** Graph.ts: [edges] and the adjacency lists *)

Lemma filter_fmap_comm {A B} (g : A → B) (P : B → Prop)
    `{!∀ b, Decision (P b)} (l : list A) :
  filter P (g <$> l) = g <$> filter (λ a, P (g a)) l.
Proof.
  induction l as [|a l IH]; [done|]. rewrite fmap_cons.
  destruct (decide (P (g a))) as [Ha|Ha].
  - rewrite (filter_cons_True P) by done.
    rewrite (filter_cons_True (λ a, P (g a))) by done.
    by rewrite fmap_cons, IH.
  - rewrite (filter_cons_False P) by done.
    by rewrite (filter_cons_False (λ a, P (g a))) by done.
Qed.

Lemma edges_from_app f l1 l2 :
  edges_from f (l1 ++ l2) = edges_from f l1 ++ edges_from f l2.
Proof. unfold edges_from. by rewrite filter_app, fmap_app. Qed.

Lemma edges_from_elem f es v w :
  (v, w) ∈ edges_from f es ↔ GraphClass.mkEdge f v w ∈ es.
Proof.
  unfold edges_from. rewrite list_elem_of_fmap. split.
  - intros ([f' t' w'] & [= -> ->] & [Hf Hin]%list_elem_of_filter).
    cbn in Hf. by subst.
  - intros Hin. exists (GraphClass.mkEdge f v w). split; [done|].
    by apply list_elem_of_filter.
Qed.

Lemma edges_from_none f es :
  (∀ e, e ∈ es → GraphClass.from e ≠ f) → edges_from f es = [].
Proof.
  intros H. unfold edges_from. rewrite filter_none; [done|]. done.
Qed.

Lemma edges_from_filter (P : GraphClass.Edge → Prop) (Q : nat * Z → Prop)
    `{!∀ e, Decision (P e)} `{!∀ n, Decision (Q n)} f es :
  (∀ e, GraphClass.from e = f →
        (P e ↔ Q (GraphClass.to e, GraphClass.weight e))) →
  edges_from f (filter P es) = filter Q (edges_from f es).
Proof.
  intros Hpq. unfold edges_from. rewrite filter_fmap_comm. f_equal.
  rewrite !list_filter_filter. apply list_filter_iff. intros e.
  split; intros [? ?]; split; try done; by apply (Hpq e).
Qed.

Lemma edges_from_set_weight_other f f0 t w es :
  f0 ≠ f →
  edges_from f0
    (GraphClass.update_first (GraphClass.is_edge f t)
       (λ e, GraphClass.mkEdge (GraphClass.from e) (GraphClass.to e) w) es)
  = edges_from f0 es.
Proof.
  intros Hne. unfold edges_from. f_equal.
  apply update_first_filter_out; [|done].
  intros a [Ha _]%is_edge_spec. congruence.
Qed.

Lemma edges_from_set_weight f t w es :
  edges_from f
    (GraphClass.update_first (GraphClass.is_edge f t)
       (λ e, GraphClass.mkEdge (GraphClass.from e) (GraphClass.to e) w) es)
  = GraphClass.update_first (λ n : nat * Z, Nat.eqb n.1 t) (λ n, (n.1, w))
      (edges_from f es).
Proof.
  unfold edges_from. rewrite update_first_filter_in.
  - apply update_first_fmap. intros a [Ha _]%list_elem_of_filter.
    split; [|done]. unfold GraphClass.is_edge. rewrite Ha, Nat.eqb_refl.
    done.
  - by intros a [Ha _]%is_edge_spec.
  - done.
Qed.

Lemma update_first_same_image {A B} (g : A → B) (p : A → bool) (f : A → A)
    (l : list A) :
  (∀ a, g (f a) = g a) → g <$> GraphClass.update_first p f l = g <$> l.
Proof.
  intros Hg. induction l as [|a l IH]; [done|].
  cbn [GraphClass.update_first]. destruct (p a).
  - by rewrite !fmap_cons, Hg.
  - by rewrite !fmap_cons, IH.
Qed.

Lemma graph_consistent_empty {C : Type} :
  graph_consistent (@GraphClass.empty C).
Proof.
  split; cbn; try (by intros ? ?%elem_of_nil); try apply NoDup_nil_2.
  intros f. by rewrite lookup_empty.
Qed.

Lemma set_weight_consistent {C : Type} (g : GraphClass.t C) f t w :
  graph_consistent g → graph_consistent (GraphClass.set_weight f t w g).
Proof.
  intros [Hids Hc Hadj Hsync Hpairs Hfrom].
  split; cbn [GraphClass.set_weight GraphClass.nodes GraphClass.edges
              GraphClass.adjacencyList GraphClass.nodeIdCounter]; try done.
  - intros n Hn. apply lookup_alter_is_Some. by apply Hadj.
  - intros f0. destruct (decide (f0 = f)) as [->|Hne].
    + rewrite lookup_alter_eq, edges_from_set_weight, <-Hsync.
      by destruct (GraphClass.adjacencyList g !! f).
    + rewrite lookup_alter_ne by done.
      by rewrite edges_from_set_weight_other.
  - by rewrite update_first_same_image.
  - intros e [He|(a & Ha & ->)]%update_first_elem; [by apply Hfrom|].
    cbn. by apply Hfrom.
Qed.

Lemma graph_consistent_step {C : Type} (g : GraphClass.t C)
    (o : GraphClass.op C) :
  graph_consistent g → graph_op_valid g o →
  graph_consistent (GraphClass.run_op g o).
Proof.
  intros Hg Hv. pose proof Hg as [Hids Hc Hadj Hsync Hpairs Hfrom].
  destruct o as [x y label|id|f t w|f t|f t w]; cbn [GraphClass.run_op].
  - (* addNode *)
    split; cbn [GraphClass.addNode snd GraphClass.nodes GraphClass.edges
                GraphClass.adjacencyList GraphClass.nodeIdCounter].
    + rewrite fmap_app. cbn. apply NoDup_app. split_and!; [done| |].
      * intros i Hi Hi'. apply list_elem_of_singleton in Hi'. subst i.
        apply list_elem_of_fmap in Hi as (n & Hn & Hin).
        specialize (Hc n Hin). lia.
      * apply NoDup_singleton.
    + intros n [Hn|Hn]%elem_of_app.
      * specialize (Hc n Hn). lia.
      * apply list_elem_of_singleton in Hn. subst n. cbn. lia.
    + intros n Hn.
      destruct (decide (GraphClass.id n = GraphClass.nodeIdCounter g))
        as [->|Hne]; [by rewrite lookup_insert_eq|].
      rewrite lookup_insert_ne by done.
      apply elem_of_app in Hn as [Hn|Hn]; [by apply Hadj|].
      apply list_elem_of_singleton in Hn. by subst n.
    + intros f. destruct (decide (f = GraphClass.nodeIdCounter g)) as [->|Hne].
      * rewrite lookup_insert_eq. cbn. symmetry. apply edges_from_none.
        intros e He. specialize (Hfrom e He). lia.
      * by rewrite lookup_insert_ne.
    + done.
    + intros e He. specialize (Hfrom e He). lia.
  - (* removeNode *)
    split; cbn [GraphClass.removeNode GraphClass.nodes GraphClass.edges
                GraphClass.adjacencyList GraphClass.nodeIdCounter].
    + apply (sublist_NoDup _ (GraphClass.id <$> GraphClass.nodes g));
        [done|apply fmap_sublist, sublist_filter].
    + intros n [_ Hn]%list_elem_of_filter. by apply Hc.
    + intros n [Hne Hn]%list_elem_of_filter.
      rewrite lookup_fmap, lookup_delete_ne by done.
      destruct (Hadj n Hn) as [ns ->]. by eexists.
    + intros f. rewrite lookup_fmap.
      destruct (decide (f = id)) as [->|Hne].
      * rewrite lookup_delete_eq. cbn. symmetry. apply edges_from_none.
        intros e [[He _] _]%list_elem_of_filter. done.
      * rewrite lookup_delete_ne by done.
        rewrite (edges_from_filter _ (λ n : nat * Z, n.1 ≠ id)).
        -- rewrite <-Hsync. by destruct (GraphClass.adjacencyList g !! f).
        -- intros e He. cbn. split; [tauto|]. intros Ht. split; [|done].
           congruence.
    + apply (sublist_NoDup _ _ Hpairs). apply fmap_sublist, sublist_filter.
    + intros e [_ He]%list_elem_of_filter. by apply Hfrom.
  - (* addEdge *)
    cbn in Hv. unfold GraphClass.addEdge.
    destruct (GraphClass.getEdge f t g) as [e0|] eqn:Hget;
      [by apply set_weight_consistent|].
    split; cbn [GraphClass.nodes GraphClass.edges GraphClass.adjacencyList
                GraphClass.nodeIdCounter]; try done.
    + intros n Hn. destruct (decide (GraphClass.id n = f)) as [->|Hne];
        [by rewrite lookup_insert_eq|].
      rewrite lookup_insert_ne by done. by apply Hadj.
    + intros f0. rewrite edges_from_app.
      destruct (decide (f0 = f)) as [->|Hne].
      * rewrite lookup_insert_eq. cbn [default]. rewrite Hsync. f_equal.
        unfold edges_from. by rewrite filter_cons_True by done.
      * rewrite lookup_insert_ne by done. rewrite Hsync.
        rewrite (edges_from_none f0 [_]); [by rewrite app_nil_r|].
        intros e He. apply list_elem_of_singleton in He. subst e. cbn.
        congruence.
    + rewrite fmap_app. cbn. apply NoDup_app. split_and!; [done| |].
      * intros p Hp Hp'. apply list_elem_of_singleton in Hp'. subst p.
        apply list_elem_of_fmap in Hp as (e & He & Hin).
        unfold GraphClass.getEdge in Hget.
        pose proof (proj1 (find_none_iff _ _) Hget e Hin) as Hno.
        assert (GraphClass.is_edge f t e = true); [|congruence].
        apply is_edge_spec. by injection He as -> ->.
      * apply NoDup_singleton.
    + intros e [He|He]%elem_of_app; [by apply Hfrom|].
      apply list_elem_of_singleton in He. by subst e.
  - (* removeEdge *)
    split; cbn [GraphClass.removeEdge GraphClass.nodes GraphClass.edges
                GraphClass.adjacencyList GraphClass.nodeIdCounter]; try done.
    + intros n Hn. destruct (decide (GraphClass.id n = f)) as [->|Hne];
        [by rewrite lookup_insert_eq|].
      rewrite lookup_insert_ne by done. by apply Hadj.
    + intros f0. destruct (decide (f0 = f)) as [->|Hne].
      * rewrite lookup_insert_eq. cbn. rewrite Hsync. symmetry.
        apply edges_from_filter. intros e He. cbn. split; [|tauto].
        intros Hn Ht. by apply Hn.
      * rewrite lookup_insert_ne by done. rewrite Hsync.
        unfold edges_from. f_equal. rewrite list_filter_filter.
        apply list_filter_iff. intros e. split; [|tauto].
        intros He. split; [done|]. intros [Hf _]. congruence.
    + apply (sublist_NoDup _ _ Hpairs). apply fmap_sublist, sublist_filter.
    + intros e [_ He]%list_elem_of_filter. by apply Hfrom.
  - (* updateEdgeWeight *)
    unfold GraphClass.updateEdgeWeight.
    destruct (GraphClass.getEdge f t g); [by apply set_weight_consistent|done].
Qed.

Lemma graph_consistent_run {C : Type} (ops : list (GraphClass.op C))
    (g : GraphClass.t C) :
  graph_consistent g → graph_ops_valid g ops →
  graph_consistent (GraphClass.run ops g).
Proof.
  revert g. induction ops as [|o ops IH]; intros g Hg Hv; [done|].
  destruct Hv as [Ho Hv]. cbn [GraphClass.run fold_left].
  apply IH; [by apply graph_consistent_step|done].
Qed.

(** X11: as long as every edge that is added starts at an id that
    [addNode] has handed out, the two copies of the edge set that the
    class keeps agree after any calls, removals included: the adjacency
    list of every id is the list of the edges of [edges] that start there,
    in the same order and with the same weights; no pair of ids has two
    edges; and every node has an adjacency list. *)
Theorem edges_and_adjacency_agree {C : Type} (ops : list (GraphClass.op C)) :
  graph_ops_valid GraphClass.empty ops →
  let g := GraphClass.run ops GraphClass.empty in
  (∀ f, default [] (GraphClass.adjacencyList g !! f)
        = edges_from f (GraphClass.edges g)) ∧
  (∀ f t w, (t, w) ∈ default [] (GraphClass.adjacencyList g !! f)
            ↔ GraphClass.getEdge f t g = Some (GraphClass.mkEdge f t w)) ∧
  NoDup ((λ e, (GraphClass.from e, GraphClass.to e)) <$> GraphClass.edges g) ∧
  (∀ n, n ∈ GraphClass.nodes g →
        is_Some (GraphClass.adjacencyList g !! GraphClass.id n)).
Proof.
  intros Hv g.
  destruct (graph_consistent_run ops GraphClass.empty graph_consistent_empty Hv)
    as [Hids Hc Hadj Hsync Hpairs Hfrom].
  fold g in Hids, Hc, Hadj, Hsync, Hpairs, Hfrom.
  split_and!; try done.
  intros f t w. rewrite Hsync, edges_from_elem. unfold GraphClass.getEdge.
  split.
  - intros Hin.
    destruct (List.find (GraphClass.is_edge f t) (GraphClass.edges g))
      as [e|] eqn:Hfind.
    + apply find_some in Hfind as [Hin'%list_elem_of_In [Hf Ht]%is_edge_spec].
      f_equal. destruct e as [f' t' w']. cbn in Hf, Ht. subst f' t'.
      f_equal.
      assert (∀ (l : list GraphClass.Edge) a b,
        NoDup ((λ e, (GraphClass.from e, GraphClass.to e)) <$> l) →
        a ∈ l → b ∈ l → GraphClass.from a = GraphClass.from b →
        GraphClass.to a = GraphClass.to b → a = b) as Huniq.
      { clear. induction l as [|c l IH]; intros a b Hnd Ha Hb Hf Ht.
        { by apply elem_of_nil in Ha. }
        rewrite fmap_cons in Hnd. apply NoDup_cons in Hnd as [Hc Hnd].
        apply elem_of_cons in Ha as [->|Ha], Hb as [->|Hb]; try done.
        - exfalso. apply Hc. apply list_elem_of_fmap. exists b.
          split; [by rewrite Hf, Ht|done].
        - exfalso. apply Hc. apply list_elem_of_fmap. exists a.
          split; [by rewrite Hf, Ht|done].
        - by apply IH. }
      by injection (Huniq _ _ _ Hpairs Hin Hin' eq_refl eq_refl).
    + pose proof (proj1 (find_none_iff _ _) Hfind _ Hin) as Hno.
      unfold GraphClass.is_edge in Hno. cbn in Hno.
      by rewrite !Nat.eqb_refl in Hno.
  - intros Hfind. by apply find_some in Hfind as [Hin%list_elem_of_In _].
Qed.

Lemma edges_and_adjacency_agree_witness :
  let ops : list (GraphClass.op Z) :=
    [GraphClass.AddNode 0 0 None; GraphClass.AddNode 5 5 None;
     GraphClass.AddEdge 0 1 4; GraphClass.AddEdge 0 1 7;
     GraphClass.RemoveNode 1; GraphClass.AddEdge 1 0 2] in
  let g := GraphClass.run ops GraphClass.empty in
  (∀ f, default [] (GraphClass.adjacencyList g !! f)
        = edges_from f (GraphClass.edges g)) ∧
  (∀ f t w, (t, w) ∈ default [] (GraphClass.adjacencyList g !! f)
            ↔ GraphClass.getEdge f t g = Some (GraphClass.mkEdge f t w)) ∧
  NoDup ((λ e, (GraphClass.from e, GraphClass.to e)) <$> GraphClass.edges g) ∧
  (∀ n, n ∈ GraphClass.nodes g →
        is_Some (GraphClass.adjacencyList g !! GraphClass.id n)).
Proof.
  intros ops.
  apply (edges_and_adjacency_agree ops). cbn. repeat split; lia.
Defined.

(** ** Graph.ts: graphs built for the solvers *)

Lemma update_first_amap_set (t : nat) (w : Z) (ns : list (nat * Z)) :
  amap_has t ns = true →
  GraphClass.update_first (λ n : nat * Z, Nat.eqb n.1 t) (λ n, (n.1, w)) ns
  = amap_set t w ns.
Proof.
  unfold amap_has. induction ns as [|[k v] ns IH]; [done|]. cbn.
  rewrite (Nat.eqb_sym k t). destruct (Nat.eqb_spec t k) as [->|Hne]; [done|].
  intros H. by rewrite IH.
Qed.

Lemma getEdge_amap_has {C : Type} (g : GraphClass.t C) f t :
  (∀ f, default [] (GraphClass.adjacencyList g !! f)
        = edges_from f (GraphClass.edges g)) →
  amap_has t (default [] (GraphClass.adjacencyList g !! f))
  = bool_decide (is_Some (GraphClass.getEdge f t g)).
Proof.
  intros Hsync. rewrite Hsync. apply eq_true_iff_eq.
  rewrite bool_decide_eq_true. unfold amap_has, GraphClass.getEdge.
  transitivity (t ∈ (edges_from f (GraphClass.edges g)).*1).
  - rewrite <-amap_get_keys. by destruct (amap_get _ _); split; try done;
      intros [? ?].
  - rewrite list_elem_of_fmap. split.
    + intros ([t' w] & -> & Hin%edges_from_elem).
      destruct (List.find _ _) eqn:Hfind; [by eexists|].
      pose proof (proj1 (find_none_iff _ _) Hfind _ Hin) as Hno.
      unfold GraphClass.is_edge in Hno. cbn in Hno.
      by rewrite !Nat.eqb_refl in Hno.
    + intros [e Hfind].
      apply find_some in Hfind as [Hin%list_elem_of_In [Hf Ht]%is_edge_spec].
      exists (t, GraphClass.weight e). split; [done|].
      apply edges_from_elem. destruct e. cbn in *. by subst.
Qed.

(** What the generators keep true while they build a graph. *)
Lemma built_step {C : Type} (g : GraphClass.t C) (o : GraphClass.op C) :
  graph_consistent g →
  GraphClass.id <$> GraphClass.nodes g = seq 0 (GraphClass.nodeIdCounter g) →
  (∀ e, e ∈ GraphClass.edges g →
     (GraphClass.to e < GraphClass.nodeIdCounter g)%nat ∧
     0 ≤ GraphClass.weight e) →
  build_op_valid g o →
  graph_consistent (GraphClass.run_op g o) ∧
  GraphClass.id <$> GraphClass.nodes (GraphClass.run_op g o)
  = seq 0 (GraphClass.nodeIdCounter (GraphClass.run_op g o)) ∧
  (∀ e, e ∈ GraphClass.edges (GraphClass.run_op g o) →
     (GraphClass.to e < GraphClass.nodeIdCounter (GraphClass.run_op g o))%nat ∧
     0 ≤ GraphClass.weight e) ∧
  GraphClass.toGraph (GraphClass.run_op g o)
  = run_op_simple (GraphClass.toGraph g) o.
Proof.
  intros Hg Hids Hedges Hv.
  assert (graph_op_valid g o) as Hv'.
  { destruct o; cbn in *; try done. tauto. }
  split; [by apply graph_consistent_step|].
  destruct o as [x y label|id|f t w|f t|f t w]; cbn in Hv; try done;
    cbn [GraphClass.run_op run_op_simple].
  - cbn [GraphClass.addNode snd GraphClass.nodes GraphClass.edges
         GraphClass.nodeIdCounter]. split_and!.
    + rewrite fmap_app, Hids, seq_S. done.
    + intros e He. destruct (Hedges e He). split; [lia|done].
    + unfold GraphClass.toGraph, addNode. cbn. rewrite fmap_app.
      rewrite length_fmap.
      assert (length (GraphClass.nodes g) = GraphClass.nodeIdCounter g) as ->.
      { by rewrite <-(length_fmap GraphClass.id), Hids, length_seq. }
      done.
  - destruct Hv as (Hf & Ht & Hw).
    pose proof (getEdge_amap_has g f t (gc_sync g Hg)) as Hhas.
    unfold GraphClass.addEdge, addEdge, neighbors, GraphClass.toGraph.
    cbn [nodes adjacencyList]. rewrite Hhas.
    destruct (GraphClass.getEdge f t g) as [e0|] eqn:Hget; cbn.
    + split_and!; [done| |].
      * intros e [He|(a & Ha & ->)]%update_first_elem; [by apply Hedges|].
        cbn. split; [|done]. by apply Hedges.
      * f_equal. rewrite bool_decide_eq_true_2 in Hhas by (by eexists).
        rewrite <-(update_first_amap_set t w _ Hhas).
        apply map_eq. intros i. destruct (decide (i = f)) as [->|Hne].
        -- rewrite lookup_alter_eq, lookup_insert_eq.
           destruct (GraphClass.adjacencyList g !! f); [done|].
           by cbn in Hhas.
        -- by rewrite lookup_alter_ne, lookup_insert_ne.
    + split_and!; [done| |done].
      intros e [He|He]%elem_of_app; [by apply Hedges|].
      apply list_elem_of_singleton in He. by subst e.
Qed.

Lemma built_run {C : Type} (ops : list (GraphClass.op C)) (g : GraphClass.t C) :
  graph_consistent g →
  GraphClass.id <$> GraphClass.nodes g = seq 0 (GraphClass.nodeIdCounter g) →
  (∀ e, e ∈ GraphClass.edges g →
     (GraphClass.to e < GraphClass.nodeIdCounter g)%nat ∧
     0 ≤ GraphClass.weight e) →
  build_ops_valid g ops →
  graph_consistent (GraphClass.run ops g) ∧
  GraphClass.id <$> GraphClass.nodes (GraphClass.run ops g)
  = seq 0 (GraphClass.nodeIdCounter (GraphClass.run ops g)) ∧
  (∀ e, e ∈ GraphClass.edges (GraphClass.run ops g) →
     (GraphClass.to e < GraphClass.nodeIdCounter (GraphClass.run ops g))%nat ∧
     0 ≤ GraphClass.weight e) ∧
  GraphClass.toGraph (GraphClass.run ops g)
  = fold_left run_op_simple ops (GraphClass.toGraph g).
Proof.
  revert g. induction ops as [|o ops IH]; intros g Hg Hids Hedges Hv; [done|].
  destruct Hv as [Ho Hv].
  destruct (built_step g o Hg Hids Hedges Ho) as (Hg' & Hids' & Hedges' & Hsim).
  cbn [GraphClass.run fold_left]. rewrite <-Hsim. by apply IH.
Qed.

Lemma built_from_empty {C : Type} (ops : list (GraphClass.op C)) :
  build_ops_valid GraphClass.empty ops →
  graph_consistent (GraphClass.run ops GraphClass.empty) ∧
  GraphClass.id <$> GraphClass.nodes (GraphClass.run ops GraphClass.empty)
  = seq 0 (GraphClass.nodeIdCounter (GraphClass.run ops GraphClass.empty)) ∧
  (∀ e, e ∈ GraphClass.edges (GraphClass.run ops GraphClass.empty) →
     (GraphClass.to e
      < GraphClass.nodeIdCounter (GraphClass.run ops GraphClass.empty))%nat ∧
     0 ≤ GraphClass.weight e) ∧
  GraphClass.toGraph (GraphClass.run ops GraphClass.empty)
  = fold_left run_op_simple ops (mkGraph [] ∅).
Proof.
  intros Hv. apply (built_run ops GraphClass.empty); try done.
  - apply graph_consistent_empty.
  - intros e He. by apply elem_of_nil in He.
Qed.

(** X12: a graph built by [addNode] and by [addEdge] between ids that
    have been handed out, with weights that are not negative, is a graph
    the solvers are specified for when it is handed over by [toGraph]: its
    node ids are [0 .. n-1], and every adjacency entry leads to one of
    them and carries a weight that is not negative. *)
Theorem built_graph_well_formed {C : Type} (ops : list (GraphClass.op C)) :
  build_ops_valid GraphClass.empty ops →
  let g := GraphClass.toGraph (GraphClass.run ops GraphClass.empty) in
  wf_graph g ∧ length (nodes g) = added_nodes ops.
Proof.
  intros Hv g. destruct (built_from_empty ops Hv) as (Hg & Hids & Hedges & _).
  assert (length (nodes g)
          = GraphClass.nodeIdCounter (GraphClass.run ops GraphClass.empty))
    as Hlen.
  { unfold g. cbn. by rewrite Hids, length_seq. }
  split.
  - split.
    + rewrite Hlen. unfold g. cbn. done.
    + intros u v w Hin. unfold neighbors, g in Hin. cbn in Hin.
      rewrite (gc_sync _ Hg) in Hin. apply edges_from_elem in Hin.
      rewrite Hlen. by apply (Hedges _ Hin).
  - rewrite Hlen.
    destruct (graph_ids_run ops (@GraphClass.empty C)) as (_ & _ & ->);
      [apply NoDup_nil_2|by intros n ?%elem_of_nil|done].
Qed.

Lemma built_graph_well_formed_witness :
  let ops : list (GraphClass.op Z) :=
    [GraphClass.AddNode 0 0 None; GraphClass.AddNode 5 5 None;
     GraphClass.AddEdge 0 1 4; GraphClass.AddEdge 1 0 0;
     GraphClass.AddNode 9 9 None; GraphClass.AddEdge 0 1 7] in
  let g := GraphClass.toGraph (GraphClass.run ops GraphClass.empty) in
  wf_graph g ∧ length (nodes g) = 3%nat.
Proof.
  intros ops. apply (built_graph_well_formed ops). cbn. repeat split; lia.
Defined.

(** X13: the two-field graph that the solvers are verified on, with its
    [addNode] and [addEdge], is the [GraphClass] seen through [toGraph]:
    replaying the same [addNode] and [addEdge] calls on the two-field
    graph gives what [toGraph] returns. *)
Theorem toGraph_replays {C : Type} (ops : list (GraphClass.op C)) :
  build_ops_valid GraphClass.empty ops →
  GraphClass.toGraph (GraphClass.run ops GraphClass.empty)
  = fold_left run_op_simple ops (mkGraph [] ∅).
Proof. intros Hv. by destruct (built_from_empty ops Hv) as (_ & _ & _ & ?). Qed.

Lemma toGraph_replays_witness :
  let ops : list (GraphClass.op Z) :=
    [GraphClass.AddNode 0 0 None; GraphClass.AddNode 5 5 None;
     GraphClass.AddEdge 0 1 4; GraphClass.AddEdge 1 0 0;
     GraphClass.AddNode 9 9 None; GraphClass.AddEdge 0 1 7] in
  GraphClass.toGraph (GraphClass.run ops GraphClass.empty)
  = fold_left run_op_simple ops (mkGraph [] ∅).
Proof.
  intros ops. apply (toGraph_replays ops). cbn. repeat split; lia.
Defined.

(** [createExampleGraph()] built through the class is the example graph
    of the worked example. *)
Lemma createExampleGraph_toGraph :
  GraphClass.toGraph GraphClass.createExampleGraph = createExampleGraph.
Proof. vm_compute. reflexivity. Qed.

(** ** Dijkstra.ts: a destination that is not a node *)

(** A property of the state that the heap and the [visited] flags do not
    touch and that relaxing an edge keeps holds when the loop ends. *)
Lemma dijkstra_loop_keeps (g : Graph) (P : Dijkstra.State → Prop) :
  (∀ st vis h, P st →
     P (Dijkstra.mkState (Dijkstra.dist st) vis (Dijkstra.pred st) h)) →
  (∀ st u e, P st → P (Dijkstra.relax_edge u st e)) →
  ∀ fuel dest st st', P st → Dijkstra.loop g fuel dest st = Some st' → P st'.
Proof.
  intros Hframe Hrelax fuel dest.
  induction fuel as [|f IH]; intros st st' HP; cbn [Dijkstra.loop];
    destruct (MinHeap.isEmpty (Dijkstra.heap st)); try by intros [= <-].
  destruct (MinHeap.extractMin (Dijkstra.heap st)) as [[u|] heap1];
    [|by intros [= <-]].
  cbn [Dijkstra.visited Dijkstra.dist Dijkstra.pred Dijkstra.heap].
  destruct (rdb (Dijkstra.visited st) u).
  { apply IH. by apply Hframe. }
  case_bool_decide.
  { intros [= <-]. by apply Hframe. }
  apply IH. apply fold_left_invariant; [by apply Hframe|].
  intros acc e _ Hacc. by apply Hrelax.
Qed.

Lemma walk_back_undefined fuel pred path :
  ShortestPath.walk_back fuel pred None path = None.
Proof.
  revert path. induction fuel as [|f IH]; intros path; [done|].
  cbn [ShortestPath.walk_back]. rewrite bool_decide_eq_false_2 by done.
  apply IH.
Qed.

Lemma shortestPath_unknown fuel d (dist : gmap nat num) (pred : gmap nat Z) :
  dist !! d = None → pred !! d = None →
  ShortestPath.shortestPath fuel (Some d) dist pred = None.
Proof.
  intros Hd Hp. unfold ShortestPath.shortestPath.
  rewrite Hd, bool_decide_eq_false_2 by done.
  destruct fuel as [|f]; cbn [ShortestPath.walk_back].
  - rewrite bool_decide_eq_false_2; [done|]. intros [=]. lia.
  - rewrite bool_decide_eq_false_2 by (intros [=]; lia).
    cbn [ShortestPath.pred_get].
    rewrite (proj2 (Z.leb_le 0 (Z.of_nat d))) by lia.
    rewrite Nat2Z.id, Hp. apply walk_back_undefined.
Qed.

(** X14: [dijkstra] called with a destination that is neither a node of
    the graph nor the source never returns: the distance read for the
    destination is [undefined], which is not [Infinity], so the path is
    walked back from it, and the walk reads [undefined] predecessors for
    ever, however many rounds it is given. *)
Theorem dijkstra_unknown_destination (g : Graph) (source d : nat)
    (fuel : nat) :
  d ∉ nodes g → d ≠ source →
  ShortestPath.dijkstra g fuel source (Some d) = None.
Proof.
  intros Hd Hne. unfold ShortestPath.dijkstra.
  destruct (Dijkstra.loop g fuel (Some d) (Dijkstra.init g source))
    as [st|] eqn:Hloop; [|done].
  assert (Dijkstra.dist st !! d = None ∧ Dijkstra.pred st !! d = None)
    as [Hdist Hpred].
  { apply (dijkstra_loop_keeps g
      (λ st, Dijkstra.dist st !! d = None ∧ Dijkstra.pred st !! d = None)
      ) with (fuel:=fuel) (dest:=Some d) (st:=Dijkstra.init g source);
      [done| | |done].
    - intros st0 u [v w] [Hd0 Hp0]. unfold Dijkstra.relax_edge.
      cbn [fst snd].
      destruct (num_lt _ (rd (Dijkstra.dist st0) v)) eqn:Hlt; [|done].
      assert (v ≠ d) as Hvd.
      { intros ->. rewrite (rd_None _ _ Hd0), num_lt_NaN_r in Hlt. done. }
      destruct (MinHeap.contains v _); [|destruct (negb _)];
        cbn [Dijkstra.dist Dijkstra.pred];
        by rewrite !lookup_insert_ne.
    - cbn [Dijkstra.init Dijkstra.dist Dijkstra.pred].
      rewrite lookup_insert_ne by done. split.
      + apply not_elem_of_list_to_map_1. rewrite <-list_fmap_compose.
        cbn. by rewrite list_fmap_id.
      + apply not_elem_of_list_to_map_1. rewrite <-list_fmap_compose.
        cbn. by rewrite list_fmap_id. }
  by rewrite (shortestPath_unknown fuel d _ _ Hdist Hpred).
Qed.

Lemma dijkstra_unknown_destination_witness :
  ShortestPath.dijkstra createExampleGraph 1000 0 (Some 10%nat) = None.
Proof.
  apply (dijkstra_unknown_destination createExampleGraph 0 10 1000);
    [|done].
  apply (bool_decide_unpack _). by vm_compute.
Defined.

(** ** Dijkstra.ts: the early exit and the reconstructed path *)

Section DijkstraPath.
Variable g : Graph.
Variable s : nat.
Hypothesis Hwf : wf_graph g.
Hypothesis Hs : (s < length (nodes g))%nat.

(** The vertex that comes out of the heap has its final distance. *)
Lemma dijkstra_visit_start st u z h' :
  dijkstra_inv g s st →
  rd (Dijkstra.dist st) u = Fin z →
  rdb (Dijkstra.visited st) u = false → (u < length (nodes g))%nat →
  u ∉ (MinHeap.heap h').*1 →
  heap_tracks (length (nodes g)) (Dijkstra.dist st) (Dijkstra.visited st) h' →
  (∀ e, e ∈ MinHeap.heap (Dijkstra.heap st) ↔
        e = (u, Fin z) ∨ e ∈ MinHeap.heap h') →
  (∀ v x, (v, Fin x) ∈ MinHeap.heap (Dijkstra.heap st) → z ≤ x) →
  final g s (Dijkstra.dist st) u ∧
  dijkstra_edges_inv g s u z []
    (Dijkstra.mkState (Dijkstra.dist st) (<[u:=true]> (Dijkstra.visited st))
       (Dijkstra.pred st) h').
Proof.
  intros (Htab & Hreal & Htr & Hq & Hvis & Hsrc) Hdu Hopen Hu Hfresh Htr'
    Hmem Hmin.
  assert (∀ y l, path_len g s y l →
            rdb (Dijkstra.visited st) y = true ∨ z ≤ l) as Hlb.
  { apply (path_lower_bound g s Hwf (Dijkstra.dist st)).
    - destruct (rdb (Dijkstra.visited st) s) eqn:Hvs; [by left|right].
      destruct Hsrc as [?|Hs0]; [done|]. apply (Hmin s 0). by apply Hq.
    - intros y Hy. by apply Hvis.
    - intros y v w x Hy Hin Hyx. left.
      destruct (Hvis y Hy) as [_ Hset]. specialize (Hset v w Hin).
      by rewrite Hyx in Hset.
    - intros v x Hv Hvx. apply (Hmin v x). apply Hq; [|done..].
      apply Hreal in Hvx. by apply (path_len_vertex g s Hwf) in Hvx. }
  assert (final g s (Dijkstra.dist st) u) as Hfu.
  { exists z. split; [done|]. intros l Hl.
    destruct (Hlb u l Hl); [congruence|done]. }
  split; [done|].
  split_and!; cbn [Dijkstra.dist Dijkstra.visited Dijkstra.heap]; try done.
  - by apply heap_tracks_mark.
  - intros v x Hv Hvo Hvx. assert (v ≠ u) as Hne.
    { intros ->. by rewrite rdb_insert_eq in Hvo. }
    rewrite rdb_insert_ne in Hvo by done.
    destruct (proj1 (Hmem (v, Fin x)) (Hq v x Hv Hvo Hvx)) as [[=]|?]; done.
  - intros v [->|Hv]%rdb_insert_true; [done|by apply Hvis].
  - intros v [->|Hv]%rdb_insert_true Hne; [done|by apply Hvis].
  - apply rdb_insert_eq.
  - destruct Hsrc as [?|?]; [left|by right].
    apply rdb_insert_true. by right.
  - intros v w Hin. by apply elem_of_nil in Hin.
Qed.

Lemma pred_tree_visit order st u h' :
  pred_tree g s order st → rdb (Dijkstra.visited st) u = false →
  pred_tree g s (order ++ [u])
    (Dijkstra.mkState (Dijkstra.dist st) (<[u:=true]> (Dijkstra.visited st))
       (Dijkstra.pred st) h').
Proof.
  intros (Hnd & Hord & Hps & Hds & Htree) Hu.
  assert (u ∉ order) as Hfresh.
  { intros Hin%Hord. congruence. }
  split_and!; cbn [Dijkstra.dist Dijkstra.visited Dijkstra.pred]; try done.
  - apply NoDup_app. split_and!; [done| |apply NoDup_singleton].
    intros v Hv Hv'. apply list_elem_of_singleton in Hv'. by subst v.
  - intros v. rewrite elem_of_app, list_elem_of_singleton, rdb_insert_true,
      Hord. tauto.
  - intros v x Hne Hx.
    destruct (Htree v x Hne Hx) as (u0 & w & zu & i & Hp & Hin & Hu0 & -> &
                                     Hi & Hbefore).
    exists u0, w, zu, i. split_and!; try done.
    + by apply lookup_app_l_Some.
    + intros j Hj. apply lookup_lt_Some in Hi as Hlt.
      destruct (decide (j < length order)%nat) as [Hjl|Hjl].
      * rewrite lookup_app_l in Hj by done. by apply Hbefore.
      * lia.
Qed.

Lemma pred_tree_relax order st u z done v w :
  dijkstra_edges_inv g s u z done st → pred_tree g s order st →
  (v, w) ∈ neighbors g u →
  pred_tree g s order (Dijkstra.relax_edge u st (v, w)).
Proof.
  intros (Htab & Hreal & Htr & Hq & Hfin & Hset & Hvu & Hdu & Hsrc & Hdone)
    (Hnd & Hord & Hps & Hds & Htree) Hin.
  destruct (proj2 Hwf _ _ _ Hin) as [Hv Hw].
  unfold Dijkstra.relax_edge. cbn [fst snd]. rewrite Hdu. cbn [num_add].
  destruct (num_lt (Fin (z + w)) (rd (Dijkstra.dist st) v)) eqn:Hlt;
    [|done].
  assert (rdb (Dijkstra.visited st) v = false) as Hvo.
  { destruct (rdb (Dijkstra.visited st) v) eqn:Hvv; [|done].
    pose proof (final_not_improved g s _ u v w z Hreal (Hfin v Hvv) Hdu Hin).
    congruence. }
  assert (0 ≤ z) as Hz.
  { apply Hreal in Hdu. by apply (path_len_nonneg g s Hwf) in Hdu. }
  assert (v ≠ s) as Hvs.
  { intros ->. rewrite Hds in Hlt. cbn in Hlt. apply Z.ltb_lt in Hlt. lia. }
  assert (u ≠ v) as Huv by (intros ->; congruence).
  assert (pred_tree g s order
            (Dijkstra.mkState (<[v:=Fin (z + w)]> (Dijkstra.dist st))
               (Dijkstra.visited st)
               (<[v:=Z.of_nat u]> (Dijkstra.pred st)) (Dijkstra.heap st)))
    as Hgoal.
  { split_and!; cbn [Dijkstra.dist Dijkstra.visited Dijkstra.pred]; try done.
    - by rewrite lookup_insert_ne.
    - by rewrite rd_insert_ne.
    - intros v' x Hne Hx. destruct (decide (v' = v)) as [->|Hvv].
      + rewrite rd_insert_eq in Hx. injection Hx as <-.
        apply Hord in Hvu. apply list_elem_of_lookup in Hvu as [i Hi].
        exists u, w, z, i. split_and!; try done.
        * by rewrite lookup_insert_eq.
        * by rewrite rd_insert_ne.
        * intros j Hj. exfalso.
          assert (v ∈ order) as Hvin by (apply list_elem_of_lookup; eauto).
          apply Hord in Hvin. congruence.
      + rewrite rd_insert_ne in Hx by done.
        destruct (Htree v' x Hne Hx) as (u0 & w0 & zu & i & Hp & Hin0 & Hu0 &
                                          -> & Hi & Hbefore).
        exists u0, w0, zu, i. split_and!; try done.
        * by rewrite lookup_insert_ne.
        * rewrite rd_insert_ne; [done|]. intros <-.
          assert (v ∈ order) as Hvin by (apply list_elem_of_lookup; eauto).
          apply Hord in Hvin. congruence. }
  destruct (MinHeap.contains v _); [|destruct (negb _)];
    destruct Hgoal as (? & ? & ? & ? & ?); split_and!; done.
Qed.

(** A visit keeps both invariants. *)
Lemma dijkstra_visit_tree order st u z h' :
  dijkstra_inv g s st → pred_tree g s order st →
  rd (Dijkstra.dist st) u = Fin z →
  rdb (Dijkstra.visited st) u = false → (u < length (nodes g))%nat →
  u ∉ (MinHeap.heap h').*1 →
  heap_tracks (length (nodes g)) (Dijkstra.dist st) (Dijkstra.visited st) h' →
  (∀ e, e ∈ MinHeap.heap (Dijkstra.heap st) ↔
        e = (u, Fin z) ∨ e ∈ MinHeap.heap h') →
  (∀ v x, (v, Fin x) ∈ MinHeap.heap (Dijkstra.heap st) → z ≤ x) →
  pred_tree g s (order ++ [u])
    (fold_left (Dijkstra.relax_edge u) (neighbors g u)
       (Dijkstra.mkState (Dijkstra.dist st)
          (<[u:=true]> (Dijkstra.visited st)) (Dijkstra.pred st) h')).
Proof.
  intros Hinv Htree Hdu Hopen Hu Hfresh Htr' Hmem Hmin.
  destruct (dijkstra_visit_start st u z h' Hinv Hdu Hopen Hu Hfresh Htr' Hmem
              Hmin) as [_ Hstart].
  pose proof (pred_tree_visit order st u h' Htree Hopen) as Htree1.
  apply (fold_left_prefix
    (λ done a, dijkstra_edges_inv g s u z done a ∧
               pred_tree g s (order ++ [u]) a)
    (Dijkstra.relax_edge u) (neighbors g u)); [done|].
  intros done [v w] acc [rest Hl] [Hacc Htacc].
  assert ((v, w) ∈ neighbors g u) as Hin.
  { rewrite Hl. apply elem_of_app. right. by left. }
  split; [by apply dijkstra_relax_edge|by eapply pred_tree_relax].
Qed.

Lemma relax_edges_visited u st :
  Dijkstra.visited (fold_left (Dijkstra.relax_edge u) (neighbors g u) st)
  = Dijkstra.visited st.
Proof.
  apply (fold_left_invariant
    (λ a, Dijkstra.visited a = Dijkstra.visited st)); [done|].
  intros a e _ Ha. unfold Dijkstra.relax_edge.
  destruct (num_lt _ _); [|done].
  destruct (MinHeap.contains _ _); [done|]. by destruct (negb _).
Qed.

(** With fuel for every unvisited vertex the loop ends, on an empty heap
    or at the destination. *)
Lemma dijkstra_loop_dest dest fuel :
  ∀ st order,
  dijkstra_inv g s st → pred_tree g s order st →
  (count_open (length (nodes g)) (Dijkstra.visited st) ≤ fuel)%nat →
  ∃ st' order',
    Dijkstra.loop g fuel dest st = Some st' ∧
    table_ok (length (nodes g)) (Dijkstra.dist st') ∧
    realizable g s (Dijkstra.dist st') ∧
    pred_tree g s order' st' ∧
    (∀ v, rdb (Dijkstra.visited st') v = true →
          final g s (Dijkstra.dist st') v) ∧
    ((dijkstra_inv g s st' ∧ MinHeap.heap (Dijkstra.heap st') = []) ∨
     (∃ d, dest = Some d ∧ rdb (Dijkstra.visited st') d = true)).
Proof.
  induction fuel as [|f IH]; intros st order Hinv Htree Hfuel;
    cbn [Dijkstra.loop]; destruct (MinHeap.isEmpty (Dijkstra.heap st)) eqn:He.
  1,3: apply isEmpty_true in He; exists st, order;
    pose proof Hinv as (? & ? & ? & ? & Hvis & ?);
    split_and!; try done; [intros v Hv; by apply Hvis|by left].
  all: assert (MinHeap.heap (Dijkstra.heap st) ≠ []) as Hne
    by (intros Hnil%isEmpty_true; congruence).
  all: pose proof Hinv as (Htab & Hreal & Htr & _ & Hvis & _).
  all: destruct (heap_tracks_extract _ _ _ _ Htr Hne)
    as (u & z & h' & Hx & Hdu & Hopen & Hu & Hfresh & Htr' & Hmem & Hmin).
  - pose proof (count_open_pos g s Hs _ _ u Hu Hopen). lia.
  - rewrite Hx. cbn [Dijkstra.visited Dijkstra.dist Dijkstra.pred Dijkstra.heap].
    rewrite Hopen. case_bool_decide as Hdest.
    + destruct (dijkstra_visit_start st u z h' Hinv Hdu Hopen Hu Hfresh Htr'
                  Hmem Hmin) as [Hfu _].
      eexists _, (order ++ [u]). split; [done|].
      cbn [Dijkstra.visited Dijkstra.dist Dijkstra.pred Dijkstra.heap].
      split_and!; try done.
      * by apply pred_tree_visit.
      * intros v [->|Hv]%rdb_insert_true; [done|by apply Hvis].
      * right. exists u. split; [done|apply rdb_insert_eq].
    + apply (IH _ (order ++ [u])).
      * by apply (dijkstra_visit g s Hwf Hs st u z h').
      * by apply (dijkstra_visit_tree order st u z h').
      * rewrite relax_edges_visited. cbn [Dijkstra.visited].
        pose proof (count_open_mark g s Hs _ _ u Hu Hopen). lia.
Qed.
End DijkstraPath.

Section DijkstraWalkBack.
Variable g : Graph.
Variable s : nat.
Hypothesis Hwf : wf_graph g.
Hypothesis Hs : (s < length (nodes g))%nat.

Lemma pred_get_vertex (pred : gmap nat Z) (v : nat) :
  ShortestPath.pred_get pred (Some (Z.of_nat v)) = pred !! v.
Proof.
  unfold ShortestPath.pred_get.
  rewrite (proj2 (Z.leb_le 0 (Z.of_nat v))) by lia. by rewrite Nat2Z.id.
Qed.

Lemma walk_back_vertex fuel (pred : gmap nat Z) (v : nat) path :
  ShortestPath.walk_back (S fuel) pred (Some (Z.of_nat v)) path
  = ShortestPath.walk_back fuel pred (pred !! v) (Some (Z.of_nat v) :: path).
Proof.
  cbn [ShortestPath.walk_back].
  rewrite bool_decide_eq_false_2 by (intros [=]; lia).
  by rewrite pred_get_vertex.
Qed.

(** Walking back from a vertex with a finite distance ends at the source,
    and what it collects is a path of that weight. *)
Lemma walk_back_path order st m :
  pred_tree g s order st →
  ∀ v x fuel path,
  rd (Dijkstra.dist st) v = Fin x →
  (v = s ∨ ∀ u i, Dijkstra.pred st !! v = Some (Z.of_nat u) →
                  order !! i = Some u → (i < m)%nat) →
  (m + 1 ≤ fuel)%nat →
  ∃ q, ShortestPath.walk_back fuel (Dijkstra.pred st) (Some (Z.of_nat v)) path
       = Some (path_values q ++ path) ∧
       walk g q x ∧ head q = Some s ∧ last q = Some v.
Proof.
  intros (Hnd & Hord & Hps & Hds & Htree).
  assert (∀ x fuel path, rd (Dijkstra.dist st) s = Fin x → (1 ≤ fuel)%nat →
    ∃ q, ShortestPath.walk_back fuel (Dijkstra.pred st) (Some (Z.of_nat s)) path
         = Some (path_values q ++ path) ∧
         walk g q x ∧ head q = Some s ∧ last q = Some s) as Hsource.
  { intros x fuel path Hx Hfuel. destruct fuel as [|f]; [lia|].
    rewrite walk_back_vertex, Hps. exists [s]. split_and!; try done.
    - by destruct f.
    - rewrite Hds in Hx. injection Hx as <-. constructor. }
  induction m as [|m IH]; intros v x fuel path Hx Hdepth Hfuel.
  - destruct (decide (v = s)) as [->|Hne]; [apply Hsource; [done|lia]|].
    exfalso. destruct Hdepth as [?|Hdepth]; [done|].
    destruct (Htree v x Hne Hx) as (u & w & zu & i & Hp & _ & _ & _ & Hi & _).
    specialize (Hdepth u i Hp Hi). lia.
  - destruct (decide (v = s)) as [->|Hne]; [apply Hsource; [done|lia]|].
    destruct Hdepth as [?|Hdepth]; [done|].
    destruct (Htree v x Hne Hx) as (u & w & zu & i & Hp & Hin & Hu & -> & Hi &
                                     Hbefore).
    specialize (Hdepth u i Hp Hi).
    destruct fuel as [|f]; [lia|]. rewrite walk_back_vertex, Hp.
    destruct (IH u zu f (Some (Z.of_nat v) :: path) Hu) as (q & Hrun & Hwalk &
                                                             Hhd & Hlast).
    { destruct (decide (u = s)) as [->|Hus]; [by left|right].
      intros u2 i2 Hp2 Hi2.
      destruct (Htree u zu Hus Hu) as (u2' & _ & _ & i2' & Hp2' & _ & _ & _ &
                                        Hi2' & Hbefore2).
      rewrite Hp2 in Hp2'. injection Hp2' as Heq%Nat2Z.inj. subst u2'.
      pose proof (NoDup_lookup _ _ _ _ Hnd Hi2 Hi2') as ->.
      specialize (Hbefore2 i Hi). lia. }
    { lia. }
    exists (q ++ [v]). split_and!.
    + rewrite Hrun. unfold path_values. rewrite fmap_app, <-app_assoc. done.
    + apply last_Some in Hlast as [q' ->]. rewrite <-app_assoc. cbn.
      by apply walk_snoc.
    + destruct q; [done|]. done.
    + apply last_snoc.
Qed.

Lemma dijkstra_init_tree : pred_tree g s [] (Dijkstra.init g s).
Proof.
  unfold Dijkstra.init. destruct Hwf as [Hnodes _]. rewrite Hnodes.
  fold (fill (length (nodes g)) PInf).
  fold (fill (length (nodes g)) false). fold (fill (length (nodes g)) (-1)).
  split_and!; cbn [Dijkstra.dist Dijkstra.visited Dijkstra.pred].
  - apply NoDup_nil_2.
  - intros v. rewrite rdb_fill_false. split; [by intros ?%elem_of_nil|done].
  - rewrite lookup_fill. by rewrite decide_True.
  - by rewrite rd_insert_eq.
  - intros v x Hne. rewrite rd_insert_ne, rd_fill by done. by case_decide.
Qed.

Lemma pred_tree_order_length order st :
  realizable g s (Dijkstra.dist st) →
  (∀ v, rdb (Dijkstra.visited st) v = true → final g s (Dijkstra.dist st) v) →
  pred_tree g s order st → (length order ≤ length (nodes g))%nat.
Proof.
  intros Hreal Hfin (Hnd & Hord & _).
  pose proof (length_filter_members order (length (nodes g)) Hnd) as Hlen.
  pose proof (length_filter (λ v, v ∈ order) (seq 0 (length (nodes g)))) as Hf.
  rewrite length_seq in Hf. etransitivity; [apply Hlen|done].
  intros u Hu%Hord. destruct (Hfin u Hu) as (x & Hx & _).
  apply Hreal in Hx. by apply (path_len_vertex g s Hwf) in Hx.
Qed.
End DijkstraWalkBack.

(** X15: [dijkstra] with a destination among the nodes returns, although
    it stops as soon as the destination is visited.  If the destination
    can be reached, its entry in [distances] is the least weight of a path
    to it, and [shortestPath] is such a path: it starts at the source, ends
    at the destination, follows edges of the graph, and its weight is that
    distance.  If it cannot be reached, its distance is [Infinity] and
    [shortestPath] is empty. *)
Theorem dijkstra_shortest_path (g : Graph) (source d : nat) (fuel : nat) :
  wf_graph g → (source < length (nodes g))%nat → (d < length (nodes g))%nat →
  (length (nodes g) + 1 ≤ fuel)%nat →
  ∃ r p,
    ShortestPath.dijkstra g fuel source (Some d) = Some (r, p) ∧
    ((∃ l, path_len g source d l) →
     ∃ q x, p = path_values q ∧ walk g q x ∧
            head q = Some source ∧ last q = Some d ∧
            NewSSSP.distances r !! d = Some (Fin x) ∧
            ∀ l, path_len g source d l → x ≤ l) ∧
    ((∀ l, ¬ path_len g source d l) →
     p = [] ∧ NewSSSP.distances r !! d = Some PInf).
Proof.
  intros Hwf Hs Hd Hfuel. unfold ShortestPath.dijkstra.
  destruct (dijkstra_loop_dest g source Hwf Hs (Some d) fuel
              (Dijkstra.init g source) [])
    as (st & order & -> & Htab & Hreal & Htree & Hfin & Hend).
  { by apply dijkstra_init_inv. }
  { by apply dijkstra_init_tree. }
  { unfold count_open. etransitivity; [apply length_filter|].
    rewrite length_seq. lia. }
  assert (final g source (Dijkstra.dist st) d ∨
          (rd (Dijkstra.dist st) d = PInf ∧ ∀ l, ¬ path_len g source d l))
    as Hcase.
  { destruct Hend as [[Hinv Hempty]|(d' & [= <-] & Hvd)]; [|left; by apply Hfin].
    destruct (dijkstra_inv_final g source Hwf Hs st Hinv Hempty d Hd)
      as (Hdist & Hr & Hmin).
    destruct (rd (Dijkstra.dist st) d) as [x| |] eqn:Hx; [left|right|done].
    - exists x. split; [done|]. intros l Hl.
      destruct (Hmin l Hl) as (x' & [= <-] & ?). done.
    - split; [done|]. intros l Hl. by destruct (Hmin l Hl) as (x' & ? & _). }
  pose proof (pred_tree_order_length g source Hwf Hs order st Hreal Hfin Htree)
    as Hlen.
  unfold ShortestPath.shortestPath.
  destruct Hcase as [(x & Hx & Hmin)|[Hinf Hno]].
  - assert (Dijkstra.dist st !! d = Some (Fin x)) as Hlook.
    { rewrite <-Hx. apply rd_is_dist. by rewrite Hx. }
    rewrite Hlook, bool_decide_eq_false_2 by done.
    destruct (walk_back_path g source Hs order st (length order) Htree d x fuel [])
      as (q & -> & Hwalk & Hhd & Hlast); [done| |lia|].
    { right. intros u i _ Hi. by apply lookup_lt_Some in Hi. }
    eexists _, _. split; [done|]. cbn [NewSSSP.distances]. split.
    + intros _. exists q, x. rewrite app_nil_r. split_and!; done.
    + intros Hno. exfalso. apply (Hno x). by apply Hreal.
  - assert (Dijkstra.dist st !! d = Some PInf) as Hlook.
    { rewrite <-Hinf. apply rd_is_dist. by rewrite Hinf. }
    rewrite Hlook, bool_decide_eq_true_2 by done.
    eexists _, _. split; [done|]. cbn [NewSSSP.distances]. split.
    + intros [l Hl]. by destruct (Hno l).
    + done.
Qed.

Lemma dijkstra_shortest_path_witness :
  ∃ r p,
    ShortestPath.dijkstra createExampleGraph 11 0 (Some 5%nat) = Some (r, p) ∧
    ((∃ l, path_len createExampleGraph 0 5 l) →
     ∃ q x, p = path_values q ∧ walk createExampleGraph q x ∧
            head q = Some 0%nat ∧ last q = Some 5%nat ∧
            NewSSSP.distances r !! 5%nat = Some (Fin x) ∧
            ∀ l, path_len createExampleGraph 0 5 l → x ≤ l) ∧
    ((∀ l, ¬ path_len createExampleGraph 0 5 l) →
     p = [] ∧ NewSSSP.distances r !! 5%nat = Some PInf).
Proof.
  apply (dijkstra_shortest_path createExampleGraph 0 5 11).
  - apply wf_check_sound. vm_compute. reflexivity.
  - vm_compute. lia.
  - vm_compute. lia.
  - vm_compute. lia.
Defined.

(** ** NewSSSP.ts: what every call keeps *)

Section Keeps.
Variable graph : Graph.
Variables k t : nat.
Variable P : NewSSSP.State → Prop.

Hypothesis P_improve : ∀ st u v w,
  P st → (v, w) ∈ neighbors graph u →
  num_lt (num_add (rd (NewSSSP.dist st) u) w) (rd (NewSSSP.dist st) v) = true →
  P (NewSSSP.improve v (num_add (rd (NewSSSP.dist st) u) w) u st).
Hypothesis P_mark : ∀ st u, P st → P (NewSSSP.mark_complete u st).

Lemma findPivots_edge_keeps B u acc e :
  e ∈ neighbors graph u →
  P acc.1.1 → P (NewSSSP.findPivots_edge B u acc e).1.1.
Proof.
  destruct acc as [[st nl] W], e as [v w].
  unfold NewSSSP.findPivots_edge. cbn [fst snd].
  intros He HP. destruct (_ && _); [|done]. cbn [fst snd].
  destruct (num_lt _ _) eqn:Hlt; [|done]. by apply P_improve.
Qed.

Lemma findPivots_rounds_keeps rounds B S layer W st :
  P st → P (NewSSSP.findPivots_rounds graph k rounds B S layer W st).1.1.
Proof.
  revert layer W st. induction rounds as [|r IH]; intros layer W st HP;
    cbn [NewSSSP.findPivots_rounds]; [done|].
  assert (P (fold_left (NewSSSP.findPivots_vertex graph B) layer
               (st, [], W)).1.1) as H1.
  { apply (fold_left_invariant (λ a, P a.1.1)); [done|].
    intros a u _ Ha. unfold NewSSSP.findPivots_vertex.
    destruct (negb _); [done|].
    apply (fold_left_invariant (λ b, P b.1.1)); [done|].
    intros b e He Hb. by apply findPivots_edge_keeps. }
  destruct (fold_left _ layer _) as [[st1 nl] W1]. cbn [fst snd] in H1.
  destruct (Nat.ltb _ _); [done|]. by apply IH.
Qed.

Lemma findPivots_keeps B S st :
  P st → P (NewSSSP.findPivots graph k B S st).2.
Proof.
  intros HP. unfold NewSSSP.findPivots.
  pose proof (findPivots_rounds_keeps k B S (set_of_list S) (set_of_list S) st
                HP) as H.
  destruct (NewSSSP.findPivots_rounds _ _ _ _ _ _ _ _) as [[st1 W] exited].
  by destruct exited.
Qed.

Lemma baseCase_edge_keeps B u acc e :
  e ∈ neighbors graph u →
  P acc.2 → P (NewSSSP.baseCase_edge B u acc e).2.
Proof.
  destruct acc as [[heap inHeap] st], e as [v w].
  unfold NewSSSP.baseCase_edge. cbn [fst snd]. intros He HP.
  destruct (num_lt _ (rd _ _)) eqn:Hlt; cbn [andb]; [|done].
  destruct (num_lt _ B); [|done].
  destruct (bool_decide _); cbn [snd]; by apply P_improve.
Qed.

Lemma baseCase_keeps fuel B S st r :
  P st → NewSSSP.baseCase graph fuel B S st = Some r → P r.2.
Proof.
  intros HP. unfold NewSSSP.baseCase. destruct S as [|s S'].
  { by intros [= <-]. }
  destruct (NewSSSP.baseCase_loop _ _ _ _ _ _ _) as [[U st1]|] eqn:E; [|done].
  intros [= <-]. cbn [snd].
  eapply (baseCase_loop_invariant graph B (λ _ _ _ st', P st'))
    in E as (? & ? & _ & H); [exact H| |done].
  intros heap inHeap U0 st0 u heap1 _ H0 heap2 inHeap2 st2 Hv.
  change st2 with (heap2, inHeap2, st2).2. rewrite <-Hv.
  unfold NewSSSP.baseCase_visit.
  apply (fold_left_invariant (λ a, P a.2)); [by apply P_mark|].
  intros a e He Ha. by apply baseCase_edge_keeps.
Qed.

Lemma relaxEdges_keeps vertices Bi B frontier st :
  P st → P (NewSSSP.relaxEdges graph vertices Bi B frontier st).2.
Proof.
  intros HP. unfold NewSSSP.relaxEdges.
  apply (fold_left_invariant (λ a, P a.2)); [done|].
  intros a u _ Ha. unfold NewSSSP.relaxEdges_vertex.
  apply (fold_left_invariant (λ b, P b.2)); [by apply P_mark|].
  intros [fr st0] [v w] He Hb. unfold NewSSSP.relaxEdges_edge.
  cbn [fst snd] in *. destruct (_ && _); [|done].
  destruct (num_lt _ _) eqn:Hlt;
    destruct (NewSSSP.reinsert_test _ _ _ _); cbn [snd];
    first [by apply P_improve | done].
Qed.

(** A property of the state that lowering a distance along an edge and
    flagging a vertex keep is kept by [BMSSP] at every level. *)
Lemma BMSSP_keeps fuel l B S st r :
  P st → NewSSSP.BMSSP graph k t fuel l B S st = Some r → P r.2.
Proof.
  revert B S st r. induction l as [|l IH]; intros B S st r HP;
    cbn [NewSSSP.BMSSP]; [by apply baseCase_keeps|].
  pose proof (findPivots_keeps B S st HP) as Hfp.
  destruct (NewSSSP.findPivots graph k B S st) as [[pivots W] st1].
  destruct (NewSSSP.BMSSP_loop _ _ _ _ _ _ _ _ _ _ _)
    as [[[U B'] st2]|] eqn:E; [|done].
  intros [= <-]. cbn [snd] in *.
  eapply (BMSSP_loop_invariant graph k t (NewSSSP.BMSSP graph k t fuel l)
    (Datatypes.S l) B (λ _ _ _ st', P st'))
    in E as (? & H & _); [done| |done].
  intros fr U0 B0 st0 Si Bi fr1 subB subU st' H0 _ _ _ Hrec fr2 st2' Hrel.
  change st2' with (fr2, st2').2. rewrite <-Hrel. apply relaxEdges_keeps.
  apply (IH _ _ _ _ H0 Hrec).
Qed.
End Keeps.

(** X16: [solve] called with a destination outside [0 .. n-1] that is not
    the source never returns, for the reason [dijkstra] does not: the
    distance read for the destination is [undefined], not [Infinity], and
    the walk back over [pred] reads [undefined] for ever.  No call inside
    [BMSSP] writes an entry of [dist] or [pred] that was not there. *)
Theorem solve_unknown_destination (g : Graph) (k t levels fuel : nat)
    (source d : nat) :
  (length (nodes g) ≤ d)%nat → d ≠ source →
  ShortestPath.solve g k t levels fuel source (Some d) = None.
Proof.
  intros Hd Hne. unfold ShortestPath.solve.
  destruct (NewSSSP.BMSSP g k t fuel levels PInf [source]
              (NewSSSP.seeded g source)) as [[[B' U] st]|] eqn:Hrun; [|done].
  assert (NewSSSP.dist st !! d = None ∧ NewSSSP.pred st !! d = None)
    as [Hdist Hpred].
  { apply (BMSSP_keeps g k t
      (λ st, NewSSSP.dist st !! d = None ∧ NewSSSP.pred st !! d = None))
      with (fuel:=fuel) (l:=levels) (B:=PInf) (S:=[source]) (r:=(B', U, st))
      in Hrun; [done| | |].
    - intros st0 u v w [Hd0 Hp0] _ Hlt.
      assert (v ≠ d) as Hvd.
      { intros ->. rewrite (rd_None _ _ Hd0), num_lt_NaN_r in Hlt. done. }
      cbn [NewSSSP.improve NewSSSP.dist NewSSSP.pred].
      by rewrite !lookup_insert_ne.
    - intros st0 u HP. done.
    - cbn [NewSSSP.seeded NewSSSP.init NewSSSP.dist NewSSSP.pred].
      rewrite lookup_insert_ne by done. rewrite !lookup_fill.
      unfold NewSSSP.n. by rewrite !decide_False by lia. }
  by rewrite (shortestPath_unknown fuel d _ _ Hdist Hpred).
Qed.

Lemma solve_unknown_destination_witness :
  ShortestPath.solve createExampleGraph 2 4 1 1000 0 (Some 10%nat) = None.
Proof.
  apply (solve_unknown_destination createExampleGraph 2 4 1 1000 0 10);
    [vm_compute; lia|done].
Defined.

(** X17: across a [BMSSP] call at any level, on any graph, a vertex that
    was complete stays complete, and an entry of [pred] is rewritten only
    for a vertex whose distance has become strictly smaller. *)
Theorem BMSSP_flags_and_predecessors (g : Graph) (k t fuel l : nat)
    (B : num) (S : list nat) (st : NewSSSP.State)
    (r : num * list nat * NewSSSP.State) :
  NewSSSP.BMSSP g k t fuel l B S st = Some r →
  ∀ v,
    (rdb (NewSSSP.complete st) v = true →
     rdb (NewSSSP.complete r.2) v = true) ∧
    (NewSSSP.pred r.2 !! v = NewSSSP.pred st !! v ∨
     num_lt (rd (NewSSSP.dist r.2) v) (rd (NewSSSP.dist st) v) = true).
Proof.
  intros Hrun.
  set (P := λ st' : NewSSSP.State, ∀ v,
       (rdb (NewSSSP.complete st) v = true →
        rdb (NewSSSP.complete st') v = true) ∧
       (NewSSSP.pred st' !! v = NewSSSP.pred st !! v ∨
        num_lt (rd (NewSSSP.dist st') v) (rd (NewSSSP.dist st) v) = true) ∧
       (rd (NewSSSP.dist st') v = rd (NewSSSP.dist st) v ∨
        num_lt (rd (NewSSSP.dist st') v) (rd (NewSSSP.dist st) v) = true)).
  assert (P r.2) as HP.
  { apply (BMSSP_keeps g k t P) with (fuel:=fuel) (l:=l) (B:=B) (S:=S) (st:=st);
      [| | |exact Hrun].
    - intros st0 u v w H0 _ Hlt v'. destruct (H0 v') as (Hc & Hp & Hd).
      cbn [NewSSSP.improve NewSSSP.dist NewSSSP.pred NewSSSP.complete].
      split; [done|]. destruct (decide (v' = v)) as [->|Hvv].
      + rewrite rd_insert_eq.
        set (nd := num_add (rd (NewSSSP.dist st0) u) w) in *.
        assert (num_lt nd (rd (NewSSSP.dist st) v) = true) as Hlt'.
        { destruct Hd as [<-|Hd]; [done|].
          exact (num_lt_trans _ _ _ Hlt Hd). }
        split; by right.
      + rewrite lookup_insert_ne, rd_insert_ne by done. done.
    - intros st0 u H0 v. destruct (H0 v) as (Hc & Hp & Hd).
      cbn [NewSSSP.mark_complete NewSSSP.dist NewSSSP.pred NewSSSP.complete].
      split_and!; try done. intros Hv. apply rdb_insert_true. right.
      by apply Hc.
    - intros v. split_and!; [done|by left|by left]. }
  intros v. destruct (HP v) as (? & ? & _). done.
Qed.

Lemma BMSSP_flags_and_predecessors_witness :
  ∃ r, NewSSSP.BMSSP createExampleGraph 2 4 20 1 PInf [0%nat]
         (NewSSSP.seeded createExampleGraph 0) = Some r ∧
       rdb (NewSSSP.complete r.2) 0 = true.
Proof.
  destruct (NewSSSP.BMSSP createExampleGraph 2 4 20 1 PInf [0%nat]
              (NewSSSP.seeded createExampleGraph 0)) as [r|] eqn:E.
  - exists r. split; [done|].
    apply (proj1 (BMSSP_flags_and_predecessors _ _ _ _ _ _ _ _ r E 0%nat)).
    vm_compute. reflexivity.
  - exfalso. revert E. vm_compute. discriminate.
Defined.

(** ** NewSSSP.ts: what [baseCase] does on any input *)

Lemma baseCase_edge_bounded B u acc e (d0 : gmap nat num) :
  (∀ v, NewSSSP.dist acc.2 !! v = d0 !! v ∨
        (num_lt (rd (NewSSSP.dist acc.2) v) B = true ∧
         num_lt (rd (NewSSSP.dist acc.2) v) (rd d0 v) = true)) →
  ∀ v, NewSSSP.dist (NewSSSP.baseCase_edge B u acc e).2 !! v = d0 !! v ∨
       (num_lt (rd (NewSSSP.dist (NewSSSP.baseCase_edge B u acc e).2) v) B
        = true ∧
        num_lt (rd (NewSSSP.dist (NewSSSP.baseCase_edge B u acc e).2) v)
          (rd d0 v) = true).
Proof.
  destruct acc as [[heap inHeap] st]. unfold NewSSSP.baseCase_edge.
  cbn [fst snd]. intros H0 v.
  destruct (num_lt _ (rd _ _)) eqn:Hlt; cbn [andb]; [|done].
  destruct (num_lt _ B) eqn:HB; [|done].
  assert (∀ st',
    NewSSSP.dist st' = <[e.1:=num_add (rd (NewSSSP.dist st) u) e.2]>
                         (NewSSSP.dist st) →
    NewSSSP.dist st' !! v = d0 !! v ∨
    (num_lt (rd (NewSSSP.dist st') v) B = true ∧
     num_lt (rd (NewSSSP.dist st') v) (rd d0 v) = true)) as Hgoal.
  { intros st' ->. destruct (decide (v = e.1)) as [->|Hne].
    - right. rewrite rd_insert_eq. split; [done|].
      destruct (H0 e.1) as [Heq|[_ Hlt0]].
      + unfold rd in Hlt |- *. by rewrite <-Heq.
      + exact (num_lt_trans _ _ _ Hlt Hlt0).
    - unfold rd. rewrite lookup_insert_ne by done. apply H0. }
  destruct (bool_decide _); cbn [snd]; by apply Hgoal.
Qed.

(** X18: whatever it is called on, [baseCase(B, S)] returns [B] itself as
    its bound; the vertices it marks complete are exactly the vertices it
    returns, a flag that was set staying set; every distance it writes is
    below [B] and below the distance it replaces; and called with no
    vertex it returns no vertex and changes nothing. *)
Theorem baseCase_effects (g : Graph) (fuel : nat) (B : num) (S : list nat)
    (st : NewSSSP.State) (B' : num) (U : list nat) (st' : NewSSSP.State) :
  NewSSSP.baseCase g fuel B S st = Some (B', U, st') →
  B' = B ∧
  (∀ v, rdb (NewSSSP.complete st') v = true
        ↔ rdb (NewSSSP.complete st) v = true ∨ v ∈ U) ∧
  (∀ v, NewSSSP.dist st' !! v = NewSSSP.dist st !! v ∨
        (num_lt (rd (NewSSSP.dist st') v) B = true ∧
         num_lt (rd (NewSSSP.dist st') v) (rd (NewSSSP.dist st) v) = true)) ∧
  (S = [] → U = [] ∧ st' = st).
Proof.
  unfold NewSSSP.baseCase. destruct S as [|s S'].
  { intros [= <- <- <-]. split_and!; try done.
    - intros v. rewrite elem_of_nil. tauto.
    - intros v. by left. }
  destruct (NewSSSP.baseCase_loop _ _ _ _ _ _ _) as [[U1 st1]|] eqn:E; [|done].
  intros [= <- <- <-]. split; [done|].
  eapply (baseCase_loop_invariant g B
    (λ _ _ U0 st0,
       (∀ v, rdb (NewSSSP.complete st0) v = true
             ↔ rdb (NewSSSP.complete st) v = true ∨ v ∈ U0) ∧
       (∀ v, NewSSSP.dist st0 !! v = NewSSSP.dist st !! v ∨
             (num_lt (rd (NewSSSP.dist st0) v) B = true ∧
              num_lt (rd (NewSSSP.dist st0) v) (rd (NewSSSP.dist st) v)
              = true))))
    in E as (? & ? & _ & Hc & Hd); [by split_and!| |].
  - intros heap inHeap U0 st0 u heap1 _ [Hc0 Hd0] heap2 inHeap2 st2 Hv.
    split.
    + intros v. change st2 with (heap2, inHeap2, st2).2. rewrite <-Hv.
      rewrite baseCase_visit_complete, rdb_insert_true, Hc0, elem_of_app,
        list_elem_of_singleton. tauto.
    + change st2 with (heap2, inHeap2, st2).2. rewrite <-Hv.
      unfold NewSSSP.baseCase_visit.
      apply (fold_left_invariant
        (λ a, ∀ v, NewSSSP.dist a.2 !! v = NewSSSP.dist st !! v ∨
           (num_lt (rd (NewSSSP.dist a.2) v) B = true ∧
            num_lt (rd (NewSSSP.dist a.2) v) (rd (NewSSSP.dist st) v)
            = true))); [done|].
      intros a e _ Ha. by apply baseCase_edge_bounded.
  - split.
    + intros v. rewrite elem_of_nil. tauto.
    + intros v. by left.
Qed.

Lemma baseCase_effects_witness :
  ∃ B' U st',
    NewSSSP.baseCase createExampleGraph 20 (Fin 9) [0%nat]
      (NewSSSP.seeded createExampleGraph 0) = Some (B', U, st') ∧
    B' = Fin 9 ∧
    ∀ v, rdb (NewSSSP.complete st') v = true
         ↔ rdb (NewSSSP.complete (NewSSSP.seeded createExampleGraph 0)) v
           = true ∨ v ∈ U.
Proof.
  destruct (NewSSSP.baseCase createExampleGraph 20 (Fin 9) [0%nat]
              (NewSSSP.seeded createExampleGraph 0)) as [[[B' U] st']|] eqn:E.
  - exists B', U, st'. split; [done|].
    destruct (baseCase_effects _ _ _ _ _ _ _ _ E) as (HB & Hc & _).
    by split.
  - exfalso. revert E. vm_compute. discriminate.
Defined.

(** ** NewSSSP.ts: [BMSSP] from seeds that are not complete *)

Lemma merge_W_filter (W : list nat) (B' : num) (U : list nat)
    (st : NewSSSP.State) :
  NoDup W → (∀ v, v ∈ W → v ∉ U) →
  NewSSSP.merge_W W B' U st
  = U ++ filter (λ v, num_lt (rd (NewSSSP.dist st) v) B' = true) W.
Proof.
  unfold NewSSSP.merge_W. revert U.
  induction W as [|v W IH]; intros U Hnd Hdisj; cbn [fold_left].
  { by rewrite app_nil_r. }
  apply NoDup_cons in Hnd as [Hv Hnd].
  rewrite (bool_decide_eq_false_2 (v ∈ U))
    by (apply Hdisj; by left). cbn [negb]. rewrite andb_true_r.
  destruct (num_lt (rd (NewSSSP.dist st) v) B') eqn:Hlt.
  - rewrite filter_cons_True by done. rewrite IH; [by rewrite <-app_assoc|done|].
    intros v' Hv' [Hin|Hin]%elem_of_app.
    + apply (Hdisj v'); [by right|done].
    + apply list_elem_of_singleton in Hin. by subst v'.
  - rewrite filter_cons_False by (by rewrite Hlt). apply IH; [done|].
    intros v' Hv'. apply Hdisj. by right.
Qed.

Lemma findPivots_rounds_idle (g : Graph) (k rounds : nat) (B : num)
    (S layer W : list nat) (st : NewSSSP.State) :
  (∀ v, v ∈ layer → rdb (NewSSSP.complete st) v = false) →
  (length W ≤ k * length S)%nat →
  NewSSSP.findPivots_rounds g k rounds B S layer W st = (st, W, false).
Proof.
  revert layer. induction rounds as [|r IH]; intros layer Hlayer Hlen;
    cbn [NewSSSP.findPivots_rounds]; [done|].
  assert (fold_left (NewSSSP.findPivots_vertex g B) layer (st, [], W)
          = (st, [], W)) as ->.
  { apply (fold_left_invariant (λ a, a = (st, [], W))); [done|].
    intros a u Hu ->. unfold NewSSSP.findPivots_vertex. cbn [fst snd].
    by rewrite (Hlayer u Hu). }
  rewrite (proj2 (Nat.ltb_ge _ _) Hlen). apply IH; [|done].
  intros v Hv. by apply elem_of_nil in Hv.
Qed.

(** X19: [BMSSP] at a level above 0, called with [k ≥ 1] on seeds none
    of which is complete, does no work: [findPivots] finds no pivot, the
    frontier starts empty, and the call returns [B] and the seeds whose
    distance is below [B], leaving every distance, predecessor and flag as
    it was.  (This is why [solve] marks the source complete before the
    top-level call.) *)
Theorem BMSSP_without_complete_seed (g : Graph) (k t fuel l : nat) (B : num)
    (S : list nat) (st : NewSSSP.State) :
  (1 ≤ k)%nat → (∀ v, v ∈ S → rdb (NewSSSP.complete st) v = false) →
  NewSSSP.BMSSP g k t fuel (Datatypes.S l) B S st
  = Some (B,
          filter (λ v, num_lt (rd (NewSSSP.dist st) v) B = true)
            (set_of_list S),
          st).
Proof.
  intros Hk Hopen. destruct (set_of_list_spec S) as (Hin & Hnd & Hlen).
  cbn [NewSSSP.BMSSP]. unfold NewSSSP.findPivots.
  rewrite findPivots_rounds_idle.
  2:{ intros v Hv%Hin. by apply Hopen. }
  2:{ nia. }
  assert (NewSSSP.findLargeTreeRoots S (set_of_list S) k st = []) as ->.
  { unfold NewSSSP.findLargeTreeRoots.
    assert (List.filter (λ v, rdb (NewSSSP.complete st) v) S = []) as ->.
    { clear -Hopen. induction S as [|v S IH]; [done|]. cbn.
      rewrite (Hopen v) by (by left). apply IH. intros v' Hv'.
      apply Hopen. by right. }
    done. }
  change (AdaptiveFrontier.make [] (NewSSSP.dist st)) with (@nil (nat * num)).
  assert (∀ rec, NewSSSP.BMSSP_loop g k t rec fuel (Datatypes.S l) B [] [] B st
                 = Some ([], B, st)) as ->.
  { intros rec. destruct fuel; cbn [NewSSSP.BMSSP_loop];
      by rewrite andb_false_r. }
  rewrite merge_W_filter; [done|done|]. intros v _. apply not_elem_of_nil.
Qed.

Lemma BMSSP_without_complete_seed_witness :
  NewSSSP.BMSSP createExampleGraph 2 4 0 1 (Fin 5) [3%nat; 0%nat; 3%nat]
    (NewSSSP.mkState (<[0%nat:=Fin 0]> (fill 10 PInf)) (fill 10 (-1))
       (fill 10 false))
  = Some (Fin 5, [0%nat],
          NewSSSP.mkState (<[0%nat:=Fin 0]> (fill 10 PInf)) (fill 10 (-1))
            (fill 10 false)).
Proof.
  rewrite (BMSSP_without_complete_seed createExampleGraph 2 4 0 0 (Fin 5));
    [|lia|].
  - by vm_compute.
  - intros v Hv. cbn [NewSSSP.complete]. apply rdb_fill_false.
Defined.

(** ** NewSSSP.ts: the path that [solve] returns *)

Lemma result_of_distances (g : Graph) (st : NewSSSP.State) (v : nat) :
  (v < length (nodes g))%nat →
  NewSSSP.distances (NewSSSP.result_of g st) !! v
  = Some (rd (NewSSSP.dist st) v).
Proof.
  intros Hv. cbn [NewSSSP.result_of NewSSSP.distances].
  apply elem_of_list_to_map_1.
  - rewrite <-list_fmap_compose. cbn. rewrite list_fmap_id. apply NoDup_seq.
  - apply list_elem_of_fmap. exists v. split; [done|].
    apply elem_of_seq. unfold NewSSSP.n. lia.
Qed.
Section Forest.
Variable g : Graph.
Variable s : nat.
Hypothesis Hwf : wf_graph g.
Hypothesis Hs : (s < length (nodes g))%nat.

Lemma pred_forest_seeded : pred_forest g s (λ _, 0%nat) (NewSSSP.seeded g s).
Proof.
  unfold pred_forest.
  cbn [NewSSSP.seeded NewSSSP.init NewSSSP.dist NewSSSP.pred].
  assert (∀ v x, rd (<[s:=Fin 0]> (fill (NewSSSP.n g) PInf)) v = Fin x →
                 v = s ∧ x = 0) as Honly.
  { intros v x. destruct (decide (v = s)) as [->|Hne].
    - rewrite rd_insert_eq. by intros [= <-].
    - rewrite rd_insert_ne, rd_fill by done. by case_decide. }
  split_and!.
  - apply rd_insert_eq.
  - rewrite lookup_fill. unfold NewSSSP.n. by rewrite decide_True.
  - intros v x [-> ->]%Honly. split; [lia|done].
  - intros v x Hne [? _]%Honly. done.
Qed.

Lemma pred_forest_improve hop st u v w :
  pred_forest g s hop st → (v, w) ∈ neighbors g u →
  num_lt (num_add (rd (NewSSSP.dist st) u) w) (rd (NewSSSP.dist st) v) = true →
  pred_forest g s (λ y, if decide (y = v) then S (hop u) else hop y)
    (NewSSSP.improve v (num_add (rd (NewSSSP.dist st) u) w) u st).
Proof.
  intros (Hds & Hps & Hfin & Htree) Hin Hlt.
  destruct (proj2 Hwf u v w Hin) as [Hv Hw].
  destruct (rd (NewSSSP.dist st) u) as [zu| |] eqn:Hu; [|done|done].
  cbn [num_add] in *.
  destruct (Hfin u zu Hu) as [Hzu _].
  assert (v ≠ s) as Hvs.
  { intros ->. rewrite Hds in Hlt. cbn in Hlt. apply Z.ltb_lt in Hlt. lia. }
  assert (u ≠ v) as Huv.
  { intros ->. rewrite Hu in Hlt. cbn in Hlt. apply Z.ltb_lt in Hlt. lia. }
  unfold pred_forest.
  cbn [NewSSSP.improve NewSSSP.dist NewSSSP.pred]. split_and!.
  - by rewrite rd_insert_ne.
  - by rewrite lookup_insert_ne.
  - intros y x. destruct (decide (y = v)) as [->|Hyv].
    + rewrite rd_insert_eq. intros [= <-]. split; [lia|done].
    + rewrite rd_insert_ne by done. apply Hfin.
  - intros y x Hys. destruct (decide (y = v)) as [->|Hyv].
    + rewrite rd_insert_eq. intros [= <-]. exists u, w, zu.
      rewrite lookup_insert_eq, rd_insert_ne by done. split_and!; try done.
      right. split; [done|]. rewrite decide_False by done. lia.
    + rewrite rd_insert_ne, lookup_insert_ne by done. intros Hx.
      destruct (Htree y x Hys Hx) as (u0 & w0 & z0 & Hp0 & Hin0 & Hu0 & Hrank).
      destruct (decide (u0 = v)) as [->|Hu0v].
      * exists v, w0, (zu + w). rewrite rd_insert_eq. split_and!; try done.
        left. rewrite Hu0 in Hlt. cbn in Hlt. apply Z.ltb_lt in Hlt. lia.
      * exists u0, w0, z0. rewrite rd_insert_ne by done.
        split_and!; try done. by rewrite !decide_False by done.
Qed.

(** The walk back over [pred] from a vertex with a finite distance,
    in a table where no edge can lower an entry: it ends at the source
    within as many steps as there are vertices not yet walked, and what
    it collects is a path whose weight is the distance. *)
Lemma walk_back_forest hop st :
  pred_forest g s hop st →
  (∀ u v w zu x, (v, w) ∈ neighbors g u → rd (NewSSSP.dist st) u = Fin zu →
     rd (NewSSSP.dist st) v = Fin x → x ≤ zu + w) →
  ∀ fuel v x tail path,
  rd (NewSSSP.dist st) v = Fin x →
  NoDup tail →
  (∀ c, c ∈ tail →
     (c < length (nodes g))%nat ∧
     ∃ xc, rd (NewSSSP.dist st) c = Fin xc ∧
           (x < xc ∨ (x = xc ∧ (hop v < hop c)%nat))) →
  (length (nodes g) ≤ fuel + length tail)%nat →
  ∃ q, ShortestPath.walk_back fuel (NewSSSP.pred st) (Some (Z.of_nat v)) path
       = Some (path_values q ++ path) ∧
       walk g q x ∧ head q = Some s ∧ last q = Some v.
Proof.
  intros (Hds & Hps & Hfin & Htree) Htri.
  induction fuel as [|f IH]; intros v x tail path Hx Hnd Hrank Hfuel.
  - exfalso. destruct (Hfin v x Hx) as [_ Hv].
    assert (v ∉ tail) as Hnin.
    { intros Hin. destruct (Hrank v Hin) as (_ & xc & Hxc & Hr).
      rewrite Hx in Hxc. injection Hxc as <-. lia. }
    assert (v :: tail ⊆+ seq 0 (length (nodes g))) as Hsub.
    { apply NoDup_submseteq; [by constructor|].
      intros c [->|Hc]%elem_of_cons; apply elem_of_seq; [lia|].
      destruct (Hrank c Hc). lia. }
    apply submseteq_length in Hsub. rewrite length_seq in Hsub. cbn in Hsub.
    lia.
  - rewrite (walk_back_vertex g s Hs). destruct (decide (v = s)) as [->|Hne].
    + rewrite Hps. exists [s]. split_and!; try done.
      * by destruct f.
      * rewrite Hds in Hx. injection Hx as <-. constructor.
    + destruct (Htree v x Hne Hx) as (u & w & zu & Hp & Hin & Hu & Hr).
      destruct (proj2 Hwf u v w Hin) as [Hv Hw].
      pose proof (Htri u v w zu x Hin Hu Hx) as Hle.
      assert (zu + w = x) as Heq by lia.
      assert (v ∉ tail) as Hnin.
      { intros Hc. destruct (Hrank v Hc) as (_ & xc & Hxc & Hr').
        rewrite Hx in Hxc. injection Hxc as <-. lia. }
      rewrite Hp.
      destruct (IH u zu (v :: tail) (Some (Z.of_nat v) :: path) Hu)
        as (q & Hrun & Hwalk & Hhd & Hlast).
      { by constructor. }
      { intros c [->|Hc]%elem_of_cons.
        - split; [done|]. exists x. split; [done|]. lia.
        - destruct (Hrank c Hc) as (Hcn & xc & Hxc & Hr'). split; [done|].
          exists xc. split; [done|]. lia. }
      { cbn [length]. lia. }
      exists (q ++ [v]). split_and!.
      * rewrite Hrun. unfold path_values. by rewrite fmap_app, <-app_assoc.
      * apply last_Some in Hlast as [q' ->]. rewrite <-app_assoc, <-Heq. cbn.
        by apply walk_snoc.
      * by destruct q.
      * apply last_snoc.
Qed.

Lemma shortest_table_edge d u v w zu x :
  shortest_table g s d → (u < length (nodes g))%nat →
  (v, w) ∈ neighbors g u → rd d u = Fin zu → rd d v = Fin x → x ≤ zu + w.
Proof.
  intros Ht Hu Hin Hzu Hx. destruct (proj2 Hwf u v w Hin) as [Hv _].
  destruct (Ht u Hu) as (_ & Hreal & _), (Ht v Hv) as (_ & _ & Hmin).
  destruct (Hmin (zu + w)) as (x' & Hx' & Hle).
  { eapply path_edge; [by apply Hreal|done]. }
  rewrite Hx in Hx'. by injection Hx' as <-.
Qed.

End Forest.

(** X20: on a well-formed graph, for a source and a destination of the
    graph and the parameters [solve] can meet, [solve(source, destination)]
    returns.  If a path leads from the source to the destination, the
    [shortestPath] it returns is such a path: it starts at the source,
    ends at the destination, follows edges of the graph, and its weight
    is the distance reported for the destination, which no path
    undercuts.  Otherwise [shortestPath] is empty and the distance is
    [Infinity]. *)
Theorem solve_shortest_path (g : Graph) (k t levels : nat)
    (source d : nat) (fuel : nat) :
  wf_graph g → (source < length (nodes g))%nat → (d < length (nodes g))%nat →
  levels = 0%nat ∨
    (levels = 1%nat ∧ (1 ≤ k)%nat ∧
     (N.of_nat (2 * length (nodes g) - 2) ≤ NewSSSP.cap k t 1)%N) →
  (2 * length (nodes g) ≤ fuel)%nat →
  ∃ r p,
    ShortestPath.solve g k t levels fuel source (Some d) = Some (r, p) ∧
    ((∃ l, path_len g source d l) →
     ∃ q x, p = path_values q ∧ walk g q x ∧
            head q = Some source ∧ last q = Some d ∧
            NewSSSP.distances r !! d = Some (Fin x) ∧
            ∀ l, path_len g source d l → x ≤ l) ∧
    ((∀ l, ¬ path_len g source d l) →
     p = [] ∧ NewSSSP.distances r !! d = Some PInf).
Proof.
  intros Hwf Hs Hd Hlev Hfuel. unfold ShortestPath.solve.
  assert (∃ B' U st,
    NewSSSP.BMSSP g k t fuel levels PInf [source] (NewSSSP.seeded g source)
      = Some (B', U, st) ∧
    shortest_table g source (NewSSSP.dist st)) as (B' & U & st & Hrun & Hst).
  { destruct Hlev as [->|(-> & Hk & Hcap)].
    - apply BMSSP_0_correct; [done|done|lia].
    - by apply BMSSP_1_correct. }
  assert (∃ hop, pred_forest g source hop st) as [hop Hforest].
  { apply (BMSSP_keeps g k t (λ st', ∃ hop, pred_forest g source hop st'))
      with (fuel:=fuel) (l:=levels) (B:=PInf) (S:=[source])
           (st:=NewSSSP.seeded g source) (r:=(B', U, st));
      [| | |exact Hrun].
    - intros st0 u v w [hop0 H0] Hin Hlt. eexists.
      by apply pred_forest_improve.
    - intros st0 u H0. exact H0.
    - eexists. by apply pred_forest_seeded. }
  rewrite Hrun. unfold ShortestPath.shortestPath.
  pose proof (result_of_distances g st d Hd) as Hres.
  destruct (Hst d Hd) as (Hdist & Hreal & Hmin).
  pose proof (rd_is_dist _ _ Hdist) as Hlook.
  destruct (rd (NewSSSP.dist st) d) as [x| |] eqn:Hx; [| |done].
  - rewrite Hlook, bool_decide_eq_false_2 by done.
    destruct (walk_back_forest g source Hwf Hs hop st Hforest) with
      (fuel:=fuel) (v:=d) (x:=x) (tail:=@nil nat) (path:=@nil (option Z))
      as (q & -> & Hwalk & Hhd & Hlast).
    { intros u v w zu x' Hin Hu Hv.
      apply (shortest_table_edge g source Hwf (NewSSSP.dist st) u v w);
        try done.
      destruct Hforest as (_ & _ & Hfin & _). by apply (Hfin u zu). }
    { done. }
    { apply NoDup_nil_2. }
    { intros c Hc. by apply elem_of_nil in Hc. }
    { cbn [length]. lia. }
    eexists _, _. split; [done|]. split.
    + intros _. exists q, x. rewrite app_nil_r. split_and!; try done.
      intros l Hl. destruct (Hmin l Hl) as (x' & [= <-] & Hle). done.
    + intros Hno. exfalso. apply (Hno x). by apply Hreal.
  - rewrite Hlook, bool_decide_eq_true_2 by done.
    eexists _, _. split; [done|]. split.
    + intros [l Hl]. by destruct (Hmin l Hl) as (x' & ? & _).
    + done.
Qed.

Lemma solve_shortest_path_witness :
  ∃ r p,
    ShortestPath.solve createExampleGraph 2 4 1 20 0 (Some 9%nat)
      = Some (r, p) ∧
    ((∃ l, path_len createExampleGraph 0 9 l) →
     ∃ q x, p = path_values q ∧ walk createExampleGraph q x ∧
            head q = Some 0%nat ∧ last q = Some 9%nat ∧
            NewSSSP.distances r !! 9%nat = Some (Fin x) ∧
            ∀ l, path_len createExampleGraph 0 9 l → x ≤ l) ∧
    ((∀ l, ¬ path_len createExampleGraph 0 9 l) →
     p = [] ∧ NewSSSP.distances r !! 9%nat = Some PInf).
Proof.
  apply (solve_shortest_path createExampleGraph 2 4 1 0 9 20).
  - apply wf_check_sound. by vm_compute.
  - vm_compute. lia.
  - vm_compute. lia.
  - right. split; [done|]. split; [lia|]. by vm_compute.
  - vm_compute. lia.
Defined.

Lemma result_of_predecessors (g : Graph) (st : NewSSSP.State) (v : nat) :
  (v < length (nodes g))%nat →
  NewSSSP.predecessors (NewSSSP.result_of g st) !! v
  = Some (default (-1) (NewSSSP.pred st !! v)).
Proof.
  intros Hv. cbn [NewSSSP.result_of NewSSSP.predecessors].
  apply elem_of_list_to_map_1.
  - rewrite <-list_fmap_compose. cbn. rewrite list_fmap_id. apply NoDup_seq.
  - apply list_elem_of_fmap. exists v. split; [done|].
    apply elem_of_seq. unfold NewSSSP.n. lia.
Qed.

(** X21: the [predecessors] map that [solve] returns is a tree of
    shortest paths.  The source and every vertex that no path reaches
    have predecessor [-1]; any other vertex [v] has as predecessor a
    vertex [u] with an edge [u → v] whose weight added to the distance
    of [u] gives the distance of [v]. *)
Theorem solve_predecessors (g : Graph) (k t levels : nat) (source : nat)
    (fuel : nat) :
  wf_graph g → (source < length (nodes g))%nat →
  levels = 0%nat ∨
    (levels = 1%nat ∧ (1 ≤ k)%nat ∧
     (N.of_nat (2 * length (nodes g) - 2) ≤ NewSSSP.cap k t 1)%N) →
  (2 * length (nodes g) ≤ fuel)%nat →
  ∃ r,
    NewSSSP.solve g k t levels fuel source = Some r ∧
    NewSSSP.predecessors r !! source = Some (-1) ∧
    ∀ v, (v < length (nodes g))%nat → v ≠ source →
      ((∀ l, ¬ path_len g source v l) →
       NewSSSP.predecessors r !! v = Some (-1)) ∧
      ((∃ l, path_len g source v l) →
       ∃ u w zu,
         NewSSSP.predecessors r !! v = Some (Z.of_nat u) ∧
         (v, w) ∈ neighbors g u ∧
         NewSSSP.distances r !! u = Some (Fin zu) ∧
         NewSSSP.distances r !! v = Some (Fin (zu + w))).
Proof.
  intros Hwf Hs Hlev Hfuel. unfold NewSSSP.solve.
  assert (∃ B' U st,
    NewSSSP.BMSSP g k t fuel levels PInf [source] (NewSSSP.seeded g source)
      = Some (B', U, st) ∧
    shortest_table g source (NewSSSP.dist st)) as (B' & U & st & Hrun & Hst).
  { destruct Hlev as [->|(-> & Hk & Hcap)].
    - apply BMSSP_0_correct; [done|done|lia].
    - by apply BMSSP_1_correct. }
  set (P := λ st' : NewSSSP.State,
    (∃ hop, pred_forest g source hop st') ∧
    ∀ v, (v < length (nodes g))%nat →
      (∀ x, rd (NewSSSP.dist st') v ≠ Fin x) →
      NewSSSP.pred st' !! v = Some (-1)).
  assert (P st) as [[hop Hforest] Hnone].
  { apply (BMSSP_keeps g k t P)
      with (fuel:=fuel) (l:=levels) (B:=PInf) (S:=[source])
           (st:=NewSSSP.seeded g source) (r:=(B', U, st));
      [| | |exact Hrun].
    - intros st0 u v w [[hop0 H0] Hn0] Hin Hlt. split.
      + eexists. by apply pred_forest_improve.
      + intros v' Hv' Hinf.
        cbn [NewSSSP.improve NewSSSP.dist NewSSSP.pred] in *.
        destruct (decide (v' = v)) as [->|Hne].
        * exfalso. rewrite rd_insert_eq in Hinf.
          destruct (rd (NewSSSP.dist st0) u) as [zu| |]; [|done|done].
          by apply (Hinf (zu + w)).
        * rewrite lookup_insert_ne by done. apply Hn0; [done|].
          intros x. specialize (Hinf x). by rewrite rd_insert_ne in Hinf.
    - intros st0 u H0. exact H0.
    - split; [eexists; by apply pred_forest_seeded|].
      intros v Hv _. cbn [NewSSSP.seeded NewSSSP.init NewSSSP.pred].
      rewrite lookup_fill. unfold NewSSSP.n. by rewrite decide_True. }
  rewrite Hrun. eexists. split; [done|].
  destruct Hforest as (Hds & Hps & Hfin & Htree).
  split.
  { by rewrite result_of_predecessors, Hps. }
  intros v Hv Hne. rewrite result_of_predecessors by done.
  destruct (Hst v Hv) as (Hdist & Hreal & Hmin). split.
  - intros Hno. rewrite Hnone; [done|done|].
    intros x Hx. apply (Hno x). by apply Hreal.
  - intros [l Hl]. destruct (Hmin l Hl) as (x & Hx & _).
    destruct (Htree v x Hne Hx) as (u & w & zu & Hp & Hin & Hu & Hrank).
    destruct (Hfin u zu Hu) as [_ Hun].
    pose proof (shortest_table_edge g source Hwf _ u v w zu x Hst Hun Hin Hu Hx)
      as Hle.
    assert (zu + w = x) as Heq by lia.
    exists u, w, zu. rewrite Hp, !result_of_distances, Hu, Hx, Heq by done.
    done.
Qed.

Lemma solve_predecessors_witness :
  ∃ r, NewSSSP.solve createExampleGraph 2 4 1 20 0 = Some r ∧
       NewSSSP.predecessors r !! 0%nat = Some (-1).
Proof.
  destruct (solve_predecessors createExampleGraph 2 4 1 0 20)
    as (r & Hrun & Hsrc & _).
  - apply wf_check_sound. by vm_compute.
  - vm_compute. lia.
  - right. split; [done|]. split; [lia|]. by vm_compute.
  - vm_compute. lia.
  - exists r. split; [exact Hrun|exact Hsrc].
Defined.

(** ** Graph.ts: the generators *)

Lemma graph_built_empty {C : Type} : graph_built (@GraphClass.empty C).
Proof.
  split; [apply graph_consistent_empty|]. split; [done|].
  intros e He. by apply elem_of_nil in He.
Qed.

Lemma graph_built_addNode {C : Type} (g : GraphClass.t C) (x y : C) label :
  graph_built g → graph_built (GraphClass.addNode x y label g).2.
Proof.
  intros (Hg & Hids & Hedges).
  destruct (built_step g (GraphClass.AddNode x y label) Hg Hids Hedges)
    as (? & ? & ? & _); done.
Qed.

Lemma graph_built_addEdge {C : Type} (g : GraphClass.t C) (a b : nat) (w : Z) :
  graph_built g →
  (a < GraphClass.nodeIdCounter g)%nat → (b < GraphClass.nodeIdCounter g)%nat →
  0 ≤ w →
  graph_built (GraphClass.addEdge a b w g).
Proof.
  intros (Hg & Hids & Hedges) Ha Hb Hw.
  destruct (built_step g (GraphClass.AddEdge a b w) Hg Hids Hedges)
    as (? & ? & ? & _); done.
Qed.

Lemma addEdge_counter {C : Type} (g : GraphClass.t C) (a b : nat) (w : Z) :
  GraphClass.nodeIdCounter (GraphClass.addEdge a b w g)
  = GraphClass.nodeIdCounter g.
Proof. unfold GraphClass.addEdge. by destruct (GraphClass.getEdge a b g). Qed.

Lemma graph_built_wf {C : Type} (g : GraphClass.t C) :
  graph_built g →
  wf_graph (GraphClass.toGraph g) ∧
  length (nodes (GraphClass.toGraph g)) = GraphClass.nodeIdCounter g.
Proof.
  intros (Hg & Hids & Hedges).
  assert (length (nodes (GraphClass.toGraph g)) = GraphClass.nodeIdCounter g)
    as Hlen.
  { cbn. by rewrite Hids, length_seq. }
  split; [|done]. split.
  - rewrite Hlen. done.
  - intros u v w Hin. unfold neighbors in Hin. cbn in Hin.
    rewrite (gc_sync _ Hg) in Hin. apply edges_from_elem in Hin.
    rewrite Hlen. by apply (Hedges _ Hin).
Qed.

Lemma graph_built_neighbors {C : Type} (g : GraphClass.t C) u v w :
  graph_built g →
  (v, w) ∈ neighbors (GraphClass.toGraph g) u
  ↔ GraphClass.mkEdge u v w ∈ GraphClass.edges g.
Proof.
  intros (Hg & _). unfold neighbors. cbn.
  rewrite (gc_sync _ Hg). apply edges_from_elem.
Qed.

(** The edges after [addEdge(a, b, w)]: the edge [a → b] of weight [w],
    and the edges there were between other pairs. *)
Lemma update_first_pair (a b : nat) (w : Z) (l : list GraphClass.Edge) e :
  NoDup ((λ e, (GraphClass.from e, GraphClass.to e)) <$> l) →
  (∃ e0, e0 ∈ l ∧ GraphClass.is_edge a b e0 = true) →
  e ∈ GraphClass.update_first (GraphClass.is_edge a b)
        (λ e, GraphClass.mkEdge (GraphClass.from e) (GraphClass.to e) w) l
  ↔ (e ∈ l ∧ (GraphClass.from e, GraphClass.to e) ≠ (a, b))
    ∨ e = GraphClass.mkEdge a b w.
Proof.
  induction l as [|a0 l IH]; intros Hnd (e0 & He0 & Hp0).
  { by apply elem_of_nil in He0. }
  rewrite fmap_cons in Hnd. apply NoDup_cons in Hnd as [Hnin Hnd].
  cbn [GraphClass.update_first].
  destruct (GraphClass.is_edge a b a0) eqn:Hp.
  - apply is_edge_spec in Hp as [Hfa Hta]. rewrite Hfa, Hta.
    rewrite !elem_of_cons. split.
    + intros [->|Hin]; [by right|]. left. split; [by right|].
      intros Heq. apply Hnin. rewrite Hfa, Hta, <-Heq.
      apply list_elem_of_fmap. by exists e.
    + intros [[[->|Hin] Hne]| ->]; [|by right|by left].
      by rewrite Hfa, Hta in Hne.
  - assert (e0 ∈ l) as He0'.
    { apply elem_of_cons in He0 as [->|?]; [congruence|done]. }
    rewrite !elem_of_cons, IH by eauto. split.
    + intros [->|[[Hin Hne]| ->]]; [|by left; split; [right|]|by right].
      left. split; [by left|]. intros [= Hfa Hta].
      assert (GraphClass.is_edge a b a0 = true) by (by apply is_edge_spec).
      congruence.
    + intros [[[->|Hin] Hne]| ->]; [by left| |by right; right].
      right. left. done.
Qed.

Lemma addEdge_edges {C : Type} (g : GraphClass.t C) (a b : nat) (w : Z) e :
  NoDup ((λ e, (GraphClass.from e, GraphClass.to e)) <$> GraphClass.edges g) →
  e ∈ GraphClass.edges (GraphClass.addEdge a b w g)
  ↔ (e ∈ GraphClass.edges g ∧ (GraphClass.from e, GraphClass.to e) ≠ (a, b))
    ∨ e = GraphClass.mkEdge a b w.
Proof.
  intros Hnd. unfold GraphClass.addEdge, GraphClass.getEdge.
  destruct (List.find _ _) as [e0|] eqn:Hfind.
  - cbn [GraphClass.set_weight GraphClass.edges].
    apply update_first_pair; [done|]. apply find_some in Hfind as [Hin Hp].
    exists e0. split; [by apply list_elem_of_In|done].
  - cbn [GraphClass.edges]. rewrite elem_of_app, list_elem_of_singleton.
    split.
    + intros [Hin| ->]; [|by right]. left. split; [done|].
      intros [= Hfa Hta].
      pose proof (proj1 (find_none_iff _ _) Hfind e Hin) as Hp.
      assert (GraphClass.is_edge a b e = true) by (by apply is_edge_spec).
      congruence.
    + intros [[Hin _]| ->]; [by left|by right].
Qed.
Section RandomGraph.
Context {C : Type}.
Variable random_below : nat → nat → nat.
Variable circle_pos : nat → C * C.
Hypothesis random_below_range : ∀ i m, (random_below i m ≤ m - 1)%nat.

Lemma random_nodes_built (nodeCount : nat) :
  graph_built (Generators.random_nodes circle_pos nodeCount) ∧
  GraphClass.nodeIdCounter (Generators.random_nodes circle_pos nodeCount)
  = nodeCount ∧
  GraphClass.edges (Generators.random_nodes circle_pos nodeCount) = [].
Proof.
  unfold Generators.random_nodes.
  induction nodeCount as [|n IH]; [by split; [apply graph_built_empty|]|].
  rewrite seq_S, fold_left_app. cbn [fold_left Nat.add].
  set (g0 := fold_left _ (seq 0 n) _) in *.
  destruct IH as (Hb & Hc & He). split_and!.
  - by apply graph_built_addNode.
  - unfold GraphClass.addNode. cbn [snd GraphClass.nodeIdCounter].
    by rewrite Hc.
  - unfold GraphClass.addNode. cbn [snd GraphClass.edges]. done.
Qed.

Lemma random_attempt_keeps nodeCount maxWeight targetEdges
    (st : GraphClass.t C * nat * nat) :
  random_inv nodeCount maxWeight targetEdges st →
  (st.1.2 < targetEdges)%nat →
  random_inv nodeCount maxWeight targetEdges
    (Generators.random_attempt random_below nodeCount maxWeight st).
Proof.
  destruct st as [[g added] calls]. unfold random_inv. cbn [fst snd].
  intros (Hb & Hc & Hlen & Hle & He) Hlt.
  unfold Generators.random_attempt.
  set (a := random_below calls nodeCount).
  set (b := random_below (S calls) nodeCount).
  set (w := Z.of_nat (random_below (S (S calls)) maxWeight) + 1).
  destruct (Nat.eqb_spec a b) as [Heq|Hne]; cbn [negb andb fst snd];
    [done|].
  case_bool_decide as Hsome; cbn [negb fst snd]; [done|].
  assert (GraphClass.getEdge a b g = None) as Hnone.
  { by destruct (GraphClass.getEdge a b g); [destruct Hsome|]. }
  assert (1 ≤ w ≤ Z.max 1 (Z.of_nat maxWeight)) as Hw.
  { pose proof (random_below_range (S (S calls)) maxWeight). unfold w. lia. }
  assert (nodeCount ≠ 0%nat) as Hpos.
  { intros ->. pose proof (random_below_range calls 0).
    pose proof (random_below_range (S calls) 0). unfold a, b in Hne. lia. }
  split_and!.
  - apply graph_built_addEdge; [done| | |lia].
    + pose proof (random_below_range calls nodeCount). unfold a. lia.
    + pose proof (random_below_range (S calls) nodeCount). unfold b. lia.
  - by rewrite addEdge_counter.
  - unfold GraphClass.addEdge. rewrite Hnone. cbn [GraphClass.edges].
    rewrite length_app. cbn. lia.
  - lia.
  - intros e. unfold GraphClass.addEdge. rewrite Hnone.
    cbn [GraphClass.edges].
    intros [Hin|Hin]%elem_of_app; [by apply He|].
    apply list_elem_of_singleton in Hin as ->. done.
Qed.

Lemma random_loop_keeps left nodeCount maxWeight targetEdges
    (st : GraphClass.t C * nat * nat) :
  random_inv nodeCount maxWeight targetEdges st →
  random_inv nodeCount maxWeight targetEdges
    (Generators.random_loop random_below left nodeCount maxWeight targetEdges
       st).
Proof.
  revert st. induction left as [|n IH]; intros st Hinv;
    cbn [Generators.random_loop]; [done|].
  destruct (Nat.ltb_spec st.1.2 targetEdges) as [Hlt|_]; [|done].
  apply IH. by apply random_attempt_keeps.
Qed.
End RandomGraph.

(** X22: [generateRandomGraph] builds a graph the solvers can take:
    vertices [0 .. nodeCount-1], every edge between two of them and of a
    weight between [1] and [maxWeight].  It has no edge from a vertex to
    itself and at most [targetEdges] edges.  This holds whatever
    [Math.random] returns, as long as [Math.floor(Math.random() * m)] is
    at most [m - 1]. *)
Theorem generateRandomGraph_well_formed {C : Type}
    (random_below : nat → nat → nat) (circle_pos : nat → C * C)
    (nodeCount maxWeight targetEdges : nat) :
  (∀ i m, (random_below i m ≤ m - 1)%nat) →
  let G := Generators.generateRandomGraph random_below circle_pos
             nodeCount maxWeight targetEdges in
  let g := GraphClass.toGraph G in
  wf_graph g ∧ length (nodes g) = nodeCount ∧
  (length (GraphClass.edges G) ≤ targetEdges)%nat ∧
  ∀ u v w, (v, w) ∈ neighbors g u →
    v ≠ u ∧ 1 ≤ w ≤ Z.max 1 (Z.of_nat maxWeight).
Proof.
  intros Hrange G g.
  destruct (random_nodes_built circle_pos nodeCount) as (Hb0 & Hc0 & He0).
  pose proof (random_loop_keeps random_below Hrange (targetEdges * 3)
    nodeCount maxWeight targetEdges
    (Generators.random_nodes circle_pos nodeCount, 0%nat, 0%nat)) as Hinv.
  destruct Hinv as (Hb & Hc & Hlen & Hle & He).
  { unfold random_inv. cbn [fst snd]. rewrite He0. split_and!; try done.
    - lia.
    - intros e Hin. by apply elem_of_nil in Hin. }
  rewrite <-Hlen in Hle. clear Hlen.
  change (Generators.random_loop _ _ _ _ _ _).1.1 with G in Hb, Hc, Hle, He.
  destruct (graph_built_wf G Hb) as [Hwf Hn]. fold g in Hwf, Hn.
  split_and!; [done|by rewrite Hn|lia|].
  intros u v w Hin. apply (graph_built_neighbors G u v w Hb) in Hin.
  destruct (He _ Hin) as [Hne Hw]. cbn in Hne, Hw. done.
Qed.

Lemma generateRandomGraph_well_formed_witness :
  let G := Generators.generateRandomGraph
             (λ i m, match m with O => O | S _ => ((i * 7 + 3) mod m)%nat end) (λ i, (Z.of_nat i, 0))
             5%nat 20%nat 6%nat in
  let g := GraphClass.toGraph G in
  wf_graph g ∧ length (nodes g) = 5%nat ∧
  (length (GraphClass.edges G) ≤ 6)%nat ∧
  ∀ u v w, (v, w) ∈ neighbors g u → v ≠ u ∧ 1 ≤ w ≤ Z.max 1 (Z.of_nat 20).
Proof.
  apply (generateRandomGraph_well_formed
           (λ i m, match m with O => O | S _ => ((i * 7 + 3) mod m)%nat end) (λ i, (Z.of_nat i, 0))
           5%nat 20%nat 6%nat).
  intros i [|m]; cbn beta iota; [lia|].
  pose proof (Nat.mod_upper_bound (i * 7 + 3) (S m)). lia.
Defined.
(** Folding a step that establishes [Q x] at [x] and only moves forward
    along [R], which keeps every [Q]. *)
Lemma fold_left_establish {A B} (f : A → B → A) (Inv : A → Prop)
    (R : A → A → Prop) (Q : B → A → Prop) (l : list B) (a : A) :
  (∀ a, R a a) → (∀ a b c, R a b → R b c → R a c) →
  (∀ x a b, R a b → Q x a → Q x b) →
  (∀ acc x, x ∈ l → Inv acc →
     Inv (f acc x) ∧ R acc (f acc x) ∧ Q x (f acc x)) →
  Inv a →
  Inv (fold_left f l a) ∧ R a (fold_left f l a) ∧
  ∀ x, x ∈ l → Q x (fold_left f l a).
Proof.
  intros Hrefl Htrans Hmono. revert a.
  induction l as [|x l IH]; intros a Hstep Ha; cbn [fold_left].
  { split_and!; [done|done|]. intros x Hx. by apply elem_of_nil in Hx. }
  destruct (Hstep a x) as (H1 & H2 & H3); [by left|done|].
  destruct (IH (f a x)) as (H4 & H5 & H6); [|done|].
  { intros acc y Hy. apply Hstep. by right. }
  split_and!; [done|by eapply Htrans|].
  intros y [->|Hy]%elem_of_cons; [by eapply Hmono|by apply H6].
Qed.

Section GridGraph.
Context {C : Type}.
Variable random_below : nat → nat → nat.
Variable grid_pos : nat → nat → C * C.
Hypothesis random_below_range : ∀ i m, (random_below i m ≤ m - 1)%nat.
Variables rows cols : nat.

Lemma grid_node_fold row (l : list nat) (g : GraphClass.t C) ids :
  graph_built g → GraphClass.edges g = [] →
  graph_built (fold_left (Generators.grid_node grid_pos cols row) l (g, ids)).1 ∧
  GraphClass.edges
    (fold_left (Generators.grid_node grid_pos cols row) l (g, ids)).1 = [] ∧
  GraphClass.nodeIdCounter
    (fold_left (Generators.grid_node grid_pos cols row) l (g, ids)).1
  = (GraphClass.nodeIdCounter g + length l)%nat ∧
  (fold_left (Generators.grid_node grid_pos cols row) l (g, ids)).2
  = ids ++ seq (GraphClass.nodeIdCounter g) (length l).
Proof.
  revert g ids. induction l as [|col l IH]; intros g ids Hb He;
    cbn [fold_left length].
  { cbn. rewrite app_nil_r. split_and!; try done; lia. }
  change (Generators.grid_node grid_pos cols row (g, ids) col)
    with ((GraphClass.addNode (grid_pos row col).1 (grid_pos row col).2
             (Some (pretty (row * cols + col)%nat)) g).2,
          ids ++ [GraphClass.nodeIdCounter g]).
  destruct (IH (GraphClass.addNode (grid_pos row col).1 (grid_pos row col).2
                  (Some (pretty (row * cols + col)%nat)) g).2
               (ids ++ [GraphClass.nodeIdCounter g]))
    as (H1 & H2 & H3 & H4); [by apply graph_built_addNode|done|].
  split_and!; [done|done| |].
  - rewrite H3. cbn. lia.
  - rewrite H4, <-app_assoc. done.
Qed.

Lemma grid_row_fold (l : list nat) (g : GraphClass.t C) idss :
  graph_built g → GraphClass.edges g = [] →
  graph_built (fold_left (Generators.grid_row grid_pos cols) l (g, idss)).1 ∧
  GraphClass.edges
    (fold_left (Generators.grid_row grid_pos cols) l (g, idss)).1 = [] ∧
  GraphClass.nodeIdCounter
    (fold_left (Generators.grid_row grid_pos cols) l (g, idss)).1
  = (GraphClass.nodeIdCounter g + length l * cols)%nat ∧
  (fold_left (Generators.grid_row grid_pos cols) l (g, idss)).2
  = idss ++ ((λ i, seq (GraphClass.nodeIdCounter g + i * cols) cols)
               <$> seq 0 (length l)).
Proof.
  revert g idss. induction l as [|row l IH]; intros g idss Hb He;
    cbn [fold_left length].
  { cbn. rewrite app_nil_r. split_and!; try done; lia. }
  change (Generators.grid_row grid_pos cols (g, idss) row)
    with ((fold_left (Generators.grid_node grid_pos cols row) (seq 0 cols)
             (g, [])).1,
          idss ++ [(fold_left (Generators.grid_node grid_pos cols row)
                      (seq 0 cols) (g, [])).2]).
  destruct (grid_node_fold row (seq 0 cols) g [] Hb He)
    as (G1 & G2 & G3 & G4).
  rewrite length_seq in G3, G4. cbn [app] in G4.
  destruct (IH _ (idss ++ [(fold_left (Generators.grid_node grid_pos cols row)
                              (seq 0 cols) (g, [])).2]) G1 G2)
    as (H1 & H2 & H3 & H4).
  split_and!; [done|done| |].
  - rewrite H3, G3. lia.
  - rewrite H4, G3, G4, <-app_assoc. f_equal. cbn [app seq fmap list_fmap].
    rewrite Nat.mul_0_l, Nat.add_0_r. f_equal.
    rewrite <-fmap_S_seq, <-list_fmap_compose. apply list_fmap_ext.
    intros i j _. cbn. f_equal. lia.
Qed.

Lemma grid_nodes_built :
  graph_built (Generators.grid_nodes grid_pos rows cols).1 ∧
  GraphClass.edges (Generators.grid_nodes grid_pos rows cols).1 = [] ∧
  GraphClass.nodeIdCounter (Generators.grid_nodes grid_pos rows cols).1
  = (rows * cols)%nat ∧
  ∀ row col, (row < rows)%nat → (col < cols)%nat →
    Generators.cell (Generators.grid_nodes grid_pos rows cols).2 row col
    = (row * cols + col)%nat.
Proof.
  unfold Generators.grid_nodes.
  destruct (grid_row_fold (seq 0 rows) GraphClass.empty [])
    as (H1 & H2 & H3 & H4); [apply graph_built_empty|done|].
  rewrite length_seq in H3, H4. split_and!; [done|done|by rewrite H3|].
  intros row col Hrow Hcol. rewrite H4. unfold Generators.cell.
  cbn [app GraphClass.empty GraphClass.nodeIdCounter].
  rewrite list_lookup_fmap, lookup_seq_lt by done. cbn.
  by rewrite lookup_seq_lt.
Qed.

Lemma grid_link_keeps (a b : nat) (st : GraphClass.t C * nat) :
  grid_inv rows cols st.1 →
  (a < rows * cols)%nat → (b < rows * cols)%nat → a ≠ b →
  grid_linked rows cols a b →
  grid_inv rows cols (Generators.grid_link random_below a b st).1 ∧
  has_link (Generators.grid_link random_below a b st).1 a b ∧
  ∀ x y, has_link st.1 x y →
         has_link (Generators.grid_link random_below a b st).1 x y.
Proof.
  destruct st as [g i]. cbn [fst snd]. intros (Hb & Hc & Hsym) Ha Hb' Hne Hl.
  unfold Generators.grid_link. cbn [fst snd].
  set (w := Z.of_nat (random_below i 10) + 1).
  assert (1 ≤ w ≤ 10) as Hw.
  { pose proof (random_below_range i 10). unfold w. lia. }
  assert (graph_built (GraphClass.addEdge a b w g)) as Hb1.
  { apply graph_built_addEdge; [done|lia|lia|lia]. }
  assert (graph_built (GraphClass.addEdge b a w (GraphClass.addEdge a b w g)))
    as Hb2.
  { apply graph_built_addEdge; [done| | |lia]; rewrite addEdge_counter; lia. }
  pose proof (gc_pairs _ (proj1 Hb)) as Hnd.
  pose proof (gc_pairs _ (proj1 Hb1)) as Hnd1.
  assert (∀ e, e ∈ GraphClass.edges
                     (GraphClass.addEdge b a w (GraphClass.addEdge a b w g))
    ↔ (e ∈ GraphClass.edges g ∧
       (GraphClass.from e, GraphClass.to e) ≠ (a, b) ∧
       (GraphClass.from e, GraphClass.to e) ≠ (b, a))
      ∨ e = GraphClass.mkEdge a b w ∨ e = GraphClass.mkEdge b a w) as Hchar.
  { intros e. rewrite (addEdge_edges _ b a w e Hnd1).
    rewrite (addEdge_edges _ a b w e Hnd). split.
    - intros [[[[Hin H1]| ->] H2]| ->]; [left|right; left|right; right]; done.
    - intros [(Hin & H1 & H2)|[->| ->]]; [left; split; [left|]|left|right];
        try done.
      split; [by right|]. cbn. intros [= ? ?]. done. }
  split_and!.
  - split; [done|]. split; [by rewrite !addEdge_counter|].
    intros x y z [(Hin & H1 & H2)|[Heq|Heq]]%Hchar; cbn in *.
    + destruct (Hsym x y z Hin) as (Hrev & Hz & Hxy). split; [|by split].
      apply Hchar. left. cbn. split_and!; [done| |]; intros [= ? ?];
        subst; done.
    + injection Heq as -> -> ->. split; [|by split; [|left]].
      apply Hchar. by right; right.
    + injection Heq as -> -> ->. split; [|by split; [|right]].
      apply Hchar. by right; left.
  - exists w. split; apply Hchar; [by right; left|by right; right].
  - intros x y (z & Hxy & Hyx).
    destruct (decide ((x, y) = (a, b))) as [[= -> ->]|H1].
    { exists w. split; apply Hchar; [by right; left|by right; right]. }
    destruct (decide ((x, y) = (b, a))) as [[= -> ->]|H2].
    { exists w. split; apply Hchar; [by right; right|by right; left]. }
    exists z. split; apply Hchar; left; cbn; split_and!; try done;
      intros [= ? ?]; subst; done.
Qed.

Lemma grid_edges_of_keeps nodeIds row col (st : GraphClass.t C * nat) :
  (∀ r c, (r < rows)%nat → (c < cols)%nat →
     Generators.cell nodeIds r c = (r * cols + c)%nat) →
  (row < rows)%nat → (col < cols)%nat →
  grid_inv rows cols st.1 →
  grid_inv rows cols
    (Generators.grid_edges_of random_below rows cols nodeIds row st col).1 ∧
  (∀ x y, has_link st.1 x y →
     has_link
       (Generators.grid_edges_of random_below rows cols nodeIds row st col).1
       x y) ∧
  cell_linked rows cols row col
    (Generators.grid_edges_of random_below rows cols nodeIds row st col).1.
Proof.
  intros Hcell Hrow Hcol Hinv. unfold Generators.grid_edges_of.
  rewrite (Hcell row col) by done.
  set (cur := (row * cols + col)%nat).
  assert (cur < rows * cols)%nat as Hcur by (unfold cur; nia).
  set (st1 := if (col <? cols - 1)%nat then _ else st).
  assert (grid_inv rows cols st1.1 ∧
          (∀ x y, has_link st.1 x y → has_link st1.1 x y) ∧
          ((col + 1 < cols)%nat → has_link st1.1 cur (cur + 1))) as
    (Hinv1 & Hmono1 & Hright).
  { unfold st1. destruct (Nat.ltb_spec col (cols - 1)) as [Hlt|Hge].
    - rewrite (Hcell row (col + 1)%nat) by lia.
      destruct (grid_link_keeps cur (row * cols + (col + 1)) st Hinv)
        as (H1 & H2 & H3); [done|nia|lia| |].
      { exists row, col. split_and!; [done|done|done|]. left. unfold cur. lia. }
      split_and!; [done|done|]. intros _.
      by replace (cur + 1)%nat with (row * cols + (col + 1))%nat
        by (unfold cur; lia).
    - split_and!; [done|done|lia]. }
  destruct (Nat.ltb_spec row (rows - 1)) as [Hlt|Hge].
  - rewrite (Hcell (row + 1)%nat col) by lia.
    destruct (grid_link_keeps cur ((row + 1) * cols + col) st1 Hinv1)
      as (H1 & H2 & H3); [done|nia|nia| |].
    { exists row, col. split_and!; [done|done|done|]. right. unfold cur. lia. }
    split_and!; [done|by intros x y ?%Hmono1%H3|]. split.
    + intros Hc. by apply H3, Hright.
    + intros _. fold cur.
      by replace (cur + cols)%nat with ((row + 1) * cols + col)%nat
        by (unfold cur; lia).
  - split_and!; [done|done|]. split; [done|lia].
Qed.
End GridGraph.
(** X23: [generateGridGraph(rows, cols)] builds a graph the solvers can
    take, with the [rows * cols] vertices [0 .. rows*cols-1] numbered row
    by row.  Every edge has its reverse, of the same weight; the weight is
    between [1] and [10]; an edge joins a cell and its right or lower
    neighbour, and every such pair of cells is joined.  This holds
    whatever [Math.random] returns, as long as
    [Math.floor(Math.random() * m)] is at most [m - 1]. *)
Theorem generateGridGraph_well_formed {C : Type}
    (random_below : nat → nat → nat) (grid_pos : nat → nat → C * C)
    (rows cols : nat) :
  (∀ i m, (random_below i m ≤ m - 1)%nat) →
  let g := GraphClass.toGraph
             (Generators.generateGridGraph random_below grid_pos rows cols) in
  wf_graph g ∧ length (nodes g) = (rows * cols)%nat ∧
  (∀ u v w, (v, w) ∈ neighbors g u →
     (u, w) ∈ neighbors g v ∧ 1 ≤ w ≤ 10 ∧
     (grid_linked rows cols u v ∨ grid_linked rows cols v u)) ∧
  (∀ u v, grid_linked rows cols u v →
     ∃ w, (v, w) ∈ neighbors g u ∧ (u, w) ∈ neighbors g v).
Proof.
  intros Hrange g.
  destruct (grid_nodes_built grid_pos rows cols) as (Hb0 & He0 & Hc0 & Hcell).
  set (R := λ st st' : GraphClass.t C * nat,
              ∀ x y, has_link st.1 x y → has_link st'.1 x y).
  assert (∀ row col (a b : GraphClass.t C * nat),
            R a b → cell_linked rows cols row col a.1 →
            cell_linked rows cols row col b.1) as Hmono.
  { intros row col a b HR [H1 H2]. split; intros Hlt; apply HR; auto. }
  destruct (fold_left_establish
    (λ st row,
       fold_left
         (Generators.grid_edges_of random_below rows cols
            (Generators.grid_nodes grid_pos rows cols).2 row)
         (seq 0 cols) st)
    (λ st, grid_inv rows cols st.1) R
    (λ row st, ∀ col, (col < cols)%nat → cell_linked rows cols row col st.1)
    (seq 0 rows) ((Generators.grid_nodes grid_pos rows cols).1, 0%nat))
    as (Hinv & _ & Hlinks).
  { by intros a x y. }
  { intros a b c Hab Hbc x y Hxy. by apply Hbc, Hab. }
  { intros row a b HR Ha col Hcol. apply (Hmono row col a b HR). by apply Ha. }
  { intros acc row Hrow%elem_of_seq Hacc.
    destruct (fold_left_establish
      (Generators.grid_edges_of random_below rows cols
         (Generators.grid_nodes grid_pos rows cols).2 row)
      (λ st, grid_inv rows cols st.1) R
      (λ col st, cell_linked rows cols row col st.1)
      (seq 0 cols) acc) as (H1 & H2 & H3).
    - by intros a x y.
    - intros a b c Hab Hbc x y Hxy. by apply Hbc, Hab.
    - intros col a b. apply (Hmono row col a b).
    - intros st col Hcol%elem_of_seq Hst.
      destruct (grid_edges_of_keeps random_below Hrange rows cols
                  (Generators.grid_nodes grid_pos rows cols).2 row col st)
        as (? & ? & ?); [done|lia|lia|done|done].
    - done.
    - split_and!; [done|done|]. intros col Hcol. apply H3.
      apply elem_of_seq. lia. }
  { cbn [fst]. split; [done|]. split; [done|]. rewrite He0.
    intros a b w Hin. by apply elem_of_nil in Hin. }
  change (fold_left _ (seq 0 rows) _).1
    with (Generators.generateGridGraph random_below grid_pos rows cols)
    in Hinv, Hlinks.
  set (G := Generators.generateGridGraph random_below grid_pos rows cols) in *.
  destruct Hinv as (Hb & Hc & Hsym).
  destruct (graph_built_wf G Hb) as [Hwf Hn]. fold g in Hwf, Hn.
  split_and!; [done|by rewrite Hn| |].
  - intros u v w Hin. apply (graph_built_neighbors G u v w Hb) in Hin.
    destruct (Hsym u v w Hin) as (Hrev & Hw & Hl). split; [|done].
    by apply (graph_built_neighbors G v u w Hb).
  - intros u v (row & col & Hrow & Hcol & -> & Hcase).
    destruct (Hlinks row) with (col:=col) as [Hright Hdown];
      [apply elem_of_seq; lia|done|].
    assert (has_link G (row * cols + col) v) as (w & H1 & H2).
    { destruct Hcase as [[Hlt ->]|[Hlt ->]]; [by apply Hright|by apply Hdown]. }
    exists w. split; by apply (graph_built_neighbors G _ _ w Hb).
Qed.

Lemma generateGridGraph_well_formed_witness :
  let g := GraphClass.toGraph
             (Generators.generateGridGraph
                (λ i m, match m with O => O | S _ => ((i * 7 + 3) mod m)%nat end)
                (λ row col, (Z.of_nat col, Z.of_nat row)) 2 3) in
  wf_graph g ∧ length (nodes g) = (2 * 3)%nat ∧
  (∀ u v w, (v, w) ∈ neighbors g u →
     (u, w) ∈ neighbors g v ∧ 1 ≤ w ≤ 10 ∧
     (grid_linked 2 3 u v ∨ grid_linked 2 3 v u)) ∧
  (∀ u v, grid_linked 2 3 u v →
     ∃ w, (v, w) ∈ neighbors g u ∧ (u, w) ∈ neighbors g v).
Proof.
  apply (generateGridGraph_well_formed
           (λ i m, match m with O => O | S _ => ((i * 7 + 3) mod m)%nat end)
           (λ row col, (Z.of_nat col, Z.of_nat row)) 2 3).
  intros i [|m]; cbn beta iota; [lia|].
  pose proof (Nat.mod_upper_bound (i * 7 + 3) (S m)). lia.
Defined.

(** ** Dijkstra.ts: the [predecessors] of a full run *)

(** X24: on a well-formed graph and for a source of the graph, the
    [predecessors] map that [dijkstra] returns when it is given no
    destination is a tree of shortest paths.  The source and every vertex
    that no path reaches have predecessor [-1]; any other vertex [v] has
    as predecessor a vertex [u] with an edge [u → v] whose weight added to
    the distance of [u] gives the distance of [v]. *)
Theorem dijkstra_predecessors (g : Graph) (source : nat) (fuel : nat) :
  wf_graph g → (source < length (nodes g))%nat →
  (length (nodes g) ≤ fuel)%nat →
  ∃ r,
    Dijkstra.dijkstra g fuel source None = Some r ∧
    NewSSSP.predecessors r !! source = Some (-1) ∧
    ∀ v, (v < length (nodes g))%nat → v ≠ source →
      ((∀ l, ¬ path_len g source v l) →
       NewSSSP.predecessors r !! v = Some (-1)) ∧
      ((∃ l, path_len g source v l) →
       ∃ u w zu,
         NewSSSP.predecessors r !! v = Some (Z.of_nat u) ∧
         (v, w) ∈ neighbors g u ∧
         NewSSSP.distances r !! u = Some (Fin zu) ∧
         NewSSSP.distances r !! v = Some (Fin (zu + w))).
Proof.
  intros Hwf Hs Hfuel. unfold Dijkstra.dijkstra.
  destruct (dijkstra_loop_dest g source Hwf Hs None fuel
              (Dijkstra.init g source) [])
    as (st & order & Hrun & Htab & Hreal & Htree & Hfin & Hend).
  { by apply dijkstra_init_inv. }
  { by apply dijkstra_init_tree. }
  { unfold count_open. etransitivity; [apply length_filter|].
    rewrite length_seq. lia. }
  destruct Hend as [[Hinv Hempty]|(d & [=] & _)].
  pose proof (dijkstra_inv_final g source Hwf Hs st Hinv Hempty) as Hst.
  assert (∀ v, (v < length (nodes g))%nat →
            (∀ x, rd (Dijkstra.dist st) v ≠ Fin x) →
            Dijkstra.pred st !! v = Some (-1)) as Hnone.
  { apply (dijkstra_loop_keeps g
      (λ st', ∀ v, (v < length (nodes g))%nat →
                (∀ x, rd (Dijkstra.dist st') v ≠ Fin x) →
                Dijkstra.pred st' !! v = Some (-1)))
      with (fuel:=fuel) (dest:=@None nat) (st:=Dijkstra.init g source);
      [| | |exact Hrun].
    - intros st0 vis h H0. exact H0.
    - intros st0 u e H0 v Hv Hinf. unfold Dijkstra.relax_edge in *.
      destruct (num_lt _ _) eqn:Hlt; [|by apply H0].
      assert ((∀ x, rd (<[e.1:=num_add (rd (Dijkstra.dist st0) u) e.2]>
                          (Dijkstra.dist st0)) v ≠ Fin x) →
              <[e.1:=Z.of_nat u]> (Dijkstra.pred st0) !! v = Some (-1))
        as Hstep.
      { intros Hinf'. destruct (decide (v = e.1)) as [->|Hne].
        - exfalso. rewrite rd_insert_eq in Hinf'.
          destruct (rd (Dijkstra.dist st0) u) as [zu| |]; [|done|done].
          by apply (Hinf' (zu + e.2)).
        - rewrite lookup_insert_ne by done. apply H0; [done|].
          intros x. specialize (Hinf' x). by rewrite rd_insert_ne in Hinf'. }
      destruct (MinHeap.contains e.1 (Dijkstra.heap st0));
        [|destruct (negb (rdb (Dijkstra.visited st0) e.1))];
        cbn [Dijkstra.dist Dijkstra.pred] in *; by apply Hstep.
    - intros v Hv _. cbn [Dijkstra.init Dijkstra.pred].
      apply elem_of_list_to_map_1.
      + rewrite <-list_fmap_compose. cbn. rewrite list_fmap_id.
        rewrite (proj1 Hwf). apply NoDup_seq.
      + apply list_elem_of_fmap. exists v. split; [done|].
        rewrite (proj1 Hwf). apply elem_of_seq. lia. }
  rewrite Hrun. eexists. split; [done|].
  cbn [NewSSSP.predecessors NewSSSP.distances].
  destruct Htree as (_ & _ & Hps & Hds & Htree). split; [done|].
  intros v Hv Hne. destruct (Hst v Hv) as (Hdist & Hreal' & Hmin). split.
  - intros Hno. apply Hnone; [done|]. intros x Hx. apply (Hno x).
    by apply Hreal'.
  - intros [l Hl]. destruct (Hmin l Hl) as (x & Hx & _).
    destruct (Htree v x Hne Hx) as (u & w & zu & i & Hp & Hin & Hu & -> & _).
    exists u, w, zu. split_and!; [done|done| |].
    + rewrite <-Hu. apply rd_is_dist. by rewrite Hu.
    + rewrite <-Hx. apply rd_is_dist. by rewrite Hx.
Qed.

Lemma dijkstra_predecessors_witness :
  ∃ r, Dijkstra.dijkstra createExampleGraph 10 0 None = Some r ∧
       NewSSSP.predecessors r !! 0%nat = Some (-1).
Proof.
  destruct (dijkstra_predecessors createExampleGraph 0 10)
    as (r & Hrun & Hsrc & _).
  - apply wf_check_sound. by vm_compute.
  - vm_compute. lia.
  - vm_compute. lia.
  - exists r. split; [exact Hrun|exact Hsrc].
Defined.
